(** * Piecewise polynomial functions over the real line

    A shallow embedding of [sage/geometry/piecewise.py] (class
    [PiecewiseFunction]) and of its sibling
    [sage/geometry/piecewise_polynomial.py]: the scan-line partitioner
    [finest_partitions], the endpoint table of [_init_end_points], the
    queries [which_pair], [limits], [is_continuous], the evaluation
    [__call__] and the algebraic operators.

    Python tuples are compared lexicographically; the embedding keeps the
    tuples of the source and compares them through the class [Ord] below. *)

From Stdlib Require Import String ZArith List Bool Lia Permutation.
Import ListNotations.
Open Scope Z_scope.

Set Implicit Arguments.

(** ** Total orders with a three-way comparison

    The end points of intervals live in any totally ordered type; the
    extended real line (with [-oo] and [+oo] as least and greatest
    elements) is one instance, the integers another. *)

Class Ord (A : Type) : Type := {
  cmp : A -> A -> comparison;
  cmp_eq : forall x y, cmp x y = Eq -> x = y;
  cmp_refl : forall x, cmp x x = Eq;
  cmp_antisym : forall x y, cmp y x = CompOpp (cmp x y);
  cmp_trans : forall x y z, cmp x y = Lt -> cmp y z = Lt -> cmp x z = Lt
}.

#[global] Arguments cmp : simpl never.

Definition ltb {A} `{Ord A} (x y : A) : bool :=
  match cmp x y with Lt => true | _ => false end.
Definition gtb {A} `{Ord A} (x y : A) : bool :=
  match cmp x y with Gt => true | _ => false end.
Definition leb {A} `{Ord A} (x y : A) : bool :=
  match cmp x y with Gt => false | _ => true end.
Definition eqb {A} `{Ord A} (x y : A) : bool :=
  match cmp x y with Eq => true | _ => false end.

#[export, refine] Instance Ord_Z : Ord Z := {| cmp := Z.compare |}.
Proof.
  - intros x y; apply Z.compare_eq.
  - apply Z.compare_refl.
  - intros x y; apply Z.compare_antisym.
  - intros x y z; rewrite !Z.compare_lt_iff; lia.
Defined.

#[export, refine] Instance Ord_nat : Ord nat := {| cmp := Nat.compare |}.
Proof.
  - intros x y; apply Nat.compare_eq.
  - apply Nat.compare_refl.
  - intros x y; apply Nat.compare_antisym.
  - intros x y z; rewrite !Nat.compare_lt_iff; lia.
Defined.

(** Python compares tuples component by component, left to right. *)
Definition cmp_pair {A B} `{Ord A} `{Ord B} (p q : A * B) : comparison :=
  match cmp (fst p) (fst q) with
  | Eq => cmp (snd p) (snd q)
  | c => c
  end.

#[export, refine] Instance Ord_pair {A B} `{Ord A} `{Ord B} : Ord (A * B) :=
  {| cmp := cmp_pair |}.
Proof.
  - intros [a b] [a' b']; unfold cmp_pair; simpl.
    destruct (cmp a a') eqn:E; try discriminate.
    intros E'. apply cmp_eq in E, E'. congruence.
  - intros [a b]; unfold cmp_pair; simpl. now rewrite !cmp_refl.
  - intros [a b] [a' b']; unfold cmp_pair; simpl.
    rewrite (cmp_antisym a a'), (cmp_antisym b b').
    destruct (cmp a a'); reflexivity.
  - intros [a b] [a' b'] [a'' b'']; unfold cmp_pair; simpl.
    destruct (cmp a a') eqn:E1; try discriminate;
      destruct (cmp a' a'') eqn:E2; try discriminate; intros H1 H2.
    + apply cmp_eq in E1, E2. subst. rewrite cmp_refl. eapply cmp_trans; eauto.
    + apply cmp_eq in E1. subst. now rewrite E2.
    + apply cmp_eq in E2. subst. now rewrite E1.
    + now rewrite (cmp_trans _ _ _ E1 E2).
Defined.

(** * Part I: the embedding *)

(** ** Intervals and real sets

    [InternalRealInterval] carries the four fields the source reads:
    [_lower], [_lower_closed], [_upper], [_upper_closed].  A [RealSet] is
    the list of its component intervals, as iterating over it yields
    them. *)

(** A scan position [(x, epsilon)]: [epsilon = 0] lies just before the
    point [x], [epsilon = 1] just after it.  Events are the tuples
    [(((x, epsilon), delta), i)] that [_iterator] yields. *)
Abbreviation position X := (X * Z)%type (only parsing).
Abbreviation event X := (((X * Z) * Z) * nat)%type (only parsing).

Section Intervals.
Context {X : Type} `{Ord X}.

Record InternalRealInterval : Type := mkInterval {
  _lower : X;
  _lower_closed : bool;
  _upper : X;
  _upper_closed : bool
}.

Definition RealSet : Type := list InternalRealInterval.

(** [x in interval] *)
Definition interval_contains (iv : InternalRealInterval) (x : X) : bool :=
  (if _lower_closed iv then leb (_lower iv) x else ltb (_lower iv) x) &&
  (if _upper_closed iv then leb x (_upper iv) else ltb x (_upper iv)).

(** [x in realset] *)
Definition contains (D : RealSet) (x : X) : bool :=
  existsb (fun iv => interval_contains iv x) D.

(** [interval.is_point()] *)
Definition is_point (iv : InternalRealInterval) : bool :=
  eqb (_lower iv) (_upper iv).

(** [realset.is_empty()] *)
Definition is_empty (D : RealSet) : bool :=
  match D with [] => true | _ => false end.

Definition lower_pos (iv : InternalRealInterval) : position X :=
  (_lower iv, 1 - Z.b2z (_lower_closed iv)).
Definition upper_pos (iv : InternalRealInterval) : position X :=
  (_upper iv, Z.b2z (_upper_closed iv)).

Definition _iterator (realset : RealSet) (i : nat) : list (event X) :=
  flat_map (fun interval =>
              [ ((lower_pos interval, 1), i);
                ((upper_pos interval, -1), i) ]) realset.

(** [heapq.merge]: the smallest head first, the earlier stream on ties. *)
Fixpoint merge2 {E} `{Ord E} (l1 : list E) : list E -> list E :=
  match l1 with
  | [] => fun l2 => l2
  | a :: l1' =>
      fix inner (l2 : list E) : list E :=
        match l2 with
        | [] => l1
        | b :: l2' =>
            if gtb a b then b :: inner l2' else a :: merge2 l1' l2
        end
  end.

Definition merge {E} `{Ord E} (streams : list (list E)) : list E :=
  fold_right merge2 [] streams.

(** [enumerate] *)
Fixpoint enumerate_from {T} (n : nat) (l : list T) : list (nat * T) :=
  match l with
  | [] => []
  | a :: l' => (n, a) :: enumerate_from (S n) l'
  end.
Definition enumerate {T} (l : list T) : list (nat * T) := enumerate_from 0 l.

(** [sum] of a list of integers *)
Fixpoint zsum (l : list Z) : Z :=
  match l with
  | [] => 0
  | a :: l' => a + zsum l'
  end.

(** [indicator[set_id] += delta] *)
Fixpoint add_at (i : nat) (d : Z) (l : list Z) : list Z :=
  match l, i with
  | [], _ => []
  | a :: l', O => (a + d) :: l'
  | a :: l', S i' => a :: add_at i' d l'
  end.

(** The local variables of the loop of [finest_partitions]. *)
Record sweep_state : Type := mkSweep {
  indicator : list Z;
  indicator_sum : Z;
  prev_event : option (position X * Z)
}.

(** One turn of the loop: what is yielded, and the next state. *)
Definition sweep_step (st : sweep_state) (ev : event X)
  : list (RealSet * list Z) * sweep_state :=
  let '(event, set_id) := ev in
  let '((x, epsilon), delta) := event in
  let yielded :=
    match prev_event st with
    | Some pe =>
        if gtb event pe then
          let '((x_, epsilon_), _) := pe in
          [ ([mkInterval x_ (epsilon_ =? 0) x (epsilon =? 1)], indicator st) ]
        else []
    | None => []
    end in
  let indicator' := add_at set_id delta (indicator st) in
  let indicator_sum' := indicator_sum st + delta in
  let prev_event' :=
    if indicator_sum' =? 0 then None else Some ((x, epsilon), 1) in
  (yielded, mkSweep indicator' indicator_sum' prev_event').

Fixpoint sweep (st : sweep_state) (scan : list (event X))
  : list (RealSet * list Z) :=
  match scan with
  | [] => []
  | ev :: scan' =>
      let '(yielded, st') := sweep_step st ev in
      yielded ++ sweep st' scan'
  end.

Definition finest_partitions (real_set_collection : list RealSet)
  : list (RealSet * list Z) :=
  let scan := map (fun '(i, real_set) => _iterator real_set i)
                  (enumerate real_set_collection) in
  let indicator := repeat 0 (length scan) in
  sweep (mkSweep indicator 0 None) (merge scan).

(** *** The interval-set service

    [sage.sets.real_set] is not among the sources; what the piecewise
    code consumes from it is modelled here. *)

(** Modelled from the spec: the normal form of a [RealSet] (section 2,
    "ordered half-open/closed interval primitives"): every component is
    non-empty, and the components are sorted, disjoint and not adjacent. *)
Definition interval_ok (iv : InternalRealInterval) : bool :=
  ltb (lower_pos iv) (upper_pos iv).

Fixpoint normalized (D : RealSet) : bool :=
  match D with
  | [] => true
  | i1 :: D' =>
      interval_ok i1 &&
      match D' with
      | [] => true
      | i2 :: _ => ltb (upper_pos i1) (lower_pos i2)
      end && normalized D'
  end.

(** Modelled from the spec: [RealSet._scan], "a canonical per-interval
    iteration yielding (lower, lower_closed, upper, upper_closed)"
    (section 6); [delta] is negative at a lower boundary, as the comment
    "this delta is from RealSet._scan()" and the doctest of
    [_init_end_points] in [piecewise_polynomial.py] require. *)
Definition _scan (D : RealSet) : list (position X * Z) :=
  flat_map (fun iv =>
              [ ((_lower iv, if _lower_closed iv then 0 else 1), -1);
                ((_upper iv, if _upper_closed iv then 1 else 0), 1) ]) D.

(** Modelled from the spec: equality of real sets ([==] and [!=]). *)
Definition interval_eqb (a b : InternalRealInterval) : bool :=
  eqb (_lower a) (_lower b) && Bool.eqb (_lower_closed a) (_lower_closed b) &&
  eqb (_upper a) (_upper b) && Bool.eqb (_upper_closed a) (_upper_closed b).

Fixpoint realset_eqb (D1 D2 : RealSet) : bool :=
  match D1, D2 with
  | [], [] => true
  | a :: D1', b :: D2' => interval_eqb a b && realset_eqb D1' D2'
  | _, _ => false
  end.

(** Modelled from the spec: union of real sets ([union],
    [union_of_realsets]), kept in normal form: an interval is inserted at
    its place and merged with the components it overlaps or touches. *)
Definition hull (a b : InternalRealInterval) : InternalRealInterval :=
  let lo := if ltb (lower_pos b) (lower_pos a) then b else a in
  let hi := if ltb (upper_pos a) (upper_pos b) then b else a in
  mkInterval (_lower lo) (_lower_closed lo) (_upper hi) (_upper_closed hi).

Fixpoint insert_interval (iv : InternalRealInterval) (D : RealSet) : RealSet :=
  match D with
  | [] => [iv]
  | j :: D' =>
      if ltb (upper_pos iv) (lower_pos j) then iv :: j :: D'
      else if ltb (upper_pos j) (lower_pos iv) then j :: insert_interval iv D'
      else insert_interval (hull iv j) D'
  end.

Definition union (D1 D2 : RealSet) : RealSet :=
  fold_left (fun acc iv => insert_interval iv acc) D2 D1.

Definition union_of_realsets (Ds : list RealSet) : RealSet :=
  fold_left union Ds [].

(** Modelled from the spec: the pairwise-disjointness test
    ([are_pairwise_disjoint]): no component of one set overlaps a
    component of another. *)
Definition overlap (a b : InternalRealInterval) : bool :=
  ltb (lower_pos a) (upper_pos b) && ltb (lower_pos b) (upper_pos a).

Definition disjoint (D1 D2 : RealSet) : bool :=
  forallb (fun a => forallb (fun b => negb (overlap a b)) D2) D1.

Fixpoint are_pairwise_disjoint (Ds : list RealSet) : bool :=
  match Ds with
  | [] => true
  | D :: Ds' => forallb (disjoint D) Ds' && are_pairwise_disjoint Ds'
  end.

(** The number of components of [D] that contain [x]. *)
Definition coverage (D : RealSet) (x : X) : Z :=
  Z.of_nat (length (filter (fun iv => interval_contains iv x) D)).

End Intervals.

Arguments InternalRealInterval X : clear implicits.
Arguments RealSet X : clear implicits.
Arguments sweep_state X : clear implicits.

(** ** The function service

    The pieces are polynomials of Sage ([sage.rings.polynomial]), which
    the piecewise code only evaluates and combines.  [F] is the type of
    polynomials (of every polynomial ring), [X] the numbers: end points
    of intervals and values.  [fconst c f] is the number [c] coerced into
    the ring of [f], as Sage does before a mixed operation such as
    [0 + f]. *)

Class FunctionService (X F : Type) : Type := {
  xofZ : Z -> X;
  fvar : F -> string;
  feval : F -> X -> X;
  fadd : F -> F -> F;
  fmul : F -> F -> F;
  fneg : F -> F;
  fpow : F -> nat -> F;
  fconst : X -> F -> F;
  feqb : F -> F -> bool;
  feqb_eq : forall f g, feqb f g = true <-> f = g
}.

(** ** Errors, messages and results *)

(** The [ValueError]s of the source, by the names of section 7 of the
    spec, and the errors Python itself raises. *)
Inductive error : Type :=
| InvalidDomain
| InvalidFunc
| InconsistentFunctionType
| InconsistentVariable
| OverlappingDomains
| InvalidArity
| DomainMismatch
| AttributeError
| TypeError
| IndexError.

Inductive result (A : Type) : Type :=
| Ok (a : A)
| Raise (e : error).
Arguments Ok {A} a.
Arguments Raise {A} e.

(** What the source prints. *)
Inductive message (X : Type) : Type :=
| InvalidVariables (v1 v2 : option string)
| MoreThanOneInput (v : string) (val : X)
| NotInAnyDomain (v : string) (val : X)
| X0NotInDomain.
Arguments InvalidVariables {X} v1 v2.
Arguments MoreThanOneInput {X} v val.
Arguments NotInAnyDomain {X} v val.
Arguments X0NotInDomain {X}.

Section Piecewise.
Context {X : Type} `{Ord X} {F : Type} `{FunctionService X F}.

(** The second component of a piece: a Python integer (the [0] or [1] a
    combination starts from) or a polynomial. *)
Inductive pyval : Type :=
| PyInt (n : Z)
| PyPoly (f : F).

(** [a + b] and [a * b] *)
Definition py_add (a b : pyval) : pyval :=
  match a, b with
  | PyInt m, PyInt n => PyInt (m + n)
  | PyInt m, PyPoly g => PyPoly (fadd (fconst (xofZ m) g) g)
  | PyPoly f, PyInt n => PyPoly (fadd f (fconst (xofZ n) f))
  | PyPoly f, PyPoly g => PyPoly (fadd f g)
  end.

Definition py_mul (a b : pyval) : pyval :=
  match a, b with
  | PyInt m, PyInt n => PyInt (m * n)
  | PyInt m, PyPoly g => PyPoly (fmul (fconst (xofZ m) g) g)
  | PyPoly f, PyInt n => PyPoly (fmul f (fconst (xofZ n) f))
  | PyPoly f, PyPoly g => PyPoly (fmul f g)
  end.

Record PiecewiseFunction : Type := mkPiecewise {
  domain_list : list (RealSet X);
  func_list : list F;
  var : option string;
  support : RealSet X
}.

(** *** [__init__] *)

(** The attributes and the dictionary [p] while the pieces are read. *)
Record init_state : Type := mkInit {
  i_domain_list : list (RealSet X);
  i_func_list : list F;
  i_var : option string;
  i_p : list (F * nat)
}.

(** [func in p] and [p[func]] *)
Fixpoint dict_get (p : list (F * nat)) (func : F) : option nat :=
  match p with
  | [] => None
  | (k, i) :: p' => if feqb k func then Some i else dict_get p' func
  end.

(** [l[i] = v] *)
Fixpoint set_nth {T} (i : nat) (v : T) (l : list T) : list T :=
  match l, i with
  | [], _ => []
  | _ :: l', O => v :: l'
  | a :: l', S i' => a :: set_nth i' v l'
  end.

(** [value + 0*func] *)
Definition constant_of (value : X) (func : F) : F :=
  let zero_func := fmul (fconst (xofZ 0) func) func in
  fadd (fconst value zero_func) zero_func.

(** The body of [for interval in domain] at a point interval. *)
Definition init_point (func : F) (st : init_state)
  (interval : InternalRealInterval X) : init_state :=
  let value := feval func (_lower interval) in
  let func_ := constant_of value func in
  match dict_get (i_p st) func_ with
  | Some i =>
      mkInit (set_nth i (union (nth i (i_domain_list st) []) [interval])
                      (i_domain_list st))
             (i_func_list st) (i_var st) (i_p st)
  | None =>
      mkInit (i_domain_list st ++ [[interval]])
             (i_func_list st ++ [func_])
             (i_var st)
             (i_p st ++ [(func_, length (i_domain_list st))])
  end.

(** [if non_point: ...] *)
Definition init_non_point (func : F) (st : init_state)
  (non_point : list (InternalRealInterval X)) : init_state :=
  match non_point with
  | [] => st
  | _ :: _ =>
      match dict_get (i_p st) func with
      | Some i =>
          mkInit (set_nth i
                    (union_of_realsets
                       (nth i (i_domain_list st) [] ::
                        map (fun iv => [iv]) non_point))
                    (i_domain_list st))
                 (i_func_list st) (i_var st) (i_p st)
      | None =>
          mkInit (i_domain_list st ++
                    [union_of_realsets (map (fun iv => [iv]) non_point)])
                 (i_func_list st ++ [func])
                 (i_var st)
                 (i_p st ++ [(func, length (i_domain_list st))])
      end
  end.

(** One piece [(domain, func)].  The domain is a [RealSet] already (its
    coercion belongs to the interval-set service), and every polynomial
    has the one type [F]. *)
Definition init_piece (st : init_state) (piece : RealSet X * pyval)
  : result init_state :=
  let '(domain, func) := piece in
  if is_empty domain then Ok st
  else
    match func with
    | PyInt _ => Raise InvalidFunc
    | PyPoly func =>
        let checked :=
          match i_var st with
          | None => Ok (Some (fvar func))
          | Some v =>
              if String.eqb (fvar func) v then Ok (Some v)
              else Raise InconsistentVariable
          end in
        match checked with
        | Raise e => Raise e
        | Ok v =>
            let st1 :=
              mkInit (i_domain_list st) (i_func_list st) v (i_p st) in
            let st2 :=
              fold_left (fun s interval =>
                           if is_point interval
                           then init_point func s interval else s)
                        domain st1 in
            let non_point :=
              filter (fun interval => negb (is_point interval)) domain in
            Ok (init_non_point func st2 non_point)
        end
    end.

Fixpoint init_loop (st : init_state) (function_pieces : list (RealSet X * pyval))
  : result init_state :=
  match function_pieces with
  | [] => Ok st
  | piece :: rest =>
      match init_piece st piece with
      | Ok st' => init_loop st' rest
      | Raise e => Raise e
      end
  end.

Definition __init__ (function_pieces : list (RealSet X * pyval))
  : result PiecewiseFunction :=
  match init_loop (mkInit [] [] None []) function_pieces with
  | Raise e => Raise e
  | Ok st =>
      if negb (are_pairwise_disjoint (i_domain_list st))
      then Raise OverlappingDomains
      else Ok (mkPiecewise (i_domain_list st) (i_func_list st) (i_var st)
                           (union_of_realsets (i_domain_list st)))
  end.

(** [__iter__]: [zip(self.domain_list, self.func_list)] *)
Definition __iter__ (self : PiecewiseFunction) : list (RealSet X * F) :=
  combine (domain_list self) (func_list self).

Definition __len__ (self : PiecewiseFunction) : nat :=
  length (func_list self).

(** *** [__call__] *)

(** [str(self.var)] *)
Definition str_var (v : option string) : string :=
  match v with
  | Some s => s
  | None => "None"%string
  end.

(** [kwds[key]], with [key in kwds] *)
Fixpoint kwds_get (kwds : list (string * X)) (key : string) : option X :=
  match kwds with
  | [] => None
  | (k, v) :: kwds' => if String.eqb k key then Some v else kwds_get kwds' key
  end.

(** The scan of the pieces that ends [__call__]. *)
Definition evaluate (self : PiecewiseFunction) (val : X)
  : list (message X) * option X :=
  match find (fun '(dom, func) => contains dom val) (__iter__ self) with
  | Some (_, func) => ([], Some (feval func val))
  | None => ([NotInAnyDomain (str_var (var self)) val], None)
  end.

Definition __call__ (self : PiecewiseFunction)
  (args : list X) (kwds : list (string * X))
  : list (message X) * result (option X) :=
  match args with
  | [val] =>
      if (0 <? length kwds)%nat then ([], Raise InvalidArity)
      else let '(out, r) := evaluate self val in (out, Ok r)
  | [] =>
      match kwds_get kwds (str_var (var self)) with
      | Some val =>
          let warning :=
            if (1 <? length kwds)%nat
            then [MoreThanOneInput (str_var (var self)) val] else [] in
          let '(out, r) := evaluate self val in (warning ++ out, Ok r)
      | None => ([], Raise InvalidArity)
      end
  | _ :: _ :: _ => ([], Raise InvalidArity)
  end.

(** *** The combinators *)

(** [self.func_list[i] if i < n_self else other.func_list[i - n_self]] *)
Definition func_at (self other : PiecewiseFunction) (i : nat) : result F :=
  let n_self := length (domain_list self) in
  match (if (i <? n_self)%nat then nth_error (func_list self) i
         else nth_error (func_list other) (i - n_self)) with
  | Some f => Ok f
  | None => Raise IndexError
  end.

(** The inner loop [for i, ind in enumerate(inds)] of the general
    combinators, from the start value [start] with the operation [op]. *)
Definition combine_funcs (op : pyval -> pyval -> pyval) (start : pyval)
  (self other : PiecewiseFunction) (inds : list Z) : result pyval :=
  fold_left (fun acc '(i, ind) =>
               match acc with
               | Raise e => Raise e
               | Ok a =>
                   if 0 <? ind then
                     match func_at self other i with
                     | Ok f => Ok (op a (PyPoly f))
                     | Raise e => Raise e
                     end
                   else Ok a
               end)
            (enumerate inds) (Ok start).

(** The loop [for real_set, inds in p] that fills [result_pairs]. *)
Fixpoint combine_pairs (op : pyval -> pyval -> pyval) (start : pyval)
  (union : bool) (self other : PiecewiseFunction)
  (p : list (RealSet X * list Z)) : result (list (RealSet X * pyval)) :=
  match p with
  | [] => Ok []
  | (real_set, inds) :: p' =>
      if negb union && (zsum inds <? 2) then
        combine_pairs op start union self other p'
      else
        match combine_funcs op start self other inds with
        | Raise e => Raise e
        | Ok func =>
            match combine_pairs op start union self other p' with
            | Raise e => Raise e
            | Ok rest => Ok ((real_set, func) :: rest)
            end
        end
  end.

Definition piecewise_add_general (self other : PiecewiseFunction) (union : bool)
  : result PiecewiseFunction :=
  let p := finest_partitions (domain_list self ++ domain_list other) in
  match combine_pairs py_add (PyInt 0) union self other p with
  | Raise e => Raise e
  | Ok result_pairs => __init__ result_pairs
  end.

Definition piecewise_mul_general (self other : PiecewiseFunction) (union : bool)
  : result PiecewiseFunction :=
  let p := finest_partitions (domain_list self ++ domain_list other) in
  match combine_pairs py_mul (PyInt 1) union self other p with
  | Raise e => Raise e
  | Ok result_pairs => __init__ result_pairs
  end.

Definition piecewise_add (self other : PiecewiseFunction)
  : result PiecewiseFunction :=
  if negb (realset_eqb (support self) (support other))
  then Raise DomainMismatch
  else piecewise_add_general self other true.

Definition piecewise_mul (self other : PiecewiseFunction)
  : result PiecewiseFunction :=
  if negb (realset_eqb (support self) (support other))
  then Raise DomainMismatch
  else piecewise_mul_general self other true.

(** *** The operators *)

(** The right operand of an operator: a piecewise function or a number.
    A number has no attribute [var]. *)
Inductive operand : Type :=
| OPiecewise (q : PiecewiseFunction)
| ONumber (c : Z).

(** [self.var != other.var] *)
Definition var_eqb (v1 v2 : option string) : bool :=
  match v1, v2 with
  | None, None => true
  | Some a, Some b => String.eqb a b
  | _, _ => false
  end.

Definition lift {A} (r : result A) : result (option A) :=
  match r with
  | Ok a => Ok (Some a)
  | Raise e => Raise e
  end.

(** [__add__]; [None] is Python's [None].  The branch for an operand of
    another type comes after the test of [other.var] and is not reached
    by a number. *)
Definition __add__ (self : PiecewiseFunction) (other : operand)
  : list (message X) * result (option PiecewiseFunction) :=
  match other with
  | ONumber _ => ([], Raise AttributeError)
  | OPiecewise other =>
      if negb (var_eqb (var self) (var other))
      then ([InvalidVariables (var self) (var other)], Ok None)
      else ([], lift (piecewise_add self other))
  end.

Definition __mul__ (self : PiecewiseFunction) (other : operand)
  : list (message X) * result (option PiecewiseFunction) :=
  match other with
  | ONumber _ => ([], Raise AttributeError)
  | OPiecewise other =>
      if negb (var_eqb (var self) (var other))
      then ([InvalidVariables (var self) (var other)], Ok None)
      else ([], lift (piecewise_mul self other))
  end.

Definition __neg__ (self : PiecewiseFunction) : result PiecewiseFunction :=
  __init__ (map (fun '(dom, func) => (dom, PyPoly (fneg func))) (__iter__ self)).

(** [self.__add__(other.__neg__())] *)
Definition __sub__ (self : PiecewiseFunction) (other : operand)
  : list (message X) * result (option PiecewiseFunction) :=
  match other with
  | ONumber c => __add__ self (ONumber (- c))
  | OPiecewise other =>
      match __neg__ other with
      | Raise e => ([], Raise e)
      | Ok negated => __add__ self (OPiecewise negated)
      end
  end.

Definition __pow__ (self : PiecewiseFunction) (power : nat)
  : result PiecewiseFunction :=
  __init__ (map (fun '(dom, func) => (dom, PyPoly (fpow func power)))
                (__iter__ self)).

(** [any(func != 0 * self.func_list[0] for _, func in pieces)] *)
Fixpoint any_nonzero (self : PiecewiseFunction) (pieces : list (RealSet X * F))
  : result bool :=
  match pieces with
  | [] => Ok false
  | (_, func) :: pieces' =>
      match func_list self with
      | [] => Raise IndexError
      | f0 :: _ =>
          if negb (feqb func (fmul (fconst (xofZ 0) f0) f0)) then Ok true
          else any_nonzero self pieces'
      end
  end.

Definition __eq__ (self other : PiecewiseFunction) : result bool :=
  if negb (realset_eqb (support self) (support other)) then Ok false
  else if negb (var_eqb (var self) (var other)) then Ok false
  else
    match snd (__sub__ self (OPiecewise other)) with
    | Raise e => Raise e
    | Ok None => Raise TypeError
    | Ok (Some difference) =>
        match any_nonzero self (__iter__ difference) with
        | Raise e => Raise e
        | Ok b => Ok (negb b)
        end
    end.

(** *** The endpoint table *)

(** An entry [[value, [left, right]]] of [self._end_points]. *)
Definition entry : Type := (option X * (option X * option X))%type.

Fixpoint table_get (T : list (X * entry)) (x : X) : option entry :=
  match T with
  | [] => None
  | (k, e) :: T' => if eqb k x then Some e else table_get T' x
  end.

(** [T[x] = e]: in place for a key of [T], at the end for a new one. *)
Fixpoint table_set (T : list (X * entry)) (x : X) (e : entry) : list (X * entry) :=
  match T with
  | [] => [(x, e)]
  | (k, e') :: T' =>
      if eqb k x then (k, e) :: T' else (k, e') :: table_set T' x e
  end.

(** The body of the inner loop of [_init_end_points]. *)
Definition record_event (func : F) (T : list (X * entry))
  (ev : position X * Z) : list (X * entry) :=
  let '((x, epsilon), delta) := ev in
  let '(value, (left_limit, right_limit)) :=
    match table_get T x with
    | Some e => e
    | None => (None, (None, None))
    end in
  let func_val := feval func x in
  if delta <? 0 then
    table_set T x (if epsilon =? 0 then Some func_val else value,
                   (left_limit, Some func_val))
  else
    table_set T x (if epsilon =? 1 then Some func_val else value,
                   (Some func_val, right_limit)).

(** [_init_end_points]: the pair [(_end_points_list, _end_points)].  The
    queries below build the table when they need it; the embedding
    builds it at each query. *)
Definition _init_end_points (self : PiecewiseFunction)
  : list (event X) * list (X * entry) :=
  let _end_points_list :=
    merge (map (fun '(i, real_set) => _iterator real_set i)
               (enumerate (domain_list self))) in
  let _end_points :=
    fold_left (fun T '(dom, func) => fold_left (record_event func) (_scan dom) T)
              (__iter__ self) [] in
  (_end_points_list, _end_points).

(** *** The queries *)

(** [if val:] *)
Definition truthy (val : option X) : bool :=
  match val with
  | None => false
  | Some v => negb (eqb v (xofZ 0))
  end.

(** [limit is not None and limit != val] *)
Definition differs (limit val : option X) : bool :=
  match limit, val with
  | None, _ => false
  | Some l, Some v => negb (eqb l v)
  | Some _, None => true
  end.

Definition is_continuous (self : PiecewiseFunction) : bool :=
  let _end_points := snd (_init_end_points self) in
  negb (existsb (fun '(point, (val, (left_limit, right_limit))) =>
                   truthy val &&
                   (differs left_limit val || differs right_limit val))
                _end_points).

(** [bisect.bisect_left]: binary search for the first index whose element
    is not below [key]. *)
Fixpoint bisect_loop {E} `{Ord E} (fuel : nat) (a : list E) (key : E)
  (lo hi : nat) : nat :=
  match fuel with
  | O => lo
  | S fuel' =>
      if (lo <? hi)%nat then
        let mid := ((lo + hi) / 2)%nat in
        if ltb (nth mid a key) key
        then bisect_loop fuel' a key (mid + 1) hi
        else bisect_loop fuel' a key lo mid
      else lo
  end.

Definition bisect_left {E} `{Ord E} (a : list E) (key : E) : nat :=
  bisect_loop (S (length a)) a key 0 (length a).

Definition which_pair (self : PiecewiseFunction) (x0 : X)
  : list (message X) * result (option (RealSet X * F)) :=
  let _end_points_list := fst (_init_end_points self) in
  let idx := bisect_left _end_points_list (((x0, 1), -1), 0%nat) in
  if (idx <=? 0)%nat || (length _end_points_list <=? idx)%nat
  then ([X0NotInDomain], Ok None)
  else
    match nth_error _end_points_list idx with
    | None => ([], Raise IndexError)
    | Some (((x, epsilon), delta), func_idx) =>
        if delta <? 0 then
          match nth_error (domain_list self) func_idx,
                nth_error (func_list self) func_idx with
          | Some dom, Some func => ([], Ok (Some (dom, func)))
          | _, _ => ([], Raise IndexError)
          end
        else ([X0NotInDomain], Ok None)
    end.

Definition limits (self : PiecewiseFunction) (x0 : X)
  : list (message X) * result (option X * option X * option X) :=
  let _end_points := snd (_init_end_points self) in
  match table_get _end_points x0 with
  | Some (value, (in_1_0, in_1_1)) => ([], Ok (value, in_1_0, in_1_1))
  | None =>
      match which_pair self x0 with
      | (out, Raise e) => (out, Raise e)
      | (out, Ok (Some (_, func))) =>
          let func_val := feval func x0 in
          (out, Ok (Some func_val, Some func_val, Some func_val))
      | (out, Ok None) => (out, Ok (None, None, None))
      end
  end.

End Piecewise.

Arguments pyval F : clear implicits.
Arguments PiecewiseFunction X F : clear implicits.
Arguments init_state X F : clear implicits.
Arguments operand X F : clear implicits.
Arguments entry X : clear implicits.

(** ** The laws of the function service

    Polynomials in one variable over a commutative ring: what the
    algebra of piecewise functions relies on.  [xadd], [xmul], [xneg]
    and [xpow] are the operations of the numbers. *)

Class FunctionLaws (X F : Type) {S : FunctionService X F} : Type := {
  xadd : X -> X -> X;
  xmul : X -> X -> X;
  xneg : X -> X;
  xpow : X -> nat -> X;
  xadd_0_l : forall a, xadd (xofZ 0) a = a;
  xadd_0_r : forall a, xadd a (xofZ 0) = a;
  xadd_neg : forall a, xadd a (xneg a) = xofZ 0;
  xadd_cancel : forall a b, xadd (xadd a b) (xneg b) = a;
  xmul_0_l : forall a, xmul (xofZ 0) a = xofZ 0;
  xmul_1_l : forall a, xmul (xofZ 1) a = a;
  xmul_1_r : forall a, xmul a (xofZ 1) = a;
  fvar_add : forall f g, fvar (fadd f g) = fvar f;
  fvar_mul : forall f g, fvar (fmul f g) = fvar f;
  fvar_neg : forall f, fvar (fneg f) = fvar f;
  fvar_pow : forall f n, fvar (fpow f n) = fvar f;
  fvar_const : forall c f, fvar (fconst c f) = fvar f;
  feval_add : forall f g x, feval (fadd f g) x = xadd (feval f x) (feval g x);
  feval_mul : forall f g x, feval (fmul f g) x = xmul (feval f x) (feval g x);
  feval_neg : forall f x, feval (fneg f) x = xneg (feval f x);
  feval_pow : forall f n x, feval (fpow f n) x = xpow (feval f x) n;
  feval_const : forall c f x, feval (fconst c f) x = c;
  fadd_0_l : forall f, fadd (fconst (xofZ 0) f) f = f;
  fadd_comm : forall f g, fvar f = fvar g -> fadd f g = fadd g f;
  fadd_cancel : forall f g, fvar f = fvar g -> fadd (fadd f g) (fneg g) = f;
  fadd_neg : forall f g, fvar f = fvar g ->
             fadd f (fneg f) = fmul (fconst (xofZ 0) g) g;
  fmul_1_l : forall f, fmul (fconst (xofZ 1) f) f = f;
  fmul_1_r : forall f g, fvar f = fvar g -> fmul f (fconst (xofZ 1) g) = f
}.
Arguments FunctionLaws X F {S}.
(** ** Notions of the statements

    What the properties below are stated with: positions of the scan
    line, the state of the constructor while it reads the pieces, well
    formed objects, and the entries of the endpoint table. *)

Section SortedNotions.
Context {E : Type} `{Ord E}.

(** [a <= b] *)
Definition le (a b : E) : Prop := cmp b a <> Lt.

(** Sorted for [<=]. *)
Inductive sorted : list E -> Prop :=
| sorted_nil : sorted []
| sorted_cons a l : Forall (le a) l -> sorted l -> sorted (a :: l).

End SortedNotions.

Section Notions.
Context {X : Type} `{Ord X} {F : Type} `{FunctionService X F}.

(** *** Positions and the scan line *)

(** The position, the delta and the stream of an event. *)
Definition pos_of (e : event X) : position X := fst (fst e).

Definition delta_of (e : event X) : Z := snd (fst e).

Definition id_of (e : event X) : nat := snd e.

(** A test position [g]: [(x, 0)] stands for the point [x] itself, [(x, 1)]
    for the points just after [x]. *)
Definition pcontains (iv : InternalRealInterval X) (g : position X) : bool :=
  leb (lower_pos iv) g && ltb g (upper_pos iv).

(** The position lies in a component of the set; in how many; in the
    interval of a yield. *)
Definition gcontains (D : RealSet X) (g : position X) : bool :=
  existsb (fun iv => pcontains iv g) D.

Definition gcoverage (D : RealSet X) (g : position X) : Z :=
  Z.of_nat (length (filter (fun iv => pcontains iv g) D)).

Definition hit (g : position X) (y : RealSet X * list Z) : bool :=
  gcontains (fst y) g.

(** The events at or before the test position. *)
Definition before (g : position X) (e : event X) : bool := leb (pos_of e) g.

(** The state of the loop after the events [L]. *)
Definition run (st : sweep_state X) (L : list (event X)) : sweep_state X :=
  fold_left (fun st e => snd (sweep_step st e)) L st.

(** The positions of events, and the interval between two of them. *)
Definition eps_ok (q : position X) : Prop := snd q = 0 \/ snd q = 1.

Definition span (q r : position X) : InternalRealInterval X :=
  mkInterval (fst q) (snd q =? 0) (fst r) (snd r =? 1).

(** The sum of the deltas of the events of stream [i]. *)
Fixpoint delta_sum (i : nat) (L : list (event X)) : Z :=
  match L with
  | [] => 0
  | e :: L' => (if Nat.eqb (id_of e) i then delta_of e else 0) + delta_sum i L'
  end.

(** The loop keeps [indicator_sum] equal to the sum of [indicator], and
    [prev_event] is unset exactly when that sum is zero. *)
Definition sweep_inv (st : sweep_state X) : Prop :=
  indicator_sum st = zsum (indicator st) /\
  (prev_event st = None <-> indicator_sum st = 0).

(** The merged streams of events, and the state the loop starts from. *)
Definition scan_of (Ds : list (RealSet X)) : list (event X) :=
  merge (map (fun '(i, real_set) => _iterator real_set i) (enumerate Ds)).

Definition start (Ds : list (RealSet X)) : sweep_state X :=
  mkSweep (repeat 0 (length Ds)) 0 None.

(** The components of a set lie after the position [q]. *)
Definition lbb (q : position X) (D : RealSet X) : bool :=
  match D with
  | [] => true
  | i2 :: _ => ltb q (lower_pos i2)
  end.

(** Every component is a non-empty interval. *)
Definition all_ok (D : RealSet X) : bool := forallb interval_ok D.

(** *** The constructor and its objects *)

(** The function a component of a piece is filed under. *)
Definition key_of (h : F) (iv : InternalRealInterval X) : F :=
  if is_point iv then constant_of (feval h (_lower iv)) h else h.

(** The two updates of the constructor are one: the intervals are united
    with the domain filed under [k], or open a new domain. *)
Definition absorb (k : F) (U_of : RealSet X -> RealSet X)
  (st : init_state X F) : init_state X F :=
  match dict_get (i_p st) k with
  | Some i =>
      mkInit (set_nth i (U_of (nth i (i_domain_list st) [])) (i_domain_list st))
             (i_func_list st) (i_var st) (i_p st)
  | None =>
      mkInit (i_domain_list st ++ [U_of []])
             (i_func_list st ++ [k])
             (i_var st)
             (i_p st ++ [(k, length (i_domain_list st))])
  end.

(** The state of the constructor after the components [C] were read. *)
Record init_inv (st : init_state X F)
  (C : InternalRealInterval X -> F -> Prop) : Prop := mkInv {
  inv_len : length (i_domain_list st) = length (i_func_list st);
  inv_dict : forall f,
      match dict_get (i_p st) f with
      | Some i => nth_error (i_func_list st) i = Some f
      | None => ~ In f (i_func_list st)
      end;
  inv_nodup : NoDup (i_func_list st);
  inv_norm : Forall (fun D => normalized D = true) (i_domain_list st);
  inv_den : forall j D f g,
      nth_error (i_domain_list st) j = Some D ->
      nth_error (i_func_list st) j = Some f ->
      (gcontains D g = true <-> exists iv, C iv f /\ pcontains iv g = true);
  inv_keys : forall f, In f (i_func_list st) <-> exists iv, C iv f;
  inv_ok : forall iv f, C iv f -> interval_ok iv = true
}.

(** The variable while the pieces are read. *)
Definition var_inv (st : init_state X F)
  (C : InternalRealInterval X -> F -> Prop) (v : string) : Prop :=
  Forall (fun f => fvar f = v) (i_func_list st) /\
  ((i_var st = None /\ forall iv f, ~ C iv f) \/
   (i_var st = Some v /\ exists iv f, C iv f)).

(** The components of the pieces, with the functions they are filed
    under. *)
Definition comp_of (pieces : list (RealSet X * pyval F))
  (iv : InternalRealInterval X) (f : F) : Prop :=
  exists D h, In (D, PyPoly h) pieces /\ In iv D /\ f = key_of h iv.

(** Pieces the constructor accepts: polynomials in the variable [v] on
    sets of non-empty intervals. *)
Definition pieces_ok (v : string) (pieces : list (RealSet X * pyval F)) : Prop :=
  forall D func, In (D, func) pieces ->
    all_ok D = true /\ exists h, func = PyPoly h /\ fvar h = v.

(** The function of the piece at a position: at [(x, 0)] the piece [x]
    lies in, at [(x, 1)] the piece just after [x]. *)
Definition piece_at (A : PiecewiseFunction X F) (g : position X) : option F :=
  match find (fun '(D, f) => gcontains D g) (__iter__ A) with
  | Some (_, f) => Some f
  | None => None
  end.

(** What holds of every object the constructor returns. *)
Record wf (A : PiecewiseFunction X F) : Prop := mkWf {
  wf_len : length (domain_list A) = length (func_list A);
  wf_norm : Forall (fun D => normalized D = true) (domain_list A);
  wf_disj : forall i j g, (i < j < length (domain_list A))%nat ->
      gcontains (nth i (domain_list A) []) g = true ->
      gcontains (nth j (domain_list A) []) g = true -> False;
  wf_inhabited : forall D, In D (domain_list A) -> D <> [];
  wf_support : support A = union_of_realsets (domain_list A);
  wf_var : match var A with
           | None => func_list A = []
           | Some v => func_list A <> [] /\
                       Forall (fun f => fvar f = v) (func_list A)
           end
}.

(** Components that share a position are filed under the same function. *)
Definition consistent (pieces : list (RealSet X * pyval F)) : Prop :=
  forall iv1 f1 iv2 f2 g,
    comp_of pieces iv1 f1 -> comp_of pieces iv2 f2 ->
    pcontains iv1 g = true -> pcontains iv2 g = true -> f1 = f2.

(** The pieces a unary operator hands to the constructor. *)
Definition map_pieces (phi : F -> F) (A : PiecewiseFunction X F)
  : list (RealSet X * pyval F) :=
  map (fun '(dom, func) => (dom, PyPoly (phi func))) (__iter__ A).

(** One turn of the inner loop of the combinators. *)
Definition comb_step (op : pyval F -> pyval F -> pyval F)
  (self other : PiecewiseFunction X F)
  (acc : result (pyval F)) (it : nat * Z) : result (pyval F) :=
  let '(i, ind) := it in
  match acc with
  | Raise e => Raise e
  | Ok a =>
      if 0 <? ind then
        match func_at self other i with
        | Ok f => Ok (op a (PyPoly f))
        | Raise e => Raise e
        end
      else Ok a
  end.

(** The functions of the pieces of [A] whose domain contains [g]. *)
Definition sel (A : PiecewiseFunction X F) (g : position X) : list F :=
  map snd (filter (fun '(D, f) => gcontains D g) (__iter__ A)).

(** [0 * f0], the zero that [__eq__] compares with. *)
Definition zero_of (f0 : F) : F := fmul (fconst (xofZ 0) f0) f0.

(** *** Evaluation and the endpoint table *)

(** The one value [x] is supplied: positionally, or under the name of the
    variable. *)
Definition supplied (p : PiecewiseFunction X F)
  (args : list X) (kwds : list (string * X)) (x : X) : Prop :=
  (args = [x] /\ kwds = []) \/
  (args = [] /\ kwds_get kwds (str_var (var p)) = Some x).

(** The entry of [x], or the entry a new key starts from. *)
Definition entry_at (T : list (X * entry X)) (x : X) : entry X :=
  match table_get T x with
  | Some e => e
  | None => (None, (None, None))
  end.

(** The boundary events of all pieces, in the order of the two loops,
    each with the function of its piece. *)
Definition all_events (p : PiecewiseFunction X F) : list (F * (position X * Z)) :=
  flat_map (fun '(dom, func) => map (fun ev => (func, ev)) (_scan dom))
           (__iter__ p).

(** The point of a boundary event, and the slots it writes. *)
Definition ev_x (ev : position X * Z) : X := fst (fst ev).

Definition writes_right (ev : position X * Z) : bool := snd ev <? 0.

Definition writes_left (ev : position X * Z) : bool := negb (snd ev <? 0).

Definition writes_value (ev : position X * Z) : bool :=
  if snd ev <? 0 then snd (fst ev) =? 0 else snd (fst ev) =? 1.

(** The three slots of an entry. *)
Definition value_of (e : entry X) : option X := fst e.

Definition left_of (e : entry X) : option X := fst (snd e).

Definition right_of (e : entry X) : option X := snd (snd e).

(** [x] is a closed end of the interval; no piece has [x] as a lower,
    upper or closed end. *)
Definition closed_boundary (iv : InternalRealInterval X) (x : X) : Prop :=
  (_lower iv = x /\ _lower_closed iv = true) \/
  (_upper iv = x /\ _upper_closed iv = true).

Definition lower_boundary_free (x : X) (pieces : list (RealSet X * F)) : Prop :=
  Forall (fun piece => Forall (fun iv => _lower iv <> x) (fst piece)) pieces.

Definition upper_boundary_free (x : X) (pieces : list (RealSet X * F)) : Prop :=
  Forall (fun piece => Forall (fun iv => _upper iv <> x) (fst piece)) pieces.

Definition closed_boundary_free (x : X) (pieces : list (RealSet X * F)) : Prop :=
  Forall (fun piece => Forall (fun iv => ~ closed_boundary iv x) (fst piece)) pieces.

(** The two loops of [_init_end_points] as one. *)
Definition record_all (L : list (F * (position X * Z))) (T : list (X * entry X))
  : list (X * entry X) :=
  fold_left (fun T fe => record_event (fst fe) T (snd fe)) L T.

End Notions.
(** ** Further notions

    What the properties of Part IV are stated with. *)

(** What a general combinator yields where the operands yield [a] and
    [b] ([None]: nothing there): the combination where both have
    something; where only one has, that one if [union] is set and
    nothing otherwise. *)
Definition merged {T} (union : bool) (op2 : T -> T -> T) (a b : option T)
  : option T :=
  match a, b with
  | Some fa, Some fb => Some (op2 fa fb)
  | Some fa, None => if union then Some fa else None
  | None, Some fb => if union then Some fb else None
  | None, None => None
  end.

(** The test of the loop of the general combinators: the yield is kept. *)
Definition kept {X} (union : bool) (n : Z) (y : RealSet X * list Z) : bool :=
  negb (negb union && (zsum (snd y) <? n)).

(** ** [piecewise_sum_general] *)

(** [bisect.bisect_right]: binary search for the first index whose
    element is above [key]. *)
Fixpoint bisect_right_loop {E} `{Ord E} (fuel : nat) (a : list E) (key : E)
  (lo hi : nat) : nat :=
  match fuel with
  | O => lo
  | S fuel' =>
      if (lo <? hi)%nat then
        let mid := ((lo + hi) / 2)%nat in
        if ltb key (nth mid a key)
        then bisect_right_loop fuel' a key lo mid
        else bisect_right_loop fuel' a key (mid + 1) hi
      else lo
  end.

Definition bisect_right {E} `{Ord E} (a : list E) (key : E) : nat :=
  bisect_right_loop (S (length a)) a key 0 (length a).

(** [l[i]] for a Python integer [i]: a negative index counts from the
    end of the list. *)
Definition py_index {T} (l : list T) (i : Z) : option T :=
  if 0 <=? i then nth_error l (Z.to_nat i)
  else if - Z.of_nat (length l) <=? i
       then nth_error l (Z.to_nat (Z.of_nat (length l) + i))
       else None.

Section SumGeneral.
Context {X : Type} `{Ord X} {F : Type} `{FunctionService X F}.

(** [realset_cut]: [0], then the running sum of the lengths. *)
Definition realset_cut (piecewise_collection : list (PiecewiseFunction X F))
  : list nat :=
  fold_left (fun cut piecewise => cut ++ [(__len__ piecewise + last cut 0)%nat])
            piecewise_collection [0%nat].

Definition get_realset_func_id (realset_cut : list nat) (i : nat)
  : result (Z * Z) :=
  let realset_id := Z.of_nat (bisect_right realset_cut i) - 1 in
  match py_index realset_cut realset_id with
  | Some c => Ok (realset_id, Z.of_nat i - Z.of_nat c)
  | None => Raise IndexError
  end.

(** [piecewise_collection[realset_id].func_list[func_id]] for the index
    [i] of a domain. *)
Definition sum_func_at (piecewise_collection : list (PiecewiseFunction X F))
  (realset_cut : list nat) (i : nat) : result F :=
  match get_realset_func_id realset_cut i with
  | Raise e => Raise e
  | Ok (realset_id, func_id) =>
      match py_index piecewise_collection realset_id with
      | None => Raise IndexError
      | Some piecewise =>
          match py_index (func_list piecewise) func_id with
          | None => Raise IndexError
          | Some f => Ok f
          end
      end
  end.

(** The inner loop [for i, ind in enumerate(inds)]. *)
Definition sum_funcs (piecewise_collection : list (PiecewiseFunction X F))
  (realset_cut : list nat) (inds : list Z) : result (pyval F) :=
  fold_left (fun acc '(i, ind) =>
               match acc with
               | Raise e => Raise e
               | Ok a =>
                   if 0 <? ind then
                     match sum_func_at piecewise_collection realset_cut i with
                     | Ok f => Ok (py_add a (PyPoly f))
                     | Raise e => Raise e
                     end
                   else Ok a
               end)
            (enumerate inds) (Ok (PyInt 0)).

(** The loop [for real_set, inds in p]. *)
Fixpoint sum_pairs (union : bool)
  (piecewise_collection : list (PiecewiseFunction X F))
  (realset_cut : list nat) (p : list (RealSet X * list Z))
  : result (list (RealSet X * pyval F)) :=
  match p with
  | [] => Ok []
  | (real_set, inds) :: p' =>
      if negb union && (zsum inds <? Z.of_nat (length realset_cut) - 1) then
        sum_pairs union piecewise_collection realset_cut p'
      else
        match sum_funcs piecewise_collection realset_cut inds with
        | Raise e => Raise e
        | Ok func =>
            match sum_pairs union piecewise_collection realset_cut p' with
            | Raise e => Raise e
            | Ok rest => Ok ((real_set, func) :: rest)
            end
        end
  end.

Definition piecewise_sum_general
  (piecewise_collection : list (PiecewiseFunction X F)) (union : bool)
  : result (PiecewiseFunction X F) :=
  let realset_cut := realset_cut piecewise_collection in
  let p := finest_partitions
             (flat_map (fun piecewise => map fst (__iter__ piecewise))
                       piecewise_collection) in
  match sum_pairs union piecewise_collection realset_cut p with
  | Raise e => Raise e
  | Ok result_pairs => __init__ result_pairs
  end.

(** The running sums after [base]. *)
Fixpoint prefix_sums (base : nat) (lens : list nat) : list nat :=
  match lens with
  | [] => []
  | n :: lens' => (n + base)%nat :: prefix_sums (n + base) lens'
  end.

(** The values of the operands that have one. *)
Definition somes {T} (l : list (option T)) : list T :=
  flat_map (fun o => match o with Some a => [a] | None => [] end) l.

(** What the general sum of a collection yields where the operands
    yield [vals]: nothing where none has a value; the sum of the values
    there are, if [union] is set or every operand has one; nothing
    otherwise. *)
Definition merged_all {T} (union : bool) (op2 : T -> T -> T)
  (vals : list (option T)) : option T :=
  match somes vals with
  | [] => None
  | a :: rest =>
      if union || (length (somes vals) =? length vals)%nat
      then Some (fold_left op2 rest a)
      else None
  end.

(** The pieces of a collection, laid end to end, and the functions its
    members file at a position. *)
Definition all_pieces (piecewise_collection : list (PiecewiseFunction X F))
  : list (RealSet X * F) :=
  flat_map (@__iter__ X F) piecewise_collection.

Definition pieces_at (piecewise_collection : list (PiecewiseFunction X F))
  (g : position X) : list (option F) :=
  map (fun A => piece_at A g) piecewise_collection.

(** What a yield is given by the inner loop of an n-ary combinator: the
    functions the members file at [g], combined from [start]. *)
Definition yield_value (op : pyval F -> pyval F -> pyval F) (start : pyval F)
  (piecewise_collection : list (PiecewiseFunction X F)) (g : position X)
  : pyval F :=
  fold_left op (map (@PyPoly F) (somes (pieces_at piecewise_collection g))) start.

End SumGeneral.

(** ** [PiecewisePolynomial_add] and [PiecewisePolynomial_mul]

    The two static methods of [piecewise_polynomial.py] run the loop of
    [finest_partitions] themselves and combine the functions where that
    loop yields.  [union] is [None], [True] or [False]; the two differ in
    the start value and the operation only, [op] and [start] here. *)

Section PolynomialCollection.
Context {X : Type} `{Ord X} {F : Type} `{FunctionService X F}.

(** [realset_info]: for the [k]-th domain, the index of its function in
    the collection and in the function. *)
Definition realset_info (collection : list (PiecewiseFunction X F))
  : list (nat * nat) :=
  flat_map (fun '(i, piecewise) =>
              map (fun '(j, _) => (i, j)) (enumerate (__iter__ piecewise)))
           (enumerate collection).

(** [collection[realset_id].func_list[func_id]] with
    [realset_id, func_id = realset_info[i]] *)
Definition info_func_at (collection : list (PiecewiseFunction X F))
  (realset_info : list (nat * nat)) (i : nat) : result F :=
  match nth_error realset_info i with
  | None => Raise IndexError
  | Some (realset_id, func_id) =>
      match nth_error collection realset_id with
      | None => Raise IndexError
      | Some piecewise =>
          match nth_error (func_list piecewise) func_id with
          | None => Raise IndexError
          | Some f => Ok f
          end
      end
  end.

(** The inner loop [for i, ind in enumerate(inds)]. *)
Definition info_funcs (op : pyval F -> pyval F -> pyval F) (start : pyval F)
  (collection : list (PiecewiseFunction X F))
  (realset_info : list (nat * nat)) (inds : list Z) : result (pyval F) :=
  fold_left (fun acc '(i, ind) =>
               match acc with
               | Raise e => Raise e
               | Ok a =>
                   if 0 <? ind then
                     match info_func_at collection realset_info i with
                     | Ok f => Ok (op a (PyPoly f))
                     | Raise e => Raise e
                     end
                   else Ok a
               end)
            (enumerate inds) (Ok start).

(** What the loop does where [finest_partitions] yields: [result_pairs]
    after the interval [realset] with the vector [inds]. *)
Definition collection_yield (op : pyval F -> pyval F -> pyval F)
  (start : pyval F) (union : option bool)
  (collection : list (PiecewiseFunction X F))
  (realset_info : list (nat * nat))
  (result_pairs : list (RealSet X * pyval F))
  (realset : RealSet X) (inds : list Z)
  : result (list (RealSet X * pyval F)) :=
  let execute :=
    if zsum inds <? Z.of_nat (length collection) then
      match union with
      | None => Raise DomainMismatch
      | Some false => Ok false
      | Some true => Ok true
      end
    else Ok true in
  match execute with
  | Raise e => Raise e
  | Ok false => Ok result_pairs
  | Ok true =>
      match info_funcs op start collection realset_info inds with
      | Raise e => Raise e
      | Ok func => Ok (result_pairs ++ [(realset, func)])
      end
  end.

(** One turn of the loop [for event, set_id in scan]. *)
Definition collection_step (op : pyval F -> pyval F -> pyval F)
  (start : pyval F) (union : option bool)
  (collection : list (PiecewiseFunction X F))
  (realset_info : list (nat * nat))
  (acc : result (sweep_state X * list (RealSet X * pyval F)))
  (ev : event X)
  : result (sweep_state X * list (RealSet X * pyval F)) :=
  match acc with
  | Raise e => Raise e
  | Ok (st, result_pairs) =>
      let '(event, set_id) := ev in
      let '((x, epsilon), delta) := event in
      let after_yield :=
        match prev_event st with
        | Some pe =>
            if gtb event pe then
              let '((x_, epsilon_), _) := pe in
              collection_yield op start union collection realset_info
                result_pairs
                [mkInterval x_ (epsilon_ =? 0) x (epsilon =? 1)]
                (indicator st)
            else Ok result_pairs
        | None => Ok result_pairs
        end in
      match after_yield with
      | Raise e => Raise e
      | Ok result_pairs' =>
          let indicator' := add_at set_id delta (indicator st) in
          let indicator_sum' := indicator_sum st + delta in
          let prev_event' :=
            if indicator_sum' =? 0 then None else Some ((x, epsilon), 1) in
          Ok (mkSweep indicator' indicator_sum' prev_event', result_pairs')
      end
  end.

(** The body the two methods share.  The streams of events are numbered
    by the counter [k], which runs over the domains of the members in
    order. *)
Definition collection_combine (op : pyval F -> pyval F -> pyval F)
  (start : pyval F) (collection : list (PiecewiseFunction X F))
  (union : option bool) : result (PiecewiseFunction X F) :=
  let realset_info := realset_info collection in
  let scan :=
    map (fun '(k, realset) => _iterator realset k)
        (enumerate (flat_map (fun piecewise => map fst (__iter__ piecewise))
                             collection)) in
  let indicator := repeat 0 (length scan) in
  match fold_left (collection_step op start union collection realset_info)
                  (merge scan) (Ok (mkSweep indicator 0 None, [])) with
  | Raise e => Raise e
  | Ok (_, result_pairs) => __init__ result_pairs
  end.

Definition PiecewisePolynomial_add
  (PiecewisePolynomial_collection : list (PiecewiseFunction X F))
  (union : option bool) : result (PiecewiseFunction X F) :=
  collection_combine py_add (PyInt 0) PiecewisePolynomial_collection union.

Definition PiecewisePolynomial_mul
  (PiecewisePolynomial_collection : list (PiecewiseFunction X F))
  (union : option bool) : result (PiecewiseFunction X F) :=
  collection_combine py_mul (PyInt 1) PiecewisePolynomial_collection union.

(** The yields of the partition, processed in order from [result_pairs]. *)
Fixpoint collection_yields (op : pyval F -> pyval F -> pyval F)
  (start : pyval F) (union : option bool)
  (collection : list (PiecewiseFunction X F))
  (realset_info : list (nat * nat))
  (result_pairs : list (RealSet X * pyval F))
  (p : list (RealSet X * list Z))
  : result (list (RealSet X * pyval F)) :=
  match p with
  | [] => Ok result_pairs
  | (realset, inds) :: p' =>
      match collection_yield op start union collection realset_info
              result_pairs realset inds with
      | Raise e => Raise e
      | Ok result_pairs' =>
          collection_yields op start union collection realset_info
            result_pairs' p'
      end
  end.

End PolynomialCollection.
(** ** A concrete function service: polynomials over the integers

    Coefficient lists, constant term first, without trailing zeros, and
    the name of the variable.  Points and values are integers. *)

Fixpoint norm (l : list Z) : list Z :=
  match l with
  | [] => []
  | a :: l' =>
      match norm l' with
      | [] => if a =? 0 then [] else [a]
      | r => a :: r
      end
  end.

Lemma norm_idem (l : list Z) : norm (norm l) = norm l.
Proof.
  induction l as [|a l IH]; [reflexivity|].
  simpl. destruct (norm l) as [|b r] eqn:E.
  - destruct (a =? 0) eqn:Ea; simpl; [reflexivity | now rewrite Ea].
  - simpl in *. now rewrite IH.
Qed.

Record zpoly : Type := mkZpoly {
  zvar : string;
  zcoeffs : list Z;
  zok : norm zcoeffs = zcoeffs
}.

Definition poly (v : string) (l : list Z) : zpoly :=
  @mkZpoly v (norm l) (norm_idem l).

Lemma zpoly_eq (f g : zpoly) :
  zvar f = zvar g -> zcoeffs f = zcoeffs g -> f = g.
Proof.
  destruct f as [v l p], g as [w m q]. simpl. intros -> ->.
  f_equal. apply Eqdep_dec.UIP_dec. apply list_eq_dec. apply Z.eq_dec.
Qed.

Fixpoint add_raw (l m : list Z) : list Z :=
  match l, m with
  | [], _ => m
  | _, [] => l
  | a :: l', b :: m' => (a + b) :: add_raw l' m'
  end.

Fixpoint mul_raw (l m : list Z) : list Z :=
  match l with
  | [] => []
  | a :: l' => add_raw (map (Z.mul a) m) (0 :: mul_raw l' m)
  end.

Fixpoint pow_raw (l : list Z) (n : nat) : list Z :=
  match n with
  | O => [1]
  | S n' => mul_raw l (pow_raw l n')
  end.

Fixpoint eval_raw (l : list Z) (x : Z) : Z :=
  match l with
  | [] => 0
  | a :: l' => a + x * eval_raw l' x
  end.

Fixpoint list_Z_eqb (l m : list Z) : bool :=
  match l, m with
  | [], [] => true
  | a :: l', b :: m' => (a =? b) && list_Z_eqb l' m'
  | _, _ => false
  end.

Lemma list_Z_eqb_eq (l m : list Z) : list_Z_eqb l m = true <-> l = m.
Proof.
  revert m. induction l as [|a l IH]; intros [|b m]; simpl;
    try (split; [discriminate | congruence]); [tauto|].
  rewrite andb_true_iff, Z.eqb_eq, IH. split; [intros [-> ->] | intros [= -> ->]]; auto.
Qed.

Definition zpoly_eqb (f g : zpoly) : bool :=
  String.eqb (zvar f) (zvar g) && list_Z_eqb (zcoeffs f) (zcoeffs g).

Lemma zpoly_eqb_eq (f g : zpoly) : zpoly_eqb f g = true <-> f = g.
Proof.
  unfold zpoly_eqb. rewrite andb_true_iff, String.eqb_eq, list_Z_eqb_eq.
  split; [intros [E1 E2]; now apply zpoly_eq | intros ->; auto].
Qed.

#[export] Instance ZPolynomials : FunctionService Z zpoly := {|
  xofZ := fun n => n;
  fvar := zvar;
  feval := fun f x => eval_raw (zcoeffs f) x;
  fadd := fun f g => poly (zvar f) (add_raw (zcoeffs f) (zcoeffs g));
  fmul := fun f g => poly (zvar f) (mul_raw (zcoeffs f) (zcoeffs g));
  fneg := fun f => poly (zvar f) (map Z.opp (zcoeffs f));
  fpow := fun f n => poly (zvar f) (pow_raw (zcoeffs f) n);
  fconst := fun c f => poly (zvar f) [c];
  feqb := zpoly_eqb;
  feqb_eq := zpoly_eqb_eq
|}.

(** A piecewise function as its pieces print: domains and coefficients. *)
Definition show (p : PiecewiseFunction Z zpoly)
  : list (RealSet Z * list Z) :=
  map (fun '(dom, func) => (dom, zcoeffs func)) (__iter__ p).

Definition show_result (r : result (PiecewiseFunction Z zpoly))
  : result (list (RealSet Z * list Z)) :=
  match r with
  | Ok p => Ok (show p)
  | Raise e => Raise e
  end.

(** Intervals of integers. *)
Definition closed (a b : Z) : InternalRealInterval Z := mkInterval a true b true.
Definition opened (a b : Z) : InternalRealInterval Z := mkInterval a false b false.
Definition open_closed (a b : Z) : InternalRealInterval Z := mkInterval a false b true.
Definition closed_open (a b : Z) : InternalRealInterval Z := mkInterval a true b false.

(** Concrete piecewise functions (over the variable [t]). *)
Definition t : string := "t"%string.

(** The object a successful construction returns. *)
Definition built (r : result (PiecewiseFunction Z zpoly))
  : PiecewiseFunction Z zpoly :=
  match r with
  | Ok p => p
  | Raise _ => mkPiecewise [] [] None []
  end.

(** [1 - t] on [[0, 1] ∪ [4, 5]] and [t^4 - t^2] on [[2, 3] ∪ [6, 7]]. *)
Definition example_pieces : list (RealSet Z * pyval zpoly) :=
  [ ([closed 0 1; closed 4 5], PyPoly (poly t [1; -1]));
    ([closed 2 3; closed 6 7], PyPoly (poly t [0; 0; -1; 0; 1])) ].
Definition example_p : PiecewiseFunction Z zpoly := built (__init__ example_pieces).

(** [1 - t] on [[0, 1]] and [t] on [(1, 2]]: the value at [1] is [0], the
    right limit there is [1]. *)
Definition jump_pieces : list (RealSet Z * pyval zpoly) :=
  [ ([closed 0 1], PyPoly (poly t [1; -1]));
    ([open_closed 1 2], PyPoly (poly t [0; 1])) ].
Definition jump_p : PiecewiseFunction Z zpoly := built (__init__ jump_pieces).

(** [t] on [(1, 2)] and then [5] on the point [{1}]. *)
Definition point_pieces : list (RealSet Z * pyval zpoly) :=
  [ ([opened 1 2], PyPoly (poly t [0; 1]));
    ([closed 1 1], PyPoly (poly t [5])) ].
Definition point_p : PiecewiseFunction Z zpoly := built (__init__ point_pieces).

(** [1 - t] as a polynomial in [x], on the domains of [example_p]. *)
Definition other_var_pieces : list (RealSet Z * pyval zpoly) :=
  [ ([closed 0 1; closed 4 5], PyPoly (poly "x" [1; -1]));
    ([closed 2 3; closed 6 7], PyPoly (poly "x" [0; 1])) ].
Definition other_var_p : PiecewiseFunction Z zpoly :=
  built (__init__ other_var_pieces).

(** *** The laws hold of the polynomials over the integers *)

Definition coef (l : list Z) (n : nat) : Z := nth n l 0.

Lemma coef_norm (l : list Z) (n : nat) : coef (norm l) n = coef l n.
Proof.
  unfold coef. revert n. induction l as [|a l IH]; intros n; [reflexivity|].
  simpl. destruct (norm l) as [|b r] eqn:E.
  - destruct (a =? 0) eqn:Ea.
    + apply Z.eqb_eq in Ea. subst a.
      destruct n as [|n]; [reflexivity|]. simpl. rewrite <- IH. now destruct n.
    + destruct n as [|n]; [reflexivity|]. simpl. rewrite <- IH. now destruct n.
  - destruct n as [|n]; [reflexivity|]. simpl. now rewrite <- IH.
Qed.

Lemma norm_nil_coef (l : list Z) : norm l = [] -> forall n, coef l n = 0.
Proof. intros E n. rewrite <- coef_norm, E. unfold coef. now destruct n. Qed.

Lemma coef_zero_norm (l : list Z) : (forall n, coef l n = 0) -> norm l = [].
Proof.
  induction l as [|a l IH]; intros Hz; [reflexivity|].
  simpl. rewrite IH by (intros n; exact (Hz (S n))).
  specialize (Hz 0%nat). unfold coef in Hz. simpl in Hz. subst a. reflexivity.
Qed.

Lemma norm_ext (l m : list Z) :
  (forall n, coef l n = coef m n) -> norm l = norm m.
Proof.
  revert m. induction l as [|a l IH]; intros m Hc.
  - simpl. symmetry. apply coef_zero_norm. intros n. rewrite <- Hc.
    unfold coef. now destruct n.
  - destruct m as [|b m].
    + apply coef_zero_norm. intros n. rewrite Hc. unfold coef. now destruct n.
    + assert (a = b) by exact (Hc 0%nat). subst b.
      simpl. rewrite (IH m) by (intros n; exact (Hc (S n))). reflexivity.
Qed.

Lemma coef_add_raw (l m : list Z) (n : nat) :
  coef (add_raw l m) n = coef l n + coef m n.
Proof.
  unfold coef. revert m n. induction l as [|a l IH]; intros m n.
  - simpl. now destruct n.
  - destruct m as [|b m]; simpl.
    + destruct n; lia.
    + destruct n as [|n]; [reflexivity|]. apply IH.
Qed.

Lemma coef_opp (l : list Z) (n : nat) : coef (map Z.opp l) n = - coef l n.
Proof.
  unfold coef. revert n. induction l as [|a l IH]; intros [|n]; simpl; auto.
Qed.

Lemma eval_norm (l : list Z) (x : Z) : eval_raw (norm l) x = eval_raw l x.
Proof.
  induction l as [|a l IH]; [reflexivity|].
  simpl. destruct (norm l) as [|b r] eqn:E.
  - rewrite <- IH. simpl. destruct (a =? 0) eqn:Ea; simpl; [|lia].
    apply Z.eqb_eq in Ea. lia.
  - rewrite <- IH. reflexivity.
Qed.

Lemma eval_add_raw (l m : list Z) (x : Z) :
  eval_raw (add_raw l m) x = eval_raw l x + eval_raw m x.
Proof.
  revert m. induction l as [|a l IH]; intros m; [reflexivity|].
  destruct m as [|b m]; cbn [add_raw eval_raw]; [ring|]. rewrite IH. ring.
Qed.

Lemma eval_scale (a : Z) (m : list Z) (x : Z) :
  eval_raw (map (Z.mul a) m) x = a * eval_raw m x.
Proof.
  induction m as [|b m IH]; cbn [eval_raw map]; [ring|]. rewrite IH. ring.
Qed.

Lemma eval_mul_raw (l m : list Z) (x : Z) :
  eval_raw (mul_raw l m) x = eval_raw l x * eval_raw m x.
Proof.
  induction l as [|a l IH]; [reflexivity|].
  cbn [mul_raw eval_raw]. rewrite eval_add_raw, eval_scale.
  cbn [eval_raw]. rewrite IH. ring.
Qed.

Lemma eval_pow_raw (l : list Z) (n : nat) (x : Z) :
  eval_raw (pow_raw l n) x = eval_raw l x ^ Z.of_nat n.
Proof.
  induction n as [|n IH].
  - cbn [pow_raw eval_raw Z.of_nat]. rewrite Z.pow_0_r. ring.
  - cbn [pow_raw]. rewrite eval_mul_raw, IH, Nat2Z.inj_succ, Z.pow_succ_r; lia.
Qed.

Lemma eval_opp (l : list Z) (x : Z) : eval_raw (map Z.opp l) x = - eval_raw l x.
Proof.
  induction l as [|a l IH]; cbn [eval_raw map]; [ring|]. rewrite IH. ring.
Qed.

Lemma poly_ext (v : string) (l m : list Z) :
  (forall n, coef l n = coef m n) -> poly v l = poly v m.
Proof. intros Hc. apply zpoly_eq; simpl; [reflexivity | now apply norm_ext]. Qed.

Lemma poly_self (f : zpoly) : poly (zvar f) (zcoeffs f) = f.
Proof. apply zpoly_eq; simpl; [reflexivity | apply zok]. Qed.

Lemma coef_scale (a : Z) (m : list Z) (n : nat) :
  coef (map (Z.mul a) m) n = a * coef m n.
Proof.
  unfold coef. revert n. induction m as [|b m IH]; intros [|n]; simpl; auto; lia.
Qed.

Lemma coef_nil (n : nat) : coef [] n = 0.
Proof. unfold coef. now destruct n. Qed.

Lemma coef_cons_S (a : Z) (l : list Z) (n : nat) : coef (a :: l) (S n) = coef l n.
Proof. reflexivity. Qed.

Lemma coef_cons_0 (a : Z) (l : list Z) : coef (a :: l) 0 = a.
Proof. reflexivity. Qed.

Lemma coef_mul_one_l (l : list Z) (n : nat) :
  coef (mul_raw (norm [1]) l) n = coef l n.
Proof.
  change (norm [1]) with [1]. cbn [mul_raw].
  rewrite coef_add_raw, coef_scale.
  destruct n as [|n]; [rewrite coef_cons_0 | rewrite coef_cons_S, coef_nil]; lia.
Qed.

Lemma coef_mul_one_r (l : list Z) (n : nat) :
  coef (mul_raw l (norm [1])) n = coef l n.
Proof.
  change (norm [1]) with [1]. revert n.
  induction l as [|a l IH]; intros n; [reflexivity|].
  cbn [mul_raw map]. rewrite coef_add_raw.
  destruct n as [|n].
  - rewrite !coef_cons_0. lia.
  - rewrite !coef_cons_S, coef_nil, IH. lia.
Qed.

#[export, refine] Instance ZPolynomialLaws : FunctionLaws Z zpoly := {|
  xadd := Z.add;
  xmul := Z.mul;
  xneg := Z.opp;
  xpow := fun a n => a ^ Z.of_nat n
|}.
Proof.
  - intros a. cbn [xofZ ZPolynomials]. lia.
  - intros a. cbn [xofZ ZPolynomials]. lia.
  - intros a. cbn [xofZ ZPolynomials]. lia.
  - intros a b. lia.
  - intros a. cbn [xofZ ZPolynomials]. lia.
  - intros a. cbn [xofZ ZPolynomials]. lia.
  - intros a. cbn [xofZ ZPolynomials]. lia.
  - reflexivity.
  - reflexivity.
  - reflexivity.
  - reflexivity.
  - reflexivity.
  - intros f g x. cbn [feval fadd ZPolynomials poly zcoeffs].
    now rewrite eval_norm, eval_add_raw.
  - intros f g x. cbn [feval fmul ZPolynomials poly zcoeffs].
    now rewrite eval_norm, eval_mul_raw.
  - intros f x. cbn [feval fneg ZPolynomials poly zcoeffs].
    now rewrite eval_norm, eval_opp.
  - intros f n x. cbn [feval fpow ZPolynomials poly zcoeffs].
    now rewrite eval_norm, eval_pow_raw.
  - intros c f x. cbn [feval fconst ZPolynomials poly zcoeffs].
    rewrite eval_norm. simpl. lia.
  - intros f. cbn [fadd fconst xofZ ZPolynomials poly zcoeffs zvar].
    rewrite <- (poly_self f) at 3. apply poly_ext. intros n.
    rewrite coef_add_raw. unfold coef. simpl. now destruct n.
  - intros f g E. cbn [fadd fvar ZPolynomials] in *. rewrite E.
    apply poly_ext. intros n. rewrite !coef_add_raw. lia.
  - intros f g E. cbn [fadd fneg fvar ZPolynomials poly zcoeffs zvar] in *.
    rewrite <- (poly_self f) at 3. apply poly_ext. intros n.
    rewrite coef_add_raw, !coef_norm, coef_add_raw, coef_opp. lia.
  - intros f g E. cbn [fadd fneg fmul fconst xofZ fvar ZPolynomials poly zcoeffs zvar] in *.
    rewrite E. apply poly_ext. intros n.
    rewrite coef_add_raw, coef_norm, coef_opp. simpl. unfold coef at 3.
    destruct n; simpl; lia.
  - intros f. cbn [fmul fconst xofZ ZPolynomials poly zcoeffs zvar].
    rewrite <- (poly_self f) at 3. apply poly_ext. intros n.
    apply coef_mul_one_l.
  - intros f g E. cbn [fmul fconst xofZ fvar ZPolynomials poly zcoeffs zvar] in *.
    rewrite <- (poly_self f) at 3. apply poly_ext. intros n.
    apply coef_mul_one_r.
Defined.

(** [t^2] on [[0, 1] ∪ [4, 5]] and [1 - t^7] on [[2, 3] ∪ [6, 7]]. *)
Definition example_q_pieces : list (RealSet Z * pyval zpoly) :=
  [ ([closed 0 1; closed 4 5], PyPoly (poly t [0; 0; 1]));
    ([closed 2 3; closed 6 7], PyPoly (poly t [1; 0; 0; 0; 0; 0; 0; -1])) ].

Definition example_q : PiecewiseFunction Z zpoly := built (__init__ example_q_pieces).

(** [t] on [[0, 10]]: the point [5] lies inside the one component. *)
Definition wide_pieces : list (RealSet Z * pyval zpoly) :=
  [ ([closed 0 10], PyPoly (poly t [0; 1])) ].

Definition wide_p : PiecewiseFunction Z zpoly := built (__init__ wide_pieces).
(** * Part II: properties *)

(** ** The order *)

Section OrdFacts.
Context {A : Type} `{Ord A}.

Lemma cmp_eq_iff (x y : A) : cmp x y = Eq <-> x = y.
Proof. split; [apply cmp_eq | intros ->; apply cmp_refl]. Qed.

Lemma cmp_gt_lt (x y : A) : cmp x y = Gt <-> cmp y x = Lt.
Proof. rewrite (cmp_antisym y x). destruct (cmp y x); simpl; split; congruence. Qed.

Lemma ltb_lt (x y : A) : ltb x y = true <-> cmp x y = Lt.
Proof. unfold ltb. destruct (cmp x y); split; congruence. Qed.

Lemma gtb_lt (x y : A) : gtb x y = true <-> cmp y x = Lt.
Proof. rewrite <- cmp_gt_lt. unfold gtb. destruct (cmp x y); split; congruence. Qed.

Lemma leb_nlt (x y : A) : leb x y = true <-> cmp y x <> Lt.
Proof.
  unfold leb. rewrite (cmp_antisym x y).
  destruct (cmp x y); simpl; split; congruence.
Qed.

Lemma eqb_eq (x y : A) : eqb x y = true <-> x = y.
Proof.
  rewrite <- cmp_eq_iff. unfold eqb. destruct (cmp x y); split; congruence.
Qed.

Lemma lt_irrefl (x : A) : cmp x x <> Lt.
Proof. rewrite cmp_refl. discriminate. Qed.

Lemma lt_asym (x y : A) : cmp x y = Lt -> cmp y x <> Lt.
Proof. intros E. rewrite cmp_antisym, E. discriminate. Qed.

(** [x <= y] is written [cmp y x <> Lt]. *)
Lemma le_lt_trans (x y z : A) : cmp y x <> Lt -> cmp y z = Lt -> cmp x z = Lt.
Proof.
  intros Hxy Hyz. destruct (cmp x y) eqn:E.
  - apply cmp_eq in E. now subst.
  - eapply cmp_trans; eauto.
  - apply cmp_gt_lt in E. contradiction.
Qed.

Lemma lt_le_trans (x y z : A) : cmp x y = Lt -> cmp z y <> Lt -> cmp x z = Lt.
Proof.
  intros Hxy Hyz. destruct (cmp y z) eqn:E.
  - apply cmp_eq in E. now subst.
  - eapply cmp_trans; eauto.
  - apply cmp_gt_lt in E. contradiction.
Qed.

Lemma le_trans (x y z : A) : cmp y x <> Lt -> cmp z y <> Lt -> cmp z x <> Lt.
Proof.
  intros Hxy Hyz Hzx. apply Hyz. eapply lt_le_trans; eauto.
Qed.

Lemma lt_le (x y : A) : cmp x y = Lt -> cmp y x <> Lt.
Proof. apply lt_asym. Qed.

Lemma lt_total (x y : A) : cmp x y = Lt \/ x = y \/ cmp y x = Lt.
Proof.
  destruct (cmp x y) eqn:E; auto.
  - right; left; now apply cmp_eq.
  - right; right; now apply cmp_gt_lt.
Qed.

Lemma nlt_cases (x y : A) : cmp y x <> Lt -> cmp x y = Lt \/ x = y.
Proof. intros Hn. destruct (lt_total x y) as [|[|]]; auto. contradiction. Qed.

Definition eq_dec_ord (x y : A) : {x = y} + {x <> y}.
Proof.
  destruct (cmp x y) eqn:E.
  - left; now apply cmp_eq.
  - right; intros ->; rewrite cmp_refl in E; discriminate.
  - right; intros ->; rewrite cmp_refl in E; discriminate.
Defined.
End OrdFacts.

Lemma cmp_Z (x y : Z) : cmp x y = (x ?= y).
Proof. reflexivity. Qed.

Lemma cmp_nat (x y : nat) : cmp x y = Nat.compare x y.
Proof. reflexivity. Qed.

Lemma cmp_pair_lt {A B} `{Ord A} `{Ord B} (a a' : A) (b b' : B) :
  cmp (a, b) (a', b') = Lt <-> cmp a a' = Lt \/ (a = a' /\ cmp b b' = Lt).
Proof.
  change (cmp (a, b) (a', b')) with (cmp_pair (a, b) (a', b')).
  unfold cmp_pair; simpl. destruct (cmp a a') eqn:E.
  - apply cmp_eq in E. split; [now right | intros [D|[_ D]]; [discriminate | exact D]].
  - split; auto.
  - split; [discriminate|]. intros [D|[-> D]]; [discriminate|].
    rewrite cmp_refl in E; discriminate.
Qed.

(** ** Sorted lists and merging *)

Section Merge.
Context {E : Type} `{Ord E}.

Lemma merge2_nil_r (l : list E) : merge2 l [] = l.
Proof. destruct l; reflexivity. Qed.

Lemma merge2_cons (a b : E) (l1 l2 : list E) :
  merge2 (a :: l1) (b :: l2) =
  if gtb a b then b :: merge2 (a :: l1) l2 else a :: merge2 l1 (b :: l2).
Proof. reflexivity. Qed.

Lemma merge2_perm (l1 l2 : list E) : Permutation (merge2 l1 l2) (l1 ++ l2).
Proof.
  revert l2. induction l1 as [|a l1 IH]; intros l2.
  - reflexivity.
  - induction l2 as [|b l2 IH2].
    + rewrite merge2_nil_r, app_nil_r. reflexivity.
    + rewrite merge2_cons. destruct (gtb a b).
      * rewrite IH2. apply Permutation_middle.
      * simpl. constructor. apply IH.
Qed.

Lemma merge2_sorted (l1 l2 : list E) :
  sorted l1 -> sorted l2 -> sorted (merge2 l1 l2).
Proof.
  revert l2. induction l1 as [|a l1 IH]; intros l2 S1 S2.
  - exact S2.
  - induction l2 as [|b l2 IH2].
    + now rewrite merge2_nil_r.
    + rewrite merge2_cons. inversion S1 as [|? ? Fa S1']; subst.
      inversion S2 as [|? ? Fb S2']; subst.
      destruct (gtb a b) eqn:G.
      * apply gtb_lt in G. constructor; [|now apply IH2].
        apply (Permutation_Forall (Permutation_sym (merge2_perm (a :: l1) l2))).
        apply Forall_app; split; [|exact Fb].
        constructor; [now apply lt_le|].
        eapply Forall_impl; [|exact Fa]. intros c Hc.
        unfold le in *. intros D. apply Hc.
        eapply cmp_trans; eauto.
      * assert (Hab : le a b).
        { unfold le. intros D. apply gtb_lt in D. congruence. }
        constructor; [|now apply IH].
        apply (Permutation_Forall (Permutation_sym (merge2_perm l1 (b :: l2)))).
        apply Forall_app; split; [exact Fa|].
        constructor; [exact Hab|].
        eapply Forall_impl; [|exact Fb]. intros c Hc.
        unfold le in *. eapply le_trans; eauto.
Qed.

Lemma merge_perm (streams : list (list E)) :
  Permutation (merge streams) (concat streams).
Proof.
  induction streams as [|l ls IH]; simpl; [reflexivity|].
  rewrite merge2_perm. now apply Permutation_app_head.
Qed.

Lemma merge_sorted (streams : list (list E)) :
  Forall sorted streams -> sorted (merge streams).
Proof.
  induction 1; simpl; [constructor|]. now apply merge2_sorted.
Qed.

(** A sorted list splits at any downward-closed test. *)
Lemma sorted_split (f : E -> bool) (l : list E) :
  (forall a b, le a b -> f b = true -> f a = true) ->
  sorted l -> l = filter f l ++ filter (fun a => negb (f a)) l.
Proof.
  intros Hf. induction 1 as [|a l Fa S IH]; simpl; [reflexivity|].
  destruct (f a) eqn:Ea; simpl.
  - now rewrite <- IH.
  - assert (Hn : Forall (fun b => f b = false) l).
    { eapply Forall_impl; [|exact Fa]. intros b Hab.
      destruct (f b) eqn:Eb; [|reflexivity].
      rewrite (Hf _ _ Hab Eb) in Ea. discriminate. }
    assert (F1 : filter f l = []).
    { clear -Hn. induction Hn as [|b l Hb _ IHn]; simpl; [reflexivity|].
      now rewrite Hb. }
    assert (F2 : filter (fun a => negb (f a)) l = l).
    { clear -Hn. induction Hn as [|b l Hb _ IHn]; simpl; [reflexivity|].
      rewrite Hb; simpl. now f_equal. }
    now rewrite F1, F2.
Qed.
End Merge.

(** ** The scan line *)

Ltac ord_absurd :=
  match goal with
  | H : cmp ?a ?a = Lt |- _ => rewrite cmp_refl in H; discriminate
  | H1 : cmp ?a ?b = Lt, H2 : cmp ?b ?a = Lt |- _ =>
      exfalso; exact (lt_asym _ _ H1 H2)
  end.

Lemma ltb_nlt {A} `{Ord A} (a b : A) : ltb a b = false <-> cmp a b <> Lt.
Proof. unfold ltb. destruct (cmp a b); split; congruence. Qed.

Lemma leb_false {A} `{Ord A} (a b : A) : leb a b = false <-> cmp b a = Lt.
Proof.
  rewrite <- not_true_iff_false, leb_nlt. destruct (cmp b a); split; try congruence.
  - intros D. exfalso. apply D. discriminate.
  - intros D. exfalso. apply D. discriminate.
Qed.

Lemma ltb_negb_leb {A} `{Ord A} (a b : A) : ltb a b = negb (leb b a).
Proof.
  destruct (leb b a) eqn:E; simpl.
  - apply leb_nlt in E. now apply ltb_nlt.
  - apply leb_false in E. now apply ltb_lt.
Qed.

Section SweepFacts.
Context {X : Type} `{Ord X}.

Lemma pcontains_iff (iv : InternalRealInterval X) (g : position X) :
  pcontains iv g = true <->
  cmp g (lower_pos iv) <> Lt /\ cmp g (upper_pos iv) = Lt.
Proof.
  unfold pcontains. now rewrite andb_true_iff, leb_nlt, ltb_lt.
Qed.

Lemma interval_contains_point (iv : InternalRealInterval X) (x : X) :
  interval_contains iv x = pcontains iv (x, 0).
Proof.
  apply eq_true_iff_eq. rewrite pcontains_iff.
  destruct iv as [l lc u uc]. unfold interval_contains, lower_pos, upper_pos.
  cbn [_lower _lower_closed _upper _upper_closed].
  rewrite andb_true_iff. rewrite !cmp_pair_lt.
  destruct lc, uc; cbn [Z.b2z]; rewrite ?leb_nlt, ?ltb_lt.
  all: change (1 - 1) with 0; change (1 - 0) with 1;
    change (@cmp Z Ord_Z 0 1) with Lt; change (@cmp Z Ord_Z 0 0) with Eq;
    destruct (lt_total l x) as [L|[L|L]], (lt_total u x) as [U|[U|U]];
    subst; intuition (subst; try congruence; try ord_absurd).
Qed.

Lemma contains_point (D : RealSet X) (x : X) :
  contains D x = gcontains D (x, 0).
Proof.
  unfold contains, gcontains. induction D as [|iv D IH]; [reflexivity|].
  simpl. now rewrite IH, interval_contains_point.
Qed.

Lemma coverage_point (D : RealSet X) (x : X) :
  coverage D x = gcoverage D (x, 0).
Proof.
  unfold coverage, gcoverage. do 2 f_equal. apply filter_ext.
  intros iv. apply interval_contains_point.
Qed.

Lemma span_pos (q r : position X) :
  eps_ok q -> eps_ok r ->
  lower_pos (span q r) = q /\ upper_pos (span q r) = r.
Proof.
  destruct q as [qx qe], r as [rx re]. unfold eps_ok, span, lower_pos, upper_pos.
  simpl. intros [-> | ->] [-> | ->]; simpl; auto.
Qed.

Lemma sweep_cons (st : sweep_state X) (ev : event X) (E : list (event X)) :
  sweep st (ev :: E) =
  fst (sweep_step st ev) ++ sweep (snd (sweep_step st ev)) E.
Proof. simpl. destruct (sweep_step st ev). reflexivity. Qed.

Lemma step_yield (st : sweep_state X) (ev : event X) :
  fst (sweep_step st ev) =
  match prev_event st with
  | Some pe => if gtb (fst ev) pe
               then [([span (fst pe) (pos_of ev)], indicator st)] else []
  | None => []
  end.
Proof.
  destruct ev as [[[x e] d] i]. unfold sweep_step. simpl.
  destruct (prev_event st) as [[[x_ e_] d_]|]; reflexivity.
Qed.

Lemma step_state (st : sweep_state X) (ev : event X) :
  snd (sweep_step st ev) =
  mkSweep (add_at (id_of ev) (delta_of ev) (indicator st))
          (indicator_sum st + delta_of ev)
          (if indicator_sum st + delta_of ev =? 0 then None
           else Some (pos_of ev, 1)).
Proof.
  destruct ev as [[[x e] d] i]. unfold sweep_step. simpl.
  destruct (prev_event st) as [[[x_ e_] d_]|]; reflexivity.
Qed.

Lemma hit_single (g : position X) (iv : InternalRealInterval X) (v : list Z) :
  hit g ([iv], v) = pcontains iv g.
Proof. unfold hit, gcontains. simpl. apply orb_false_r. Qed.

(** Once the scan is past [g], nothing yielded contains [g]. *)
Lemma no_hit_after (g : position X) (E : list (event X)) :
  forall st,
    Forall (fun e => before g e = false /\ eps_ok (pos_of e)) E ->
    (forall pe, prev_event st = Some pe ->
                cmp g (fst pe) = Lt /\ eps_ok (fst pe)) ->
    filter (hit g) (sweep st E) = [].
Proof.
  induction E as [|ev E IH]; intros st HE Hst; [reflexivity|].
  inversion HE as [|? ? [Hb He] HE']; subst.
  rewrite sweep_cons, filter_app, step_yield.
  rewrite IH; [|exact HE'|].
  - rewrite app_nil_r. destruct (prev_event st) as [pe|] eqn:P; [|reflexivity].
    destruct (Hst pe eq_refl) as [Hq Hqe].
    destruct (gtb (fst ev) pe); [|reflexivity].
    simpl. rewrite hit_single.
    destruct (pcontains (span (fst pe) (pos_of ev)) g) eqn:C; [|reflexivity].
    apply pcontains_iff in C.
    destruct (span_pos Hqe He) as [E1 _]. rewrite E1 in C. tauto.
  - rewrite step_state. simpl. intros pe.
    destruct (indicator_sum st + delta_of ev =? 0); [discriminate|].
    intros [= <-]. simpl. split; [|exact He].
    unfold before in Hb. now apply leb_false in Hb.
Qed.

(** The scan split at [g]: the one interval that contains [g] is yielded
    at the first event past [g], if an interval is pending there. *)
Lemma hit_split (g : position X) (L1 L2 : list (event X)) :
  forall st,
    Forall (fun e => before g e = true /\ eps_ok (pos_of e)) L1 ->
    Forall (fun e => before g e = false /\ eps_ok (pos_of e)) L2 ->
    (forall pe, prev_event st = Some pe ->
                cmp g (fst pe) <> Lt /\ eps_ok (fst pe)) ->
    filter (hit g) (sweep st (L1 ++ L2)) =
    match L2, prev_event (run st L1) with
    | ev :: _, Some pe =>
        [([span (fst pe) (pos_of ev)], indicator (run st L1))]
    | _, _ => []
    end.
Proof.
  induction L1 as [|a L1 IH]; intros st H1 H2 Hst.
  - simpl. destruct L2 as [|ev L2]; [reflexivity|].
    inversion H2 as [|? ? [Hb He] H2']; subst.
    rewrite sweep_cons, filter_app, step_yield.
    assert (Hnb : cmp g (pos_of ev) = Lt).
    { unfold before in Hb. now apply leb_false in Hb. }
    rewrite (@no_hit_after g L2); [|exact H2'|].
    + rewrite app_nil_r. destruct (prev_event st) as [pe|] eqn:P; [|reflexivity].
      destruct (Hst pe eq_refl) as [Hq Hqe].
      assert (G : gtb (fst ev) pe = true).
      { apply gtb_lt. destruct pe as [q dq], ev as [[r dr] i]. simpl in *.
        apply cmp_pair_lt. left. unfold pos_of in Hnb. simpl in Hnb.
        eapply le_lt_trans; eauto. }
      rewrite G. simpl. rewrite hit_single.
      assert (C : pcontains (span (fst pe) (pos_of ev)) g = true).
      { apply pcontains_iff. destruct (span_pos Hqe He) as [-> ->]. auto. }
      now rewrite C.
    + rewrite step_state. simpl. intros pe.
      destruct (indicator_sum st + delta_of ev =? 0); [discriminate|].
      intros [= <-]. simpl. split; [exact Hnb | exact He].
  - inversion H1 as [|? ? [Hb He] H1']; subst.
    simpl app. rewrite sweep_cons, filter_app, step_yield.
    assert (Hle : cmp g (pos_of a) <> Lt).
    { unfold before in Hb. now apply leb_nlt in Hb. }
    assert (Y : filter (hit g)
                  match prev_event st with
                  | Some pe => if gtb (fst a) pe
                               then [([span (fst pe) (pos_of a)], indicator st)]
                               else []
                  | None => []
                  end = []).
    { destruct (prev_event st) as [pe|] eqn:P; [|reflexivity].
      destruct (Hst pe eq_refl) as [Hq Hqe].
      destruct (gtb (fst a) pe); [|reflexivity].
      simpl. rewrite hit_single.
      destruct (pcontains (span (fst pe) (pos_of a)) g) eqn:C; [|reflexivity].
      apply pcontains_iff in C.
      destruct (span_pos Hqe He) as [_ E2]. rewrite E2 in C. tauto. }
    rewrite Y. simpl app. rewrite IH; [reflexivity|exact H1'|exact H2|].
    rewrite step_state. simpl. intros pe.
    destruct (indicator_sum st + delta_of a =? 0); [discriminate|].
    intros [= <-]. simpl. split; [exact Hle | exact He].
Qed.

(** *** The counters after a prefix of the scan *)

Lemma delta_sum_app (i : nat) (L L' : list (event X)) :
  delta_sum i (L ++ L') = delta_sum i L + delta_sum i L'.
Proof. induction L as [|e L IH]; simpl; [reflexivity|]. rewrite IH. lia. Qed.

Lemma delta_sum_filter_perm (i : nat) (f : event X -> bool) (L L' : list (event X)) :
  Permutation L L' -> delta_sum i (filter f L) = delta_sum i (filter f L').
Proof.
  induction 1 as [|a L L' _ IH|a b L|L L' L'' _ IH1 _ IH2]; simpl.
  - reflexivity.
  - destruct (f a); simpl; lia.
  - destruct (f a), (f b); simpl; lia.
  - lia.
Qed.

Lemma add_at_length (i : nat) (d : Z) (l : list Z) :
  length (add_at i d l) = length l.
Proof.
  revert i. induction l as [|a l IH]; intros [|i]; simpl; auto.
Qed.

Lemma add_at_nth (i j : nat) (d : Z) (l : list Z) :
  (i < length l)%nat ->
  nth i (add_at j d l) 0 = nth i l 0 + (if Nat.eqb j i then d else 0).
Proof.
  revert i j. induction l as [|a l IH]; intros i j Hi; simpl in Hi; [lia|].
  destruct j as [|j], i as [|i]; simpl; try lia.
  apply IH. lia.
Qed.

Lemma add_at_zsum (j : nat) (d : Z) (l : list Z) :
  (j < length l)%nat -> zsum (add_at j d l) = zsum l + d.
Proof.
  revert j. induction l as [|a l IH]; intros j Hj; simpl in Hj; [lia|].
  destruct j as [|j]; simpl; [lia|]. rewrite IH; lia.
Qed.

Lemma run_cons (st : sweep_state X) (e : event X) (L : list (event X)) :
  run st (e :: L) = run (snd (sweep_step st e)) L.
Proof. reflexivity. Qed.

Lemma run_length (L : list (event X)) :
  forall st, length (indicator (run st L)) = length (indicator st).
Proof.
  induction L as [|e L IH]; intros st; [reflexivity|].
  rewrite run_cons, IH, step_state. simpl. apply add_at_length.
Qed.

Lemma run_nth (i : nat) (L : list (event X)) :
  forall st, (i < length (indicator st))%nat ->
    nth i (indicator (run st L)) 0 = nth i (indicator st) 0 + delta_sum i L.
Proof.
  induction L as [|e L IH]; intros st Hi; [simpl; lia|].
  rewrite run_cons, IH; rewrite step_state; simpl.
  - rewrite add_at_nth by exact Hi. lia.
  - now rewrite add_at_length.
Qed.

Lemma run_inv (L : list (event X)) :
  forall st, sweep_inv st ->
    Forall (fun e => (id_of e < length (indicator st))%nat) L ->
    sweep_inv (run st L).
Proof.
  induction L as [|e L IH]; intros st [I1 I2] HL; [now split|].
  inversion HL as [|? ? He HL']; subst.
  rewrite run_cons. apply IH.
  - rewrite step_state. split; simpl.
    + rewrite add_at_zsum by exact He. lia.
    + destruct (indicator_sum st + delta_of e =? 0) eqn:Z0.
      * apply Z.eqb_eq in Z0. tauto.
      * apply Z.eqb_neq in Z0. split; [discriminate | tauto].
  - rewrite step_state. simpl. now rewrite add_at_length.
Qed.

End SweepFacts.
Section SweepCoverage.
Context {X : Type} `{Ord X}.

(** *** Events before a position, and coverage *)

Lemma before_mono (g : position X) (a b : event X) :
  le a b -> before g b = true -> before g a = true.
Proof.
  unfold le, before. rewrite !leb_nlt. intros Hab Hb.
  destruct a as [[pa da] ia], b as [[pb db] ib]. unfold pos_of in *. simpl in *.
  intros Hg. apply Hab. apply cmp_pair_lt. left. apply cmp_pair_lt. left.
  eapply le_lt_trans; eauto.
Qed.

Lemma gcoverage_cons (iv : InternalRealInterval X) (D : RealSet X) (g : position X) :
  gcoverage (iv :: D) g = (if pcontains iv g then 1 else 0) + gcoverage D g.
Proof.
  unfold gcoverage. simpl. destruct (pcontains iv g); simpl length; lia.
Qed.

Lemma gcoverage_nonneg (D : RealSet X) (g : position X) : 0 <= gcoverage D g.
Proof. unfold gcoverage. lia. Qed.

Lemma gcoverage_pos (D : RealSet X) (g : position X) :
  0 < gcoverage D g <-> gcontains D g = true.
Proof.
  induction D as [|iv D IH];
    [simpl; unfold gcoverage; simpl; split; [lia|discriminate]|].
  rewrite gcoverage_cons. unfold gcontains in *. cbn [existsb].
  pose proof (gcoverage_nonneg D g).
  destruct (pcontains iv g); cbn [orb].
  - split; [reflexivity | lia].
  - rewrite <- IH. lia.
Qed.

Lemma normalized_ok (D : RealSet X) :
  normalized D = true -> Forall (fun iv => interval_ok iv = true) D.
Proof.
  induction D as [|iv D IH]; intros N; [constructor|].
  simpl in N. apply andb_true_iff in N as [N N2].
  apply andb_true_iff in N as [N0 N1]. constructor; auto.
Qed.

Lemma stream_coverage (g : position X) (i j : nat) (D : RealSet X) :
  Forall (fun iv => interval_ok iv = true) D ->
  delta_sum i (filter (before g) (_iterator D j)) =
  if Nat.eqb j i then gcoverage D g else 0.
Proof.
  induction 1 as [|iv D Hok _ IH].
  - simpl. unfold gcoverage. simpl. now destruct (Nat.eqb j i).
  - rewrite gcoverage_cons. unfold _iterator in *. simpl flat_map.
    change (?a :: ?b :: ?l) with ([a; b] ++ l).
    rewrite filter_app, delta_sum_app, IH. clear IH.
    unfold pcontains. rewrite (ltb_negb_leb g (upper_pos iv)).
    assert (Hm : leb (upper_pos iv) g = true -> leb (lower_pos iv) g = true).
    { unfold interval_ok in Hok. rewrite ltb_lt in Hok. rewrite !leb_nlt.
      intros Hu Hl. apply Hu. eapply cmp_trans; eauto. }
    simpl filter. unfold before, pos_of. simpl fst.
    generalize (gcoverage D g); intros c.
    destruct (leb (lower_pos iv) g), (leb (upper_pos iv) g);
      cbn [delta_sum app andb negb]; unfold id_of, delta_of; cbn [fst snd];
      try (specialize (Hm eq_refl); discriminate);
      destruct (Nat.eqb j i); lia.
Qed.

Lemma streams_below (g : position X) (j : nat) (Ds : list (RealSet X)) :
  forall k,
    (j < k)%nat ->
    Forall (fun D => normalized D = true) Ds ->
    delta_sum j (filter (before g)
      (concat (map (fun '(i, real_set) => _iterator real_set i)
                   (enumerate_from k Ds)))) = 0.
Proof.
  induction Ds as [|D Ds IH]; intros k Hj HN; [reflexivity|].
  inversion HN as [|? ? HD HN']; subst. cbn [enumerate_from map concat].
  rewrite filter_app, delta_sum_app, IH by (auto; lia).
  rewrite stream_coverage by now apply normalized_ok.
  replace (Nat.eqb k j) with false by (symmetry; apply Nat.eqb_neq; lia).
  reflexivity.
Qed.

Lemma streams_coverage (g : position X) (Ds : list (RealSet X)) :
  forall k i,
    Forall (fun D => normalized D = true) Ds ->
    delta_sum (k + i) (filter (before g)
      (concat (map (fun '(j, real_set) => _iterator real_set j)
                   (enumerate_from k Ds)))) =
    gcoverage (nth i Ds []) g.
Proof.
  induction Ds as [|D Ds IH]; intros k i HN.
  - destruct i; reflexivity.
  - inversion HN as [|? ? HD HN']; subst. cbn [enumerate_from map concat].
    rewrite filter_app, delta_sum_app.
    rewrite stream_coverage by now apply normalized_ok.
    destruct i as [|i]; cbn [nth].
    + rewrite Nat.add_0_r, Nat.eqb_refl.
      rewrite streams_below by (auto; lia). lia.
    + replace (Nat.eqb k (k + S i)) with false
        by (symmetry; apply Nat.eqb_neq; lia).
      replace (k + S i)%nat with (S k + i)%nat by lia.
      rewrite IH by exact HN'. lia.
Qed.

Lemma iterator_events (D : RealSet X) (j : nat) (e : event X) :
  In e (_iterator D j) -> eps_ok (pos_of e) /\ id_of e = j.
Proof.
  unfold _iterator. rewrite in_flat_map. intros [iv [_ [<- | [<- | []]]]];
    unfold eps_ok, pos_of, id_of, lower_pos, upper_pos; simpl; split; auto.
  - destruct (_lower_closed iv); simpl; auto.
  - destruct (_upper_closed iv); simpl; auto.
Qed.

Lemma streams_events (Ds : list (RealSet X)) (e : event X) :
  forall k,
    In e (concat (map (fun '(j, real_set) => _iterator real_set j)
                      (enumerate_from k Ds))) ->
    eps_ok (pos_of e) /\ (id_of e < k + length Ds)%nat.
Proof.
  induction Ds as [|D Ds IH]; intros k; cbn [enumerate_from map concat].
  - intros [].
  - rewrite in_app_iff. intros [Hin | Hin].
    + apply iterator_events in Hin as [He ->]. split; [exact He | simpl; lia].
    + apply IH in Hin as [He Hid]. split; [exact He | simpl; lia].
Qed.

Lemma streams_upper_event (Ds : list (RealSet X)) (iv : InternalRealInterval X) :
  forall k i,
    (i < length Ds)%nat -> In iv (nth i Ds []) ->
    In ((upper_pos iv, -1), (k + i)%nat)
       (concat (map (fun '(j, real_set) => _iterator real_set j)
                    (enumerate_from k Ds))).
Proof.
  induction Ds as [|D Ds IH]; intros k i Hi Hin; simpl in Hi; [lia|].
  cbn [enumerate_from map concat]. apply in_app_iff.
  destruct i as [|i]; cbn [nth] in Hin.
  - left. rewrite Nat.add_0_r. unfold _iterator. apply in_flat_map.
    exists iv. split; [exact Hin | simpl; auto].
  - right. replace (k + S i)%nat with (S k + i)%nat by lia.
    apply IH; [lia | exact Hin].
Qed.

Lemma pos_lt_le (a b : event X) : cmp (pos_of a) (pos_of b) = Lt -> le a b.
Proof.
  destruct a as [[pa da] ia], b as [[pb db] ib]. unfold pos_of, le. simpl.
  intros Hlt. apply lt_le. apply cmp_pair_lt. left. apply cmp_pair_lt. now left.
Qed.

Lemma iterator_after (j : nat) (D : RealSet X) :
  forall iv, normalized (iv :: D) = true ->
    Forall (fun e => cmp (upper_pos iv) (pos_of e) = Lt) (_iterator D j).
Proof.
  induction D as [|iv' D IH]; intros iv N; [constructor|].
  cbn [normalized] in N. apply andb_true_iff in N as [N N2].
  apply andb_true_iff in N as [_ N1]. apply ltb_lt in N1.
  pose proof (IH _ N2) as IH'.
  cbn [normalized] in N2. apply andb_true_iff in N2 as [N2 _].
  apply andb_true_iff in N2 as [N2 _]. apply ltb_lt in N2.
  unfold _iterator in *. cbn [flat_map app].
  constructor; [exact N1|].
  constructor; [unfold pos_of; simpl; eapply cmp_trans; eauto|].
  eapply Forall_impl; [|exact IH']. intros e He. simpl in He.
  eapply cmp_trans; [exact N1|]. eapply cmp_trans; eauto.
Qed.

Lemma iterator_sorted (j : nat) (D : RealSet X) :
  normalized D = true -> sorted (_iterator D j).
Proof.
  induction D as [|iv D IH]; intros N; [constructor|].
  pose proof (@iterator_after j D iv N) as HA.
  cbn [normalized] in N. apply andb_true_iff in N as [N N2].
  apply andb_true_iff in N as [N0 _]. apply ltb_lt in N0.
  unfold _iterator in *. cbn [flat_map app].
  constructor; [|constructor; [|now apply IH]].
  - constructor; [now apply pos_lt_le|].
    eapply Forall_impl; [|exact HA]. intros e He. apply pos_lt_le.
    unfold pos_of at 1. simpl. eapply cmp_trans; eauto.
  - eapply Forall_impl; [|exact HA]. intros e He. now apply pos_lt_le.
Qed.

Lemma streams_sorted (Ds : list (RealSet X)) :
  forall k, Forall (fun D => normalized D = true) Ds ->
    Forall sorted (map (fun '(j, real_set) => _iterator real_set j)
                       (enumerate_from k Ds)).
Proof.
  induction Ds as [|D Ds IH]; intros k HN; [constructor|].
  inversion HN; subst. cbn [enumerate_from map].
  constructor; [now apply iterator_sorted | now apply IH].
Qed.

Lemma zsum_zero (l : list Z) :
  (forall i, (i < length l)%nat -> 0 <= nth i l 0) ->
  (zsum l = 0 <-> forall i, (i < length l)%nat -> nth i l 0 = 0).
Proof.
  induction l as [|a l IH]; intros Hn.
  - simpl. split; [intros _ i Hi; lia | reflexivity].
  - assert (Ha : 0 <= a) by (apply (Hn 0%nat); simpl; lia).
    assert (Hl : forall i, (i < length l)%nat -> 0 <= nth i l 0).
    { intros i Hi. apply (Hn (S i)). simpl; lia. }
    assert (Hs : 0 <= zsum l).
    { clear -Hl. induction l as [|b l IHl]; simpl; [lia|].
      assert (0 <= b) by (apply (Hl 0%nat); simpl; lia).
      assert (0 <= zsum l); [|lia].
      apply IHl. intros i Hi. apply (Hl (S i)). simpl; lia. }
    specialize (IH Hl). cbn [zsum]. split.
    + intros Hz [|i] Hi; simpl; [lia|]. apply IH; [lia | simpl in Hi; lia].
    + intros Hall. assert (a = 0) by (apply (Hall 0%nat); simpl; lia).
      assert (zsum l = 0); [|lia].
      apply IH. intros i Hi. apply (Hall (S i)). simpl; lia.
Qed.

Lemma filter_le1 {T} (f : T -> bool) (d : T) (l : list T) :
  (length (filter f l) <= 1)%nat ->
  forall j k, (j < k < length l)%nat ->
    f (nth j l d) = true -> f (nth k l d) = true -> False.
Proof.
  induction l as [|a l IH]; intros Hlen j k Hjk Hj Hk; simpl in Hjk; [lia|].
  destruct k as [|k]; [lia|]. simpl in Hk.
  assert (Hin : In (nth k l d) (filter f l)).
  { apply filter_In. split; [apply nth_In; lia | exact Hk]. }
  destruct j as [|j]; simpl in Hj, Hlen.
  - rewrite Hj in Hlen. simpl in Hlen.
    destruct (filter f l); [destruct Hin | simpl in Hlen; lia].
  - apply (IH) with (j := j) (k := k); auto; [|lia].
    destruct (f a); simpl in Hlen; lia.
Qed.

Lemma enumerate_from_length {T} (l : list T) :
  forall k, length (enumerate_from k l) = length l.
Proof. induction l as [|a l IH]; intros k; simpl; auto. Qed.

Lemma nth_repeat_0 (i n : nat) : nth i (repeat 0 n) 0 = 0.
Proof. revert i. induction n; intros [|i]; simpl; auto. Qed.

Lemma finest_partitions_unfold (Ds : list (RealSet X)) :
  finest_partitions Ds = sweep (start Ds) (scan_of Ds).
Proof.
  unfold finest_partitions, start, scan_of, enumerate.
  now rewrite length_map, enumerate_from_length.
Qed.

Lemma scan_of_events (Ds : list (RealSet X)) :
  Forall (fun e => eps_ok (pos_of e) /\ (id_of e < length Ds)%nat) (scan_of Ds).
Proof.
  apply Forall_forall. intros e He.
  apply (Permutation_in _ (merge_perm _)) in He.
  now apply streams_events in He.
Qed.

(** The yields of [finest_partitions] that contain a test position [g]:
    at most one, with the coverage counts of [g] as its vector. *)
Lemma finest_partitions_hits (Ds : list (RealSet X)) (g : position X) :
  Forall (fun D => normalized D = true) Ds ->
  let L1 := filter (before g) (scan_of Ds) in
  let L2 := filter (fun e => negb (before g e)) (scan_of Ds) in
  let st := run (start Ds) L1 in
  filter (hit g) (finest_partitions Ds) =
    match L2, prev_event st with
    | ev :: _, Some pe => [([span (fst pe) (pos_of ev)], indicator st)]
    | _, _ => []
    end /\
  length (indicator st) = length Ds /\
  (forall i, (i < length Ds)%nat ->
             nth i (indicator st) 0 = gcoverage (nth i Ds []) g) /\
  (prev_event st = None <->
   forall i, (i < length Ds)%nat -> gcoverage (nth i Ds []) g = 0).
Proof.
  intros HN L1 L2 st.
  pose proof (scan_of_events Ds) as HE.
  assert (Hlen : length (indicator st) = length Ds).
  { unfold st. rewrite run_length. simpl. apply repeat_length. }
  assert (Hnth : forall i, (i < length Ds)%nat ->
                   nth i (indicator st) 0 = gcoverage (nth i Ds []) g).
  { intros i Hi. unfold st. rewrite run_nth by (simpl; now rewrite repeat_length).
    simpl. rewrite nth_repeat_0. unfold L1, scan_of.
    rewrite (delta_sum_filter_perm i (before g) (merge_perm _)).
    unfold enumerate. rewrite <- (@streams_coverage g Ds 0%nat i HN). reflexivity. }
  assert (Hinv : sweep_inv st).
  { unfold st. apply run_inv; [split; simpl|].
    - clear. induction (length Ds); simpl; lia.
    - tauto.
    - simpl. rewrite repeat_length. unfold L1. apply Forall_forall.
      intros e He. apply filter_In in He as [He _].
      rewrite Forall_forall in HE. now apply HE. }
  assert (Hnn : forall k, (k < length (indicator st))%nat ->
                  0 <= nth k (indicator st) 0).
  { intros k Hk. rewrite Hnth by lia. apply gcoverage_nonneg. }
  pose proof (@zsum_zero (indicator st) Hnn) as Hz.
  repeat split; auto.
  - rewrite finest_partitions_unfold.
    rewrite (@sorted_split _ _ (before g) _ (@before_mono g)
               (merge_sorted (@streams_sorted Ds 0%nat HN))) at 1.
    fold (scan_of Ds). fold L1 L2. apply hit_split.
    + apply Forall_forall. intros e He. apply filter_In in He as [He Hb].
      rewrite Forall_forall in HE. split; [exact Hb | now apply HE].
    + apply Forall_forall. intros e He. apply filter_In in He as [He Hb].
      rewrite Forall_forall in HE. apply negb_true_iff in Hb.
      split; [exact Hb | now apply HE].
    + simpl. discriminate.
  - intros Hp i Hi. rewrite <- Hnth by exact Hi.
    destruct Hinv as [I1 I2]. apply I2 in Hp. rewrite I1 in Hp.
    apply Hz; [exact Hp | lia].
  - intros Hall. destruct Hinv as [I1 I2]. apply I2. rewrite I1.
    apply Hz. intros k Hk. rewrite Hnth by lia. apply Hall. lia.
Qed.

(** The same, read off the yields: a position is in a yielded interval
    exactly when some input covers it, in at most one yield, and the
    vector of that yield counts the covering components. *)
Lemma finest_partitions_positions (Ds : list (RealSet X)) :
  Forall (fun D => normalized D = true) Ds ->
  let out := finest_partitions Ds in
  (forall g, (exists y, In y out /\ gcontains (fst y) g = true) <->
             (exists D, In D Ds /\ gcontains D g = true)) /\
  (forall g, (length (filter (hit g) out) <= 1)%nat) /\
  (forall E v g, In (E, v) out -> gcontains E g = true ->
       length v = length Ds /\
       forall i, (i < length Ds)%nat -> nth i v 0 = gcoverage (nth i Ds []) g).
Proof.
  intros HN out. split; [|split].
  - intros g. destruct (@finest_partitions_hits Ds g HN) as (Hf & Hlen & Hnth & Hp).
    fold out in Hf. split.
    + intros [y [Hy Hc]].
      assert (Hin : In y (filter (hit g) out)) by (apply filter_In; split; auto).
      rewrite Hf in Hin.
      destruct (filter (fun e => negb (before g e)) (scan_of Ds)) as [|ev L2];
        [destruct Hin|].
      destruct (prev_event (run (start Ds) (filter (before g) (scan_of Ds))))
        as [pe|] eqn:P; [|destruct Hin].
      assert (Hex : ~ forall i, (i < length Ds)%nat ->
                      gcoverage (nth i Ds []) g = 0).
      { intros Hall. apply Hp in Hall. discriminate. }
      assert (Hsome : exists i, (i < length Ds)%nat /\
                        gcoverage (nth i Ds []) g <> 0).
      { clear -Hex. revert Hex. generalize (length Ds) as n.
        induction n as [|n IHn]; intros Hex.
        - exfalso. apply Hex. intros i Hi. lia.
        - destruct (Z.eq_dec (gcoverage (nth n Ds []) g) 0) as [E0|E0].
          + destruct IHn as [i [Hi Hc]].
            * intros Hall. apply Hex. intros i Hi.
              destruct (Nat.eq_dec i n) as [->|]; [exact E0 | apply Hall; lia].
            * exists i. split; [lia | exact Hc].
          + exists n. split; [lia | exact E0]. }
      destruct Hsome as [i [Hi Hc0]].
      exists (nth i Ds []). split; [now apply nth_In|].
      apply gcoverage_pos. pose proof (gcoverage_nonneg (nth i Ds []) g). lia.
    + intros [D [HD Hc]].
      destruct (In_nth _ _ [] HD) as [i [Hi Hi2]]. subst D.
      assert (Hpos : 0 < gcoverage (nth i Ds []) g) by now apply gcoverage_pos.
      unfold gcontains in Hc. apply existsb_exists in Hc as [iv [Hiv Hc]].
      assert (HinE : In ((upper_pos iv, -1), i) (scan_of Ds)).
      { unfold scan_of. apply (Permutation_in _ (Permutation_sym (merge_perm _))).
        apply (@streams_upper_event Ds iv 0%nat i Hi Hiv). }
      assert (HinL2 : In ((upper_pos iv, -1), i)
                         (filter (fun e => negb (before g e)) (scan_of Ds))).
      { apply filter_In. split; [exact HinE|]. apply negb_true_iff.
        unfold before, pos_of. simpl. apply leb_false.
        apply pcontains_iff in Hc. tauto. }
      destruct (filter (fun e => negb (before g e)) (scan_of Ds)) as [|ev L2];
        [destruct HinL2|].
      destruct (prev_event (run (start Ds) (filter (before g) (scan_of Ds))))
        as [pe|] eqn:P.
      * eexists. split.
        -- eapply (proj1 (filter_In (hit g) _ out)). rewrite Hf. now left.
        -- eapply (proj1 (filter_In (hit g) _ out)). rewrite Hf. now left.
      * assert (Hz : gcoverage (nth i Ds []) g = 0) by (apply Hp; auto). lia.
  - intros g.
    destruct (@finest_partitions_hits Ds g HN) as (Hf & _). fold out in Hf.
    rewrite Hf. destruct (filter _ (scan_of Ds)); [simpl; lia|].
    destruct (prev_event _); simpl; lia.
  - intros E v g Hin Hc.
    destruct (@finest_partitions_hits Ds g HN) as (Hf & Hlen & Hnth & _).
    fold out in Hf.
    assert (Hin' : In (E, v) (filter (hit g) out)) by (apply filter_In; split; auto).
    rewrite Hf in Hin'.
    destruct (filter (fun e => negb (before g e)) (scan_of Ds)) as [|ev L2];
      [destruct Hin'|].
    destruct (prev_event (run (start Ds) (filter (before g) (scan_of Ds))))
      as [pe|]; [|destruct Hin'].
    destruct Hin' as [[= <- <-]|[]]. split; auto.
Qed.

(** C1: [finest_partitions] yields intervals whose union is the union of
    the inputs, no two of which share a point, each with the coverage
    count of every input as its membership vector. *)
Theorem finest_partitions_correct (Ds : list (RealSet X)) :
  Forall (fun D => normalized D = true) Ds ->
  let out := finest_partitions Ds in
  (forall x, (exists y, In y out /\ contains (fst y) x = true) <->
             (exists D, In D Ds /\ contains D x = true)) /\
  (forall j k x, (j < k < length out)%nat ->
       contains (fst (nth j out ([], []))) x = true ->
       contains (fst (nth k out ([], []))) x = true -> False) /\
  (forall E v x, In (E, v) out -> contains E x = true ->
       length v = length Ds /\
       forall i, (i < length Ds)%nat -> nth i v 0 = coverage (nth i Ds []) x).
Proof.
  intros HN out.
  destruct (@finest_partitions_positions Ds HN) as (P1 & P2 & P3).
  fold out in P1, P2, P3. split; [|split].
  - intros x. specialize (P1 (x, 0)). split.
    + intros [y [Hy Hc]]. rewrite contains_point in Hc.
      destruct (proj1 P1 (ex_intro _ y (conj Hy Hc))) as [D [HD HcD]].
      exists D. split; [exact HD | now rewrite contains_point].
    + intros [D [HD Hc]]. rewrite contains_point in Hc.
      destruct (proj2 P1 (ex_intro _ D (conj HD Hc))) as [y [Hy Hcy]].
      exists y. split; [exact Hy | now rewrite contains_point].
  - intros j k x Hjk Hj Hk. rewrite contains_point in Hj, Hk.
    apply (@filter_le1 _ (hit (x, 0)) ([], []) out (P2 (x, 0)) j k); auto.
  - intros E v x Hin Hc. rewrite contains_point in Hc.
    destruct (P3 E v (x, 0) Hin Hc) as [Hl Hn]. split; [exact Hl|].
    intros i Hi. rewrite coverage_point. now apply Hn.
Qed.

End SweepCoverage.

Lemma finest_partitions_correct_witness :
  Forall (fun D => normalized D = true)
         [[closed 0 1; closed 4 5]; [closed_open 1 2]] /\
  let Ds := [[closed 0 1; closed 4 5]; [closed_open 1 2]] in
  let out := finest_partitions Ds in
  (forall x, (exists y, In y out /\ contains (fst y) x = true) <->
             (exists D, In D Ds /\ contains D x = true)) /\
  (forall j k x, (j < k < length out)%nat ->
       contains (fst (nth j out ([], []))) x = true ->
       contains (fst (nth k out ([], []))) x = true -> False) /\
  (forall E v x, In (E, v) out -> contains E x = true ->
       length v = length Ds /\
       forall i, (i < length Ds)%nat -> nth i v 0 = coverage (nth i Ds []) x).
Proof.
  assert (HN : Forall (fun D => normalized D = true)
                 [[closed 0 1; closed 4 5]; [closed_open 1 2]])
    by (repeat constructor).
  split; [exact HN|].
  exact (@finest_partitions_correct Z Ord_Z _ HN).
Defined.
(** ** The interval-set service: unions and disjointness *)

Ltac ord_prep :=
  repeat match goal with
  | H : ltb _ _ = true |- _ => apply ltb_lt in H
  | H : ltb _ _ = false |- _ => apply ltb_nlt in H
  | H : leb _ _ = true |- _ => apply leb_nlt in H
  | H : leb _ _ = false |- _ => apply leb_false in H
  | |- ltb _ _ = true => apply ltb_lt
  | |- ltb _ _ = false => apply ltb_nlt
  | |- leb _ _ = true => apply leb_nlt
  | |- leb _ _ = false => apply leb_false
  end.

Lemma lt_by_contra {A} `{Ord A} (a b : A) :
  (cmp a b <> Lt -> False) -> cmp a b = Lt.
Proof.
  intros Hn. destruct (cmp a b) eqn:E; [|reflexivity|];
    exfalso; apply Hn; discriminate.
Qed.

Lemma le_antisym {A} `{Ord A} (a b : A) :
  cmp a b <> Lt -> cmp b a <> Lt -> a = b.
Proof. intros H1 H2. destruct (lt_total a b) as [|[|]]; tauto. Qed.

Ltac ord_new x z :=
  lazymatch goal with
  | _ : cmp x z = Lt |- _ => fail
  | _ => idtac
  end.

Ltac ord_false :=
  exfalso;
  repeat match goal with
  | H : cmp ?x ?x = Lt |- _ => exact (lt_irrefl x H)
  | H1 : cmp ?x ?y = Lt, H2 : cmp ?y ?z = Lt |- _ =>
      ord_new x z;
      assert (cmp x z = Lt) by (eapply cmp_trans; [exact H1 | exact H2])
  | H1 : cmp ?y ?x <> Lt, H2 : cmp ?y ?z = Lt |- _ =>
      ord_new x z;
      assert (cmp x z = Lt) by (eapply le_lt_trans; [exact H1 | exact H2])
  | H1 : cmp ?x ?y = Lt, H2 : cmp ?z ?y <> Lt |- _ =>
      ord_new x z;
      assert (cmp x z = Lt) by (eapply lt_le_trans; [exact H1 | exact H2])
  end.

Ltac ord :=
  ord_prep;
  lazymatch goal with
  | |- cmp ?a ?b = Lt => first [assumption | apply lt_by_contra; intro; solve [ord_false]]
  | |- cmp ?a ?b <> Lt => intro; solve [ord_false]
  | |- False => solve [ord_false]
  | |- ?a = ?b => apply le_antisym; intro; solve [ord_false]
  end.

Section IntervalSets.
Context {X : Type} `{Ord X}.

Lemma normalized_cons (j : InternalRealInterval X) (D : RealSet X) :
  normalized (j :: D) = interval_ok j && lbb (upper_pos j) D && normalized D.
Proof. reflexivity. Qed.

Lemma hull_lower (a b : InternalRealInterval X) :
  lower_pos (hull a b) =
  if ltb (lower_pos b) (lower_pos a) then lower_pos b else lower_pos a.
Proof. unfold hull. now destruct (ltb (lower_pos b) (lower_pos a)). Qed.

Lemma hull_upper (a b : InternalRealInterval X) :
  upper_pos (hull a b) =
  if ltb (upper_pos a) (upper_pos b) then upper_pos b else upper_pos a.
Proof. unfold hull. now destruct (ltb (upper_pos a) (upper_pos b)). Qed.

Lemma hull_ok (a b : InternalRealInterval X) :
  interval_ok a = true -> interval_ok b = true -> interval_ok (hull a b) = true.
Proof.
  unfold interval_ok. intros Ha Hb. rewrite hull_lower, hull_upper.
  destruct (ltb (lower_pos b) (lower_pos a)) eqn:E1;
    destruct (ltb (upper_pos a) (upper_pos b)) eqn:E2; ord.
Qed.

Lemma hull_contains (a b : InternalRealInterval X) (g : position X) :
  ltb (upper_pos a) (lower_pos b) = false ->
  ltb (upper_pos b) (lower_pos a) = false ->
  pcontains (hull a b) g = pcontains a g || pcontains b g.
Proof.
  intros T1 T2. unfold pcontains. rewrite hull_lower, hull_upper.
  destruct (ltb (lower_pos b) (lower_pos a)) eqn:E1;
    destruct (ltb (upper_pos a) (upper_pos b)) eqn:E2;
    destruct (leb (lower_pos a) g) eqn:E3;
    destruct (leb (lower_pos b) g) eqn:E4;
    destruct (ltb g (upper_pos a)) eqn:E5;
    destruct (ltb g (upper_pos b)) eqn:E6;
    try reflexivity; exfalso; ord.
Qed.

Lemma insert_lbb (q : position X) (iv : InternalRealInterval X) (D : RealSet X) :
  normalized D = true -> lbb q D = true -> ltb q (lower_pos iv) = true ->
  lbb q (insert_interval iv D) = true.
Proof.
  revert iv. induction D as [|j D IH]; intros iv HD Hq Hiv; simpl.
  - exact Hiv.
  - rewrite normalized_cons in HD.
    apply andb_prop in HD as [HD HD3]. apply andb_prop in HD as [HD1 HD2].
    destruct (ltb (upper_pos iv) (lower_pos j)) eqn:E1; [exact Hiv|].
    destruct (ltb (upper_pos j) (lower_pos iv)) eqn:E2; [exact Hq|].
    apply IH; auto.
    + destruct D as [|j' D]; [reflexivity|]. simpl in *.
      unfold interval_ok in HD1. ord.
    + rewrite hull_lower. simpl in Hq.
      destruct (ltb (lower_pos j) (lower_pos iv)); assumption.
Qed.

Lemma insert_normalized (iv : InternalRealInterval X) (D : RealSet X) :
  interval_ok iv = true -> normalized D = true ->
  normalized (insert_interval iv D) = true.
Proof.
  revert iv. induction D as [|j D IH]; intros iv Hiv HD.
  - simpl. now rewrite Hiv.
  - pose proof HD as HD'. rewrite normalized_cons in HD.
    apply andb_prop in HD as [HD HD3]. apply andb_prop in HD as [HD1 HD2].
    simpl insert_interval.
    destruct (ltb (upper_pos iv) (lower_pos j)) eqn:E1.
    + rewrite normalized_cons. rewrite Hiv, HD'. simpl. now rewrite E1.
    + destruct (ltb (upper_pos j) (lower_pos iv)) eqn:E2.
      * rewrite normalized_cons, HD1, IH by assumption.
        rewrite insert_lbb by assumption. reflexivity.
      * apply IH; [now apply hull_ok | assumption].
Qed.

Lemma insert_contains (iv : InternalRealInterval X) (D : RealSet X) (g : position X) :
  gcontains (insert_interval iv D) g = pcontains iv g || gcontains D g.
Proof.
  revert iv. induction D as [|j D IH]; intros iv; simpl.
  - reflexivity.
  - destruct (ltb (upper_pos iv) (lower_pos j)) eqn:E1; [reflexivity|].
    destruct (ltb (upper_pos j) (lower_pos iv)) eqn:E2.
    + simpl. rewrite IH.
      destruct (pcontains j g), (pcontains iv g); reflexivity.
    + rewrite IH, hull_contains by assumption.
      now rewrite orb_assoc.
Qed.

Lemma normalized_all_ok (D : RealSet X) : normalized D = true -> all_ok D = true.
Proof.
  induction D as [|j D IH]; [reflexivity|]. rewrite normalized_cons.
  intros HD. apply andb_prop in HD as [HD HD3]. apply andb_prop in HD as [HD1 HD2].
  simpl. now rewrite HD1, IH.
Qed.

Lemma union_normalized (D1 D2 : RealSet X) :
  normalized D1 = true -> all_ok D2 = true -> normalized (union D1 D2) = true.
Proof.
  unfold union. revert D1. induction D2 as [|iv D2 IH]; intros D1 H1 H2; simpl.
  - exact H1.
  - simpl in H2. apply andb_prop in H2 as [Hiv H2].
    apply IH; [now apply insert_normalized | assumption].
Qed.

Lemma union_contains (D1 D2 : RealSet X) (g : position X) :
  gcontains (union D1 D2) g = gcontains D1 g || gcontains D2 g.
Proof.
  unfold union. revert D1. induction D2 as [|iv D2 IH]; intros D1; simpl.
  - now rewrite orb_false_r.
  - rewrite IH, insert_contains.
    destruct (pcontains iv g), (gcontains D1 g); reflexivity.
Qed.

Lemma union_of_realsets_from (Ds : list (RealSet X)) (D0 : RealSet X) :
  normalized D0 = true -> forallb all_ok Ds = true ->
  normalized (fold_left union Ds D0) = true /\
  forall g, gcontains (fold_left union Ds D0) g =
            gcontains D0 g || existsb (fun D => gcontains D g) Ds.
Proof.
  revert D0. induction Ds as [|D Ds IH]; intros D0 H0 Hs; simpl.
  - split; [exact H0 | intros g; now rewrite orb_false_r].
  - simpl in Hs. apply andb_prop in Hs as [HD Hs].
    destruct (IH (union D0 D) (union_normalized D0 D H0 HD) Hs) as [Hn Hc].
    split; [exact Hn|]. intros g. rewrite Hc, union_contains.
    now rewrite orb_assoc.
Qed.

Lemma union_of_realsets_normalized (Ds : list (RealSet X)) :
  forallb all_ok Ds = true -> normalized (union_of_realsets Ds) = true.
Proof. intros Hs. now apply (union_of_realsets_from Ds []). Qed.

Lemma union_of_realsets_contains (Ds : list (RealSet X)) (g : position X) :
  forallb all_ok Ds = true ->
  gcontains (union_of_realsets Ds) g = existsb (fun D => gcontains D g) Ds.
Proof. intros Hs. now apply (union_of_realsets_from Ds []). Qed.

(** *** A normal form is determined by its positions *)

Lemma pcontains_lower (a : InternalRealInterval X) :
  interval_ok a = true -> pcontains a (lower_pos a) = true.
Proof.
  unfold interval_ok, pcontains. intros Ha. rewrite Ha, andb_true_r.
  apply leb_nlt, lt_irrefl.
Qed.

Lemma lbb_after (q : position X) (D : RealSet X) (g : position X) :
  normalized D = true -> lbb q D = true -> gcontains D g = true ->
  cmp q g = Lt.
Proof.
  revert q. induction D as [|j D IH]; intros q HD Hq Hg; [discriminate|].
  rewrite normalized_cons in HD.
  apply andb_prop in HD as [HD HD3]. apply andb_prop in HD as [HD1 HD2].
  simpl in Hq, Hg. apply orb_prop in Hg as [Hg|Hg].
  - unfold pcontains in Hg. apply andb_prop in Hg as [G1 G2]. ord.
  - specialize (IH (upper_pos j) HD3 HD2 Hg). unfold interval_ok in HD1. ord.
Qed.

Lemma interval_pos_inj (a b : InternalRealInterval X) :
  lower_pos a = lower_pos b -> upper_pos a = upper_pos b -> a = b.
Proof.
  destruct a as [l lc u uc], b as [l' lc' u' uc']. unfold lower_pos, upper_pos.
  simpl. intros E1 E2. inversion E1; inversion E2; subst.
  destruct lc, lc', uc, uc'; simpl in *; try discriminate; reflexivity.
Qed.

Lemma normalized_canonical (D1 D2 : RealSet X) :
  normalized D1 = true -> normalized D2 = true ->
  (forall g, gcontains D1 g = gcontains D2 g) -> D1 = D2.
Proof.
  revert D2. induction D1 as [|a D1 IH]; intros [|b D2] H1 H2 Hg.
  - reflexivity.
  - rewrite normalized_cons in H2.
    apply andb_prop in H2 as [H2 _]. apply andb_prop in H2 as [Hb _].
    specialize (Hg (lower_pos b)). simpl in Hg.
    now rewrite (pcontains_lower b Hb) in Hg.
  - rewrite normalized_cons in H1.
    apply andb_prop in H1 as [H1 _]. apply andb_prop in H1 as [Ha _].
    specialize (Hg (lower_pos a)). simpl in Hg.
    now rewrite (pcontains_lower a Ha) in Hg.
  - pose proof H1 as N1. pose proof H2 as N2.
    rewrite normalized_cons in H1, H2.
    apply andb_prop in H1 as [H1 Hn1]. apply andb_prop in H1 as [Ha Hl1].
    apply andb_prop in H2 as [H2 Hn2]. apply andb_prop in H2 as [Hb Hl2].
    assert (Hlow : forall (c : InternalRealInterval X) D g,
               interval_ok c = true -> lbb (upper_pos c) D = true ->
               normalized D = true ->
               gcontains (c :: D) g = true -> cmp g (lower_pos c) <> Lt).
    { intros c D g Hc Hl Hn Hin. simpl in Hin. apply orb_prop in Hin as [Hin|Hin].
      - unfold pcontains in Hin. apply andb_prop in Hin as [G1 G2]. ord.
      - pose proof (lbb_after _ _ _ Hn Hl Hin). unfold interval_ok in Hc. ord. }
    assert (Hup : forall (c : InternalRealInterval X) D,
               lbb (upper_pos c) D = true -> normalized D = true ->
               gcontains (c :: D) (upper_pos c) = false).
    { intros c D Hl Hn. simpl. apply orb_false_intro.
      - unfold pcontains. apply andb_false_intro2. apply ltb_nlt, lt_irrefl.
      - destruct (gcontains D (upper_pos c)) eqn:E; [|reflexivity].
        pose proof (lbb_after _ _ _ Hn Hl E). exfalso. ord. }
    assert (Elo : lower_pos a = lower_pos b).
    { pose proof (Hg (lower_pos a)) as G1. pose proof (Hg (lower_pos b)) as G2.
      simpl in G1, G2.
      rewrite (pcontains_lower a Ha) in G1. rewrite (pcontains_lower b Hb) in G2.
      simpl in G1, G2.
      pose proof (Hlow b D2 (lower_pos a) Hb Hl2 Hn2 (eq_sym G1)).
      pose proof (Hlow a D1 (lower_pos b) Ha Hl1 Hn1 G2). ord. }
    assert (Ehi : upper_pos a = upper_pos b).
    { pose proof (Hup a D1 Hl1 Hn1) as U1. pose proof (Hup b D2 Hl2 Hn2) as U2.
      rewrite Hg in U1. rewrite <- Hg in U2. simpl in U1, U2.
      apply orb_false_elim in U1 as [U1 _]. apply orb_false_elim in U2 as [U2 _].
      unfold pcontains in U1, U2. rewrite <- Elo in U1. rewrite Elo in U2.
      unfold interval_ok in Ha, Hb.
      apply andb_false_elim in U1 as [U1|U1]; apply andb_false_elim in U2 as [U2|U2];
        ord. }
    assert (a = b) by now apply interval_pos_inj. subst b. f_equal.
    apply IH; auto. intros g. specialize (Hg g). simpl in Hg.
    destruct (pcontains a g) eqn:E.
    + unfold pcontains in E. apply andb_prop in E as [G1 G2].
      destruct (gcontains D1 g) eqn:E1.
      { pose proof (lbb_after _ _ _ Hn1 Hl1 E1). exfalso. ord. }
      destruct (gcontains D2 g) eqn:E2; [|reflexivity].
      pose proof (lbb_after _ _ _ Hn2 Hl2 E2). exfalso. ord.
    + exact Hg.
Qed.

(** *** Completeness of the disjointness test *)

Lemma overlap_complete (a b : InternalRealInterval X) :
  interval_ok a = true -> interval_ok b = true ->
  (forall g, pcontains a g = true -> pcontains b g = true -> False) ->
  overlap a b = false.
Proof.
  unfold interval_ok. intros Ha Hb Hd.
  destruct (overlap a b) eqn:E; [|reflexivity]. exfalso.
  unfold overlap in E. apply andb_prop in E as [E1 E2].
  destruct (ltb (lower_pos a) (lower_pos b)) eqn:E3.
  - apply (Hd (lower_pos b)); unfold pcontains; apply andb_true_intro; split; ord.
  - apply (Hd (lower_pos a)); unfold pcontains; apply andb_true_intro; split; ord.
Qed.

Lemma gcontains_in (D : RealSet X) (iv : InternalRealInterval X) (g : position X) :
  In iv D -> pcontains iv g = true -> gcontains D g = true.
Proof. intros Hin Hg. apply existsb_exists. eauto. Qed.

Lemma disjoint_complete (D1 D2 : RealSet X) :
  all_ok D1 = true -> all_ok D2 = true ->
  (forall g, gcontains D1 g = true -> gcontains D2 g = true -> False) ->
  disjoint D1 D2 = true.
Proof.
  intros H1 H2 Hd. unfold disjoint. apply forallb_forall. intros a Ha.
  apply forallb_forall. intros b Hb.
  unfold all_ok in H1, H2. rewrite forallb_forall in H1, H2.
  rewrite overlap_complete; auto.
  intros g G1 G2. apply (Hd g); eapply gcontains_in; eauto.
Qed.

Lemma pairwise_disjoint_complete (Ds : list (RealSet X)) :
  forallb all_ok Ds = true ->
  (forall i j g, (i < j < length Ds)%nat ->
     gcontains (nth i Ds []) g = true -> gcontains (nth j Ds []) g = true -> False) ->
  are_pairwise_disjoint Ds = true.
Proof.
  induction Ds as [|D Ds IH]; intros Hok Hd; [reflexivity|].
  simpl in Hok. apply andb_prop in Hok as [HD Hok]. simpl.
  apply andb_true_intro. split.
  - apply forallb_forall. intros D' HD'.
    destruct (In_nth _ _ [] HD') as [j [Hj Ej]].
    apply disjoint_complete; auto.
    + rewrite forallb_forall in Hok. now apply Hok.
    + intros g G1 G2.
      apply (Hd 0%nat (S j) g); simpl; [unfold RealSet in *; lia|assumption|].
      subst D'. exact G2.
  - apply IH; auto. intros i j g Hij G1 G2.
    apply (Hd (S i) (S j) g); simpl; [unfold RealSet in *; lia|assumption..].
Qed.

Lemma interval_eqb_eq (a b : InternalRealInterval X) :
  interval_eqb a b = true <-> a = b.
Proof.
  destruct a as [l lc u uc], b as [l' lc' u' uc']. unfold interval_eqb. simpl.
  rewrite !andb_true_iff, !eqb_eq, !Bool.eqb_true_iff. split.
  - intros [[[-> ->] ->] ->]. reflexivity.
  - intros [= -> -> -> ->]. auto.
Qed.

Lemma realset_eqb_eq (D1 D2 : RealSet X) : realset_eqb D1 D2 = true <-> D1 = D2.
Proof.
  revert D2. induction D1 as [|a D1 IH]; intros [|b D2]; simpl;
    try (split; [discriminate | congruence]); [tauto|].
  rewrite andb_true_iff, interval_eqb_eq, IH.
  split; [intros [-> ->] | intros [= -> ->]]; auto.
Qed.

Lemma overlap_sound (a b : InternalRealInterval X) (g : position X) :
  pcontains a g = true -> pcontains b g = true -> overlap a b = true.
Proof.
  rewrite !pcontains_iff. intros [A1 A2] [B1 B2].
  unfold overlap. rewrite andb_true_iff, !ltb_lt. split.
  - eapply le_lt_trans; eauto.
  - eapply le_lt_trans; eauto.
Qed.

Lemma disjoint_sound (D1 D2 : RealSet X) (g : position X) :
  disjoint D1 D2 = true ->
  gcontains D1 g = true -> gcontains D2 g = true -> False.
Proof.
  unfold disjoint, gcontains. rewrite forallb_forall, !existsb_exists.
  intros Hd [a [Ha Ca]] [b [Hb Cb]].
  specialize (Hd a Ha). rewrite forallb_forall in Hd. specialize (Hd b Hb).
  rewrite (overlap_sound a b g Ca Cb) in Hd. discriminate.
Qed.

Lemma pairwise_disjoint_sound (Ds : list (RealSet X)) (g : position X) :
  are_pairwise_disjoint Ds = true ->
  forall i j, (i < j)%nat ->
    gcontains (nth i Ds []) g = true -> gcontains (nth j Ds []) g = true ->
    False.
Proof.
  induction Ds as [|D Ds IH]; intros Hd i j Hij Ci Cj.
  - destruct i; discriminate.
  - simpl in Hd. apply andb_true_iff in Hd as [Hd1 Hd2].
    destruct j as [|j]; [lia|]. destruct i as [|i]; simpl in Ci, Cj.
    + destruct (Nat.lt_ge_cases j (length Ds)) as [Hj|Hj].
      * rewrite forallb_forall in Hd1.
        apply (disjoint_sound D (nth j Ds []) g); auto.
        apply Hd1. now apply nth_In.
      * rewrite nth_overflow in Cj by exact Hj. discriminate.
    + apply (IH Hd2 i j); auto. lia.
Qed.

End IntervalSets.
(** ** What the constructor builds *)

Lemma var_eqb_eq (v1 v2 : option string) : var_eqb v1 v2 = true <-> v1 = v2.
Proof.
  destruct v1 as [a|], v2 as [b|]; simpl; try (split; congruence).
  rewrite String.eqb_eq. split; congruence.
Qed.

Section ListFacts.
Context {T : Type}.

Lemma set_nth_length (i : nat) (v : T) (l : list T) :
  length (set_nth i v l) = length l.
Proof.
  revert i. induction l as [|a l IH]; intros [|i]; simpl; auto.
Qed.

Lemma nth_error_set_nth_eq (i : nat) (v : T) (l : list T) :
  nth_error (set_nth i v l) i =
  match nth_error l i with Some _ => Some v | None => None end.
Proof.
  revert i. induction l as [|a l IH]; intros [|i]; simpl; auto.
Qed.

Lemma nth_error_set_nth_neq (i j : nat) (v : T) (l : list T) :
  j <> i -> nth_error (set_nth i v l) j = nth_error l j.
Proof.
  revert i j. induction l as [|a l IH]; intros [|i] [|j] Hn; simpl; auto;
    try congruence.
Qed.

Lemma Forall_set_nth (P : T -> Prop) (i : nat) (v : T) (l : list T) :
  Forall P l -> P v -> Forall P (set_nth i v l).
Proof.
  intros Hl Hv. revert i. induction Hl as [|a l Ha Hl IH]; intros [|i]; simpl;
    constructor; auto.
Qed.

Lemma NoDup_snoc (l : list T) (a : T) : NoDup l -> ~ In a l -> NoDup (l ++ [a]).
Proof.
  induction 1 as [|b l Hb Hl IH]; intros Ha; simpl.
  - constructor; [intros []|constructor].
  - constructor.
    + rewrite in_app_iff. intros [Hin|[->|[]]]; [contradiction|].
      apply Ha. now left.
    + apply IH. intros Hin. apply Ha. now right.
Qed.

Lemma nth_error_nth_default (l : list T) (i : nat) (d a : T) :
  nth_error l i = Some a -> nth i l d = a.
Proof. intros E. now apply nth_error_nth. Qed.

End ListFacts.

Section ConstructorSpec.
Context {X : Type} `{Ord X} {F : Type} `{FunctionService X F}
        `{!FunctionLaws X F}.

Lemma init_point_absorb (func : F) (st : init_state X F)
  (iv : InternalRealInterval X) :
  init_point func st iv =
  absorb (constant_of (feval func (_lower iv)) func) (fun D => union D [iv]) st.
Proof.
  unfold init_point, absorb.
  destruct (dict_get (i_p st) _); reflexivity.
Qed.

Lemma init_non_point_absorb (func : F) (st : init_state X F)
  (NP : list (InternalRealInterval X)) :
  NP <> [] ->
  init_non_point func st NP =
  absorb func (fun D => union_of_realsets (D :: map (fun iv => [iv]) NP)) st.
Proof.
  intros HNP. unfold init_non_point, absorb.
  destruct NP as [|a NP]; [congruence|].
  destruct (dict_get (i_p st) func); reflexivity.
Qed.

Lemma dict_get_app (p q : list (F * nat)) (f : F) :
  dict_get (p ++ q) f =
  match dict_get p f with Some i => Some i | None => dict_get q f end.
Proof.
  induction p as [|[k i] p IH]; simpl; [reflexivity|].
  destruct (feqb k f); auto.
Qed.

Lemma init_inv_ext (st : init_state X F)
  (C C' : InternalRealInterval X -> F -> Prop) :
  (forall iv f, C iv f <-> C' iv f) -> init_inv st C -> init_inv st C'.
Proof.
  intros HC [Hlen Hdict Hnd Hnorm Hden Hkeys Hok]. constructor; auto.
  - intros j D f g Hj Hf. rewrite (Hden j D f g Hj Hf).
    split; intros [iv [Hc Hg]]; exists iv; split; auto; now apply HC.
  - intros f. rewrite Hkeys. split; intros [iv Hc]; exists iv; now apply HC.
  - intros iv f Hc. apply (Hok iv f). now apply HC.
Qed.

Lemma init_inv_var (st : init_state X F) (v : option string)
  (C : InternalRealInterval X -> F -> Prop) :
  init_inv st C ->
  init_inv (mkInit (i_domain_list st) (i_func_list st) v (i_p st)) C.
Proof. intros [Hlen Hdict Hnd Hnorm Hden Hkeys Hok]. constructor; auto. Qed.

Lemma absorb_inv (st : init_state X F)
  (C : InternalRealInterval X -> F -> Prop) (k : F)
  (U_of : RealSet X -> RealSet X) (B : list (InternalRealInterval X)) :
  init_inv st C ->
  B <> [] ->
  (forall iv, In iv B -> interval_ok iv = true) ->
  (forall D, normalized D = true ->
     normalized (U_of D) = true /\
     forall g, gcontains (U_of D) g =
               gcontains D g || existsb (fun iv => pcontains iv g) B) ->
  init_inv (absorb k U_of st) (fun iv f => (In iv B /\ f = k) \/ C iv f).
Proof.
  intros [Hlen Hdict Hnd Hnorm Hden Hkeys Hok] HB HBok HU.
  unfold absorb. pose proof (Hdict k) as Hk.
  destruct (dict_get (i_p st) k) as [i|] eqn:Ek.
  - assert (Hi : exists D0, nth_error (i_domain_list st) i = Some D0).
    { destruct (nth_error (i_domain_list st) i) as [D0|] eqn:E; [eauto|].
      apply nth_error_None in E. rewrite Hlen in E.
      apply nth_error_None in E. congruence. }
    destruct Hi as [D0 HD0].
    assert (HnD0 : normalized D0 = true).
    { rewrite Forall_forall in Hnorm. apply Hnorm. eapply nth_error_In; eauto. }
    assert (Hnth : nth i (i_domain_list st) [] = D0)
      by (apply nth_error_nth; exact HD0).
    rewrite Hnth.
    destruct (HU D0 HnD0) as [HUn HUg].
    constructor; simpl; auto.
    + now rewrite set_nth_length.
    + now apply Forall_set_nth.
    + intros j D f g Hj Hf. destruct (Nat.eq_dec j i) as [->|Hne].
      * rewrite nth_error_set_nth_eq, HD0 in Hj. injection Hj as <-.
        assert (f = k) by congruence. subst f.
        rewrite HUg, orb_true_iff, (Hden i D0 k g HD0 Hk), existsb_exists.
        split.
        -- intros [[iv [Hc Hg]]|[iv [Hin Hg]]]; exists iv; auto.
        -- intros [iv [[[Hin _]|Hc] Hg]]; [right|left]; exists iv; auto.
      * rewrite nth_error_set_nth_neq in Hj by assumption.
        rewrite (Hden j D f g Hj Hf).
        split; intros [iv [Hc Hg]]; exists iv; split; auto.
        destruct Hc as [[_ ->]|Hc]; [|exact Hc].
        exfalso. apply Hne.
        apply (proj1 (NoDup_nth_error _) Hnd); [|congruence].
        apply nth_error_Some. congruence.
    + intros f. rewrite Hkeys. split.
      * intros [iv Hc]. exists iv. now right.
      * intros [iv [[_ ->]|Hc]]; [|now exists iv].
        apply Hkeys. eapply nth_error_In; eauto.
    + intros iv f [[Hin _]|Hc]; [now apply HBok | now apply (Hok iv f)].
  - destruct (HU [] eq_refl) as [HUn HUg].
    assert (HkC : forall iv, ~ C iv k).
    { intros iv Hc. apply Hk. apply Hkeys. now exists iv. }
    constructor; simpl.
    + rewrite !length_app. simpl. now rewrite Hlen.
    + intros f. rewrite dict_get_app. pose proof (Hdict f) as Hf.
      destruct (dict_get (i_p st) f) as [i|] eqn:Ef.
      * rewrite nth_error_app1; [exact Hf|]. apply nth_error_Some. congruence.
      * simpl. destruct (feqb k f) eqn:Ekf.
        -- apply feqb_eq in Ekf. subst f.
           rewrite Hlen, nth_error_app2, Nat.sub_diag by lia. reflexivity.
        -- rewrite in_app_iff. intros [Hin|[->|[]]]; [contradiction|].
           assert (feqb f f = true) by now apply feqb_eq. congruence.
    + now apply NoDup_snoc.
    + apply Forall_app. split; [assumption|]. constructor; [assumption|constructor].
    + intros j D f g Hj Hf.
      destruct (Nat.lt_ge_cases j (length (i_domain_list st))) as [Hlt|Hge].
      * rewrite nth_error_app1 in Hj by assumption.
        rewrite nth_error_app1 in Hf by (rewrite <- Hlen; assumption).
        rewrite (Hden j D f g Hj Hf).
        split; intros [iv [Hc Hg]]; exists iv; split; auto.
        destruct Hc as [[_ ->]|Hc]; [|exact Hc].
        exfalso. apply Hk. eapply nth_error_In; eauto.
      * assert (j = length (i_domain_list st)).
        { assert (j < length (i_domain_list st ++ [U_of []]))%nat
            by (apply nth_error_Some; congruence).
          rewrite length_app in *. simpl in *. lia. }
        subst j. rewrite nth_error_app2, Nat.sub_diag in Hj by lia.
        rewrite Hlen in Hf. rewrite nth_error_app2, Nat.sub_diag in Hf by lia.
        simpl in Hj, Hf. injection Hj as <-. injection Hf as <-.
        rewrite HUg. simpl. rewrite existsb_exists.
        split.
        -- intros [iv [Hin Hg]]. exists iv. auto.
        -- intros [iv [[[Hin _]|Hc] Hg]]; [now exists iv|].
           exfalso. now apply (HkC iv).
    + intros f. rewrite in_app_iff, Hkeys. split.
      * intros [[iv Hc]|[->|[]]]; [exists iv; now right|].
        destruct B as [|b B]; [congruence|]. exists b. left. split; [now left|reflexivity].
      * intros [iv [[_ ->]|Hc]]; [right; now left | left; now exists iv].
    + intros iv f [[Hin _]|Hc]; [now apply HBok | now apply (Hok iv f)].
Qed.

Lemma absorb_var (k : F) (U_of : RealSet X -> RealSet X) (st : init_state X F) :
  i_var (absorb k U_of st) = i_var st.
Proof. unfold absorb. now destruct (dict_get (i_p st) k). Qed.

Lemma absorb_funcs (P : F -> Prop) (k : F) (U_of : RealSet X -> RealSet X)
  (st : init_state X F) :
  Forall P (i_func_list st) -> P k -> Forall P (i_func_list (absorb k U_of st)).
Proof.
  intros Hfl Hk. unfold absorb. destruct (dict_get (i_p st) k); simpl; auto.
  apply Forall_app. split; auto.
Qed.

Lemma fvar_constant_of (c : X) (h : F) : fvar (constant_of c h) = fvar h.
Proof.
  unfold constant_of. now rewrite fvar_add, fvar_const, fvar_mul, fvar_const.
Qed.

Lemma fvar_key_of (h : F) (iv : InternalRealInterval X) :
  fvar (key_of h iv) = fvar h.
Proof. unfold key_of. destruct (is_point iv); [apply fvar_constant_of|reflexivity]. Qed.

Lemma union_point_spec (a : InternalRealInterval X) (D : RealSet X) :
  interval_ok a = true -> normalized D = true ->
  normalized (union D [a]) = true /\
  forall g, gcontains (union D [a]) g =
            gcontains D g || existsb (fun iv => pcontains iv g) [a].
Proof.
  intros Ha HD. split.
  - apply union_normalized; [assumption|]. simpl. now rewrite Ha.
  - intros g. exact (union_contains D [a] g).
Qed.

Lemma existsb_singletons (NP : list (InternalRealInterval X)) (g : position X) :
  existsb (fun D => gcontains D g) (map (fun iv => [iv]) NP) =
  existsb (fun iv => pcontains iv g) NP.
Proof.
  induction NP as [|a NP IH]; [reflexivity|]. simpl. rewrite IH.
  now rewrite orb_false_r.
Qed.

Lemma union_batch_spec (NP : list (InternalRealInterval X)) (D : RealSet X) :
  all_ok NP = true -> normalized D = true ->
  normalized (union_of_realsets (D :: map (fun iv => [iv]) NP)) = true /\
  forall g, gcontains (union_of_realsets (D :: map (fun iv => [iv]) NP)) g =
            gcontains D g || existsb (fun iv => pcontains iv g) NP.
Proof.
  intros HNP HD.
  assert (Hok : forallb all_ok (D :: map (fun iv => [iv]) NP) = true).
  { simpl. rewrite (normalized_all_ok D HD). simpl.
    apply forallb_forall. intros D' HD'. apply in_map_iff in HD' as [iv [<- Hiv]].
    unfold all_ok in *. simpl. rewrite forallb_forall in HNP.
    now rewrite (HNP iv Hiv). }
  split.
  - now apply union_of_realsets_normalized.
  - intros g. rewrite union_of_realsets_contains by assumption.
    simpl. now rewrite existsb_singletons.
Qed.

Lemma points_fold (h : F) (v : string) (Dl : RealSet X) (st : init_state X F)
  (C : InternalRealInterval X -> F -> Prop) :
  init_inv st C -> all_ok Dl = true -> fvar h = v ->
  Forall (fun f => fvar f = v) (i_func_list st) ->
  let st' := fold_left (fun s iv => if is_point iv then init_point h s iv else s)
                       Dl st in
  init_inv st'
    (fun iv f => (In iv Dl /\ is_point iv = true /\ f = key_of h iv) \/ C iv f) /\
  i_var st' = i_var st /\
  Forall (fun f => fvar f = v) (i_func_list st').
Proof.
  revert st C. induction Dl as [|a Dl IH]; intros st C Hinv Hok Hv Hfl; simpl.
  - split; [|split; auto].
    apply (init_inv_ext (C := C)); [|assumption]. intros iv f. tauto.
  - simpl in Hok. apply andb_prop in Hok as [Ha Hok].
    destruct (is_point a) eqn:Ept.
    + rewrite init_point_absorb.
      set (k := constant_of (feval h (_lower a)) h).
      assert (Hk : key_of h a = k) by (unfold key_of; now rewrite Ept).
      assert (Hinv1 := @absorb_inv st C k (fun D => union D [a]) [a] Hinv
                         ltac:(discriminate)
                         ltac:(intros iv [<-|[]]; exact Ha)
                         (fun D0 HD0 => @union_point_spec a D0 Ha HD0)).
      assert (Hfl1 : Forall (fun f => fvar f = v)
                       (i_func_list (absorb k (fun D => union D [a]) st))).
      { apply absorb_funcs; [assumption|]. unfold k. now rewrite fvar_constant_of. }
      destruct (IH _ _ Hinv1 Hok Hv Hfl1) as [I1 [I2 I3]].
      split; [|split; [now rewrite I2, absorb_var | exact I3]].
      eapply init_inv_ext; [|exact I1]. intros iv f. simpl. split.
      * intros [[Hin [Hp ->]]|[[[<-|[]] ->]|Hc]]; auto;
          try (left; rewrite Hk; now auto).
      * intros [[[<-|Hin] [Hp ->]]|Hc]; auto;
          try (right; left; rewrite Hk; now auto).
    + destruct (IH _ _ Hinv Hok Hv Hfl) as [I1 [I2 I3]].
      split; [|split; assumption].
      eapply init_inv_ext; [|exact I1]. intros iv f. simpl. split.
      * intros [[Hin [Hp ->]]|Hc]; auto.
      * intros [[[<-|Hin] [Hp ->]]|Hc]; auto. congruence.
Qed.

Lemma filter_nil_all {T} (P : T -> bool) (l : list T) :
  filter P l = [] -> forall a, In a l -> P a = false.
Proof.
  intros E a Ha. destruct (P a) eqn:Ep; [|reflexivity].
  assert (In a (filter P l)) by (apply filter_In; auto).
  rewrite E in *. contradiction.
Qed.

Lemma init_piece_spec (st : init_state X F)
  (C : InternalRealInterval X -> F -> Prop) (v : string)
  (D : RealSet X) (h : F) :
  init_inv st C -> var_inv st C v -> all_ok D = true -> fvar h = v ->
  exists st', init_piece st (D, PyPoly h) = Ok st' /\
    init_inv st' (fun iv f => (In iv D /\ f = key_of h iv) \/ C iv f) /\
    var_inv st' (fun iv f => (In iv D /\ f = key_of h iv) \/ C iv f) v.
Proof.
  intros Hinv [Hfl Hvar] Hok Hv. unfold init_piece.
  destruct D as [|a D'] eqn:ED.
  - simpl. exists st. split; [reflexivity|]. split.
    + apply (init_inv_ext (C := C)); [|assumption]. intros iv f. simpl. tauto.
    + split; [assumption|]. destruct Hvar as [[E Hn]|[E [iv [f Hc]]]].
      * left. split; [assumption|]. intros iv f [[[] _]|Hc]. now apply (Hn iv f).
      * right. split; [assumption|]. exists iv, f. now right.
  - rewrite <- ED in *. replace (is_empty D) with false by now rewrite ED.
    assert (Hchk : match i_var st with
                   | None => Ok (Some (fvar h))
                   | Some v0 => if String.eqb (fvar h) v0 then Ok (Some v0)
                                else Raise InconsistentVariable
                   end = Ok (Some v)).
    { destruct Hvar as [[E _]|[E _]]; rewrite E, Hv; [reflexivity|].
      now rewrite String.eqb_refl. }
    rewrite Hchk. clear Hchk.
    set (st1 := mkInit (i_domain_list st) (i_func_list st) (Some v) (i_p st)).
    assert (Hinv1 : init_inv st1 C) by now apply init_inv_var.
    destruct (@points_fold h v D st1 C Hinv1 Hok Hv Hfl) as [I1 [I2 I3]].
    set (st2 := fold_left (fun s iv => if is_point iv then init_point h s iv else s)
                          D st1) in *.
    set (NP := filter (fun interval => negb (is_point interval)) D).
    assert (HaD : In a D) by (rewrite ED; now left).
    assert (Hexists : exists iv f, (In iv D /\ f = key_of h iv) \/ C iv f).
    { exists a, (key_of h a). now left. }
    destruct NP as [|b NP'] eqn:ENP.
    + exists st2. split; [reflexivity|]. split; [|split].
      * eapply init_inv_ext; [|exact I1]. intros iv f. simpl. split.
        -- intros [[Hin [_ ->]]|Hc]; auto.
        -- intros [[Hin ->]|Hc]; auto. left. split; [assumption|]. split; [|reflexivity].
           pose proof (filter_nil_all _ _ ENP iv Hin) as Hp. simpl in Hp.
           now destruct (is_point iv).
      * assumption.
      * right. split; [now rewrite I2|assumption].
    + rewrite <- ENP in *.
      assert (HNPne : NP <> []) by (rewrite ENP; discriminate).
      rewrite (init_non_point_absorb h st2 HNPne).
      assert (HNPok : all_ok NP = true).
      { unfold all_ok in *. apply forallb_forall. intros iv Hiv.
        rewrite forallb_forall in Hok. apply Hok.
        unfold NP in Hiv. now apply filter_In in Hiv. }
      assert (Hinv2 := @absorb_inv st2 _ h
                 (fun D0 => union_of_realsets (D0 :: map (fun iv => [iv]) NP)) NP
                 I1 HNPne
                 ltac:(intros iv Hiv; unfold all_ok in HNPok;
                       rewrite forallb_forall in HNPok; now apply HNPok)
                 (fun D0 HD0 => @union_batch_spec NP D0 HNPok HD0)).
      eexists. split; [reflexivity|]. split; [|split].
      * eapply init_inv_ext; [|exact Hinv2]. intros iv f. simpl. split.
        -- intros [[Hin ->]|[[Hin [Hp ->]]|Hc]]; auto.
           unfold NP in Hin. apply filter_In in Hin as [Hin Hp].
           left. split; [assumption|]. unfold key_of.
           now destruct (is_point iv).
        -- intros [[Hin ->]|Hc]; auto. destruct (is_point iv) eqn:Ep.
           ++ right. left. auto.
           ++ left. split; [|unfold key_of; now rewrite Ep].
              unfold NP. apply filter_In. split; [assumption|now rewrite Ep].
      * apply absorb_funcs; assumption.
      * right. split; [now rewrite absorb_var, I2|assumption].
Qed.

Lemma init_loop_spec (pieces : list (RealSet X * pyval F))
  (st : init_state X F) (C : InternalRealInterval X -> F -> Prop) (v : string) :
  init_inv st C -> var_inv st C v -> pieces_ok v pieces ->
  exists st', init_loop st pieces = Ok st' /\
    init_inv st' (fun iv f => comp_of pieces iv f \/ C iv f) /\
    var_inv st' (fun iv f => comp_of pieces iv f \/ C iv f) v.
Proof.
  revert st C. induction pieces as [|[D func] pieces IH]; intros st C Hinv Hvar Hok.
  - exists st. split; [reflexivity|].
    assert (E : forall iv f, C iv f <-> comp_of [] iv f \/ C iv f).
    { intros iv f. split; [now right|]. intros [[D [h [[] _]]]|Hc]. exact Hc. }
    split; [eapply init_inv_ext; [exact E|assumption]|].
    destruct Hvar as [Hfl Hv]. split; [assumption|].
    destruct Hv as [[E1 Hn]|[E1 [iv [f Hc]]]].
    + left. split; [assumption|]. intros iv f Hc. apply (Hn iv f). now apply E.
    + right. split; [assumption|]. exists iv, f. now apply E.
  - destruct (Hok D func (or_introl eq_refl)) as [HD [h [-> Hv]]].
    destruct (@init_piece_spec st C v D h Hinv Hvar HD Hv) as [st1 [E1 [Hinv1 Hvar1]]].
    cbn [init_loop]. rewrite E1.
    destruct (IH st1 _ Hinv1 Hvar1) as [st2 [E2 [Hinv2 Hvar2]]].
    { intros D' func' Hin. apply Hok. now right. }
    exists st2. split; [assumption|].
    assert (E : forall iv f,
               comp_of pieces iv f \/ ((In iv D /\ f = key_of h iv) \/ C iv f) <->
               comp_of ((D, PyPoly h) :: pieces) iv f \/ C iv f).
    { intros iv f. unfold comp_of. split.
      - intros [[D' [h' [Hin [Hiv ->]]]]|[[Hiv ->]|Hc]]; auto.
        + left. exists D', h'. split; [now right|auto].
        + left. exists D, h. split; [now left|auto].
      - intros [[D' [h' [[Hin|Hin] [Hiv ->]]]]|Hc]; auto.
        + injection Hin as <- <-. auto.
        + left. exists D', h'. auto. }
    split; [eapply init_inv_ext; [exact E|assumption]|].
    destruct Hvar2 as [Hfl2 Hv2]. split; [assumption|].
    destruct Hv2 as [[E3 Hn]|[E3 [iv [f Hc]]]].
    + left. split; [assumption|]. intros iv f Hc. apply (Hn iv f). now apply E.
    + right. split; [assumption|]. exists iv, f. now apply E.
Qed.

End ConstructorSpec.
Section CombineFacts.
Context {S T : Type}.

Lemma in_combine_nth (l : list S) (l' : list T) (a : S) (b : T) :
  In (a, b) (combine l l') ->
  exists j, nth_error l j = Some a /\ nth_error l' j = Some b.
Proof.
  revert l'. induction l as [|x l IH]; intros [|y l'] Hin; simpl in *;
    try contradiction.
  destruct Hin as [E|Hin].
  - injection E as -> ->. now exists 0%nat.
  - destruct (IH l' Hin) as [j Hj]. now exists (Datatypes.S j).
Qed.

Lemma nth_combine_in (l : list S) (l' : list T) (j : nat) (a : S) (b : T) :
  nth_error l j = Some a -> nth_error l' j = Some b -> In (a, b) (combine l l').
Proof.
  revert l l'. induction j as [|j IH]; intros [|x l] [|y l'] Ha Hb; simpl in *;
    try discriminate.
  - left. congruence.
  - right. now apply IH.
Qed.

Lemma map_fst_combine (l : list S) (l' : list T) :
  length l = length l' -> map fst (combine l l') = l.
Proof.
  revert l'. induction l as [|x l IH]; intros [|y l'] E; simpl in *;
    try discriminate; [reflexivity|]. f_equal. apply IH. congruence.
Qed.

Lemma map_snd_combine (l : list S) (l' : list T) :
  length l = length l' -> map snd (combine l l') = l'.
Proof.
  revert l'. induction l as [|x l IH]; intros [|y l'] E; simpl in *;
    try discriminate; [reflexivity|]. f_equal. apply IH. congruence.
Qed.

End CombineFacts.

Section ConstructorResult.
Context {X : Type} `{Ord X} {F : Type} `{FunctionService X F}
        `{!FunctionLaws X F}.

Lemma init_inv_start :
  init_inv (mkInit (X := X) (F := F) [] [] None []) (fun _ _ => False).
Proof.
  constructor; simpl.
  - reflexivity.
  - intros f []. 
  - constructor.
  - constructor.
  - intros [|j] D f g; discriminate.
  - intros f. split; [intros [] | intros [_ []]].
  - intros _ _ [].
Qed.

Lemma normalized_forall_ok (Ds : list (RealSet X)) :
  Forall (fun D => normalized D = true) Ds -> forallb all_ok Ds = true.
Proof.
  intros Hn. apply forallb_forall. intros D HD.
  rewrite Forall_forall in Hn. now apply normalized_all_ok, Hn.
Qed.

Lemma nth_nth_error (Ds : list (RealSet X)) (i : nat) :
  (i < length Ds)%nat -> nth_error Ds i = Some (nth i Ds []).
Proof. intros Hi. now apply nth_error_nth'. Qed.

Theorem init_spec (pieces : list (RealSet X * pyval F)) (v : string) :
  pieces_ok v pieces -> consistent pieces ->
  exists A, __init__ pieces = Ok A /\ wf A /\
    (forall f, In f (func_list A) -> exists iv, comp_of pieces iv f) /\
    (forall iv f g, comp_of pieces iv f -> pcontains iv g = true ->
                    piece_at A g = Some f) /\
    (forall g, gcontains (support A) g = true <->
               exists iv f, comp_of pieces iv f /\ pcontains iv g = true) /\
    (func_list A <> [] -> var A = Some v).
Proof.
  intros Hok Hcons.
  assert (Hv0 : var_inv (mkInit (X := X) (F := F) [] [] None [])
                        (fun _ _ => False) v).
  { split; [constructor|]. left. split; [reflexivity|]. intros _ _ []. }
  destruct (init_loop_spec init_inv_start Hv0 Hok) as [st [Eloop [Hinv0 Hvar0]]].
  assert (EC : forall iv f, comp_of pieces iv f \/ False <-> comp_of pieces iv f)
    by (intros; tauto).
  assert (Hinv : init_inv st (comp_of pieces))
    by (eapply init_inv_ext; [exact EC|exact Hinv0]).
  assert (Hvar : Forall (fun f => fvar f = v) (i_func_list st) /\
                 ((i_var st = None /\ forall iv f, ~ comp_of pieces iv f) \/
                  (i_var st = Some v /\ exists iv f, comp_of pieces iv f))).
  { destruct Hvar0 as [Hfl Hv]. split; [assumption|].
    destruct Hv as [[E Hn]|[E [iv [f Hc]]]].
    - left. split; [assumption|]. intros iv f Hc. apply (Hn iv f). now left.
    - right. split; [assumption|]. exists iv, f. now apply EC. }
  clear Hinv0 Hvar0 EC Hv0.
  destruct Hinv as [Hlen Hdict Hnd Hnorm Hden Hkeys Hiok].
  assert (Hdisj : forall i j g, (i < j < length (i_domain_list st))%nat ->
             gcontains (nth i (i_domain_list st) []) g = true ->
             gcontains (nth j (i_domain_list st) []) g = true -> False).
  { intros i j g Hij G1 G2.
    assert (Hi : (i < length (i_func_list st))%nat) by lia.
    assert (Hj : (j < length (i_func_list st))%nat) by lia.
    destruct (nth_error (i_func_list st) i) as [fi|] eqn:Efi;
      [|apply nth_error_None in Efi; lia].
    destruct (nth_error (i_func_list st) j) as [fj|] eqn:Efj;
      [|apply nth_error_None in Efj; lia].
    assert (Hi' : (i < length (i_domain_list st))%nat) by lia.
    assert (Hj' : (j < length (i_domain_list st))%nat) by lia.
    apply (Hden i _ fi g (@nth_nth_error (i_domain_list st) i Hi') Efi)
      in G1 as [iv1 [C1 P1]].
    apply (Hden j _ fj g (@nth_nth_error (i_domain_list st) j Hj') Efj)
      in G2 as [iv2 [C2 P2]].
    assert (fi = fj) by (eapply Hcons; eauto). subst fj.
    assert (i = j); [|lia].
    apply (proj1 (NoDup_nth_error _) Hnd); [assumption|congruence]. }
  assert (Hpd : are_pairwise_disjoint (i_domain_list st) = true).
  { apply pairwise_disjoint_complete; [now apply normalized_forall_ok|assumption]. }
  unfold __init__. rewrite Eloop, Hpd. simpl.
  eexists. split; [reflexivity|].
  assert (Hden' : forall D f g, In (D, f) (combine (i_domain_list st) (i_func_list st)) ->
             gcontains D g = true ->
             exists iv, comp_of pieces iv f /\ pcontains iv g = true).
  { intros D f g Hin Hg. destruct (in_combine_nth _ _ _ _ Hin) as [j [E1 E2]].
    now apply (Hden j D f g E1 E2). }
  split; [|split; [|split; [|split]]].
  - constructor; simpl; auto.
    + intros D HD. destruct (In_nth_error _ _ HD) as [j Ej].
      destruct (nth_error (i_func_list st) j) as [f|] eqn:Ef.
      * destruct (proj1 (Hkeys f) (nth_error_In _ _ Ef)) as [iv Hc].
        assert (Hg : gcontains D (lower_pos iv) = true).
        { apply (Hden j D f _ Ej Ef). exists iv. split; [assumption|].
          apply pcontains_lower. now apply (Hiok iv f). }
        intros ->. discriminate.
      * apply nth_error_None in Ef. rewrite <- Hlen in Ef.
        apply nth_error_None in Ef. congruence.
    + destruct Hvar as [Hfl [[E Hn]|[E [iv [f Hc]]]]]; rewrite E.
      * destruct (i_func_list st) as [|f fl]; [reflexivity|].
        destruct (proj1 (Hkeys f) (or_introl eq_refl)) as [iv Hc].
        now apply Hn in Hc.
      * split; [|assumption]. intros Efl.
        assert (Hin : In f (i_func_list st)) by (apply Hkeys; now exists iv).
        now rewrite Efl in Hin.
  - simpl. intros f Hf. now apply Hkeys.
  - intros iv f g Hc Hg. unfold piece_at, __iter__. simpl.
    assert (Hf : In f (i_func_list st)) by (apply Hkeys; now exists iv).
    destruct (In_nth_error _ _ Hf) as [j Ej].
    destruct (nth_error (i_domain_list st) j) as [D|] eqn:ED.
    2:{ apply nth_error_None in ED. rewrite Hlen in ED.
        apply nth_error_None in ED. congruence. }
    assert (HgD : gcontains D g = true).
    { apply (Hden j D f g ED Ej). now exists iv. }
    destruct (find _ _) as [[D' f']|] eqn:Efind.
    + apply find_some in Efind as [Hin Hg'].
      destruct (Hden' D' f' g Hin Hg') as [iv' [Hc' Hp']].
      f_equal. eapply Hcons; eauto.
    + pose proof (find_none _ _ Efind (D, f) (nth_combine_in _ _ _ ED Ej)) as Hn.
      simpl in Hn. congruence.
  - intros g. simpl.
    rewrite union_of_realsets_contains by now apply normalized_forall_ok.
    rewrite existsb_exists. split.
    + intros [D [HD Hg]]. destruct (In_nth_error _ _ HD) as [j Ej].
      destruct (nth_error (i_func_list st) j) as [f|] eqn:Ef.
      * destruct (proj1 (Hden j D f g Ej Ef) Hg) as [iv [Hc Hp]]. now exists iv, f.
      * apply nth_error_None in Ef. rewrite <- Hlen in Ef.
        apply nth_error_None in Ef. congruence.
    + intros [iv [f [Hc Hp]]].
      assert (Hf : In f (i_func_list st)) by (apply Hkeys; now exists iv).
      destruct (In_nth_error _ _ Hf) as [j Ej].
      destruct (nth_error (i_domain_list st) j) as [D|] eqn:ED.
      2:{ apply nth_error_None in ED. rewrite Hlen in ED.
          apply nth_error_None in ED. congruence. }
      exists D. split; [eapply nth_error_In; eauto|].
      apply (Hden j D f g ED Ej). now exists iv.
  - simpl. intros Hne. destruct Hvar as [Hfl [[E Hn]|[E _]]]; [|assumption].
    exfalso. destruct (i_func_list st) as [|f fl]; [congruence|].
    destruct (proj1 (Hkeys f) (or_introl eq_refl)) as [iv Hc].
    now apply Hn in Hc.
Qed.

End ConstructorResult.
Section PieceFacts.
Context {X : Type} `{Ord X} {F : Type} `{FunctionService X F}
        `{!FunctionLaws X F}.

Lemma bool_eq_iff (a b : bool) : (a = true <-> b = true) -> a = b.
Proof.
  destruct a, b; intros [H1 H2]; try reflexivity;
    [symmetry; now apply H1 | now apply H2].
Qed.

Lemma normalized_unique (D : RealSet X) (iv1 iv2 : InternalRealInterval X)
  (g : position X) :
  normalized D = true -> In iv1 D -> In iv2 D ->
  pcontains iv1 g = true -> pcontains iv2 g = true -> iv1 = iv2.
Proof.
  induction D as [|a D IH]; intros HD H1 H2 P1 P2; [destruct H1|].
  rewrite normalized_cons in HD.
  apply andb_prop in HD as [HD HDn]. apply andb_prop in HD as [Ha HDl].
  destruct H1 as [<-|H1], H2 as [<-|H2]; auto.
  - pose proof (lbb_after _ _ _ HDn HDl (gcontains_in _ _ _ H2 P2)).
    unfold pcontains in P1. apply andb_prop in P1 as [_ P1]. exfalso. ord.
  - pose proof (lbb_after _ _ _ HDn HDl (gcontains_in _ _ _ H1 P1)).
    unfold pcontains in P2. apply andb_prop in P2 as [_ P2]. exfalso. ord.
Qed.

Lemma gcontains_exists (D : RealSet X) (g : position X) :
  gcontains D g = true <-> exists iv, In iv D /\ pcontains iv g = true.
Proof. unfold gcontains. apply existsb_exists. Qed.

Lemma piece_at_some (A : PiecewiseFunction X F) (g : position X) (f : F) :
  piece_at A g = Some f ->
  exists j D, nth_error (domain_list A) j = Some D /\
              nth_error (func_list A) j = Some f /\ gcontains D g = true.
Proof.
  unfold piece_at. destruct (find _ _) as [[D f']|] eqn:E; [|discriminate].
  intros [= <-]. apply find_some in E as [Hin Hg].
  destruct (in_combine_nth _ _ _ _ Hin) as [j [E1 E2]]. exists j, D. auto.
Qed.

Lemma piece_at_unique (A : PiecewiseFunction X F) (j : nat) (D : RealSet X)
  (f : F) (g : position X) :
  wf A ->
  nth_error (domain_list A) j = Some D -> nth_error (func_list A) j = Some f ->
  gcontains D g = true -> piece_at A g = Some f.
Proof.
  intros W ED Ef Hg.
  destruct (piece_at A g) as [f'|] eqn:E.
  - destruct (piece_at_some _ _ E) as [j' [D' [ED' [Ef' Hg']]]].
    destruct (Nat.eq_dec j j') as [->|Hne]; [congruence|]. exfalso.
    assert (Hj : (j < length (domain_list A))%nat)
      by (apply nth_error_Some; congruence).
    assert (Hj' : (j' < length (domain_list A))%nat)
      by (apply nth_error_Some; congruence).
    assert (N1 : nth j (domain_list A) [] = D) by (now apply nth_error_nth).
    assert (N2 : nth j' (domain_list A) [] = D') by (now apply nth_error_nth).
    destruct (Nat.lt_ge_cases j j').
    + apply (@wf_disj _ _ _ _ _ W j j' g); [lia|now rewrite N1|now rewrite N2].
    + apply (@wf_disj _ _ _ _ _ W j' j g); [lia|now rewrite N2|now rewrite N1].
  - exfalso. unfold piece_at in E.
    destruct (find _ _) as [[D' f']|] eqn:Efind; [discriminate|].
    pose proof (find_none _ _ Efind (D, f) (nth_combine_in _ _ _ ED Ef)) as Hn.
    simpl in Hn. congruence.
Qed.

Lemma piece_at_in (A : PiecewiseFunction X F) (g : position X) (f : F) :
  piece_at A g = Some f -> In f (func_list A).
Proof.
  intros E. destruct (piece_at_some _ _ E) as [j [D [_ [Ef _]]]].
  eapply nth_error_In; eauto.
Qed.

Lemma wf_all_ok (A : PiecewiseFunction X F) :
  wf A -> forallb all_ok (domain_list A) = true.
Proof. intros W. apply normalized_forall_ok, (wf_norm W). Qed.

Lemma support_contains (A : PiecewiseFunction X F) (g : position X) :
  wf A ->
  gcontains (support A) g = existsb (fun D => gcontains D g) (domain_list A).
Proof.
  intros W. rewrite (wf_support W).
  apply union_of_realsets_contains, wf_all_ok, W.
Qed.

Lemma support_normalized (A : PiecewiseFunction X F) :
  wf A -> normalized (support A) = true.
Proof.
  intros W. rewrite (wf_support W).
  apply union_of_realsets_normalized, wf_all_ok, W.
Qed.

Lemma support_piece (A : PiecewiseFunction X F) (g : position X) :
  wf A ->
  (gcontains (support A) g = true <-> exists f, piece_at A g = Some f).
Proof.
  intros W. rewrite support_contains by assumption. rewrite existsb_exists. split.
  - intros [D [HD Hg]]. destruct (In_nth_error _ _ HD) as [j Ej].
    destruct (nth_error (func_list A) j) as [f|] eqn:Ef.
    + exists f. eapply piece_at_unique; eauto.
    + apply nth_error_None in Ef. rewrite <- (wf_len W) in Ef.
      apply nth_error_None in Ef. congruence.
  - intros [f E]. destruct (piece_at_some _ _ E) as [j [D [ED [_ Hg]]]].
    exists D. split; [eapply nth_error_In; eauto|assumption].
Qed.

Lemma wf_fvar (A : PiecewiseFunction X F) (v : string) (f : F) :
  wf A -> var A = Some v -> In f (func_list A) -> fvar f = v.
Proof.
  intros W Ev Hf. pose proof (wf_var W) as Hv. rewrite Ev in Hv.
  destruct Hv as [_ Hall]. rewrite Forall_forall in Hall. now apply Hall.
Qed.

(** *** Points and the positions after them *)

Lemma b2z_cases (b : bool) : Z.b2z b = 0 \/ Z.b2z b = 1.
Proof. destruct b; auto. Qed.

Lemma pcontains_pair (iv : InternalRealInterval X) (x : X) (e : Z) :
  pcontains iv (x, e) = true <->
  (cmp (_lower iv) x = Lt \/ (_lower iv = x /\ 1 - Z.b2z (_lower_closed iv) <= e)) /\
  (cmp x (_upper iv) = Lt \/ (x = _upper iv /\ e < Z.b2z (_upper_closed iv))).
Proof.
  rewrite pcontains_iff. unfold lower_pos, upper_pos.
  rewrite (cmp_pair_lt x (_upper iv)), cmp_Z, Z.compare_lt_iff.
  assert (E : cmp (x, e) (_lower iv, 1 - Z.b2z (_lower_closed iv)) <> Lt <->
              (cmp (_lower iv) x = Lt \/
               (_lower iv = x /\ 1 - Z.b2z (_lower_closed iv) <= e))).
  { rewrite (cmp_pair_lt x (_lower iv)), cmp_Z, Z.compare_lt_iff.
    destruct (lt_total (_lower iv) x) as [Hlt|[Heq|Hgt]].
    - split; [auto|]. intros _ [Hc|[Hc _]].
      + exact (lt_asym _ _ Hlt Hc).
      + subst. exact (lt_irrefl _ Hlt).
    - subst x. split.
      + intros Hn. right. split; [reflexivity|].
        destruct (Z_lt_le_dec e (1 - Z.b2z (_lower_closed iv))); [|assumption].
        exfalso. apply Hn. auto.
      + intros [Hc|[_ Hle]] [Hc'|[_ Hlt]]; try (exact (lt_irrefl _ Hc));
          try (exact (lt_irrefl _ Hc')). lia.
    - split.
      + intros Hn. exfalso. apply Hn. auto.
      + intros [Hc|[Hc _]] _.
        * exact (lt_asym _ _ Hgt Hc).
        * subst. exact (lt_irrefl _ Hgt). }
  rewrite E. reflexivity.
Qed.

Lemma pcontains_is_point (iv : InternalRealInterval X) (g : position X) :
  is_point iv = true -> pcontains iv g = true -> g = (_lower iv, 0).
Proof.
  unfold is_point. rewrite eqb_eq. intros Ept. destruct g as [x e].
  rewrite pcontains_pair, <- Ept.
  pose proof (b2z_cases (_lower_closed iv)). pose proof (b2z_cases (_upper_closed iv)).
  intros [[Hl|[<- Hl]] [Hu|[Hx Hu]]].
  - exfalso. exact (lt_asym _ _ Hl Hu).
  - subst. exfalso. exact (lt_irrefl _ Hl).
  - exfalso. exact (lt_irrefl _ Hu).
  - f_equal. lia.
Qed.

Lemma pcontains_germ (iv : InternalRealInterval X) (x : X) :
  pcontains iv (x, 1) = true -> is_point iv = false.
Proof.
  rewrite pcontains_pair. pose proof (b2z_cases (_upper_closed iv)).
  intros [Hl [Hu|[_ Hu]]]; [|lia].
  unfold is_point. destruct (eqb (_lower iv) (_upper iv)) eqn:E; [|reflexivity].
  apply eqb_eq in E. rewrite <- E in Hu. exfalso.
  destruct Hl as [Hl|[<- _]]; [exact (lt_asym _ _ Hl Hu) | exact (lt_irrefl _ Hu)].
Qed.

Lemma feval_constant_of (c : X) (h : F) (x : X) : feval (constant_of c h) x = c.
Proof.
  unfold constant_of.
  now rewrite feval_add, feval_const, feval_mul, feval_const, xmul_0_l, xadd_0_r.
Qed.

Lemma key_germ (h : F) (iv : InternalRealInterval X) (x : X) :
  pcontains iv (x, 1) = true -> key_of h iv = h.
Proof. intros Hp. unfold key_of. now rewrite (pcontains_germ _ _ Hp). Qed.

Lemma key_point (h : F) (iv : InternalRealInterval X) (x : X) :
  pcontains iv (x, 0) = true -> feval (key_of h iv) x = feval h x.
Proof.
  intros Hp. unfold key_of. destruct (is_point iv) eqn:E; [|reflexivity].
  apply (pcontains_is_point _ _ E) in Hp. injection Hp as ->.
  apply feval_constant_of.
Qed.

(** *** The constructor on the pieces of an object, mapped *)

Lemma comp_map (phi : F -> F) (A : PiecewiseFunction X F)
  (iv : InternalRealInterval X) (k : F) :
  comp_of (map_pieces phi A) iv k <->
  exists D f, In (D, f) (__iter__ A) /\ In iv D /\ k = key_of (phi f) iv.
Proof.
  unfold comp_of, map_pieces. split.
  - intros [D [h [Hin [Hiv ->]]]]. apply in_map_iff in Hin as [[D' f] [E Hin]].
    injection E as -> <-. exists D, f. auto.
  - intros [D [f [Hin [Hiv ->]]]]. exists D, (phi f). split; [|auto].
    apply in_map_iff. exists (D, f). auto.
Qed.

Lemma iter_in (A : PiecewiseFunction X F) (D : RealSet X) (f : F) :
  In (D, f) (__iter__ A) ->
  exists j, nth_error (domain_list A) j = Some D /\
            nth_error (func_list A) j = Some f.
Proof. apply in_combine_nth. Qed.

Lemma map_spec (phi : F -> F) (A : PiecewiseFunction X F) :
  wf A -> (forall f, fvar (phi f) = fvar f) ->
  exists A', __init__ (map_pieces phi A) = Ok A' /\ wf A' /\
    var A' = var A /\ support A' = support A /\
    (forall g f, piece_at A g = Some f ->
       exists iv, pcontains iv g = true /\
                  piece_at A' g = Some (key_of (phi f) iv)).
Proof.
  intros W Hphi.
  set (v := match var A with Some v => v | None => EmptyString end).
  assert (Hok : pieces_ok v (map_pieces phi A)).
  { intros D func Hin. apply in_map_iff in Hin as [[D' f] [E Hin]].
    injection E as -> <-. destruct (iter_in _ _ _ Hin) as [j [ED Ef]]. split.
    - apply normalized_all_ok. pose proof (wf_norm W) as Hn.
      rewrite Forall_forall in Hn. apply Hn. eapply nth_error_In; eauto.
    - exists (phi f). split; [reflexivity|]. rewrite Hphi.
      pose proof (wf_var W) as Hv. unfold v.
      destruct (var A) as [v0|] eqn:Ev.
      + eapply wf_fvar; eauto. eapply nth_error_In; eauto.
      + rewrite Hv in Ef. now destruct j. }
  assert (Hcons : consistent (map_pieces phi A)).
  { intros iv1 f1 iv2 f2 g C1 C2 P1 P2.
    apply comp_map in C1 as [D1 [h1 [I1 [J1 ->]]]].
    apply comp_map in C2 as [D2 [h2 [I2 [J2 ->]]]].
    destruct (iter_in _ _ _ I1) as [j1 [ED1 Ef1]].
    destruct (iter_in _ _ _ I2) as [j2 [ED2 Ef2]].
    assert (G1 : gcontains D1 g = true) by (eapply gcontains_in; eauto).
    assert (G2 : gcontains D2 g = true) by (eapply gcontains_in; eauto).
    pose proof (piece_at_unique _ _ W ED1 Ef1 G1) as U1.
    pose proof (piece_at_unique _ _ W ED2 Ef2 G2) as U2.
    assert (h1 = h2) by congruence. subst h2.
    assert (j1 = j2).
    { destruct (Nat.eq_dec j1 j2) as [|Hne]; [assumption|]. exfalso.
      assert (Hj1 : (j1 < length (domain_list A))%nat)
        by (apply nth_error_Some; congruence).
      assert (Hj2 : (j2 < length (domain_list A))%nat)
        by (apply nth_error_Some; congruence).
      assert (N1 : nth j1 (domain_list A) [] = D1) by (now apply nth_error_nth).
      assert (N2 : nth j2 (domain_list A) [] = D2) by (now apply nth_error_nth).
      destruct (Nat.lt_ge_cases j1 j2).
      - apply (@wf_disj _ _ _ _ _ W j1 j2 g);
          [lia|now rewrite N1|now rewrite N2].
      - apply (@wf_disj _ _ _ _ _ W j2 j1 g);
          [lia|now rewrite N2|now rewrite N1]. }
    subst j2. assert (D1 = D2) by congruence. subst D2.
    assert (iv1 = iv2); [|congruence].
    apply (normalized_unique D1 iv1 iv2 g); auto.
    pose proof (wf_norm W) as Hn. rewrite Forall_forall in Hn.
    apply Hn. eapply nth_error_In; eauto. }
  destruct (init_spec Hok Hcons) as [A' [E [W' [Hkeys [Hden [Hsupp Hvar]]]]]].
  exists A'. split; [assumption|]. split; [assumption|].
  assert (Hpiece : forall g f, piece_at A g = Some f ->
            exists iv, pcontains iv g = true /\
                       piece_at A' g = Some (key_of (phi f) iv)).
  { intros g f Ep. destruct (piece_at_some _ _ Ep) as [j [D [ED [Ef Hg]]]].
    apply gcontains_exists in Hg as [iv [Hiv Hp]]. exists iv. split; [assumption|].
    apply (Hden iv _ g); [|assumption]. apply comp_map. exists D, f.
    split; [eapply nth_combine_in; eauto|auto]. }
  split; [|split; [|assumption]].
  - pose proof (wf_var W) as Hv. pose proof (wf_var W') as Hv'.
    destruct (func_list A) as [|f0 fl] eqn:Efl.
    + assert (func_list A' = []).
      { destruct (func_list A') as [|k fl'] eqn:Efl'; [reflexivity|].
        destruct (Hkeys k (or_introl eq_refl)) as [iv Hc].
        apply comp_map in Hc as [D [f [Hin _]]].
        unfold __iter__ in Hin. rewrite Efl in Hin.
        destruct (domain_list A); destruct Hin. }
      destruct (var A') as [v'|]; [destruct Hv'; congruence|].
      destruct (var A) as [v0|]; [destruct Hv; congruence|reflexivity].
    + destruct (var A) as [v0|] eqn:Ev; [|discriminate].
      apply Hvar.
      destruct (domain_list A) as [|D0 dl] eqn:Edl;
        [pose proof (wf_len W) as Hl; rewrite Edl, Efl in Hl; discriminate|].
      assert (HD0 : D0 <> []) by (apply (wf_inhabited W); rewrite Edl; now left).
      destruct D0 as [|iv D0]; [congruence|].
      assert (Hiv : interval_ok iv = true).
      { pose proof (wf_norm W) as Hn. rewrite Edl in Hn. inversion Hn as [|? ? Hn0 _].
        rewrite normalized_cons in Hn0. apply andb_prop in Hn0 as [Hn0 _].
        now apply andb_prop in Hn0 as [Hn0 _]. }
      assert (Ep : piece_at A (lower_pos iv) = Some f0).
      { apply (@piece_at_unique A 0%nat (iv :: D0) f0 (lower_pos iv) W).
        - now rewrite Edl.
        - now rewrite Efl.
        - simpl. now rewrite (pcontains_lower iv Hiv). }
      destruct (Hpiece _ _ Ep) as [iv' [_ Ep']].
      apply piece_at_in in Ep'. intros E0. now rewrite E0 in Ep'.
  - apply normalized_canonical.
    + now apply support_normalized.
    + now apply support_normalized.
    + intros g. apply bool_eq_iff.
      rewrite (support_piece g W'), (support_piece g W). split.
      * intros [k Ek].
        assert (Hg : gcontains (support A') g = true)
          by (apply support_piece; eauto).
        apply Hsupp in Hg as [iv [k' [Hc Hp]]].
        apply comp_map in Hc as [D [f [Hin [Hiv _]]]].
        destruct (iter_in _ _ _ Hin) as [j [ED Ef]].
        exists f. apply (piece_at_unique j g W ED Ef).
        eapply gcontains_in; eauto.
      * intros [f Ef]. destruct (Hpiece _ _ Ef) as [iv [_ E']]. eauto.
Qed.

End PieceFacts.
(** ** What the combinators build *)

Section SweepShape.
Context {X : Type} `{Ord X}.

Lemma iterator_delta (D : RealSet X) (j : nat) (e : event X) :
  In e (_iterator D j) -> delta_of e = 1 \/ delta_of e = -1.
Proof.
  unfold _iterator. rewrite in_flat_map.
  intros [iv [_ [<- | [<- | []]]]]; unfold delta_of; simpl; auto.
Qed.

Lemma streams_delta (Ds : list (RealSet X)) (e : event X) :
  forall k,
    In e (concat (map (fun '(j, real_set) => _iterator real_set j)
                      (enumerate_from k Ds))) ->
    delta_of e = 1 \/ delta_of e = -1.
Proof.
  induction Ds as [|D Ds IH]; intros k; cbn [enumerate_from map concat].
  - intros [].
  - rewrite in_app_iff. intros [Hin | Hin].
    + now apply iterator_delta in Hin.
    + now apply IH in Hin.
Qed.

Lemma scan_of_delta (Ds : list (RealSet X)) :
  Forall (fun e => eps_ok (pos_of e) /\ (delta_of e = 1 \/ delta_of e = -1))
         (scan_of Ds).
Proof.
  apply Forall_forall. intros e He. split.
  - pose proof (scan_of_events Ds) as Hev. rewrite Forall_forall in Hev.
    now apply Hev.
  - apply (Permutation_in _ (merge_perm _)) in He.
    now apply streams_delta in He.
Qed.

Lemma sweep_yields (E : list (event X)) :
  forall st,
    (forall pe, prev_event st = Some pe -> eps_ok (fst pe) /\ snd pe = 1) ->
    Forall (fun e => eps_ok (pos_of e) /\ (delta_of e = 1 \/ delta_of e = -1)) E ->
    Forall (fun y => exists iv, fst y = [iv] /\ interval_ok iv = true)
           (sweep st E).
Proof.
  induction E as [|ev E IH]; intros st Hpe HE; [constructor|].
  inversion HE as [|? ? [Heps Hdelta] HE']; subst.
  rewrite sweep_cons. apply Forall_app. split.
  - rewrite step_yield. destruct (prev_event st) as [pe|] eqn:Epe; [|constructor].
    destruct (gtb (fst ev) pe) eqn:Egt; [|constructor].
    constructor; [|constructor]. eexists. split; [reflexivity|].
    destruct (Hpe pe eq_refl) as [Hq Hone].
    unfold interval_ok.
    destruct (span_pos Hq Heps) as [-> ->].
    apply ltb_lt. apply gtb_lt in Egt.
    destruct pe as [q d], ev as [[r dl] i]. simpl in *. subst d.
    unfold pos_of. simpl.
    apply cmp_pair_lt in Egt as [Hlt|[_ Hc]]; [assumption|].
    unfold delta_of in Hdelta. simpl in Hdelta. rewrite cmp_Z in Hc.
    assert (1 < dl) by (apply Z.compare_lt_iff; exact Hc). lia.
  - apply IH; [|assumption]. rewrite step_state. simpl.
    intros pe. destruct (_ =? 0); [discriminate|]. intros [= <-]. auto.
Qed.

Lemma finest_partitions_shape (Ds : list (RealSet X)) :
  Forall (fun y => exists iv, fst y = [iv] /\ interval_ok iv = true)
         (finest_partitions Ds).
Proof.
  rewrite finest_partitions_unfold. apply sweep_yields.
  - intros pe. discriminate.
  - apply scan_of_delta.
Qed.

Lemma filter_le1_eq {T} (f : T -> bool) (l : list T) (a b : T) :
  (length (filter f l) <= 1)%nat ->
  In a l -> In b l -> f a = true -> f b = true -> a = b.
Proof.
  intros Hlen Ha Hb Fa Fb.
  assert (Ia : In a (filter f l)) by (apply filter_In; auto).
  assert (Ib : In b (filter f l)) by (apply filter_In; auto).
  destruct (filter f l) as [|x [|y r]]; simpl in *; try lia; try contradiction.
  destruct Ia as [<-|[]], Ib as [<-|[]]. reflexivity.
Qed.

End SweepShape.

Section CombineSpec.
Context {X : Type} `{Ord X} {F : Type} `{FunctionService X F}
        `{!FunctionLaws X F}.

Lemma combine_funcs_fold (op : pyval F -> pyval F -> pyval F) (start : pyval F)
  (A B : PiecewiseFunction X F) (inds : list Z) :
  combine_funcs op start A B inds =
  fold_left (comb_step op A B) (enumerate inds) (Ok start).
Proof.
  reflexivity.
Qed.

Lemma fold_part (op : pyval F -> pyval F -> pyval F)
  (A B : PiecewiseFunction X F) (g : position X) (L : list (RealSet X * F)) :
  forall inds k acc,
    length inds = length L ->
    (forall i D f, nth_error L i = Some (D, f) ->
       (0 <? nth i inds 0) = gcontains D g /\ func_at A B (k + i) = Ok f) ->
    fold_left (comb_step op A B) (enumerate_from k inds) (Ok acc) =
    Ok (fold_left op
          (map (@PyPoly F) (map snd (filter (fun '(D, f) => gcontains D g) L)))
          acc).
Proof.
  induction L as [|[D f] L IH]; intros inds k acc Hlen Hall.
  - destruct inds; [reflexivity|discriminate].
  - destruct inds as [|ind inds]; [discriminate|].
    cbn [enumerate_from fold_left comb_step].
    destruct (Hall 0%nat D f eq_refl) as [Hind Hf]. simpl in Hind.
    rewrite Nat.add_0_r in Hf. rewrite Hind, Hf. cbn [filter].
    assert (Hall' : forall i D' f', nth_error L i = Some (D', f') ->
              (0 <? nth i inds 0) = gcontains D' g /\
              func_at A B (S k + i) = Ok f').
    { intros i D' f' E. destruct (Hall (S i) D' f' E) as [H1 H2].
      split; [exact H1|]. now replace (S k + i)%nat with (k + S i)%nat by lia. }
    destruct (gcontains D g).
    + cbn [map fold_left]. apply IH; [simpl in Hlen; lia|exact Hall'].
    + apply IH; [simpl in Hlen; lia|exact Hall'].
Qed.

Lemma enumerate_from_app {T} (l1 l2 : list T) :
  forall k, enumerate_from k (l1 ++ l2) =
            enumerate_from k l1 ++ enumerate_from (k + length l1) l2.
Proof.
  induction l1 as [|a l1 IH]; intros k; simpl.
  - now rewrite Nat.add_0_r.
  - rewrite IH. now rewrite Nat.add_succ_r.
Qed.

Lemma nth_error_combine {S T} (l : list S) (l' : list T) (i : nat) (a : S) (b : T) :
  nth_error (combine l l') i = Some (a, b) ->
  nth_error l i = Some a /\ nth_error l' i = Some b.
Proof.
  revert l l'. induction i as [|i IH]; intros [|x l] [|y l'] E; simpl in *;
    try discriminate.
  - injection E as -> ->. auto.
  - now apply IH.
Qed.

Lemma combine_funcs_sel (op : pyval F -> pyval F -> pyval F) (start : pyval F)
  (A B : PiecewiseFunction X F) (g : position X) (inds : list Z) :
  length (domain_list A) = length (func_list A) ->
  length (domain_list B) = length (func_list B) ->
  length inds = (length (domain_list A) + length (domain_list B))%nat ->
  (forall i, (i < length (domain_list A) + length (domain_list B))%nat ->
     (0 <? nth i inds 0) =
     gcontains (nth i (domain_list A ++ domain_list B) []) g) ->
  combine_funcs op start A B inds =
  Ok (fold_left op (map (@PyPoly F) (sel A g ++ sel B g)) start).
Proof.
  intros HlA HlB Hlen Hind.
  set (nA := length (domain_list A)) in *.
  set (nB := length (domain_list B)) in *.
  rewrite combine_funcs_fold. unfold enumerate.
  rewrite <- (firstn_skipn nA inds) at 1.
  rewrite enumerate_from_app, fold_left_app.
  assert (Hl1 : length (firstn nA inds) = nA) by (rewrite length_firstn; lia).
  assert (Hl2 : length (skipn nA inds) = nB) by (rewrite length_skipn; lia).
  rewrite (@fold_part op A B g (__iter__ A) (firstn nA inds) 0%nat start).
  - rewrite Hl1. simpl.
    rewrite (@fold_part op A B g (__iter__ B) (skipn nA inds) nA).
    + unfold sel. now rewrite map_app, fold_left_app.
    + unfold __iter__. rewrite length_combine, <- HlB. fold nB. lia.
    + intros i D f E. apply nth_error_combine in E as [ED Ef].
      assert (Hi : (i < nB)%nat) by (apply nth_error_Some; congruence).
      split.
      * rewrite nth_skipn, Hind by lia.
        rewrite app_nth2 by (fold nA; lia).
        fold nA. replace (nA + i - nA)%nat with i by lia.
        f_equal. now apply nth_error_nth.
      * unfold func_at. fold nA.
        replace (nA + i <? nA)%nat with false
          by (symmetry; apply Nat.ltb_ge; lia).
        replace (nA + i - nA)%nat with i by lia. now rewrite Ef.
  - unfold __iter__. rewrite length_combine, <- HlA. fold nA. lia.
  - intros i D f E. apply nth_error_combine in E as [ED Ef].
    assert (Hi : (i < nA)%nat) by (apply nth_error_Some; congruence).
    split.
    + rewrite nth_firstn. replace (i <? nA)%nat with true
        by (symmetry; apply Nat.ltb_lt; lia).
      rewrite Hind by lia. rewrite app_nth1 by (fold nA; lia).
      f_equal. now apply nth_error_nth.
    + unfold func_at. fold nA. simpl.
      replace (i <? nA)%nat with true by (symmetry; apply Nat.ltb_lt; lia).
      now rewrite Ef.
Qed.

Lemma filter_none {T} (P : T -> bool) (l : list T) :
  (forall a, In a l -> P a = false) -> filter P l = [].
Proof.
  induction l as [|a l IH]; intros Hall; [reflexivity|]. simpl.
  rewrite (Hall a (or_introl eq_refl)). apply IH. intros b Hb. apply Hall. now right.
Qed.

Lemma find_filter {T} (P : T -> bool) (l : list T) :
  find P l = match filter P l with [] => None | a :: _ => Some a end.
Proof.
  induction l as [|a l IH]; [reflexivity|]. simpl. now destruct (P a).
Qed.

Lemma filter_disjoint (g : position X) (L : list (RealSet X * F)) :
  (forall i j D1 f1 D2 f2, (i < j)%nat ->
     nth_error L i = Some (D1, f1) -> nth_error L j = Some (D2, f2) ->
     gcontains D1 g = true -> gcontains D2 g = true -> False) ->
  (length (filter (fun '(D, f) => gcontains D g) L) <= 1)%nat.
Proof.
  induction L as [|[D f] L IH]; intros Hd; [simpl; lia|].
  simpl. destruct (gcontains D g) eqn:Eg.
  - rewrite filter_none; [simpl; lia|].
    intros [D' f'] Hin. destruct (gcontains D' g) eqn:Eg'; [|reflexivity].
    exfalso. destruct (In_nth_error _ _ Hin) as [k Ek].
    apply (Hd 0%nat (S k) D f D' f'); auto. lia.
  - apply IH. intros i j D1 f1 D2 f2 Hij E1 E2.
    apply (Hd (S i) (S j) D1 f1 D2 f2); auto. lia.
Qed.

Lemma sel_single (A : PiecewiseFunction X F) (g : position X) (fa : F) :
  wf A -> piece_at A g = Some fa -> sel A g = [fa].
Proof.
  intros W E. unfold piece_at in E. rewrite find_filter in E. unfold sel.
  assert (Hle : (length (filter (fun '(D, f) => gcontains D g) (__iter__ A)) <= 1)%nat).
  { apply filter_disjoint. intros i j D1 f1 D2 f2 Hij E1 E2 G1 G2.
    apply nth_error_combine in E1 as [E1 _]. apply nth_error_combine in E2 as [E2 _].
    assert (Hj : (j < length (domain_list A))%nat)
      by (apply nth_error_Some; congruence).
    apply (@wf_disj _ _ _ _ _ W i j g); [lia| |].
    - now rewrite (nth_error_nth _ _ _ E1).
    - now rewrite (nth_error_nth _ _ _ E2). }
  destruct (filter _ _) as [|[D f] [|y r]]; simpl in *; try discriminate; [|lia].
  now injection E as ->.
Qed.

Lemma combine_pairs_spec (op : pyval F -> pyval F -> pyval F) (start : pyval F)
  (A B : PiecewiseFunction X F)
  (Q : RealSet X * list Z -> pyval F -> Prop) (out : list (RealSet X * list Z)) :
  (forall y, In y out ->
     exists func, combine_funcs op start A B (snd y) = Ok func /\ Q y func) ->
  exists rp, combine_pairs op start true A B out = Ok rp /\
    Forall2 (fun y r => fst r = fst y /\ Q y (snd r)) out rp.
Proof.
  induction out as [|[E inds] out IH]; intros Hall.
  - exists []. split; [reflexivity|constructor].
  - destruct (Hall (E, inds) (or_introl eq_refl)) as [func [Ef HQ]].
    destruct IH as [rp [Erp HF]]; [intros y Hy; apply Hall; now right|].
    exists ((E, func) :: rp). split.
    + cbn [combine_pairs negb andb]. simpl in Ef. now rewrite Ef, Erp.
    + constructor; [split; [reflexivity|exact HQ]|exact HF].
Qed.

Lemma Forall2_in_r {S T} (R : S -> T -> Prop) (l : list S) (l' : list T) (b : T) :
  Forall2 R l l' -> In b l' -> exists a, In a l /\ R a b.
Proof.
  induction 1 as [|x y l l' Hxy HF IH]; intros Hin; [destruct Hin|].
  destruct Hin as [<-|Hin].
  - exists x. split; [now left|assumption].
  - destruct (IH Hin) as [a [Ha HR]]. exists a. split; [now right|assumption].
Qed.

Lemma Forall2_in_l {S T} (R : S -> T -> Prop) (l : list S) (l' : list T) (a : S) :
  Forall2 R l l' -> In a l -> exists b, In b l' /\ R a b.
Proof.
  induction 1 as [|x y l l' Hxy HF IH]; intros Hin; [destruct Hin|].
  destruct Hin as [<-|Hin].
  - exists y. split; [now left|assumption].
  - destruct (IH Hin) as [b [Hb HR]]. exists b. split; [now right|assumption].
Qed.

Lemma wf_piece_exists (A : PiecewiseFunction X F) :
  wf A -> func_list A <> [] -> exists g f, piece_at A g = Some f.
Proof.
  intros W Hne.
  destruct (func_list A) as [|f0 fl] eqn:Efl; [congruence|].
  destruct (domain_list A) as [|D0 dl] eqn:Edl;
    [pose proof (wf_len W) as Hl; rewrite Edl, Efl in Hl; discriminate|].
  assert (HD0 : D0 <> []) by (apply (wf_inhabited W); rewrite Edl; now left).
  destruct D0 as [|iv D0]; [congruence|].
  assert (Hiv : interval_ok iv = true).
  { pose proof (wf_norm W) as Hn. rewrite Edl in Hn. inversion Hn as [|? ? Hn0 _].
    rewrite normalized_cons in Hn0. apply andb_prop in Hn0 as [Hn0 _].
    now apply andb_prop in Hn0 as [Hn0 _]. }
  exists (lower_pos iv), f0.
  apply (piece_at_unique 0%nat (lower_pos iv) W (D := iv :: D0) (f := f0)).
  - now rewrite Edl.
  - now rewrite Efl.
  - simpl. now rewrite (pcontains_lower iv Hiv).
Qed.

End CombineSpec.
Section CombineResult.
Context {X : Type} `{Ord X} {F : Type} `{FunctionService X F}
        `{!FunctionLaws X F}.

(** The general combination of two objects over the same support, with
    [op2 fa fb] the function [op (op start fa) fb] that the inner loop
    computes where both have a piece. *)
Lemma combine_spec (op : pyval F -> pyval F -> pyval F) (start : pyval F)
  (op2 : F -> F -> F) (A B : PiecewiseFunction X F) :
  (forall fa fb, op (op start (PyPoly fa)) (PyPoly fb) = PyPoly (op2 fa fb)) ->
  (forall fa fb, fvar (op2 fa fb) = fvar fa) ->
  wf A -> wf B -> var A = var B -> support A = support B ->
  exists rp C,
    combine_pairs op start true A B
      (finest_partitions (domain_list A ++ domain_list B)) = Ok rp /\
    __init__ rp = Ok C /\ wf C /\ var C = var A /\ support C = support A /\
    (forall g fa fb, piece_at A g = Some fa -> piece_at B g = Some fb ->
       exists iv, pcontains iv g = true /\
                  piece_at C g = Some (key_of (op2 fa fb) iv)) /\
    (forall k, In k (func_list C) ->
       exists iv fa fb, interval_ok iv = true /\ k = key_of (op2 fa fb) iv /\
         forall g, pcontains iv g = true ->
                   piece_at A g = Some fa /\ piece_at B g = Some fb).
Proof.
  intros Hop Hopv WA WB Evar Esupp.
  set (Ds := domain_list A ++ domain_list B).
  set (out := finest_partitions Ds).
  assert (HN : Forall (fun D => normalized D = true) Ds)
    by (apply Forall_app; split; apply wf_norm; assumption).
  destruct (finest_partitions_positions HN) as [P1 [P2 P3]].
  fold out in P1, P2, P3.
  pose proof (finest_partitions_shape Ds) as Hshape. fold out in Hshape.
  rewrite Forall_forall in Hshape.
  assert (HlenDs : length Ds = (length (domain_list A) + length (domain_list B))%nat)
    by (unfold Ds; apply length_app).
  assert (Hboth : forall g, (exists D, In D Ds /\ gcontains D g = true) ->
            exists fa fb, piece_at A g = Some fa /\ piece_at B g = Some fb).
  { intros g [D [HD Hg]]. unfold Ds in HD. apply in_app_iff in HD.
    assert (HsA : gcontains (support A) g = true).
    { destruct HD as [HD|HD].
      - rewrite support_contains by assumption. apply existsb_exists. eauto.
      - rewrite Esupp, support_contains by assumption. apply existsb_exists. eauto. }
    pose proof HsA as HsB. rewrite Esupp in HsB.
    apply (support_piece g WA) in HsA as [fa Ea].
    apply (support_piece g WB) in HsB as [fb Eb]. eauto. }
  assert (Hconst : forall E inds g g', In (E, inds) out ->
            gcontains E g = true -> gcontains E g' = true ->
            forall i, (i < length Ds)%nat ->
              gcontains (nth i Ds []) g = gcontains (nth i Ds []) g').
  { intros E inds g g' Hin G G' i Hi.
    destruct (P3 E inds g Hin G) as [_ N1]. destruct (P3 E inds g' Hin G') as [_ N2].
    apply bool_eq_iff. rewrite <- !gcoverage_pos, <- N1, <- N2 by assumption.
    reflexivity. }
  assert (HtransA : forall E inds g g' fa, In (E, inds) out ->
            gcontains E g = true -> gcontains E g' = true ->
            piece_at A g = Some fa -> piece_at A g' = Some fa).
  { intros E inds g g' fa Hin G G' Ea.
    destruct (piece_at_some _ _ Ea) as [j [D [ED [Ef Hg]]]].
    assert (Hj : (j < length (domain_list A))%nat)
      by (apply nth_error_Some; congruence).
    apply (piece_at_unique j g' WA ED Ef).
    pose proof (Hconst E inds g g' Hin G G' j) as Hc. unfold Ds in Hc at 2 3.
    rewrite app_nth1 in Hc by assumption.
    rewrite (nth_error_nth _ _ _ ED) in Hc. rewrite <- Hc; [assumption|lia]. }
  assert (HtransB : forall E inds g g' fb, In (E, inds) out ->
            gcontains E g = true -> gcontains E g' = true ->
            piece_at B g = Some fb -> piece_at B g' = Some fb).
  { intros E inds g g' fb Hin G G' Eb.
    destruct (piece_at_some _ _ Eb) as [j [D [ED [Ef Hg]]]].
    assert (Hj : (j < length (domain_list B))%nat)
      by (apply nth_error_Some; congruence).
    apply (piece_at_unique j g' WB ED Ef).
    pose proof (Hconst E inds g g' Hin G G' (length (domain_list A) + j)%nat) as Hc.
    unfold Ds in Hc at 2 3. rewrite app_nth2_plus in Hc.
    rewrite (nth_error_nth _ _ _ ED) in Hc. rewrite <- Hc; [assumption|lia]. }
  set (Q := fun (y : RealSet X * list Z) (func : pyval F) =>
     exists iv fa fb, fst y = [iv] /\ interval_ok iv = true /\
       func = PyPoly (op2 fa fb) /\
       forall g, pcontains iv g = true ->
                 piece_at A g = Some fa /\ piece_at B g = Some fb).
  assert (Hy : forall y, In y out ->
           exists func, combine_funcs op start A B (snd y) = Ok func /\ Q y func).
  { intros [E inds] Hin. destruct (Hshape _ Hin) as [iv [EE Hiv]].
    simpl in EE. subst E.
    assert (G0 : gcontains [iv] (lower_pos iv) = true)
      by (simpl; now rewrite pcontains_lower).
    destruct (P3 [iv] inds (lower_pos iv) Hin G0) as [Hlen Hnth].
    destruct (Hboth (lower_pos iv)) as [fa [fb [Ea Eb]]].
    { apply P1. exists ([iv], inds). auto. }
    exists (PyPoly (op2 fa fb)). split.
    - simpl.
      rewrite (combine_funcs_sel op start A B (lower_pos iv) inds
                 (wf_len WA) (wf_len WB)).
      + rewrite (sel_single _ WA Ea), (sel_single _ WB Eb). simpl. now rewrite Hop.
      + now rewrite Hlen.
      + intros i Hi. apply bool_eq_iff.
        rewrite Z.ltb_lt, Hnth, gcoverage_pos by lia. reflexivity.
    - exists iv, fa, fb. split; [reflexivity|]. split; [assumption|].
      split; [reflexivity|]. intros g Hp.
      assert (G : gcontains [iv] g = true) by (simpl; now rewrite Hp).
      split.
      + eapply HtransA; eauto.
      + eapply HtransB; eauto. }
  destruct (combine_pairs_spec op start A B Q out Hy) as [rp [Erp HF]].
  assert (Hcomp : forall iv k, comp_of rp iv k ->
            exists y fa fb, In y out /\ fst y = [iv] /\ interval_ok iv = true /\
              k = key_of (op2 fa fb) iv /\
              forall g, pcontains iv g = true ->
                        piece_at A g = Some fa /\ piece_at B g = Some fb).
  { intros iv k [D [h [Hin [Hiv ->]]]].
    destruct (Forall2_in_r _ HF Hin)
      as [y [Hy' [E1 [iv' [fa [fb [E2 [Hok' [E3 Hall]]]]]]]]].
    simpl in E1, E3. injection E3 as ->. rewrite E2 in E1. subst D.
    destruct Hiv as [<-|[]]. exists y, fa, fb. auto. }
  assert (Hcomp' : forall y iv, In y out -> fst y = [iv] ->
            forall fa fb g, pcontains iv g = true ->
              piece_at A g = Some fa -> piece_at B g = Some fb ->
              comp_of rp iv (key_of (op2 fa fb) iv)).
  { intros y iv Hin Ey fa fb g Hp Ea Eb.
    destruct (Forall2_in_l _ HF Hin)
      as [[D func] [Hr [E1 [iv' [fa' [fb' [E2 [Hok' [E3 Hall]]]]]]]]].
    simpl in E1, E3. rewrite Ey in E2. injection E2 as <-.
    destruct (Hall g Hp) as [Ea' Eb'].
    assert (fa' = fa) by congruence. assert (fb' = fb) by congruence. subst.
    exists [iv], (op2 fa fb). rewrite <- Ey. split; [assumption|].
    rewrite Ey. split; [now left|reflexivity]. }
  set (v := match var A with Some v => v | None => EmptyString end).
  assert (Hok : pieces_ok v rp).
  { intros D func Hin.
    destruct (Forall2_in_r _ HF Hin)
      as [y [Hy' [E1 [iv [fa [fb [E2 [Hiv [E3 Hall]]]]]]]]].
    simpl in E1, E3. subst func. rewrite E2 in E1. subst D. split.
    - simpl. now rewrite Hiv.
    - exists (op2 fa fb). split; [reflexivity|]. rewrite Hopv.
      destruct (Hall (lower_pos iv) (pcontains_lower iv Hiv)) as [Ea _].
      apply piece_at_in in Ea. unfold v.
      pose proof (wf_var WA) as Hv. destruct (var A) as [v0|] eqn:Ev.
      + exact (wf_fvar _ WA Ev Ea).
      + rewrite Hv in Ea. destruct Ea. }
  assert (Hcons : consistent rp).
  { intros iv1 k1 iv2 k2 g C1 C2 G1 G2.
    destruct (Hcomp _ _ C1) as [y1 [fa1 [fb1 [I1 [E1 [_ [-> A1]]]]]]].
    destruct (Hcomp _ _ C2) as [y2 [fa2 [fb2 [I2 [E2 [_ [-> A2]]]]]]].
    assert (y1 = y2).
    { apply (filter_le1_eq (hit g) out y1 y2 (P2 g) I1 I2).
      - unfold hit. rewrite E1. simpl. now rewrite G1.
      - unfold hit. rewrite E2. simpl. now rewrite G2. }
    subst y2. assert (iv1 = iv2) by congruence. subst iv2.
    destruct (A1 g G1) as [Ea1 Eb1]. destruct (A2 g G2) as [Ea2 Eb2].
    congruence. }
  destruct (init_spec Hok Hcons) as [C [EC [WC [Hkeys [Hden [Hsupp Hvar]]]]]].
  assert (Hpiece : forall g fa fb, piece_at A g = Some fa -> piece_at B g = Some fb ->
            exists iv, pcontains iv g = true /\
                       piece_at C g = Some (key_of (op2 fa fb) iv)).
  { intros g fa fb Ea Eb.
    destruct (piece_at_some _ _ Ea) as [j [D [ED [_ Hg]]]].
    assert (HD : exists D, In D Ds /\ gcontains D g = true).
    { exists D. split; [|assumption]. unfold Ds. apply in_app_iff. left.
      eapply nth_error_In; eauto. }
    apply P1 in HD as [[E inds] [Hin Hgy]].
    destruct (Hshape _ Hin) as [iv [Ey Hiv]]. simpl in Ey, Hgy. subst E.
    simpl in Hgy. rewrite orb_false_r in Hgy. exists iv. split; [assumption|].
    apply (Hden iv _ g); [|assumption].
    apply (Hcomp' ([iv], inds) iv Hin eq_refl fa fb g); assumption. }
  exists rp, C. split; [exact Erp|]. split; [exact EC|]. split; [exact WC|].
  split; [|split; [|split]].
  - pose proof (wf_var WA) as HvA. pose proof (wf_var WC) as HvC.
    destruct (func_list C) as [|k flC] eqn:EflC.
    + destruct (var C) as [vC|]; [destruct HvC; congruence|].
      destruct (var A) as [v0|] eqn:EvA; [|reflexivity]. exfalso.
      destruct HvA as [Hne _].
      destruct (wf_piece_exists WA Hne) as [g [fa Ea]].
      assert (Hs : gcontains (support B) g = true)
        by (rewrite <- Esupp; apply support_piece; eauto).
      apply (support_piece g WB) in Hs as [fb Eb].
      destruct (Hpiece g fa fb Ea Eb) as [iv [_ Ec]].
      apply piece_at_in in Ec. now rewrite EflC in Ec.
    + rewrite Hvar by discriminate. unfold v.
      destruct (var A) as [v0|] eqn:EvA; [reflexivity|]. exfalso.
      destruct (Hkeys k (or_introl eq_refl)) as [iv Hc].
      destruct (Hcomp _ _ Hc) as [y [fa [fb [_ [_ [Hiv [_ Hall]]]]]]].
      destruct (Hall (lower_pos iv) (pcontains_lower iv Hiv)) as [Ea _].
      apply piece_at_in in Ea. rewrite HvA in Ea. destruct Ea.
  - apply normalized_canonical.
    + now apply support_normalized.
    + now apply support_normalized.
    + intros g. apply bool_eq_iff. rewrite Hsupp. split.
      * intros [iv [k [Hc Hp]]].
        destruct (Hcomp _ _ Hc) as [y [fa [fb [_ [_ [_ [_ Hall]]]]]]].
        destruct (Hall g Hp) as [Ea _]. apply support_piece; eauto.
      * intros Hs. apply (support_piece g WA) in Hs as [fa Ea].
        assert (Hs : gcontains (support B) g = true)
          by (rewrite <- Esupp; apply support_piece; eauto).
        apply (support_piece g WB) in Hs as [fb Eb].
        destruct (Hpiece g fa fb Ea Eb) as [iv [Hp Ec]].
        destruct (piece_at_some _ _ Ec) as [j [D [ED [Ef Hg]]]].
        assert (Hs : gcontains (support C) g = true)
          by (apply support_piece; eauto).
        now apply Hsupp.
  - exact Hpiece.
  - intros k Hk. destruct (Hkeys k Hk) as [iv Hc].
    destruct (Hcomp _ _ Hc) as [y [fa [fb [_ [_ [Hiv [-> Hall]]]]]]].
    exists iv, fa, fb. auto.
Qed.

End CombineResult.
(** ** The operators on constructed objects *)

Section Algebra.
Context {X : Type} `{Ord X} {F : Type} `{FunctionService X F}
        `{!FunctionLaws X F}.

(** An object the constructor returns is well formed. *)
Lemma init_wf (pieces : list (RealSet X * pyval F)) (v : string)
  (A : PiecewiseFunction X F) :
  pieces_ok v pieces -> __init__ pieces = Ok A -> wf A.
Proof.
  intros Hok E.
  assert (Hv0 : var_inv (mkInit (X := X) (F := F) [] [] None [])
                        (fun _ _ => False) v).
  { split; [constructor|]. left. split; [reflexivity|]. intros _ _ []. }
  destruct (init_loop_spec init_inv_start Hv0 Hok) as [st [Eloop [Hinv Hvar]]].
  unfold __init__ in E. rewrite Eloop in E.
  destruct (are_pairwise_disjoint (i_domain_list st)) eqn:Hpd; simpl in E;
    [|discriminate].
  injection E as <-.
  destruct Hinv as [Hlen Hdict Hnd Hnorm Hden Hkeys Hiok].
  constructor; simpl; auto.
  - intros i j g Hij. apply (pairwise_disjoint_sound _ g Hpd). lia.
  - intros D HD. destruct (In_nth_error _ _ HD) as [j Ej].
    destruct (nth_error (i_func_list st) j) as [f|] eqn:Ef.
    + destruct (proj1 (Hkeys f) (nth_error_In _ _ Ef)) as [iv Hc].
      assert (Hg : gcontains D (lower_pos iv) = true).
      { apply (Hden j D f _ Ej Ef). exists iv. split; [assumption|].
        apply pcontains_lower. now apply (Hiok iv f). }
      intros ->. discriminate.
    + apply nth_error_None in Ef. rewrite <- Hlen in Ef.
      apply nth_error_None in Ef. congruence.
  - destruct Hvar as [Hfl [[E Hn]|[E [iv [f Hc]]]]]; rewrite E.
    + destruct (i_func_list st) as [|f fl]; [reflexivity|].
      destruct (proj1 (Hkeys f) (or_introl eq_refl)) as [iv Hc].
      now apply Hn in Hc.
    + split; [|assumption]. intros Efl.
      assert (Hin : In f (i_func_list st)) by (apply Hkeys; now exists iv).
      now rewrite Efl in Hin.
Qed.

Lemma var_eqb_refl (v : option string) : var_eqb v v = true.
Proof. now apply var_eqb_eq. Qed.

Lemma realset_eqb_refl (D : RealSet X) : realset_eqb D D = true.
Proof. now apply realset_eqb_eq. Qed.

(** [p + q] *)
Lemma add_spec (A B : PiecewiseFunction X F) :
  wf A -> wf B -> var A = var B -> support A = support B ->
  exists C, __add__ A (OPiecewise B) = ([], Ok (Some C)) /\ wf C /\
    var C = var A /\ support C = support A /\
    (forall g fa fb, piece_at A g = Some fa -> piece_at B g = Some fb ->
       exists iv, pcontains iv g = true /\
                  piece_at C g = Some (key_of (fadd fa fb) iv)) /\
    (forall k, In k (func_list C) ->
       exists iv fa fb, interval_ok iv = true /\ k = key_of (fadd fa fb) iv /\
         forall g, pcontains iv g = true ->
                   piece_at A g = Some fa /\ piece_at B g = Some fb).
Proof.
  intros WA WB Ev Es.
  destruct (@combine_spec _ _ _ _ _ py_add (PyInt 0) fadd A B) as [rp [C [E1 [E2 HC]]]];
    auto.
  - intros fa fb. simpl. now rewrite fadd_0_l.
  - intros fa fb. apply fvar_add.
  - exists C. split; [|exact HC].
    unfold __add__. rewrite Ev, var_eqb_refl. simpl.
    unfold piecewise_add. rewrite Es, realset_eqb_refl. simpl.
    unfold piecewise_add_general. now rewrite E1, E2.
Qed.

(** [p * q] *)
Lemma mul_spec (A B : PiecewiseFunction X F) :
  wf A -> wf B -> var A = var B -> support A = support B ->
  exists C, __mul__ A (OPiecewise B) = ([], Ok (Some C)) /\ wf C /\
    var C = var A /\ support C = support A /\
    (forall g fa fb, piece_at A g = Some fa -> piece_at B g = Some fb ->
       exists iv, pcontains iv g = true /\
                  piece_at C g = Some (key_of (fmul fa fb) iv)) /\
    (forall k, In k (func_list C) ->
       exists iv fa fb, interval_ok iv = true /\ k = key_of (fmul fa fb) iv /\
         forall g, pcontains iv g = true ->
                   piece_at A g = Some fa /\ piece_at B g = Some fb).
Proof.
  intros WA WB Ev Es.
  destruct (@combine_spec _ _ _ _ _ py_mul (PyInt 1) fmul A B) as [rp [C [E1 [E2 HC]]]];
    auto.
  - intros fa fb. simpl. now rewrite fmul_1_l.
  - intros fa fb. apply fvar_mul.
  - exists C. split; [|exact HC].
    unfold __mul__. rewrite Ev, var_eqb_refl. simpl.
    unfold piecewise_mul. rewrite Es, realset_eqb_refl. simpl.
    unfold piecewise_mul_general. now rewrite E1, E2.
Qed.

(** [-p] *)
Lemma neg_spec (A : PiecewiseFunction X F) :
  wf A ->
  exists A', __neg__ A = Ok A' /\ wf A' /\
    var A' = var A /\ support A' = support A /\
    (forall g f, piece_at A g = Some f ->
       exists iv, pcontains iv g = true /\
                  piece_at A' g = Some (key_of (fneg f) iv)).
Proof. intros W. apply (map_spec fneg W). apply fvar_neg. Qed.

(** [p ^ n] *)
Lemma pow_spec (A : PiecewiseFunction X F) (n : nat) :
  wf A ->
  exists A', __pow__ A n = Ok A' /\ wf A' /\
    var A' = var A /\ support A' = support A /\
    (forall g f, piece_at A g = Some f ->
       exists iv, pcontains iv g = true /\
                  piece_at A' g = Some (key_of (fpow f n) iv)).
Proof.
  intros W. apply (map_spec (fun f => fpow f n) W). intros f. apply fvar_pow.
Qed.

(** *** Equality *)

Lemma zero_of_var (f g : F) : fvar f = fvar g -> zero_of f = zero_of g.
Proof.
  intros E. unfold zero_of. rewrite <- (fadd_neg f f eq_refl). now apply fadd_neg.
Qed.

Lemma constant_zero (h : F) : constant_of (xofZ 0) h = zero_of h.
Proof. unfold constant_of. apply fadd_0_l. Qed.

Lemma any_nonzero_zero (A : PiecewiseFunction X F) (f0 : F) (fl : list F)
  (pieces : list (RealSet X * F)) :
  func_list A = f0 :: fl ->
  (forall D k, In (D, k) pieces -> k = zero_of f0) ->
  any_nonzero A pieces = Ok false.
Proof.
  intros Efl. induction pieces as [|[D k] pieces IH]; intros Hall; [reflexivity|].
  simpl. rewrite Efl.
  rewrite (Hall D k (or_introl eq_refl)). fold (zero_of f0).
  replace (feqb (zero_of f0) (zero_of f0)) with true
    by (symmetry; now apply feqb_eq).
  simpl. apply IH. intros D' k' Hin. apply (Hall D' k'). now right.
Qed.

Lemma pcontains_after_lower (iv : InternalRealInterval X) :
  interval_ok iv = true -> is_point iv = false ->
  pcontains iv (_lower iv, 1) = true.
Proof.
  intros Hok Hpt. apply pcontains_pair.
  pose proof (b2z_cases (_lower_closed iv)) as Hb.
  split; [right; split; [reflexivity|lia]|]. left.
  unfold interval_ok in Hok. apply ltb_lt in Hok.
  unfold lower_pos, upper_pos in Hok.
  apply cmp_pair_lt in Hok as [Hlt|[E _]]; [assumption|].
  unfold is_point in Hpt. rewrite E in Hpt.
  assert (eqb (_upper iv) (_upper iv) = true) by now apply eqb_eq.
  congruence.
Qed.

(** Two objects on the same support are equal for [==] when their
    pieces agree: as functions after every point, and by their values
    at every point. *)
Lemma eq_spec (A B : PiecewiseFunction X F) :
  wf A -> wf B -> var A = var B -> support A = support B ->
  (forall x fa fb, piece_at A (x, 1) = Some fa -> piece_at B (x, 1) = Some fb ->
                   fa = fb) ->
  (forall x fa fb, piece_at A (x, 0) = Some fa -> piece_at B (x, 0) = Some fb ->
                   feval fa x = feval fb x) ->
  __eq__ A B = Ok true.
Proof.
  intros WA WB Ev Es Hgerm Hpoint.
  destruct (neg_spec WB) as [nB [En [WnB [EvnB [EsnB HdnB]]]]].
  destruct (@add_spec A nB WA WnB) as [D [Ea [WD [EvD [EsD [HdD HkD]]]]]];
    [congruence|congruence|].
  unfold __eq__. rewrite Es, realset_eqb_refl, Ev, var_eqb_refl.
  cbn [negb]. unfold __sub__. rewrite En, Ea. cbn [snd].
  assert (HB : forall g nb, piece_at nB g = Some nb ->
            exists fb iv, piece_at B g = Some fb /\ pcontains iv g = true /\
                          nb = key_of (fneg fb) iv).
  { intros g nb Enb.
    assert (Hs : gcontains (support B) g = true)
      by (rewrite <- EsnB; apply support_piece; eauto).
    apply (support_piece g WB) in Hs as [fb Eb].
    destruct (HdnB g fb Eb) as [iv [Hp Ek]]. exists fb, iv.
    split; [assumption|]. split; [assumption|congruence]. }
  destruct (func_list D) as [|k0 flD] eqn:EflD.
  { unfold __iter__. rewrite EflD. now destruct (domain_list D). }
  destruct (HkD k0 (or_introl eq_refl)) as [iv0 [fa0 [nb0 [Hiv0 [_ Hall0]]]]].
  destruct (Hall0 _ (pcontains_lower iv0 Hiv0)) as [Ea0 _].
  apply piece_at_in in Ea0.
  destruct (func_list A) as [|f0 flA] eqn:EflA; [destruct Ea0|].
  assert (HvA : exists v, var A = Some v).
  { pose proof (wf_var WA) as Hv. destruct (var A) as [v|]; [eauto|].
    rewrite EflA in Hv. discriminate. }
  destruct HvA as [v HvA].
  assert (Hf0 : fvar f0 = v)
    by (apply (wf_fvar f0 WA HvA); rewrite EflA; now left).
  rewrite (@any_nonzero_zero A f0 flA (__iter__ D) EflA); [reflexivity|].
  intros DD k Hin. apply in_combine_r in Hin. rewrite EflD in Hin.
  destruct (HkD k Hin) as [iv [fa [nb [Hiv [-> Hall]]]]].
  destruct (is_point iv) eqn:Ept.
  - pose proof (pcontains_lower iv Hiv) as Hp.
    pose proof (pcontains_is_point _ _ Ept Hp) as Elo.
    rewrite Elo in Hp. destruct (Hall _ Hp) as [Efa Enb].
    destruct (HB _ _ Enb) as [fb [iv' [Efb [Hp' ->]]]].
    unfold key_of at 1. rewrite Ept.
    rewrite feval_add, (key_point _ _ _ Hp'), feval_neg.
    rewrite (Hpoint _ _ _ Efa Efb), xadd_neg, constant_zero.
    apply zero_of_var. rewrite fvar_add.
    rewrite (wf_fvar fa WA HvA (piece_at_in _ _ Efa)). now rewrite Hf0.
  - pose proof (pcontains_after_lower iv Hiv Ept) as Hp.
    destruct (Hall _ Hp) as [Efa Enb].
    destruct (HB _ _ Enb) as [fb [iv' [Efb [Hp' ->]]]].
    unfold key_of at 1. rewrite Ept.
    rewrite (key_germ _ _ _ Hp'), <- (Hgerm _ _ _ Efa Efb).
    rewrite (fadd_neg fa f0); [reflexivity|].
    rewrite (wf_fvar fa WA HvA (piece_at_in _ _ Efa)). now rewrite Hf0.
Qed.

(** *** Evaluation *)

Lemma find_ext {T} (P Q : T -> bool) (l : list T) :
  (forall a, P a = Q a) -> find P l = find Q l.
Proof.
  intros E. induction l as [|a l IH]; [reflexivity|]. simpl.
  now rewrite E, IH.
Qed.

Lemma call_piece (A : PiecewiseFunction X F) (x : X) (f : F) :
  piece_at A (x, 0) = Some f ->
  __call__ A [x] [] = ([], Ok (Some (feval f x))).
Proof.
  unfold piece_at, __call__, evaluate. simpl.
  rewrite (find_ext (fun '(dom, _) => contains dom x)
                    (fun '(D, _) => gcontains D (x, 0)));
    [|intros [D k]; apply contains_point].
  destruct (find _ _) as [[D k]|]; [|discriminate].
  now intros [= ->].
Qed.

End Algebra.
(** * Part III: the operations on piecewise functions *)

(** ** Evaluation: [__call__] *)

Section Evaluation.
Context {X : Type} `{Ord X} {F : Type} `{FunctionService X F}.

Lemma call_supplied (p : PiecewiseFunction X F)
  (args : list X) (kwds : list (string * X)) (x : X) :
  supplied p args kwds x ->
  snd (__call__ p args kwds) = Ok (snd (evaluate p x)).
Proof.
  intros [[-> ->] | [-> Hk]]; unfold __call__.
  - simpl. now destruct (evaluate p x).
  - rewrite Hk. now destruct (evaluate p x).
Qed.

Lemma find_none_forall {T} (f : T -> bool) (l : list T) :
  Forall (fun a => f a = false) l -> find f l = None.
Proof.
  induction 1 as [|a l Ha _ IH]; simpl; [reflexivity|]. now rewrite Ha.
Qed.

Lemma find_first {T} (f : T -> bool) (pre post : list T) (a : T) :
  Forall (fun b => f b = false) pre -> f a = true ->
  find f (pre ++ a :: post) = Some a.
Proof.
  induction 1 as [|b pre Hb _ IH]; intros Ha; simpl.
  - now rewrite Ha.
  - rewrite Hb. now apply IH.
Qed.

(** C9: a point in no piece's domain evaluates to [None], without an
    error; a point in a piece's domain evaluates to that piece's function
    at the point (the first such piece, in the order of the pieces). *)
Theorem call_undefined_or_value (p : PiecewiseFunction X F)
  (args : list X) (kwds : list (string * X)) (x : X) :
  supplied p args kwds x ->
  (Forall (fun piece => contains (fst piece) x = false) (__iter__ p) ->
   snd (__call__ p args kwds) = Ok None) /\
  (forall pre dom func post,
     __iter__ p = pre ++ (dom, func) :: post ->
     Forall (fun piece => contains (fst piece) x = false) pre ->
     contains dom x = true ->
     snd (__call__ p args kwds) = Ok (Some (feval func x))).
Proof.
  intros Hs. rewrite (call_supplied Hs). unfold evaluate. split.
  - intros Hno. rewrite find_none_forall; [reflexivity|].
    eapply Forall_impl; [|exact Hno]. now intros [dom func].
  - intros pre dom func post Hit Hpre Hc. rewrite Hit.
    rewrite (@find_first _ _ pre post (dom, func)); [reflexivity| |exact Hc].
    eapply Forall_impl; [|exact Hpre]. now intros [dom' func'].
Qed.

Lemma evaluate_no_error (p : PiecewiseFunction X F) (val : X) (msgs : list (message X)) :
  forall r, (let '(out, r) := evaluate p val in (msgs ++ out, Ok r)) =
            r -> snd r <> Raise InvalidArity.
Proof. intros r <-. destruct (evaluate p val). discriminate. Qed.

(** C5, as the code has it: [InvalidArity] is raised exactly when a
    positional value comes with a keyword, when there is no positional
    value and no keyword is the variable's name, or when there are two
    positional values or more.  Further keywords beside the variable's
    only print a warning. *)
Theorem call_invalid_arity (p : PiecewiseFunction X F)
  (args : list X) (kwds : list (string * X)) :
  snd (__call__ p args kwds) = Raise InvalidArity <->
  (length args = 1%nat /\ kwds <> []) \/
  (args = [] /\ kwds_get kwds (str_var (var p)) = None) \/
  (2 <= length args)%nat.
Proof.
  unfold __call__. destruct args as [|a [|b args]].
  - destruct (kwds_get kwds (str_var (var p))) as [val|] eqn:K.
    + split.
      * intros E. exfalso. destruct (evaluate p val). discriminate.
      * intros [[D _] | [[_ D] | D]]; simpl in *; try discriminate; lia.
    + split; [intros _; right; left; auto | reflexivity].
  - destruct kwds as [|kw kwds].
    + simpl. split.
      * intros E. exfalso. destruct (evaluate p a). discriminate.
      * intros [[_ D] | [[D _] | D]]; simpl in *; try congruence; lia.
    + simpl. split; [intros _; left; split; [reflexivity | discriminate] | reflexivity].
  - split; [intros _; right; right; simpl; lia | reflexivity].
Qed.

End Evaluation.

Lemma call_undefined_or_value_witness :
  supplied example_p [4] [] 4 /\
  snd (__call__ example_p [4] []) = Ok (Some (-3)).
Proof.
  assert (Hs : supplied example_p [4] [] 4) by (left; split; reflexivity).
  split; [exact Hs|].
  refine (proj2 (call_undefined_or_value (p := example_p) Hs)
            [] [closed 0 1; closed 4 5] (poly t [1; -1]) _ _ _ _).
  - vm_compute. reflexivity.
  - constructor.
  - reflexivity.
Defined.

(** C5 as stated fails: two values are supplied, both by keyword, and the
    call returns the value at [t = 5]. *)
Lemma call_two_keywords :
  (length (@nil Z) + length [(t, 5); ("y"%string, 3)] <> 1)%nat /\
  __call__ example_p [] [(t, 5); ("y"%string, 3)] =
  ([MoreThanOneInput t 5], Ok (Some (-4))).
Proof. split; [simpl; lia | vm_compute; reflexivity]. Qed.

(** ** Operators on functions of different variables *)

Section Operators.
Context {X : Type} `{Ord X} {F : Type} `{FunctionService X F}.

(** C10: on functions of different variables, [+] and [*] print the
    mismatch and return [None]. *)
Theorem add_mul_variable_mismatch (p q : PiecewiseFunction X F) :
  var p <> var q ->
  __add__ p (OPiecewise q) = ([InvalidVariables (var p) (var q)], Ok None) /\
  __mul__ p (OPiecewise q) = ([InvalidVariables (var p) (var q)], Ok None).
Proof.
  intros Hv. unfold __add__, __mul__.
  destruct (var_eqb (var p) (var q)) eqn:E; [|split; reflexivity].
  apply var_eqb_eq in E. contradiction.
Qed.

End Operators.

Lemma add_mul_variable_mismatch_witness :
  var example_p <> var other_var_p /\
  __add__ example_p (OPiecewise other_var_p) =
    ([InvalidVariables (Some "t"%string) (Some "x"%string)], Ok None) /\
  __mul__ example_p (OPiecewise other_var_p) =
    ([InvalidVariables (Some "t"%string) (Some "x"%string)], Ok None).
Proof.
  assert (Hv : var example_p <> var other_var_p) by (vm_compute; discriminate).
  split; [exact Hv|].
  exact (add_mul_variable_mismatch example_p other_var_p Hv).
Defined.
(** ** The constructor: disjoint domains *)

Section Constructor.
Context {X : Type} `{Ord X} {F : Type} `{FunctionService X F}.

(** C8: a successful construction leaves pairwise disjoint domains, and
    a domain list that fails the check gives the [OverlappingDomains]
    error in place of an object. *)
Theorem constructor_disjoint (function_pieces : list (RealSet X * pyval F)) :
  (forall p, __init__ function_pieces = Ok p ->
     are_pairwise_disjoint (domain_list p) = true /\
     forall i j x, i <> j ->
       contains (nth i (domain_list p) []) x = true ->
       contains (nth j (domain_list p) []) x = true -> False) /\
  (forall st, init_loop (mkInit [] [] None []) function_pieces = Ok st ->
     are_pairwise_disjoint (i_domain_list st) = false ->
     __init__ function_pieces = Raise OverlappingDomains).
Proof.
  unfold __init__. split.
  - intros p. destruct (init_loop _ function_pieces) as [st|e]; [|discriminate].
    destruct (are_pairwise_disjoint (i_domain_list st)) eqn:D; [|discriminate].
    simpl. intros [= <-]. simpl. split; [exact D|].
    intros i j x Hij Ci Cj. rewrite contains_point in Ci, Cj.
    destruct (Nat.lt_total i j) as [L|[L|L]]; [|contradiction|].
    + exact (pairwise_disjoint_sound _ (x, 0) D L Ci Cj).
    + exact (pairwise_disjoint_sound _ (x, 0) D L Cj Ci).
  - intros st -> D. now rewrite D.
Qed.

(** *** The errors of the constructor and of the combinators *)

Lemma init_piece_errors (st st' : init_state X F) (piece : RealSet X * pyval F)
  (e : error) :
  init_piece st piece = Raise e -> e = InvalidFunc \/ e = InconsistentVariable.
Proof.
  destruct piece as [dom [n|f]]; unfold init_piece.
  - destruct (is_empty dom); [discriminate | intros [= <-]; auto].
  - destruct (is_empty dom); [discriminate|].
    destruct (i_var st) as [v|]; [|discriminate].
    destruct (String.eqb (fvar f) v); [discriminate | intros [= <-]; auto].
Qed.

Lemma init_loop_errors (function_pieces : list (RealSet X * pyval F)) :
  forall st e, init_loop st function_pieces = Raise e ->
    e = InvalidFunc \/ e = InconsistentVariable.
Proof.
  induction function_pieces as [|piece rest IH]; intros st e; simpl; [discriminate|].
  destruct (init_piece st piece) as [st'|e'] eqn:E.
  - apply IH.
  - intros [= <-]. exact (init_piece_errors st st piece E).
Qed.

Lemma init_errors (function_pieces : list (RealSet X * pyval F)) (e : error) :
  __init__ function_pieces = Raise e ->
  e = InvalidFunc \/ e = InconsistentVariable \/ e = OverlappingDomains.
Proof.
  unfold __init__. destruct (init_loop _ function_pieces) as [st|e'] eqn:E.
  - destruct (negb _); [intros [= <-]; auto | discriminate].
  - intros [= <-]. destruct (init_loop_errors _ _ E); auto.
Qed.

Lemma combine_funcs_errors (op : pyval F -> pyval F -> pyval F) (start : pyval F)
  (self other : PiecewiseFunction X F) (inds : list Z) (e : error) :
  combine_funcs op start self other inds = Raise e -> e = IndexError.
Proof.
  unfold combine_funcs.
  assert (G : forall l acc,
             (forall e', acc = Raise e' -> e' = IndexError) ->
             fold_left (fun acc '(i, ind) =>
               match acc with
               | Raise e => Raise e
               | Ok a =>
                   if 0 <? ind then
                     match func_at self other i with
                     | Ok f => Ok (op a (PyPoly f))
                     | Raise e => Raise e
                     end
                   else Ok a
               end) l acc = Raise e -> e = IndexError).
  { induction l as [|[i ind] l IH]; intros acc Hacc; simpl; [apply Hacc|].
    apply IH. destruct acc as [a|e0]; [|exact Hacc].
    destruct (0 <? ind); [|discriminate].
    unfold func_at. destruct (if (i <? _)%nat then _ else _); [discriminate|].
    now intros e' [= <-]. }
  apply G. discriminate.
Qed.

Lemma combine_pairs_errors (op : pyval F -> pyval F -> pyval F) (start : pyval F)
  (union : bool) (self other : PiecewiseFunction X F)
  (p : list (RealSet X * list Z)) (e : error) :
  combine_pairs op start union self other p = Raise e -> e = IndexError.
Proof.
  induction p as [|[real_set inds] p IH]; simpl; [discriminate|].
  destruct (negb union && (zsum inds <? 2)); [exact IH|].
  destruct (combine_funcs op start self other inds) eqn:E.
  - destruct (combine_pairs op start union self other p); [discriminate|].
    intros [= <-]. now apply IH.
  - intros [= <-]. exact (combine_funcs_errors _ _ _ _ _ E).
Qed.

Lemma general_not_mismatch (self other : PiecewiseFunction X F) (union : bool) :
  piecewise_add_general self other union <> Raise DomainMismatch /\
  piecewise_mul_general self other union <> Raise DomainMismatch.
Proof.
  unfold piecewise_add_general, piecewise_mul_general. split.
  - destruct (combine_pairs py_add _ _ _ _ _) eqn:E.
    + intros D. apply init_errors in D as [D|[D|D]]; discriminate.
    + intros [= ->]. apply combine_pairs_errors in E. discriminate.
  - destruct (combine_pairs py_mul _ _ _ _ _) eqn:E.
    + intros D. apply init_errors in D as [D|[D|D]]; discriminate.
    + intros [= ->]. apply combine_pairs_errors in E. discriminate.
Qed.

(** The strict sum and product raise [DomainMismatch] exactly when the
    supports differ, and otherwise are the general combination over the
    union of the domains. *)
Lemma strict_mismatch (p q : PiecewiseFunction X F) :
  (piecewise_add p q = Raise DomainMismatch <-> support p <> support q) /\
  (piecewise_mul p q = Raise DomainMismatch <-> support p <> support q) /\
  (support p = support q ->
   piecewise_add p q = piecewise_add_general p q true /\
   piecewise_mul p q = piecewise_mul_general p q true).
Proof.
  unfold piecewise_add, piecewise_mul.
  destruct (general_not_mismatch p q true) as [NA NM].
  destruct (realset_eqb (support p) (support q)) eqn:E; simpl.
  - apply realset_eqb_eq in E. split; [|split].
    + split; intros D; contradiction.
    + split; intros D; contradiction.
    + intros _. split; reflexivity.
  - assert (Hne : support p <> support q).
    { intros D. apply realset_eqb_eq in D. congruence. }
    split; [|split].
    + split; auto.
    + split; auto.
    + intros D. contradiction.
Qed.

End Constructor.

(** The constructor on overlapping domains with different functions. *)
Example constructor_overlap :
  __init__ [ ([closed 0 2], PyPoly (poly t [1]));
             ([closed 1 3], PyPoly (poly t [0; 1])) ]
  = Raise OverlappingDomains.
Proof. vm_compute. reflexivity. Qed.

Example constructor_example :
  show_result (__init__ example_pieces) =
  Ok [ ([closed 0 1; closed 4 5], [1; -1]);
       ([closed 2 3; closed 6 7], [0; 0; -1; 0; 1]) ].
Proof. vm_compute. reflexivity. Qed.

(** Scenario A of the spec: the strict sum of functions of different
    supports. *)
Example strict_add_mismatch :
  piecewise_add
    (built (__init__ [ ([closed 0 1; closed 4 5], PyPoly (poly t [1; -1])) ]))
    (built (__init__ [ ([closed 2 3; closed 6 7], PyPoly (poly t [0; 0; -1; 0; 1])) ]))
  = Raise DomainMismatch.
Proof. vm_compute. reflexivity. Qed.

(** ** Continuity and limits: the code at two inputs *)

(** C3: [jump_p] has the value [0] at the boundary point [1] and the
    right limit [1] there, and [is_continuous] answers [True]: the test
    [if val:] skips a value that is zero. *)
Theorem is_continuous_zero_value :
  table_get (snd (_init_end_points jump_p)) 1 = Some (Some 0, (Some 0, Some 1)) /\
  is_continuous jump_p = true.
Proof. split; vm_compute; reflexivity. Qed.

(** C6: at the boundary point [1] of [example_p], the upper end of
    [[0, 1]], the left limit is [0] and there is no right limit;
    [limits] returns the value, then the left limit, then the right
    limit. *)
Theorem limits_order :
  table_get (snd (_init_end_points example_p)) 1 = Some (Some 0, (Some 0, None)) /\
  limits example_p 1 = ([], Ok (Some 0, Some 0, None)).
Proof. split; vm_compute; reflexivity. Qed.
(** ** The endpoint table *)

Lemma find_app {T} (f : T -> bool) (l l' : list T) :
  find f (l ++ l') =
  match find f l with
  | Some a => Some a
  | None => find f l'
  end.
Proof.
  induction l as [|a l IH]; simpl; [reflexivity|]. now destruct (f a).
Qed.

Section EndPoints.
Context {X : Type} `{Ord X} {F : Type} `{FunctionService X F}.

Lemma eqb_refl (x : X) : eqb x x = true.
Proof. now apply eqb_eq. Qed.

Lemma eqb_neq (x y : X) : x <> y -> eqb x y = false.
Proof.
  intros Hn. destruct (eqb x y) eqn:E; [|reflexivity].
  apply eqb_eq in E. contradiction.
Qed.

Lemma table_get_set (T : list (X * entry X)) (x y : X) (e : entry X) :
  table_get (table_set T x e) y = if eqb x y then Some e else table_get T y.
Proof.
  induction T as [|[k e'] T IH]; simpl; [reflexivity|].
  destruct (eqb k x) eqn:K; simpl.
  - apply eqb_eq in K. subst k. now destruct (eqb x y).
  - rewrite IH. destruct (eqb k y) eqn:Ky; [|reflexivity].
    apply eqb_eq in Ky. subst k. rewrite eqb_neq; [reflexivity|].
    intros ->. rewrite eqb_refl in K. discriminate.
Qed.

Lemma record_event_get (func : F) (T : list (X * entry X)) (ev : position X * Z) (y : X) :
  table_get (record_event func T ev) y =
  if eqb (ev_x ev) y then
    Some (if writes_value ev then Some (feval func y) else value_of (entry_at T y),
          (if writes_left ev then Some (feval func y) else left_of (entry_at T y),
           if writes_right ev then Some (feval func y) else right_of (entry_at T y)))
  else table_get T y.
Proof.
  destruct ev as [[x eps] delta].
  unfold record_event, ev_x, writes_value, writes_left, writes_right, entry_at.
  cbn [fst snd].
  destruct (eqb x y) eqn:E.
  - apply eqb_eq in E. subst y.
    destruct (table_get T x) as [[value [l r]]|];
      destruct (delta <? 0); rewrite table_get_set, (proj2 (eqb_eq x x) eq_refl);
      reflexivity.
  - destruct (table_get T x) as [[value [l r]]|];
      destruct (delta <? 0); rewrite table_get_set, E; reflexivity.
Qed.

Lemma fold_flat_map {A B C} (f : A -> C -> A) (g : B -> list C) (l : list B) :
  forall a, fold_left f (flat_map g l) a =
            fold_left (fun a b => fold_left f (g b) a) l a.
Proof.
  induction l as [|b l IH]; intros a; simpl; [reflexivity|].
  now rewrite fold_left_app, IH.
Qed.

Lemma fold_map {A B C} (f : A -> C -> A) (g : B -> C) (l : list B) :
  forall a, fold_left f (map g l) a = fold_left (fun a b => f a (g b)) l a.
Proof. induction l as [|b l IH]; intros a; simpl; auto. Qed.

Lemma init_end_points_flat (p : PiecewiseFunction X F) :
  snd (_init_end_points p) = record_all (all_events p) [].
Proof.
  unfold _init_end_points, record_all, all_events. cbn [snd].
  rewrite fold_flat_map. generalize (@nil (X * entry X)).
  induction (__iter__ p) as [|[dom func] l IH]; intros T; simpl; [reflexivity|].
  rewrite fold_map. simpl. apply IH.
Qed.

(** A slot of the entry of [y] holds what the last event writing it
    recorded. *)
Lemma last_writer (sl : entry X -> option X) (w : position X * Z -> bool) :
  (forall func T ev y,
     sl (entry_at (record_event func T ev) y) =
     if eqb (ev_x ev) y && w ev then Some (feval func y)
     else sl (entry_at T y)) ->
  forall L T y,
    sl (entry_at (record_all L T) y) =
    match find (fun fe => eqb (ev_x (snd fe)) y && w (snd fe)) (rev L) with
    | Some fe => Some (feval (fst fe) y)
    | None => sl (entry_at T y)
    end.
Proof.
  intros Hstep. induction L as [|[func ev] L IH]; intros T y; [reflexivity|].
  unfold record_all in *. cbn [fold_left fst snd]. rewrite IH.
  cbn [rev]. rewrite find_app.
  destruct (find _ (rev L)); [reflexivity|].
  cbn [find fst snd]. rewrite Hstep.
  now destruct (eqb (ev_x ev) y && w ev).
Qed.

Lemma entry_at_record (func : F) (T : list (X * entry X)) (ev : position X * Z) (y : X) :
  entry_at (record_event func T ev) y =
  if eqb (ev_x ev) y then
    (if writes_value ev then Some (feval func y) else value_of (entry_at T y),
     (if writes_left ev then Some (feval func y) else left_of (entry_at T y),
      if writes_right ev then Some (feval func y) else right_of (entry_at T y)))
  else entry_at T y.
Proof.
  unfold entry_at at 1. rewrite record_event_get.
  destruct (eqb (ev_x ev) y); reflexivity.
Qed.

Lemma right_step (func : F) (T : list (X * entry X)) (ev : position X * Z) (y : X) :
  right_of (entry_at (record_event func T ev) y) =
  if eqb (ev_x ev) y && writes_right ev then Some (feval func y)
  else right_of (entry_at T y).
Proof.
  rewrite entry_at_record.
  destruct (eqb (ev_x ev) y), (writes_right ev); reflexivity.
Qed.

Lemma left_step (func : F) (T : list (X * entry X)) (ev : position X * Z) (y : X) :
  left_of (entry_at (record_event func T ev) y) =
  if eqb (ev_x ev) y && writes_left ev then Some (feval func y)
  else left_of (entry_at T y).
Proof.
  rewrite entry_at_record.
  destruct (eqb (ev_x ev) y), (writes_left ev); reflexivity.
Qed.

Lemma value_step (func : F) (T : list (X * entry X)) (ev : position X * Z) (y : X) :
  value_of (entry_at (record_event func T ev) y) =
  if eqb (ev_x ev) y && writes_value ev then Some (feval func y)
  else value_of (entry_at T y).
Proof.
  rewrite entry_at_record.
  destruct (eqb (ev_x ev) y), (writes_value ev); reflexivity.
Qed.

(** A point with a boundary event is a key of the table. *)
Lemma record_all_key (L : list (F * (position X * Z))) :
  forall T y,
    (table_get T y <> None \/ exists fe, In fe L /\ ev_x (snd fe) = y) ->
    table_get (record_all L T) y <> None.
Proof.
  induction L as [|[func ev] L IH]; intros T y Hk.
  - destruct Hk as [Hk | [fe [[] _]]]. exact Hk.
  - unfold record_all in *. cbn [fold_left fst snd]. apply IH.
    destruct Hk as [Hk | [fe [[<- | Hin] Hx]]].
    + left. rewrite record_event_get. now destruct (eqb (ev_x ev) y).
    + left. rewrite record_event_get. cbn [snd] in Hx.
      rewrite (proj2 (eqb_eq _ _) Hx). discriminate.
    + right. exists fe. auto.
Qed.

Lemma table_get_entry_at (T : list (X * entry X)) (y : X) :
  table_get T y <> None -> table_get T y = Some (entry_at T y).
Proof. unfold entry_at. destruct (table_get T y); congruence. Qed.

(** The events of the pieces before one piece, of that piece, and of the
    pieces after it. *)
Lemma all_events_split (p : PiecewiseFunction X F)
  (pre post : list (RealSet X * F)) (dom : RealSet X) (func : F) :
  __iter__ p = pre ++ (dom, func) :: post ->
  rev (all_events p) =
  rev (flat_map (fun '(dom, func) => map (fun ev => (func, ev)) (_scan dom)) post)
  ++ rev (map (fun ev => (func, ev)) (_scan dom))
  ++ rev (flat_map (fun '(dom, func) => map (fun ev => (func, ev)) (_scan dom)) pre).
Proof.
  intros Hit. unfold all_events. rewrite Hit, flat_map_app. cbn [flat_map].
  now rewrite !rev_app_distr, app_assoc.
Qed.

Lemma find_none_flat (w : F * (position X * Z) -> bool)
  (Q : InternalRealInterval X -> Prop) (pieces : list (RealSet X * F)) :
  (forall func iv ev, Q iv ->
     In ev (_scan [iv]) -> w (func, ev) = false) ->
  Forall (fun piece => Forall Q (fst piece)) pieces ->
  find w (rev (flat_map (fun '(dom, func) => map (fun ev => (func, ev)) (_scan dom))
                        pieces)) = None.
Proof.
  intros Hw Hall. apply find_none_forall. apply Forall_forall.
  intros [func ev] Hin. apply in_rev in Hin. apply in_flat_map in Hin.
  destruct Hin as [[dom func'] [Hp Hin]]. apply in_map_iff in Hin.
  destruct Hin as [ev' [[= <- <-] Hev]].
  rewrite Forall_forall in Hall. specialize (Hall _ Hp). cbn [fst] in Hall.
  unfold _scan in Hev. apply in_flat_map in Hev. destruct Hev as [iv [Hiv Hev]].
  rewrite Forall_forall in Hall. apply (Hw func' iv ev' (Hall _ Hiv)).
  unfold _scan. simpl in Hev |- *. exact Hev.
Qed.

Lemma find_some_piece (w : F * (position X * Z) -> bool) (func : F)
  (dom : RealSet X) (ev : position X * Z) :
  In ev (_scan dom) -> w (func, ev) = true ->
  exists ev', find w (rev (map (fun ev => (func, ev)) (_scan dom))) = Some (func, ev').
Proof.
  intros Hin Hw.
  destruct (find w (rev (map (fun ev => (func, ev)) (_scan dom)))) as [[f' ev']|] eqn:E.
  - apply find_some in E as [E _]. apply in_rev in E. apply in_map_iff in E.
    destruct E as [ev'' [[= <- <-] _]]. now exists ev''.
  - exfalso. assert (Hf : w (func, ev) = false); [|congruence].
    apply (find_none _ _ E (func, ev)).
    apply -> in_rev. apply in_map_iff. now exists ev.
Qed.

Lemma scan_lower (dom : RealSet X) (iv : InternalRealInterval X) :
  In iv dom ->
  In ((_lower iv, if _lower_closed iv then 0 else 1), -1) (_scan dom).
Proof. intros Hin. unfold _scan. apply in_flat_map. exists iv. simpl. auto. Qed.

Lemma scan_upper (dom : RealSet X) (iv : InternalRealInterval X) :
  In iv dom ->
  In ((_upper iv, if _upper_closed iv then 1 else 0), 1) (_scan dom).
Proof. intros Hin. unfold _scan. apply in_flat_map. exists iv. simpl. auto. Qed.

(** C2, as the code has it.  The table is filled piece by piece, and a
    later piece overwrites what an earlier one recorded at the same
    point.  For a piece [(dom, func)] and a component [iv] of [dom]: the
    right limit at the lower end of [iv] is [func] there when no later
    piece has that lower end; the left limit at the upper end likewise;
    the value at a closed end is [func] there when no later piece has
    that point as a closed end; and a value is recorded only at a closed
    end of some piece, as the function of that piece there. *)
Theorem end_points_recorded (p : PiecewiseFunction X F)
  (pre post : list (RealSet X * F)) (dom : RealSet X) (func : F)
  (iv : InternalRealInterval X) :
  __iter__ p = pre ++ (dom, func) :: post ->
  In iv dom ->
  let T := snd (_init_end_points p) in
  (lower_boundary_free (_lower iv) post ->
   exists v l, table_get T (_lower iv) = Some (v, (l, Some (feval func (_lower iv))))) /\
  (upper_boundary_free (_upper iv) post ->
   exists v r, table_get T (_upper iv) = Some (v, (Some (feval func (_upper iv)), r))) /\
  (forall x, closed_boundary iv x -> closed_boundary_free x post ->
   exists l r, table_get T x = Some (Some (feval func x), (l, r))) /\
  (forall x v l r, table_get T x = Some (Some v, (l, r)) ->
   exists piece iv', In piece (__iter__ p) /\ In iv' (fst piece) /\
                     closed_boundary iv' x /\ v = feval (snd piece) x).
Proof.
  intros Hit Hiv T. unfold T. rewrite init_end_points_flat.
  assert (Hkey : forall x, (x = _lower iv \/ x = _upper iv) ->
            table_get (record_all (all_events p) []) x =
            Some (entry_at (record_all (all_events p) []) x)).
  { intros x Hx. apply table_get_entry_at. apply record_all_key. right.
    unfold all_events. rewrite Hit.
    destruct Hx as [-> | ->].
    - exists (func, ((_lower iv, if _lower_closed iv then 0 else 1), -1)).
      split; [|reflexivity]. apply in_flat_map. exists (dom, func).
      split; [apply in_elt|]. apply in_map. now apply scan_lower.
    - exists (func, ((_upper iv, if _upper_closed iv then 1 else 0), 1)).
      split; [|reflexivity]. apply in_flat_map. exists (dom, func).
      split; [apply in_elt|]. apply in_map. now apply scan_upper. }
  split; [|split; [|split]].
  - intros Hfree. rewrite (Hkey _ (or_introl eq_refl)).
    pose proof (@last_writer right_of writes_right right_step (all_events p) []
                  (_lower iv)) as LW.
    rewrite (@all_events_split p pre post dom func Hit), !find_app in LW.
    rewrite (@find_none_flat _ (fun iv' => _lower iv' <> _lower iv) post) in LW;
      [|clear; intros func iv' ev Hq [<- | [<- | []]]; cbn [snd fst];
        unfold ev_x, writes_right; cbn [fst snd];
        [rewrite (eqb_neq Hq); reflexivity | apply andb_false_r] | exact Hfree].
    destruct (@find_some_piece
                (fun fe => eqb (ev_x (snd fe)) (_lower iv) && writes_right (snd fe))
                func dom _ (@scan_lower dom iv Hiv)) as [ev' E].
    { cbn [snd]. unfold ev_x, writes_right. cbn [fst snd]. now rewrite eqb_refl. }
    rewrite E in LW. cbn [fst] in LW.
    destruct (entry_at (record_all (all_events p) []) (_lower iv)) as [v [l r]].
    unfold right_of in LW. cbn [snd] in LW. subst r. eauto.
  - intros Hfree. rewrite (Hkey _ (or_intror eq_refl)).
    pose proof (@last_writer left_of writes_left left_step (all_events p) []
                  (_upper iv)) as LW.
    rewrite (@all_events_split p pre post dom func Hit), !find_app in LW.
    rewrite (@find_none_flat _ (fun iv' => _upper iv' <> _upper iv) post) in LW;
      [|clear; intros func iv' ev Hq [<- | [<- | []]]; cbn [snd fst];
        unfold ev_x, writes_left; cbn [fst snd];
        [apply andb_false_r | rewrite (eqb_neq Hq); reflexivity] | exact Hfree].
    destruct (@find_some_piece
                (fun fe => eqb (ev_x (snd fe)) (_upper iv) && writes_left (snd fe))
                func dom _ (@scan_upper dom iv Hiv)) as [ev' E].
    { cbn [snd]. unfold ev_x, writes_left. cbn [fst snd]. now rewrite eqb_refl. }
    rewrite E in LW. cbn [fst] in LW.
    destruct (entry_at (record_all (all_events p) []) (_upper iv)) as [v [l r]].
    unfold left_of in LW. cbn [fst snd] in LW. subst l. eauto.
  - intros x Hcb Hfree.
    assert (Hx : x = _lower iv \/ x = _upper iv) by (destruct Hcb as [[<- _]|[<- _]]; auto).
    rewrite (Hkey _ Hx).
    pose proof (@last_writer value_of writes_value value_step (all_events p) [] x) as LW.
    rewrite (@all_events_split p pre post dom func Hit), !find_app in LW.
    rewrite (@find_none_flat _ (fun iv' => ~ closed_boundary iv' x) post) in LW;
      [| | exact Hfree].
    + assert (Hex : exists ev, In ev (_scan dom) /\
                      eqb (ev_x ev) x && writes_value ev = true).
      { destruct Hcb as [[Hl Hc] | [Hu Hc]].
        - eexists. split; [exact (@scan_lower dom iv Hiv)|].
          unfold ev_x, writes_value. cbn [fst snd]. rewrite Hc, Hl, eqb_refl.
          reflexivity.
        - eexists. split; [exact (@scan_upper dom iv Hiv)|].
          unfold ev_x, writes_value. cbn [fst snd]. rewrite Hc, Hu, eqb_refl.
          reflexivity. }
      destruct Hex as [ev [Hev Hw]].
      destruct (@find_some_piece
                  (fun fe => eqb (ev_x (snd fe)) x && writes_value (snd fe))
                  func dom ev Hev Hw) as [ev' E].
      rewrite E in LW. cbn [fst] in LW.
      destruct (entry_at (record_all (all_events p) []) x) as [v [l r]].
      unfold value_of in LW. cbn [fst] in LW. subst v. eauto.
    + clear. intros func iv' ev Hq [<- | [<- | []]]; cbn [snd fst];
        unfold ev_x, writes_value; cbn [fst snd].
      * destruct (eqb (_lower iv') x) eqn:E; [|reflexivity].
        apply eqb_eq in E. destruct (_lower_closed iv') eqn:C; [|reflexivity].
        exfalso. apply Hq. left. auto.
      * destruct (eqb (_upper iv') x) eqn:E; [|reflexivity].
        apply eqb_eq in E. destruct (_upper_closed iv') eqn:C; [|reflexivity].
        exfalso. apply Hq. right. auto.
  - intros x v l r Hget.
    pose proof (@last_writer value_of writes_value value_step (all_events p) [] x) as LW.
    unfold entry_at at 1 in LW. rewrite Hget in LW. unfold value_of at 1 in LW.
    cbn [fst] in LW.
    destruct (find _ (rev (all_events p))) as [[func' ev]|] eqn:E;
      [|discriminate].
    apply find_some in E as [Hin Hw]. apply in_rev in Hin.
    unfold all_events in Hin. apply in_flat_map in Hin.
    destruct Hin as [[dom' func''] [Hp Hin]]. apply in_map_iff in Hin.
    destruct Hin as [ev' [[= <- <-] Hev]].
    unfold _scan in Hev. apply in_flat_map in Hev. destruct Hev as [iv' [Hiv' Hev]].
    exists (dom', func''), iv'. cbn [fst snd] in *.
    injection LW as LW. repeat split; auto.
    apply andb_true_iff in Hw as [Hx Hw]. apply eqb_eq in Hx.
    destruct Hev as [<- | [<- | []]]; unfold ev_x, writes_value in *;
      cbn [fst snd] in *.
    + left. split; [exact Hx|]. destruct (_lower_closed iv'); [reflexivity | discriminate].
    + right. split; [exact Hx|]. destruct (_upper_closed iv'); [reflexivity | discriminate].
Qed.

End EndPoints.

Lemma end_points_recorded_witness :
  __iter__ jump_p =
    [] ++ ([closed 0 1], poly t [1; -1]) :: [([open_closed 1 2], poly t [0; 1])] /\
  In (closed 0 1) [closed 0 1] /\
  exists v l, table_get (snd (_init_end_points jump_p)) 0 = Some (v, (l, Some 1)).
Proof.
  assert (Hit : __iter__ jump_p =
    [] ++ ([closed 0 1], poly t [1; -1]) :: [([open_closed 1 2], poly t [0; 1])])
    by (vm_compute; reflexivity).
  assert (Hin : In (closed 0 1) [closed 0 1]) by (left; reflexivity).
  split; [exact Hit|]. split; [exact Hin|].
  refine (proj1 (@end_points_recorded _ _ _ _ jump_p _ _ _ _ _ Hit Hin) _).
  repeat constructor; simpl; discriminate.
Defined.

(** C2 as stated fails: [1] is the lower boundary of the piece [t] on
    [(1, 2)], where [t] is [1], and the right limit recorded at [1] is
    the [5] of the later piece on the point [{1}]. *)
Lemma end_points_overwritten :
  show point_p = [ ([opened 1 2], [0; 1]); ([closed 1 1], [5]) ] /\
  feval (poly t [0; 1]) 1 = 1 /\
  table_get (snd (_init_end_points point_p)) 1 = Some (Some 5, (Some 5, Some 5)).
Proof. repeat split; vm_compute; reflexivity. Qed.
(** ** The algebra laws *)

Section AlgebraLaws.
Context {X : Type} `{Ord X} {F : Type} `{FunctionService X F}
        `{!FunctionLaws X F}.

Lemma key_at_germ (C : PiecewiseFunction X F) (x : X) (h : F) :
  (exists iv, pcontains iv (x, 1) = true /\
              piece_at C (x, 1) = Some (key_of h iv)) ->
  piece_at C (x, 1) = Some h.
Proof. intros [iv [Hp E]]. now rewrite (key_germ h _ _ Hp) in E. Qed.

Lemma key_at_point (C : PiecewiseFunction X F) (x : X) (h : F) :
  (exists iv, pcontains iv (x, 0) = true /\
              piece_at C (x, 0) = Some (key_of h iv)) ->
  exists k, piece_at C (x, 0) = Some k /\ feval k x = feval h x.
Proof.
  intros [iv [Hp E]]. exists (key_of h iv). split; [assumption|].
  now apply key_point.
Qed.

Lemma piece_var (A : PiecewiseFunction X F) (g : position X) (f : F) :
  wf A -> piece_at A g = Some f -> var A = Some (fvar f).
Proof.
  intros W E. apply piece_at_in in E. pose proof (wf_var W) as Hv.
  destruct (var A) as [v|].
  - destruct Hv as [_ Hall]. rewrite Forall_forall in Hall. now rewrite (Hall f E).
  - rewrite Hv in E. destruct E.
Qed.

Lemma piece_same_support (A B : PiecewiseFunction X F) (g : position X) (fa : F) :
  wf A -> wf B -> support A = support B ->
  piece_at A g = Some fa -> exists fb, piece_at B g = Some fb.
Proof.
  intros WA WB Es Ea. apply (support_piece g WB). rewrite <- Es.
  apply (support_piece g WA). eauto.
Qed.

Lemma piece_same_var (A B : PiecewiseFunction X F) (g : position X) (fa fb : F) :
  wf A -> wf B -> var A = var B ->
  piece_at A g = Some fa -> piece_at B g = Some fb -> fvar fa = fvar fb.
Proof.
  intros WA WB Ev Ea Eb.
  pose proof (piece_var g WA Ea) as Va. pose proof (piece_var g WB Eb) as Vb.
  congruence.
Qed.

(** C7, for functions over the same variable: [p + q == q + p],
    [(p + q) - q == p], and [(p^2)(x) == p(x)^2] at every point [x] of
    the support. *)
Theorem algebra_laws (pieces_p pieces_q : list (RealSet X * pyval F))
  (vp vq : string) (p q : PiecewiseFunction X F) :
  pieces_ok vp pieces_p -> pieces_ok vq pieces_q ->
  __init__ pieces_p = Ok p -> __init__ pieces_q = Ok q ->
  var p = var q -> support p = support q ->
  (exists s s', __add__ p (OPiecewise q) = ([], Ok (Some s)) /\
                __add__ q (OPiecewise p) = ([], Ok (Some s')) /\
                __eq__ s s' = Ok true) /\
  (exists s d, __add__ p (OPiecewise q) = ([], Ok (Some s)) /\
               __sub__ s (OPiecewise q) = ([], Ok (Some d)) /\
               __eq__ d p = Ok true) /\
  (exists p2, __pow__ p 2 = Ok p2 /\
     forall x, contains (support p) x = true ->
       exists y, __call__ p [x] [] = ([], Ok (Some y)) /\
                 __call__ p2 [x] [] = ([], Ok (Some (xpow y 2)))).
Proof.
  intros Hokp Hokq Ep Eq Ev Es.
  pose proof (init_wf Hokp Ep) as Wp. pose proof (init_wf Hokq Eq) as Wq.
  destruct (add_spec Wp Wq Ev Es) as [s [Eadd [Ws [Evs [Ess [Hds _]]]]]].
  assert (Hs1 : forall x fp fq, piece_at p (x, 1) = Some fp ->
            piece_at q (x, 1) = Some fq -> piece_at s (x, 1) = Some (fadd fp fq)).
  { intros x fp fq E1 E2. apply key_at_germ. eauto. }
  assert (Hs0 : forall x fp fq, piece_at p (x, 0) = Some fp ->
            piece_at q (x, 0) = Some fq ->
            exists k, piece_at s (x, 0) = Some k /\
                      feval k x = feval (fadd fp fq) x).
  { intros x fp fq E1 E2. apply key_at_point. eauto. }
  split; [|split].
  - destruct (add_spec Wq Wp (eq_sym Ev) (eq_sym Es))
      as [s' [Eadd' [Ws' [Evs' [Ess' [Hds' _]]]]]].
    exists s, s'. split; [assumption|]. split; [assumption|].
    apply eq_spec; auto; try congruence.
    + intros x c c' Ec Ec'.
      destruct (piece_same_support (x, 1) Ws Wp Ess Ec) as [fp Efp].
      destruct (piece_same_support (x, 1) Wp Wq Es Efp) as [fq Efq].
      rewrite (Hs1 x fp fq Efp Efq) in Ec.
      assert (Ec2 : piece_at s' (x, 1) = Some (fadd fq fp))
        by (apply key_at_germ; eauto).
      rewrite (fadd_comm fp fq (piece_same_var (x, 1) Wp Wq Ev Efp Efq)) in Ec.
      congruence.
    + intros x c c' Ec Ec'.
      destruct (piece_same_support (x, 0) Ws Wp Ess Ec) as [fp Efp].
      destruct (piece_same_support (x, 0) Wp Wq Es Efp) as [fq Efq].
      destruct (Hs0 x fp fq Efp Efq) as [k [Ek Hk]].
      assert (Ek2 : exists k', piece_at s' (x, 0) = Some k' /\
                               feval k' x = feval (fadd fq fp) x)
        by (apply key_at_point; eauto).
      destruct Ek2 as [k' [Ek' Hk']].
      assert (c = k) by congruence. assert (c' = k') by congruence. subst.
      rewrite Hk, Hk'.
      now rewrite (fadd_comm fp fq (piece_same_var (x, 0) Wp Wq Ev Efp Efq)).
  - destruct (neg_spec Wq) as [nq [Eneg [Wnq [Evn [Esn Hdn]]]]].
    assert (Evsn : var s = var nq) by congruence.
    assert (Essn : support s = support nq) by congruence.
    destruct (add_spec Ws Wnq Evsn Essn) as [d [Esub [Wd [Evd [Esd [Hdd _]]]]]].
    exists s, d. split; [assumption|]. split.
    { unfold __sub__. now rewrite Eneg. }
    apply eq_spec; auto; try congruence.
    + intros x c fp Ec Efp.
      destruct (piece_same_support (x, 1) Wp Wq Es Efp) as [fq Efq].
      assert (En1 : piece_at nq (x, 1) = Some (fneg fq))
        by (apply key_at_germ; eauto).
      assert (Ed : piece_at d (x, 1) = Some (fadd (fadd fp fq) (fneg fq))).
      { apply key_at_germ. apply Hdd; [now apply Hs1|assumption]. }
      rewrite (fadd_cancel fp fq (piece_same_var (x, 1) Wp Wq Ev Efp Efq)) in Ed.
      congruence.
    + intros x c fp Ec Efp.
      destruct (piece_same_support (x, 0) Wp Wq Es Efp) as [fq Efq].
      destruct (Hs0 x fp fq Efp Efq) as [k [Ek Hk]].
      assert (En0 : exists n, piece_at nq (x, 0) = Some n /\
                              feval n x = feval (fneg fq) x)
        by (apply key_at_point; eauto).
      destruct En0 as [n [En Hn]].
      assert (Ed : exists c', piece_at d (x, 0) = Some c' /\
                              feval c' x = feval (fadd k n) x)
        by (apply key_at_point; eauto).
      destruct Ed as [c' [Ec' Hc']].
      assert (c = c') by congruence. subst c'.
      rewrite Hc', feval_add, Hk, Hn, feval_add, feval_neg.
      apply xadd_cancel.
  - destruct (pow_spec 2 Wp) as [p2 [Epow [Wp2 [_ [_ Hdp]]]]].
    exists p2. split; [assumption|]. intros x Hx.
    rewrite contains_point in Hx.
    apply (support_piece (x, 0) Wp) in Hx as [f Ef].
    exists (feval f x). split; [now apply call_piece|].
    assert (E2 : exists k, piece_at p2 (x, 0) = Some k /\
                           feval k x = feval (fpow f 2) x)
      by (apply key_at_point; eauto).
    destruct E2 as [k [Ek Hk]].
    rewrite (call_piece p2 x Ek), Hk, feval_pow. reflexivity.
Qed.

Lemma lift_some {T} (r : result T) (a : T) : lift r = Ok (Some a) -> r = Ok a.
Proof. destruct r; simpl; congruence. Qed.

(** C4: the strict sum and product raise [DomainMismatch] exactly when
    the supports differ; with equal supports they are the general
    combination over the union of the domains, and on constructed
    functions of the same variable they return a function on the common
    support whose value at every point is the sum, or the product, of
    the two values. *)
Theorem strict_add_mul (p q : PiecewiseFunction X F) :
  (piecewise_add p q = Raise DomainMismatch <-> support p <> support q) /\
  (piecewise_mul p q = Raise DomainMismatch <-> support p <> support q) /\
  (support p = support q ->
   piecewise_add p q = piecewise_add_general p q true /\
   piecewise_mul p q = piecewise_mul_general p q true) /\
  (forall pieces_p pieces_q vp vq,
     pieces_ok vp pieces_p -> pieces_ok vq pieces_q ->
     __init__ pieces_p = Ok p -> __init__ pieces_q = Ok q ->
     var p = var q -> support p = support q ->
     exists s m,
       piecewise_add p q = Ok s /\ piecewise_mul p q = Ok m /\
       support s = support p /\ support m = support p /\
       forall x, contains (support p) x = true ->
         exists y z, __call__ p [x] [] = ([], Ok (Some y)) /\
                     __call__ q [x] [] = ([], Ok (Some z)) /\
                     __call__ s [x] [] = ([], Ok (Some (xadd y z))) /\
                     __call__ m [x] [] = ([], Ok (Some (xmul y z)))).
Proof.
  destruct (strict_mismatch p q) as [M1 [M2 M3]].
  split; [exact M1|]. split; [exact M2|]. split; [exact M3|].
  intros pieces_p pieces_q vp vq Hokp Hokq Ep Eq Ev Es.
  pose proof (init_wf Hokp Ep) as Wp. pose proof (init_wf Hokq Eq) as Wq.
  destruct (add_spec Wp Wq Ev Es) as [s [Eadd [Ws [_ [Ess [Hds _]]]]]].
  destruct (mul_spec Wp Wq Ev Es) as [m [Emul [Wm [_ [Esm [Hdm _]]]]]].
  exists s, m.
  unfold __add__ in Eadd. unfold __mul__ in Emul.
  rewrite Ev, var_eqb_refl in Eadd, Emul. simpl in Eadd, Emul.
  injection Eadd as Eadd. injection Emul as Emul.
  apply lift_some in Eadd. apply lift_some in Emul.
  split; [assumption|]. split; [assumption|].
  split; [assumption|]. split; [assumption|].
  intros x Hx. rewrite contains_point in Hx.
  apply (support_piece (x, 0) Wp) in Hx as [fp Efp].
  destruct (piece_same_support (x, 0) Wp Wq Es Efp) as [fq Efq].
  exists (feval fp x), (feval fq x).
  split; [now apply call_piece|]. split; [now apply call_piece|].
  assert (Ek : exists k, piece_at s (x, 0) = Some k /\
                         feval k x = feval (fadd fp fq) x)
    by (apply key_at_point; eauto).
  assert (Ek' : exists k, piece_at m (x, 0) = Some k /\
                          feval k x = feval (fmul fp fq) x)
    by (apply key_at_point; eauto).
  destruct Ek as [k [Ek Hk]]. destruct Ek' as [k' [Ek' Hk']].
  rewrite (call_piece s x Ek), (call_piece m x Ek'), Hk, Hk'.
  now rewrite feval_add, feval_mul.
Qed.

End AlgebraLaws.

Lemma algebra_laws_witness :
  pieces_ok t example_pieces /\ pieces_ok t example_q_pieces /\
  __init__ example_pieces = Ok example_p /\
  __init__ example_q_pieces = Ok example_q /\
  var example_p = var example_q /\ support example_p = support example_q /\
  exists s d, __add__ example_p (OPiecewise example_q) = ([], Ok (Some s)) /\
              __sub__ s (OPiecewise example_q) = ([], Ok (Some d)) /\
              __eq__ d example_p = Ok true.
Proof.
  assert (H1 : pieces_ok t example_pieces).
  { intros D func [E|[E|[]]]; injection E as <- <-;
      (split; [reflexivity | eexists; split; reflexivity]). }
  assert (H2 : pieces_ok t example_q_pieces).
  { intros D func [E|[E|[]]]; injection E as <- <-;
      (split; [reflexivity | eexists; split; reflexivity]). }
  assert (H3 : __init__ example_pieces = Ok example_p) by reflexivity.
  assert (H4 : __init__ example_q_pieces = Ok example_q) by reflexivity.
  assert (H5 : var example_p = var example_q) by reflexivity.
  assert (H6 : support example_p = support example_q) by reflexivity.
  repeat (split; [assumption|]).
  exact (proj1 (proj2 (algebra_laws H1 H2 H3 H4 H5 H6))).
Defined.

(** C7 as stated fails: [example_p] and [other_var_p] have the same
    support and different variables, and their sum is [None], from which
    nothing can be subtracted. *)
Lemma algebra_laws_other_variable :
  support example_p = support other_var_p /\
  __add__ example_p (OPiecewise other_var_p) =
    ([InvalidVariables (Some t) (Some "x"%string)], Ok None).
Proof. split; reflexivity. Qed.

(** The product with the number [1] is not reached: [other.var] is
    read first. *)
Example mul_by_number :
  __mul__ example_p (ONumber 1) = ([], Raise AttributeError).
Proof. reflexivity. Qed.

(** The strict sum of [example_p] and [example_q] at [4]: [-3 + 16]. *)
Example strict_add_value :
  snd (__call__ (built (piecewise_add example_p example_q)) [4] []) = Ok (Some 13).
Proof. vm_compute. reflexivity. Qed.
(** * Part IV: further properties

    What the constructor returns and how its result evaluates, the
    values of the unary operators and of the difference, the equality
    test, the general combinators on different supports, point location
    and limits away from the boundaries. *)

Section Further.
Context {X : Type} `{Ord X} {F : Type} `{FunctionService X F}
        `{!FunctionLaws X F}.

Lemma call_none (A : PiecewiseFunction X F) (x : X) :
  piece_at A (x, 0) = None ->
  __call__ A [x] [] = ([NotInAnyDomain (str_var (var A)) x], Ok None).
Proof.
  unfold piece_at, __call__, evaluate. simpl.
  rewrite (find_ext (fun '(dom, _) => contains dom x)
                    (fun '(D, _) => gcontains D (x, 0)));
    [|intros [D k]; apply contains_point].
  destruct (find _ _) as [[D k]|]; [discriminate|reflexivity].
Qed.

Lemma existsb_pointwise {T} (f g : T -> bool) (l : list T) :
  (forall a, f a = g a) -> existsb f l = existsb g l.
Proof.
  intros E. induction l as [|a l IH]; simpl; [reflexivity|].
  now rewrite E, IH.
Qed.

Lemma piece_at_none (A : PiecewiseFunction X F) (g : position X) :
  wf A -> gcontains (support A) g = false -> piece_at A g = None.
Proof.
  intros W Hs. destruct (piece_at A g) as [f|] eqn:E; [|reflexivity].
  assert (Hc : gcontains (support A) g = true) by (apply support_piece; eauto).
  congruence.
Qed.

(** Pieces on disjoint domains in normal form are consistent. *)
Lemma disjoint_consistent (pieces : list (RealSet X * pyval F)) :
  Forall (fun piece => normalized (fst piece) = true) pieces ->
  are_pairwise_disjoint (map fst pieces) = true ->
  consistent pieces.
Proof.
  intros HN Hpd iv1 f1 iv2 f2 g [D1 [h1 [I1 [J1 ->]]]] [D2 [h2 [I2 [J2 ->]]]] G1 G2.
  destruct (In_nth_error _ _ I1) as [i Ei].
  destruct (In_nth_error _ _ I2) as [j Ej].
  assert (Gi : gcontains (nth i (map fst pieces) []) g = true).
  { erewrite nth_error_nth; [|rewrite nth_error_map, Ei; reflexivity].
    simpl. eapply gcontains_in; eauto. }
  assert (Gj : gcontains (nth j (map fst pieces) []) g = true).
  { erewrite nth_error_nth; [|rewrite nth_error_map, Ej; reflexivity].
    simpl. eapply gcontains_in; eauto. }
  destruct (lt_eq_lt_dec i j) as [[L|E]|L].
  - exfalso. exact (pairwise_disjoint_sound _ g Hpd L Gi Gj).
  - subst j. rewrite Ei in Ej. injection Ej as <- <-.
    rewrite Forall_forall in HN. specialize (HN _ I1). simpl in HN.
    assert (iv1 = iv2) by (eapply normalized_unique; eauto). now subst.
  - exfalso. exact (pairwise_disjoint_sound _ g Hpd L Gj Gi).
Qed.

(** X1: The constructor followed by evaluation: on pieces with disjoint
    domains, the object is built and its value at a point of a piece's
    domain is the value of that piece's function; at a point of no
    domain the call prints and returns [None]. *)
Theorem constructor_round_trip (pieces : list (RealSet X * pyval F)) (v : string) :
  pieces_ok v pieces ->
  Forall (fun piece => normalized (fst piece) = true) pieces ->
  are_pairwise_disjoint (map fst pieces) = true ->
  exists p, __init__ pieces = Ok p /\
    (forall D h x, In (D, PyPoly h) pieces -> contains D x = true ->
        __call__ p [x] [] = ([], Ok (Some (feval h x)))) /\
    (forall x, (forall D func, In (D, func) pieces -> contains D x = false) ->
        __call__ p [x] [] = ([NotInAnyDomain (str_var (var p)) x], Ok None)).
Proof.
  intros Hok HN Hpd.
  destruct (init_spec Hok (disjoint_consistent HN Hpd))
    as [p [Ep [W [_ [Hden [Hsupp _]]]]]].
  exists p. split; [exact Ep|]. split.
  - intros D h x Hin Hc. rewrite contains_point in Hc.
    apply gcontains_exists in Hc as [iv [Hiv Hp]].
    assert (Hcomp : comp_of pieces iv (key_of h iv)) by (exists D, h; auto).
    rewrite (call_piece _ _ (Hden _ _ _ Hcomp Hp)).
    now rewrite (key_point _ _ _ Hp).
  - intros x Hout. apply call_none. apply piece_at_none; [exact W|].
    destruct (gcontains (support p) (x, 0)) eqn:Hs; [|reflexivity].
    apply Hsupp in Hs as [iv [f [[D [h [Hin [Hiv _]]]] Hp]]].
    specialize (Hout _ _ Hin). rewrite contains_point in Hout.
    rewrite (gcontains_in _ _ _ Hiv Hp) in Hout. discriminate.
Qed.

(** X2: What every object the constructor returns satisfies: as many
    domains as functions, no function twice, every domain non-empty and
    in normal form, the support the union of the domains, the functions
    exactly those the components of the pieces are filed under, all in
    the one variable, which is unset exactly when there is no piece. *)
Theorem constructor_invariants (pieces : list (RealSet X * pyval F))
  (v : string) (p : PiecewiseFunction X F) :
  pieces_ok v pieces -> __init__ pieces = Ok p ->
  length (domain_list p) = __len__ p /\
  NoDup (func_list p) /\
  Forall (fun D => normalized D = true /\ is_empty D = false) (domain_list p) /\
  (forall x, contains (support p) x =
             existsb (fun D => contains D x) (domain_list p)) /\
  (forall f, In f (func_list p) <-> exists iv, comp_of pieces iv f) /\
  (forall f, In f (func_list p) -> fvar f = v /\ var p = Some v) /\
  (var p = None <-> func_list p = []).
Proof.
  intros Hok E. pose proof (init_wf Hok E) as W.
  assert (Hv0 : var_inv (mkInit (X := X) (F := F) [] [] None [])
                        (fun _ _ => False) v).
  { split; [constructor|]. left. split; [reflexivity|]. intros _ _ []. }
  destruct (init_loop_spec init_inv_start Hv0 Hok) as [st [Eloop [Hinv Hvar]]].
  unfold __init__ in E. rewrite Eloop in E.
  destruct (are_pairwise_disjoint (i_domain_list st)) eqn:Hpd; simpl in E;
    [|discriminate].
  injection E as <-.
  destruct Hinv as [Hlen Hdict Hnd Hnorm Hden Hkeys Hiok].
  unfold __len__. simpl in *.
  split; [exact Hlen|]. split; [exact Hnd|]. split; [|split; [|split; [|split]]].
  - rewrite Forall_forall in *. intros D HD. split; [now apply Hnorm|].
    pose proof (wf_inhabited W HD) as Hne. now destruct D.
  - intros x. rewrite contains_point.
    rewrite union_of_realsets_contains by now apply normalized_forall_ok.
    apply existsb_pointwise. intros D. symmetry. apply contains_point.
  - intros f. rewrite Hkeys. split; intros [iv Hc]; exists iv; tauto.
  - intros f Hf. destruct Hvar as [Hfl Hv]. rewrite Forall_forall in Hfl.
    split; [now apply Hfl|].
    destruct Hv as [[_ Hn]|[Ev _]]; [|exact Ev].
    apply Hkeys in Hf as [iv Hc]. now apply Hn in Hc.
  - pose proof (wf_var W) as Hw. simpl in Hw.
    destruct (i_var st); [|tauto]. destruct Hw as [Hne _].
    split; [discriminate|]. intros Hnil. contradiction.
Qed.

(** X3: A piece with an empty domain is dropped before its function is
    looked at: the constructor returns (or raises) what it does without
    such pieces. *)
Theorem constructor_skips_empty (pieces : list (RealSet X * pyval F)) :
  __init__ pieces =
  __init__ (filter (fun piece => negb (is_empty (fst piece))) pieces).
Proof.
  unfold __init__.
  assert (Hloop : forall st : init_state X F,
            init_loop st pieces =
            init_loop st (filter (fun piece => negb (is_empty (fst piece))) pieces)).
  { induction pieces as [|[D func] rest IH]; intros st; [reflexivity|].
    cbn [filter fst init_loop]. destruct (is_empty D) eqn:ED; cbn [negb].
    - unfold init_piece. rewrite ED. apply IH.
    - cbn [init_loop]. destruct (init_piece st (D, func)); [apply IH|reflexivity]. }
  now rewrite Hloop.
Qed.

(** X4: On a constructed object the attribute [support] decides whether a
    call returns a value: inside the support a value comes back without
    a message, outside the call prints and returns [None]. *)
Theorem call_defined_on_support (pieces : list (RealSet X * pyval F))
  (v : string) (p : PiecewiseFunction X F) (x : X) :
  pieces_ok v pieces -> __init__ pieces = Ok p ->
  (contains (support p) x = true ->
   exists y, __call__ p [x] [] = ([], Ok (Some y))) /\
  (contains (support p) x = false ->
   __call__ p [x] [] = ([NotInAnyDomain (str_var (var p)) x], Ok None)).
Proof.
  intros Hok E. pose proof (init_wf Hok E) as W.
  rewrite contains_point. split; intros Hs.
  - apply (support_piece (x, 0) W) in Hs as [f Ef].
    exists (feval f x). now apply call_piece.
  - apply call_none. now apply piece_at_none.
Qed.

End Further.
(** ** The values of the operators *)

Section OperatorValues.
Context {X : Type} `{Ord X} {F : Type} `{FunctionService X F}
        `{!FunctionLaws X F}.

(** A call that returns a value returns the value of the piece at the
    point. *)
Lemma call_value (A : PiecewiseFunction X F) (x y : X) :
  wf A -> __call__ A [x] [] = ([], Ok (Some y)) ->
  exists f, piece_at A (x, 0) = Some f /\ feval f x = y.
Proof.
  intros W E. destruct (piece_at A (x, 0)) as [f|] eqn:Ef.
  - exists f. split; [reflexivity|]. rewrite (call_piece _ _ Ef) in E. congruence.
  - rewrite (call_none _ _ Ef) in E. discriminate.
Qed.

(** X5: [-p]: the same support and variable, the opposite value at every
    point where [p] has one. *)
Theorem neg_values (pieces : list (RealSet X * pyval F)) (v : string)
  (p : PiecewiseFunction X F) :
  pieces_ok v pieces -> __init__ pieces = Ok p ->
  exists n, __neg__ p = Ok n /\ support n = support p /\ var n = var p /\
    forall x y, __call__ p [x] [] = ([], Ok (Some y)) ->
                __call__ n [x] [] = ([], Ok (Some (xneg y))).
Proof.
  intros Hok E. pose proof (init_wf Hok E) as W.
  destruct (neg_spec W) as [n [En [Wn [Ev [Es Hd]]]]].
  exists n. repeat (split; [assumption|]).
  intros x y Ey. destruct (call_value _ W Ey) as [f [Ef <-]].
  destruct (Hd _ _ Ef) as [iv [Hp Ek]].
  rewrite (call_piece _ _ Ek), (key_point _ _ _ Hp). now rewrite feval_neg.
Qed.

(** X6: [p ^ n] for every exponent: the same support and variable, and the
    [n]-th power of the value at every point where [p] has one. *)
Theorem pow_values (pieces : list (RealSet X * pyval F)) (v : string)
  (p : PiecewiseFunction X F) (n : nat) :
  pieces_ok v pieces -> __init__ pieces = Ok p ->
  exists r, __pow__ p n = Ok r /\ support r = support p /\ var r = var p /\
    forall x y, __call__ p [x] [] = ([], Ok (Some y)) ->
                __call__ r [x] [] = ([], Ok (Some (xpow y n))).
Proof.
  intros Hok E. pose proof (init_wf Hok E) as W.
  destruct (pow_spec n W) as [r [Er [Wr [Ev [Es Hd]]]]].
  exists r. repeat (split; [assumption|]).
  intros x y Ey. destruct (call_value _ W Ey) as [f [Ef <-]].
  destruct (Hd _ _ Ef) as [iv [Hp Ek]].
  rewrite (call_piece _ _ Ek), (key_point _ _ _ Hp). now rewrite feval_pow.
Qed.

(** X7: [p - q] on constructed functions: over different variables it prints
    and returns [None]; over the same variable and different supports it
    raises [DomainMismatch]; over the same variable and support it is a
    function on that support whose value is [p(x) + (-q(x))]. *)
Theorem sub_values (pieces_p pieces_q : list (RealSet X * pyval F))
  (vp vq : string) (p q : PiecewiseFunction X F) :
  pieces_ok vp pieces_p -> pieces_ok vq pieces_q ->
  __init__ pieces_p = Ok p -> __init__ pieces_q = Ok q ->
  (var p <> var q ->
   __sub__ p (OPiecewise q) = ([InvalidVariables (var p) (var q)], Ok None)) /\
  (var p = var q -> support p <> support q ->
   __sub__ p (OPiecewise q) = ([], Raise DomainMismatch)) /\
  (var p = var q -> support p = support q ->
   exists d, __sub__ p (OPiecewise q) = ([], Ok (Some d)) /\
     support d = support p /\ var d = var p /\
     forall x y z, __call__ p [x] [] = ([], Ok (Some y)) ->
                   __call__ q [x] [] = ([], Ok (Some z)) ->
                   __call__ d [x] [] = ([], Ok (Some (xadd y (xneg z))))).
Proof.
  intros Hp Hq Ep Eq.
  pose proof (init_wf Hp Ep) as Wp. pose proof (init_wf Hq Eq) as Wq.
  destruct (neg_spec Wq) as [n [En [Wn [Ev [Es Hd]]]]].
  unfold __sub__. rewrite En. split; [|split].
  - intros Hv. unfold __add__. rewrite Ev.
    destruct (var_eqb (var p) (var q)) eqn:Eb; [|reflexivity].
    apply var_eqb_eq in Eb. contradiction.
  - intros Hv Hs. unfold __add__, piecewise_add.
    rewrite Ev, Hv, var_eqb_refl, Es. cbn [negb].
    destruct (realset_eqb (support p) (support q)) eqn:Eb; [|reflexivity].
    apply realset_eqb_eq in Eb. contradiction.
  - intros Hv Hs.
    destruct (@add_spec _ _ _ _ _ p n Wp Wn) as [d [Ea [Wd [Evd [Esd [Hdd _]]]]]];
      [congruence|congruence|].
    exists d. repeat (split; [assumption|]).
    intros x y z Ey Ez.
    destruct (call_value _ Wp Ey) as [fa [Efa <-]].
    destruct (call_value _ Wq Ez) as [fb [Efb <-]].
    destruct (Hd _ _ Efb) as [iv' [Hp' Ek']].
    destruct (Hdd _ _ _ Efa Ek') as [iv [Hpi Ek]].
    rewrite (call_piece _ _ Ek), (key_point _ _ _ Hpi), feval_add.
    now rewrite (key_point _ _ _ Hp'), feval_neg.
Qed.

(** *** The equality test *)

Lemma xneg_involutive (b : X) : xneg (xneg b) = b.
Proof.
  pose proof (xadd_cancel b (xneg b)) as E.
  now rewrite xadd_neg, xadd_0_l in E.
Qed.

Lemma xsub_zero (a b : X) : xadd a (xneg b) = xofZ 0 -> a = b.
Proof.
  intros E. pose proof (xadd_cancel a (xneg b)) as E'.
  now rewrite E, xadd_0_l, xneg_involutive in E'.
Qed.

Lemma fsub_zero (fa fb f0 : F) :
  fvar fa = fvar fb -> fvar fb = fvar f0 ->
  fadd fa (fneg fb) = zero_of f0 -> fa = fb.
Proof.
  intros E1 E2 E.
  pose proof (fadd_cancel fa (fneg fb)) as Ca.
  pose proof (fadd_cancel fb (fneg fb)) as Cb.
  rewrite fvar_neg in Ca, Cb. specialize (Ca E1). specialize (Cb eq_refl).
  rewrite E in Ca. rewrite (fadd_neg fb f0 E2) in Cb.
  unfold zero_of in Ca. congruence.
Qed.

Lemma feval_zero_of (f0 : F) (x : X) : feval (zero_of f0) x = xofZ 0.
Proof. unfold zero_of. now rewrite feval_mul, feval_const, xmul_0_l. Qed.

Lemma any_nonzero_false (A : PiecewiseFunction X F)
  (pieces : list (RealSet X * F)) :
  any_nonzero A pieces = Ok false ->
  forall D k, In (D, k) pieces ->
    exists f0 fl, func_list A = f0 :: fl /\ k = zero_of f0.
Proof.
  induction pieces as [|[D' k'] rest IH]; intros E D k Hin; [destruct Hin|].
  cbn [any_nonzero] in E.
  destruct (func_list A) as [|f0 fl] eqn:Efl; [discriminate|].
  destruct (feqb k' (fmul (fconst (xofZ 0) f0) f0)) eqn:Eb; cbn [negb] in E;
    [|discriminate].
  destruct Hin as [[= <- <-]|Hin].
  - exists f0, fl. split; [reflexivity|]. now apply feqb_eq in Eb.
  - destruct (IH E D k Hin) as [f1 [fl1 [E1 E2]]].
    exists f0, fl. split; [reflexivity|]. congruence.
Qed.

Lemma wf_empty_support (A : PiecewiseFunction X F) :
  wf A -> func_list A = [] -> support A = [].
Proof.
  intros W E. rewrite (wf_support W).
  pose proof (wf_len W) as L. rewrite E in L.
  destruct (domain_list A); [reflexivity|discriminate].
Qed.

Lemma wf_support_empty (A : PiecewiseFunction X F) :
  wf A -> support A = [] -> func_list A = [].
Proof.
  intros W E. destruct (func_list A) as [|f fl] eqn:Efl; [reflexivity|].
  exfalso. assert (Hne : func_list A <> []) by (rewrite Efl; discriminate).
  destruct (wf_piece_exists W Hne) as [g [k Ek]].
  assert (Hs : gcontains (support A) g = true) by (apply support_piece; eauto).
  rewrite E in Hs. discriminate.
Qed.

(** What [p == q] tests, on well formed objects: the same support, the
    same variable, the same function just after every point, the same
    value at every point. *)
Lemma eq_char (A B : PiecewiseFunction X F) :
  wf A -> wf B ->
  (__eq__ A B = Ok true <->
   support A = support B /\ var A = var B /\
   (forall x fa fb, piece_at A (x, 1) = Some fa -> piece_at B (x, 1) = Some fb ->
                    fa = fb) /\
   (forall x fa fb, piece_at A (x, 0) = Some fa -> piece_at B (x, 0) = Some fb ->
                    feval fa x = feval fb x)).
Proof.
  intros WA WB. split.
  2:{ intros [Es [Ev [Hg Hp]]]. now apply eq_spec. }
  intros E. unfold __eq__ in E.
  destruct (realset_eqb (support A) (support B)) eqn:Es; cbn [negb] in E;
    [|discriminate].
  destruct (var_eqb (var A) (var B)) eqn:Ev; cbn [negb] in E; [|discriminate].
  apply realset_eqb_eq in Es. apply var_eqb_eq in Ev.
  split; [exact Es|]. split; [exact Ev|].
  destruct (neg_spec WB) as [nB [En [WnB [EvnB [EsnB HdnB]]]]].
  destruct (@add_spec _ _ _ _ _ A nB WA WnB) as [D [Ea [WD [EvD [EsD [HdD _]]]]]];
    [congruence|congruence|].
  unfold __sub__ in E. rewrite En, Ea in E. cbn [snd] in E.
  destruct (any_nonzero A (__iter__ D)) as [b|] eqn:Eany; [|discriminate].
  destruct b; [discriminate|].
  assert (Hzero : forall g fa fb, piece_at A g = Some fa -> piece_at B g = Some fb ->
            exists iv iv' f0, pcontains iv g = true /\ pcontains iv' g = true /\
              fvar fa = fvar fb /\ fvar fb = fvar f0 /\
              key_of (fadd fa (key_of (fneg fb) iv')) iv = zero_of f0).
  { intros g fa fb Efa Efb.
    destruct (HdnB _ _ Efb) as [iv' [Hp' Ek']].
    destruct (HdD _ _ _ Efa Ek') as [iv [Hp Ek]].
    destruct (piece_at_some _ _ Ek) as [j [DD [E1 [E2 _]]]].
    destruct (any_nonzero_false _ _ Eany DD _ (nth_combine_in _ _ _ E1 E2))
      as [f0 [fl [Efl Ez]]].
    exists iv, iv', f0. split; [assumption|]. split; [assumption|].
    assert (Hab : fvar fa = fvar fb) by exact (piece_same_var _ WA WB Ev Efa Efb).
    split; [exact Hab|]. split; [|exact Ez].
    rewrite <- Hab.
    assert (Hv : var A = Some (fvar fa)) by exact (piece_var _ WA Efa).
    symmetry. apply (wf_fvar f0 WA Hv). rewrite Efl. now left. }
  split.
  - intros x fa fb Efa Efb.
    destruct (Hzero _ _ _ Efa Efb) as [iv [iv' [f0 [Hp [Hp' [E1 [E2 Ez]]]]]]].
    rewrite (key_germ _ _ _ Hp), (key_germ _ _ _ Hp') in Ez.
    exact (fsub_zero _ _ _ E1 E2 Ez).
  - intros x fa fb Efa Efb.
    destruct (Hzero _ _ _ Efa Efb) as [iv [iv' [f0 [Hp [Hp' [E1 [E2 Ez]]]]]]].
    apply (f_equal (fun k => feval k x)) in Ez.
    rewrite (key_point _ _ _ Hp), feval_add, (key_point _ _ _ Hp'), feval_neg,
      feval_zero_of in Ez.
    exact (xsub_zero _ _ Ez).
Qed.

End OperatorValues.
Section EqualityTest.
Context {X : Type} `{Ord X} {F : Type} `{FunctionService X F}
        `{!FunctionLaws X F}.

Lemma any_nonzero_total (A : PiecewiseFunction X F) (f0 : F) (fl : list F)
  (pieces : list (RealSet X * F)) :
  func_list A = f0 :: fl -> exists b, any_nonzero A pieces = Ok b.
Proof.
  intros Efl. induction pieces as [|[D k] rest IH]; cbn [any_nonzero]; [eauto|].
  rewrite Efl. destruct (negb _); eauto.
Qed.

Lemma eq_total (A B : PiecewiseFunction X F) :
  wf A -> wf B -> exists b, __eq__ A B = Ok b.
Proof.
  intros WA WB. unfold __eq__.
  destruct (realset_eqb (support A) (support B)) eqn:Es; cbn [negb]; [|eauto].
  destruct (var_eqb (var A) (var B)) eqn:Ev; cbn [negb]; [|eauto].
  apply realset_eqb_eq in Es. apply var_eqb_eq in Ev.
  destruct (neg_spec WB) as [nB [En [WnB [EvnB [EsnB _]]]]].
  destruct (@add_spec _ _ _ _ _ A nB WA WnB) as [D [Ea [WD [_ [EsD _]]]]];
    [congruence|congruence|].
  unfold __sub__. rewrite En, Ea. cbn [snd].
  destruct (func_list A) as [|f0 fl] eqn:Efl.
  - assert (ED : func_list D = []).
    { apply wf_support_empty; [exact WD|]. rewrite EsD.
      now apply wf_empty_support. }
    unfold __iter__. rewrite ED.
    destruct (domain_list D); simpl; eauto.
  - destruct (any_nonzero_total A (__iter__ D) Efl) as [b Eb].
    rewrite Eb. eauto.
Qed.

(** X8: [p == q] on constructed functions never raises, and when it answers
    [True] the two have the same support, the same variable, and every
    call returns the same from both. *)
Theorem eq_decides (pieces_p pieces_q : list (RealSet X * pyval F))
  (vp vq : string) (p q : PiecewiseFunction X F) :
  pieces_ok vp pieces_p -> pieces_ok vq pieces_q ->
  __init__ pieces_p = Ok p -> __init__ pieces_q = Ok q ->
  exists b, __eq__ p q = Ok b /\
    (b = true ->
     support p = support q /\ var p = var q /\
     forall x, __call__ p [x] [] = __call__ q [x] []).
Proof.
  intros Hp Hq Ep Eq.
  pose proof (init_wf Hp Ep) as Wp. pose proof (init_wf Hq Eq) as Wq.
  destruct (eq_total Wp Wq) as [b Eb]. exists b. split; [exact Eb|].
  intros ->. apply (eq_char Wp Wq) in Eb as [Es [Ev [_ Hpt]]].
  split; [exact Es|]. split; [exact Ev|]. intros x.
  destruct (piece_at p (x, 0)) as [fa|] eqn:Efa.
  - destruct (piece_same_support _ Wp Wq Es Efa) as [fb Efb].
    rewrite (call_piece _ _ Efa), (call_piece _ _ Efb).
    now rewrite (Hpt _ _ _ Efa Efb).
  - assert (Efb : piece_at q (x, 0) = None).
    { destruct (piece_at q (x, 0)) as [fb|] eqn:Efb; [|reflexivity].
      destruct (piece_same_support _ Wq Wp (eq_sym Es) Efb) as [fa Efa'].
      congruence. }
    rewrite (call_none _ _ Efa), (call_none _ _ Efb). now rewrite Ev.
Qed.

(** X9: [==] is an equivalence on constructed functions: reflexive,
    symmetric and transitive. *)
Theorem eq_equivalence (pieces_p pieces_q pieces_r : list (RealSet X * pyval F))
  (vp vq vr : string) (p q r : PiecewiseFunction X F) :
  pieces_ok vp pieces_p -> pieces_ok vq pieces_q -> pieces_ok vr pieces_r ->
  __init__ pieces_p = Ok p -> __init__ pieces_q = Ok q ->
  __init__ pieces_r = Ok r ->
  __eq__ p p = Ok true /\
  (__eq__ p q = Ok true -> __eq__ q p = Ok true) /\
  (__eq__ p q = Ok true -> __eq__ q r = Ok true -> __eq__ p r = Ok true).
Proof.
  intros Hp Hq Hr Ep Eq Er.
  pose proof (init_wf Hp Ep) as Wp. pose proof (init_wf Hq Eq) as Wq.
  pose proof (init_wf Hr Er) as Wr.
  split; [|split].
  - apply (eq_char Wp Wp). repeat (split; [reflexivity|]).
    split; intros; congruence.
  - intros E. apply (eq_char Wp Wq) in E as [Es [Ev [Hg Hpt]]].
    apply (eq_char Wq Wp). split; [congruence|]. split; [congruence|].
    split; intros x fa fb Ea Eb; symmetry; eauto.
  - intros E1 E2.
    apply (eq_char Wp Wq) in E1 as [Es1 [Ev1 [Hg1 Hpt1]]].
    apply (eq_char Wq Wr) in E2 as [Es2 [Ev2 [Hg2 Hpt2]]].
    apply (eq_char Wp Wr). split; [congruence|]. split; [congruence|].
    split; intros x fa fc Ea Ec;
      destruct (piece_same_support _ Wp Wq Es1 Ea) as [fb Eb].
    + rewrite (Hg1 _ _ _ Ea Eb). eauto.
    + rewrite (Hpt1 _ _ _ Ea Eb). eauto.
Qed.

End EqualityTest.
(** ** The general combinators on different supports *)

Section GeneralCombinators.
Context {X : Type} `{Ord X} {F : Type} `{FunctionService X F}
        `{!FunctionLaws X F}.

Lemma init_fvar (pieces : list (RealSet X * pyval F)) (v : string)
  (A : PiecewiseFunction X F) :
  pieces_ok v pieces -> __init__ pieces = Ok A ->
  Forall (fun f => fvar f = v) (func_list A).
Proof.
  intros Hok E.
  assert (Hv0 : var_inv (mkInit (X := X) (F := F) [] [] None [])
                        (fun _ _ => False) v).
  { split; [constructor|]. left. split; [reflexivity|]. intros _ _ []. }
  destruct (init_loop_spec init_inv_start Hv0 Hok) as [st [Eloop [_ [Hfl _]]]].
  unfold __init__ in E. rewrite Eloop in E.
  destruct (negb _); [discriminate|]. now injection E as <-.
Qed.

Lemma call_piece_at (A : PiecewiseFunction X F) (x : X) :
  snd (__call__ A [x] []) = Ok (option_map (fun f => feval f x) (piece_at A (x, 0))).
Proof.
  destruct (piece_at A (x, 0)) as [f|] eqn:E.
  - now rewrite (call_piece _ _ E).
  - now rewrite (call_none _ _ E).
Qed.

Lemma sel_none (A : PiecewiseFunction X F) (g : position X) :
  piece_at A g = None -> sel A g = [].
Proof.
  unfold piece_at, sel. rewrite find_filter.
  destruct (filter _ _) as [|[D f] l]; [reflexivity|discriminate].
Qed.

Lemma gcoverage_normalized (D : RealSet X) (g : position X) :
  normalized D = true ->
  gcoverage D g = if gcontains D g then 1 else 0.
Proof.
  induction D as [|iv D IH]; intros HN; [reflexivity|].
  rewrite gcoverage_cons. cbn [gcontains existsb].
  rewrite normalized_cons in HN. apply andb_prop in HN as [HN HN'].
  apply andb_prop in HN as [Hok Hlbb]. specialize (IH HN').
  fold (gcontains D g). rewrite IH.
  destruct (pcontains iv g) eqn:Hp; cbn [orb].
  - destruct (gcontains D g) eqn:Hg; [|reflexivity]. exfalso.
    pose proof (lbb_after _ _ _ HN' Hlbb Hg) as Hlt.
    apply pcontains_iff in Hp as [_ Hu]. ord.
  - destruct (gcontains D g); reflexivity.
Qed.

Lemma zsum_nth (l l' : list Z) :
  length l = length l' ->
  (forall i, (i < length l)%nat -> nth i l 0 = nth i l' 0) ->
  zsum l = zsum l'.
Proof.
  revert l'. induction l as [|a l IH]; intros [|b l'] L E; try discriminate;
    [reflexivity|].
  assert (E0 : a = b) by (apply (E 0%nat); simpl; lia).
  cbn [zsum]. subst b. f_equal. apply IH; [simpl in L; lia|].
  intros i Hi. apply (E (S i)). simpl. lia.
Qed.

Lemma zsum_app (l l' : list Z) : zsum (l ++ l') = zsum l + zsum l'.
Proof. induction l as [|a l IH]; simpl; [reflexivity|]. rewrite IH. lia. Qed.

Lemma zsum_sel (A : PiecewiseFunction X F) (g : position X) :
  wf A ->
  zsum (map (fun D => gcoverage D g) (domain_list A)) =
  Z.of_nat (length (sel A g)).
Proof.
  intros W. unfold sel, __iter__. rewrite length_map.
  pose proof (wf_len W) as L. pose proof (wf_norm W) as HN.
  revert L HN. generalize (func_list A). generalize (domain_list A).
  intros dl. induction dl as [|D dl IH]; intros [|f fl] L HN; try discriminate;
    [reflexivity|].
  cbn [map zsum combine filter]. inversion HN as [|? ? HD HN']; subst.
  rewrite (IH fl) by (simpl in L; auto; lia).
  rewrite (gcoverage_normalized _ g HD).
  destruct (gcontains D g); cbn [length]; lia.
Qed.

(** The sum of the vector of a yield counts the operands that have a
    piece there. *)
Lemma yield_sum (A B : PiecewiseFunction X F) (g : position X) (inds : list Z) :
  wf A -> wf B ->
  length inds = length (domain_list A ++ domain_list B) ->
  (forall i, (i < length (domain_list A ++ domain_list B))%nat ->
     nth i inds 0 = gcoverage (nth i (domain_list A ++ domain_list B) []) g) ->
  zsum inds = Z.of_nat (length (sel A g)) + Z.of_nat (length (sel B g)).
Proof.
  intros WA WB L E.
  rewrite <- (zsum_sel g WA), <- (zsum_sel g WB), <- zsum_app, <- map_app.
  apply zsum_nth; [now rewrite length_map|].
  intros i Hi. rewrite L in Hi. rewrite (E i Hi).
  symmetry.
  exact (map_nth (fun D : RealSet X => gcoverage D g)
                 (domain_list A ++ domain_list B) [] i).
Qed.

Lemma combine_pairs_kept (op : pyval F -> pyval F -> pyval F) (start : pyval F)
  (union : bool) (A B : PiecewiseFunction X F)
  (Q : RealSet X * list Z -> pyval F -> Prop) (out : list (RealSet X * list Z)) :
  (forall y, In y out -> kept union 2 y = true ->
     exists func, combine_funcs op start A B (snd y) = Ok func /\ Q y func) ->
  exists rp, combine_pairs op start union A B out = Ok rp /\
    Forall2 (fun y r => fst r = fst y /\ Q y (snd r))
            (filter (kept union 2) out) rp.
Proof.
  induction out as [|[E inds] out IH]; intros Hy.
  - exists []. split; [reflexivity|constructor].
  - destruct IH as [rp [Erp HF]]; [intros y Hin; apply Hy; now right|].
    cbn [combine_pairs filter]. unfold kept at 1. cbn [snd].
    destruct (negb union && (zsum inds <? 2)) eqn:Ek; cbn [negb].
    + exists rp. split; assumption.
    + destruct (Hy (E, inds) (or_introl eq_refl)) as [func [Ef HQ]].
      { unfold kept. cbn [snd]. now rewrite Ek. }
      cbn [snd] in Ef. rewrite Ef, Erp. exists ((E, func) :: rp).
      split; [reflexivity|]. constructor; [|assumption]. split; [reflexivity|assumption].
Qed.

End GeneralCombinators.
Section PartitionObject.
Context {X : Type} `{Ord X} {F : Type} `{FunctionService X F}
        `{!FunctionLaws X F}.

(** From the yields of the partition to the object: when every kept
    yield carries the function [M] gives on it, the constructor builds
    the object that files [M] at every position. *)
Lemma partition_object (Ds : list (RealSet X)) (M : position X -> option F)
  (keepf : RealSet X * list Z -> bool) (v : string)
  (rp : list (RealSet X * pyval F)) :
  Forall (fun D => normalized D = true) Ds ->
  (forall y g g', In y (finest_partitions Ds) ->
     gcontains (fst y) g = true -> gcontains (fst y) g' = true -> M g' = M g) ->
  (forall y g k, In y (finest_partitions Ds) ->
     gcontains (fst y) g = true -> M g = Some k -> keepf y = true) ->
  (forall g k, M g = Some k ->
     fvar k = v /\ exists D, In D Ds /\ gcontains D g = true) ->
  Forall2 (fun y r => fst r = fst y /\
             exists k, snd r = PyPoly k /\
               forall g, gcontains (fst y) g = true -> M g = Some k)
          (filter keepf (finest_partitions Ds)) rp ->
  exists C, __init__ rp = Ok C /\ wf C /\
    forall g, match M g with
              | Some k => exists iv, pcontains iv g = true /\
                                     piece_at C g = Some (key_of k iv)
              | None => piece_at C g = None
              end.
Proof.
  intros HN HM Hkept HMv HF.
  set (out := finest_partitions Ds) in *.
  destruct (finest_partitions_positions HN) as [P1 [P2 _]].
  fold out in P1, P2.
  pose proof (finest_partitions_shape Ds) as Hshape. fold out in Hshape.
  rewrite Forall_forall in Hshape.
  assert (Hsingle : forall iv g, gcontains [iv] g = pcontains iv g).
  { intros iv g. simpl. apply orb_false_r. }
  assert (Hcomp : forall iv k', comp_of rp iv k' ->
            exists y k, In y out /\ fst y = [iv] /\ interval_ok iv = true /\
              k' = key_of k iv /\
              forall g, pcontains iv g = true -> M g = Some k).
  { intros iv k' [D [h [Hin [Hiv ->]]]].
    destruct (Forall2_in_r _ HF Hin) as [[E inds] [Hy' [E1 [k [E2 Hall]]]]].
    apply filter_In in Hy' as [Hy' _].
    destruct (Hshape _ Hy') as [iv' [Ey Hok']].
    simpl in E1, E2, Ey, Hall. injection E2 as ->. subst D E.
    destruct Hiv as [<-|[]]. exists ([iv'], inds), k.
    repeat (split; [assumption || reflexivity|]).
    intros g Hp. apply Hall. now rewrite Hsingle. }
  assert (Hcomp' : forall y iv g k, In y out -> fst y = [iv] ->
            pcontains iv g = true -> M g = Some k ->
            comp_of rp iv (key_of k iv)).
  { intros [E inds] iv g k Hin Ey Hp EM. simpl in Ey. subst E.
    assert (Hg : gcontains [iv] g = true) by now rewrite Hsingle.
    assert (Hin' : In ([iv], inds) (filter keepf out)).
    { apply filter_In. split; [assumption|].
      exact (Hkept ([iv], inds) g k Hin Hg EM). }
    destruct (Forall2_in_l _ HF Hin') as [[D func] [Hr [E1 [k' [E2 Hall]]]]].
    simpl in E1, E2, Hall. subst D func.
    assert (k' = k) by (specialize (Hall g Hg); congruence). subst k'.
    exists [iv], k. split; [assumption|].
    split; [now left|reflexivity]. }
  assert (Hok : pieces_ok v rp).
  { intros D func Hin.
    destruct (Forall2_in_r _ HF Hin) as [[E inds] [Hy' [E1 [k [E2 Hall]]]]].
    apply filter_In in Hy' as [Hy' _].
    destruct (Hshape _ Hy') as [iv [Ey Hiv]].
    simpl in E1, E2, Ey, Hall. subst func D E. split.
    - simpl. now rewrite Hiv.
    - exists k. split; [reflexivity|].
      apply (HMv (lower_pos iv)). apply Hall.
      rewrite Hsingle. now apply pcontains_lower. }
  assert (Hcons : consistent rp).
  { intros iv1 k1 iv2 k2 g C1 C2 G1 G2.
    destruct (Hcomp _ _ C1) as [y1 [fa1 [I1 [E1 [_ [-> A1]]]]]].
    destruct (Hcomp _ _ C2) as [y2 [fa2 [I2 [E2 [_ [-> A2]]]]]].
    assert (y1 = y2).
    { apply (filter_le1_eq (hit g) out y1 y2 (P2 g) I1 I2).
      - unfold hit. rewrite E1. simpl. now rewrite G1.
      - unfold hit. rewrite E2. simpl. now rewrite G2. }
    subst y2. assert (iv1 = iv2) by congruence. subst iv2.
    pose proof (A1 g G1). pose proof (A2 g G2). congruence. }
  destruct (init_spec Hok Hcons) as [C [EC [WC [Hkeys [Hden [Hsupp Hvar]]]]]].
  exists C. split; [exact EC|]. split; [exact WC|].
  intros g. destruct (M g) as [k|] eqn:EM.
  - destruct (HMv g k EM) as [_ HD].
    apply P1 in HD as [[E inds] [Hin Hgy]].
    destruct (Hshape _ Hin) as [iv [Ey Hiv]]. simpl in Ey, Hgy. subst E.
    rewrite Hsingle in Hgy. exists iv. split; [assumption|].
    apply (Hden iv _ g); [|assumption].
    exact (Hcomp' ([iv], inds) iv g k Hin eq_refl Hgy EM).
  - destruct (piece_at C g) as [k'|] eqn:Ec; [|reflexivity]. exfalso.
    assert (Hs : gcontains (support C) g = true) by (apply support_piece; eauto).
    apply Hsupp in Hs as [iv [f [Hc Hp]]].
    destruct (Hcomp _ _ Hc) as [y [k [_ [_ [_ [_ Hall]]]]]].
    specialize (Hall g Hp). congruence.
Qed.

End PartitionObject.
Section GeneralResult.
Context {X : Type} `{Ord X} {F : Type} `{FunctionService X F}
        `{!FunctionLaws X F}.

(** The general combination of two objects in the variable [v]: at every
    position the result files the combination of the pieces of the
    operands there, [merged]. *)
Lemma combine_general (op : pyval F -> pyval F -> pyval F) (start : pyval F)
  (op2 : F -> F -> F) (union : bool) (v : string)
  (A B : PiecewiseFunction X F) :
  (forall fa, op start (PyPoly fa) = PyPoly fa) ->
  (forall fa fb, op (PyPoly fa) (PyPoly fb) = PyPoly (op2 fa fb)) ->
  (forall fa fb, fvar (op2 fa fb) = fvar fa) ->
  wf A -> wf B ->
  Forall (fun f => fvar f = v) (func_list A) ->
  Forall (fun f => fvar f = v) (func_list B) ->
  exists rp C,
    combine_pairs op start union A B
      (finest_partitions (domain_list A ++ domain_list B)) = Ok rp /\
    __init__ rp = Ok C /\ wf C /\
    (forall g, match merged union op2 (piece_at A g) (piece_at B g) with
               | Some k => exists iv, pcontains iv g = true /\
                                      piece_at C g = Some (key_of k iv)
               | None => piece_at C g = None
               end).
Proof.
  intros Hstart Hop Hopv WA WB HvA HvB.
  rewrite Forall_forall in HvA, HvB.
  set (Ds := domain_list A ++ domain_list B).
  set (out := finest_partitions Ds).
  assert (HN : Forall (fun D => normalized D = true) Ds)
    by (apply Forall_app; split; apply wf_norm; assumption).
  destruct (finest_partitions_positions HN) as [P1 [P2 P3]].
  fold out in P1, P2, P3.
  pose proof (finest_partitions_shape Ds) as Hshape. fold out in Hshape.
  rewrite Forall_forall in Hshape.
  assert (HlenDs : length Ds = (length (domain_list A) + length (domain_list B))%nat)
    by (unfold Ds; apply length_app).
  assert (Hconst : forall E inds g g', In (E, inds) out ->
            gcontains E g = true -> gcontains E g' = true ->
            forall i, (i < length Ds)%nat ->
              gcontains (nth i Ds []) g = gcontains (nth i Ds []) g').
  { intros E inds g g' Hin G G' i Hi.
    destruct (P3 E inds g Hin G) as [_ N1]. destruct (P3 E inds g' Hin G') as [_ N2].
    apply bool_eq_iff. rewrite <- !gcoverage_pos, <- N1, <- N2 by assumption.
    reflexivity. }
  assert (HtransA : forall E inds g g' fa, In (E, inds) out ->
            gcontains E g = true -> gcontains E g' = true ->
            piece_at A g = Some fa -> piece_at A g' = Some fa).
  { intros E inds g g' fa Hin G G' Ea.
    destruct (piece_at_some _ _ Ea) as [j [D [ED [Ef Hg]]]].
    assert (Hj : (j < length (domain_list A))%nat)
      by (apply nth_error_Some; congruence).
    apply (piece_at_unique j g' WA ED Ef).
    pose proof (Hconst E inds g g' Hin G G' j) as Hc. unfold Ds in Hc at 2 3.
    rewrite app_nth1 in Hc by assumption.
    rewrite (nth_error_nth _ _ _ ED) in Hc. rewrite <- Hc; [assumption|lia]. }
  assert (HtransB : forall E inds g g' fb, In (E, inds) out ->
            gcontains E g = true -> gcontains E g' = true ->
            piece_at B g = Some fb -> piece_at B g' = Some fb).
  { intros E inds g g' fb Hin G G' Eb.
    destruct (piece_at_some _ _ Eb) as [j [D [ED [Ef Hg]]]].
    assert (Hj : (j < length (domain_list B))%nat)
      by (apply nth_error_Some; congruence).
    apply (piece_at_unique j g' WB ED Ef).
    pose proof (Hconst E inds g g' Hin G G' (length (domain_list A) + j)%nat) as Hc.
    unfold Ds in Hc at 2 3. rewrite app_nth2_plus in Hc.
    rewrite (nth_error_nth _ _ _ ED) in Hc. rewrite <- Hc; [assumption|lia]. }
  assert (HsameA : forall E inds g g', In (E, inds) out ->
            gcontains E g = true -> gcontains E g' = true ->
            piece_at A g' = piece_at A g).
  { intros E inds g g' Hin G G'.
    destruct (piece_at A g) as [fa|] eqn:Ea; [eapply HtransA; eauto|].
    destruct (piece_at A g') as [fa|] eqn:Ea'; [|reflexivity].
    rewrite (HtransA E inds g' g fa Hin G' G Ea') in Ea. discriminate. }
  assert (HsameB : forall E inds g g', In (E, inds) out ->
            gcontains E g = true -> gcontains E g' = true ->
            piece_at B g' = piece_at B g).
  { intros E inds g g' Hin G G'.
    destruct (piece_at B g) as [fb|] eqn:Eb; [eapply HtransB; eauto|].
    destruct (piece_at B g') as [fb|] eqn:Eb'; [|reflexivity].
    rewrite (HtransB E inds g' g fb Hin G' G Eb') in Eb. discriminate. }
  set (M := fun g => merged union op2 (piece_at A g) (piece_at B g)).
  assert (HM : forall E inds g g', In (E, inds) out ->
            gcontains E g = true -> gcontains E g' = true -> M g' = M g).
  { intros E inds g g' Hin G G'. unfold M.
    now rewrite (HsameA E inds g g' Hin G G'), (HsameB E inds g g' Hin G G'). }
  assert (Hcover : forall g, (exists D, In D Ds /\ gcontains D g = true) <->
            piece_at A g <> None \/ piece_at B g <> None).
  { intros g. split.
    - intros [D [HD Hg]]. unfold Ds in HD. apply in_app_iff in HD as [HD|HD].
      + left. assert (Hs : gcontains (support A) g = true).
        { rewrite support_contains by assumption. apply existsb_exists. eauto. }
        apply (support_piece g WA) in Hs as [fa Ea]. congruence.
      + right. assert (Hs : gcontains (support B) g = true).
        { rewrite support_contains by assumption. apply existsb_exists. eauto. }
        apply (support_piece g WB) in Hs as [fb Eb]. congruence.
    - intros [Hne|Hne].
      + destruct (piece_at A g) as [fa|] eqn:Ea; [|congruence].
        destruct (piece_at_some _ _ Ea) as [j [D [ED [_ Hg]]]].
        exists D. split; [|assumption]. unfold Ds. apply in_app_iff. left.
        eapply nth_error_In; eauto.
      + destruct (piece_at B g) as [fb|] eqn:Eb; [|congruence].
        destruct (piece_at_some _ _ Eb) as [j [D [ED [_ Hg]]]].
        exists D. split; [|assumption]. unfold Ds. apply in_app_iff. right.
        eapply nth_error_In; eauto. }
  assert (Hsel : forall fo : PiecewiseFunction X F, wf fo -> forall g,
            sel fo g = match piece_at fo g with Some f => [f] | None => [] end).
  { intros fo W g. destruct (piece_at fo g) as [f|] eqn:E.
    - now apply sel_single.
    - now apply sel_none. }
  assert (Hyield : forall iv inds g, In ([iv], inds) out -> pcontains iv g = true ->
            combine_funcs op start A B inds =
              Ok (fold_left op (map (@PyPoly F) (sel A g ++ sel B g)) start) /\
            zsum inds = Z.of_nat (length (sel A g)) + Z.of_nat (length (sel B g))).
  { intros iv inds g Hin Hp.
    assert (G : gcontains [iv] g = true) by (simpl; now rewrite Hp).
    destruct (P3 [iv] inds g Hin G) as [Hlen Hnth]. split.
    - apply (combine_funcs_sel op start A B g inds (wf_len WA) (wf_len WB)).
      + now rewrite Hlen.
      + intros i Hi. apply bool_eq_iff.
        rewrite Z.ltb_lt, Hnth, gcoverage_pos by lia. reflexivity.
    - apply (yield_sum g inds WA WB); assumption. }
  assert (Hkept : forall iv inds g k, In ([iv], inds) out -> pcontains iv g = true ->
            M g = Some k -> kept union 2 ([iv], inds) = true).
  { intros iv inds g k Hin Hp EM. unfold kept. cbn [snd].
    destruct union; [reflexivity|]. cbn [negb andb].
    destruct (Hyield iv inds g Hin Hp) as [_ ->].
    rewrite (Hsel A WA), (Hsel B WB). unfold M, merged in EM.
    destruct (piece_at A g), (piece_at B g); try discriminate. reflexivity. }
  assert (Hfunc : forall iv inds g, In ([iv], inds) out -> pcontains iv g = true ->
            kept union 2 ([iv], inds) = true ->
            exists k, M g = Some k /\
                      combine_funcs op start A B inds = Ok (PyPoly k)).
  { intros iv inds g Hin Hp Hk.
    destruct (Hyield iv inds g Hin Hp) as [-> Hz].
    unfold kept in Hk. cbn [snd] in Hk. rewrite Hz in Hk.
    rewrite (Hsel A WA), (Hsel B WB) in *. unfold M, merged.
    assert (Hc : piece_at A g <> None \/ piece_at B g <> None).
    { apply Hcover. apply P1. exists ([iv], inds). split; [assumption|].
      simpl. now rewrite Hp. }
    destruct (piece_at A g) as [fa|], (piece_at B g) as [fb|]; cbn in *.
    - exists (op2 fa fb). split; [reflexivity|]. now rewrite Hstart, Hop.
    - destruct union; [|discriminate]. exists fa. now rewrite Hstart.
    - destruct union; [|discriminate]. exists fb. now rewrite Hstart.
    - destruct Hc; congruence. }
  assert (HMv : forall g k, M g = Some k -> fvar k = v).
  { intros g k EM. unfold M, merged in EM.
    destruct (piece_at A g) as [fa|] eqn:Ea, (piece_at B g) as [fb|] eqn:Eb.
    - injection EM as <-. rewrite Hopv. apply HvA. eapply piece_at_in; eauto.
    - destruct union; [|discriminate]. injection EM as <-.
      apply HvA. eapply piece_at_in; eauto.
    - destruct union; [|discriminate]. injection EM as <-.
      apply HvB. eapply piece_at_in; eauto.
    - discriminate. }
  set (Q := fun (y : RealSet X * list Z) (func : pyval F) =>
     exists k, func = PyPoly k /\
       forall g, gcontains (fst y) g = true -> M g = Some k).
  assert (Hy : forall y, In y out -> kept union 2 y = true ->
           exists func, combine_funcs op start A B (snd y) = Ok func /\ Q y func).
  { intros [E inds] Hin Hk. destruct (Hshape _ Hin) as [iv [EE Hiv]].
    simpl in EE. subst E.
    destruct (Hfunc iv inds (lower_pos iv) Hin (pcontains_lower iv Hiv) Hk)
      as [k [EM Ef]].
    exists (PyPoly k). split; [exact Ef|].
    exists k. split; [reflexivity|]. intros g Hg. rewrite <- EM.
    apply (HM [iv] inds (lower_pos iv) g Hin); [|exact Hg].
    simpl. now rewrite pcontains_lower. }
  destruct (combine_pairs_kept op start union A B Q out Hy) as [rp [Erp HF]].
  destruct (@partition_object _ _ _ _ _ Ds M (kept union 2) v rp HN) as [C HC].
  - intros [E inds] g g' Hin G G'. exact (HM E inds g g' Hin G G').
  - intros [E inds] g k Hin G EM. destruct (Hshape _ Hin) as [iv [EE Hiv]].
    simpl in EE, G. subst E. simpl in G. rewrite orb_false_r in G.
    exact (Hkept iv inds g k Hin G EM).
  - intros g k EM. split; [exact (HMv g k EM)|].
    apply Hcover. unfold M, merged in EM.
    destruct (piece_at A g), (piece_at B g);
      try discriminate; (left; discriminate) || (right; discriminate).
  - exact HF.
  - exists rp, C. split; [exact Erp|]. exact HC.
Qed.

(** The values of a general combination: with [xop] the operation of the
    numbers that [op2] computes. *)
Lemma general_values (op : pyval F -> pyval F -> pyval F) (start : pyval F)
  (op2 : F -> F -> F) (xop : X -> X -> X) (union : bool) (v : string)
  (A B : PiecewiseFunction X F) :
  (forall fa, op start (PyPoly fa) = PyPoly fa) ->
  (forall fa fb, op (PyPoly fa) (PyPoly fb) = PyPoly (op2 fa fb)) ->
  (forall fa fb, fvar (op2 fa fb) = fvar fa) ->
  (forall fa fb x, feval (op2 fa fb) x = xop (feval fa x) (feval fb x)) ->
  wf A -> wf B ->
  Forall (fun f => fvar f = v) (func_list A) ->
  Forall (fun f => fvar f = v) (func_list B) ->
  exists rp C,
    combine_pairs op start union A B
      (finest_partitions (domain_list A ++ domain_list B)) = Ok rp /\
    __init__ rp = Ok C /\
    (forall x, contains (support C) x =
       if union then contains (support A) x || contains (support B) x
       else contains (support A) x && contains (support B) x) /\
    (forall x a b,
       snd (__call__ A [x] []) = Ok a -> snd (__call__ B [x] []) = Ok b ->
       snd (__call__ C [x] []) = Ok (merged union xop a b)).
Proof.
  intros Hstart Hop Hopv Hev WA WB HvA HvB.
  destruct (@combine_general op start op2 union v A B Hstart Hop Hopv WA WB HvA HvB)
    as [rp [C [Erp [EC [WC HC]]]]].
  exists rp, C. split; [exact Erp|]. split; [exact EC|]. split.
  - intros x. rewrite !contains_point. specialize (HC (x, 0)).
    assert (Hs : forall fo : PiecewiseFunction X F, wf fo ->
              gcontains (support fo) (x, 0) =
              match piece_at fo (x, 0) with Some _ => true | None => false end).
    { intros fo W. apply bool_eq_iff. rewrite (support_piece (x, 0) W).
      destruct (piece_at fo (x, 0)); split; try discriminate; eauto.
      intros [f Ef]. discriminate. }
    rewrite (Hs A WA), (Hs B WB), (Hs C WC). unfold merged in HC.
    destruct (piece_at A (x, 0)), (piece_at B (x, 0)), union;
      first [ rewrite HC; reflexivity
            | destruct HC as [iv [_ ->]]; reflexivity ].
  - intros x a b Ea Eb. rewrite call_piece_at in *.
    injection Ea as <-. injection Eb as <-. f_equal.
    specialize (HC (x, 0)). unfold merged in *.
    destruct (piece_at A (x, 0)) as [fa|], (piece_at B (x, 0)) as [fb|], union;
      cbn [option_map] in *;
      first [ rewrite HC; reflexivity
            | destruct HC as [iv [Hp ->]]; cbn [option_map];
              rewrite (key_point _ _ _ Hp); now rewrite ?Hev ].
Qed.

(** X10: [piecewise_add_general] on two constructed functions in one
    variable, whatever their supports: with [union] the result lives on
    the union of the supports and is the sum where both are defined and
    the one defined function elsewhere; without, it lives on the
    intersection and is the sum. *)
Theorem add_general_values (pieces_p pieces_q : list (RealSet X * pyval F))
  (v : string) (p q : PiecewiseFunction X F) (union : bool) :
  pieces_ok v pieces_p -> pieces_ok v pieces_q ->
  __init__ pieces_p = Ok p -> __init__ pieces_q = Ok q ->
  exists s, piecewise_add_general p q union = Ok s /\
    (forall x, contains (support s) x =
       if union then contains (support p) x || contains (support q) x
       else contains (support p) x && contains (support q) x) /\
    (forall x a b,
       snd (__call__ p [x] []) = Ok a -> snd (__call__ q [x] []) = Ok b ->
       snd (__call__ s [x] []) = Ok (merged union xadd a b)).
Proof.
  intros Hp Hq Ep Eq.
  destruct (@general_values py_add (PyInt 0) fadd xadd union v p q)
    as [rp [s [Erp [Es Hs]]]].
  - intros fa. cbn [py_add]. now rewrite fadd_0_l.
  - reflexivity.
  - apply fvar_add.
  - apply feval_add.
  - exact (init_wf Hp Ep).
  - exact (init_wf Hq Eq).
  - exact (init_fvar Hp Ep).
  - exact (init_fvar Hq Eq).
  - exists s. split; [|exact Hs].
    unfold piecewise_add_general. now rewrite Erp.
Qed.

(** X11: [piecewise_mul_general] likewise: the product where both are
    defined; with [union] the one defined function elsewhere. *)
Theorem mul_general_values (pieces_p pieces_q : list (RealSet X * pyval F))
  (v : string) (p q : PiecewiseFunction X F) (union : bool) :
  pieces_ok v pieces_p -> pieces_ok v pieces_q ->
  __init__ pieces_p = Ok p -> __init__ pieces_q = Ok q ->
  exists m, piecewise_mul_general p q union = Ok m /\
    (forall x, contains (support m) x =
       if union then contains (support p) x || contains (support q) x
       else contains (support p) x && contains (support q) x) /\
    (forall x a b,
       snd (__call__ p [x] []) = Ok a -> snd (__call__ q [x] []) = Ok b ->
       snd (__call__ m [x] []) = Ok (merged union xmul a b)).
Proof.
  intros Hp Hq Ep Eq.
  destruct (@general_values py_mul (PyInt 1) fmul xmul union v p q)
    as [rp [m [Erp [Em Hm]]]].
  - intros fa. cbn [py_mul]. now rewrite fmul_1_l.
  - reflexivity.
  - apply fvar_mul.
  - apply feval_mul.
  - exact (init_wf Hp Ep).
  - exact (init_wf Hq Eq).
  - exact (init_fvar Hp Ep).
  - exact (init_fvar Hq Eq).
  - exists m. split; [|exact Hm].
    unfold piecewise_mul_general. now rewrite Erp.
Qed.

End GeneralResult.
(** ** Binary search and point location *)

Section Bisect.
Context {E : Type} `{Ord E}.

Lemma sorted_nth (l : list E) (d : E) :
  sorted l ->
  forall i j, (i <= j < length l)%nat -> le (nth i l d) (nth j l d).
Proof.
  induction 1 as [|a l Ha Hs IH]; intros i j Hij; [simpl in Hij; lia|].
  destruct i, j; simpl in *.
  - unfold le. rewrite cmp_refl. discriminate.
  - rewrite Forall_forall in Ha. apply Ha. apply nth_In. lia.
  - lia.
  - apply IH. lia.
Qed.

Lemma mid_bounds (lo hi : nat) :
  (lo < hi)%nat -> (lo <= (lo + hi) / 2 < hi)%nat.
Proof.
  intros Hlt. split.
  - apply Nat.div_le_lower_bound; lia.
  - apply Nat.Div0.div_lt_upper_bound; lia.
Qed.

Lemma bisect_loop_spec (a : list E) (key : E) :
  sorted a ->
  forall fuel lo hi,
    (lo <= hi <= length a)%nat -> (hi - lo < fuel)%nat ->
    (forall i, (i < lo)%nat -> cmp (nth i a key) key = Lt) ->
    (forall i, (hi <= i < length a)%nat -> cmp (nth i a key) key <> Lt) ->
    (bisect_loop fuel a key lo hi <= length a)%nat /\
    (forall i, (i < bisect_loop fuel a key lo hi)%nat ->
               cmp (nth i a key) key = Lt) /\
    (forall i, (bisect_loop fuel a key lo hi <= i < length a)%nat ->
               cmp (nth i a key) key <> Lt).
Proof.
  intros Hs. induction fuel as [|fuel IH]; intros lo hi Hb Hf Hlo Hhi; [lia|].
  cbn [bisect_loop]. destruct (lo <? hi)%nat eqn:Elt.
  - apply Nat.ltb_lt in Elt. pose proof (mid_bounds Elt) as Hm.
    set (mid := ((lo + hi) / 2)%nat) in *.
    destruct (ltb (nth mid a key) key) eqn:Ec.
    + apply IH; [lia|lia| |assumption].
      intros i Hi. apply ltb_lt in Ec.
      assert (Hle : le (nth i a key) (nth mid a key))
        by (apply sorted_nth; [assumption|lia]).
      exact (le_lt_trans _ _ _ Hle Ec).
    + apply IH; [lia|lia|assumption|].
      intros i Hi. apply ltb_nlt in Ec.
      assert (Hle : le (nth mid a key) (nth i a key))
        by (apply sorted_nth; [assumption|lia]).
      exact (le_trans _ _ _ Ec Hle).
  - apply Nat.ltb_ge in Elt. assert (lo = hi) by lia. subst hi.
    split; [lia|]. split; assumption.
Qed.

(** [bisect_left] on a sorted list: the elements before the index are
    below the key, the others are not. *)
Lemma bisect_left_spec (a : list E) (key : E) :
  sorted a ->
  (bisect_left a key <= length a)%nat /\
  (forall i, (i < bisect_left a key)%nat -> cmp (nth i a key) key = Lt) /\
  (forall i, (bisect_left a key <= i < length a)%nat ->
             cmp (nth i a key) key <> Lt).
Proof.
  intros Hs. unfold bisect_left. apply bisect_loop_spec; try assumption; lia.
Qed.

End Bisect.

Section ScanList.
Context {X : Type} `{Ord X}.

Lemma ev_lt (q q' : position X) (d d' : Z) (j j' : nat) :
  cmp ((q, d), j) ((q', d'), j') = Lt <->
  cmp q q' = Lt \/ (q = q' /\ (d < d' \/ (d = d' /\ (j < j')%nat))).
Proof.
  rewrite cmp_pair_lt, cmp_pair_lt, cmp_Z, cmp_nat.
  rewrite Z.compare_lt_iff, Nat.compare_lt_iff.
  split.
  - intros [[L|[-> L]]|[[= -> ->] L]]; auto.
  - intros [L|[-> [L|[-> L]]]]; auto.
Qed.

(** A position is before the germ after [x0] when it is not after the
    point [x0]. *)
Lemma pos_before_germ (q : position X) (x0 : X) :
  eps_ok q -> (cmp q (x0, 1) = Lt <-> cmp (x0, 0) q <> Lt).
Proof.
  destruct q as [a e]. unfold eps_ok. cbn [snd]. intros He.
  rewrite !cmp_pair_lt, !cmp_Z, !Z.compare_lt_iff.
  destruct (lt_total a x0) as [L|[->|L]].
  - split; [|auto]. intros _ [L'|[-> _]]; ord_absurd.
  - split.
    + intros [L|[_ L]] [L'|[_ L']]; try ord_absurd; lia.
    + intros Hn. right. split; [reflexivity|].
      destruct He as [->| ->]; [lia|]. exfalso. apply Hn. right. split; [reflexivity|lia].
  - split.
    + intros [L'|[-> _]]; ord_absurd.
    + intros Hn. exfalso. apply Hn. now left.
Qed.

Lemma iterator_in (D : RealSet X) (j : nat) (e : event X) :
  In e (_iterator D j) <->
  exists iv, In iv D /\
    (e = ((lower_pos iv, 1), j) \/ e = ((upper_pos iv, -1), j)).
Proof.
  unfold _iterator. rewrite in_flat_map. split.
  - intros [iv [Hiv [<-|[<-|[]]]]]; exists iv; auto.
  - intros [iv [Hiv [->| ->]]]; exists iv; simpl; auto.
Qed.

Lemma streams_in (Ds : list (RealSet X)) (e : event X) :
  forall k,
    In e (concat (map (fun '(j, real_set) => _iterator real_set j)
                      (enumerate_from k Ds))) <->
    exists i D, nth_error Ds i = Some D /\ In e (_iterator D (k + i)).
Proof.
  induction Ds as [|D Ds IH]; intros k; cbn [enumerate_from map concat].
  - split; [intros []|]. intros [i [D [E _]]]. destruct i; discriminate.
  - rewrite in_app_iff, IH. split.
    + intros [Hin|[i [D' [E Hin]]]].
      * exists 0%nat, D. rewrite Nat.add_0_r. auto.
      * exists (S i), D'. rewrite Nat.add_succ_r. auto.
    + intros [[|i] [D' [E Hin]]].
      * injection E as <-. rewrite Nat.add_0_r in Hin. now left.
      * right. exists i, D'. rewrite Nat.add_succ_r in Hin. auto.
Qed.

(** The events of the merged list: the two ends of every component,
    with the index of its domain. *)
Lemma scan_of_in (Ds : list (RealSet X)) (e : event X) :
  In e (scan_of Ds) <->
  exists i D iv, nth_error Ds i = Some D /\ In iv D /\
    (e = ((lower_pos iv, 1), i) \/ e = ((upper_pos iv, -1), i)).
Proof.
  unfold scan_of. split.
  - intros Hin. apply (Permutation_in _ (merge_perm _)) in Hin.
    apply streams_in in Hin as [i [D [E Hin]]].
    apply iterator_in in Hin as [iv [Hiv He]]. exists i, D, iv. auto.
  - intros [i [D [iv [E [Hiv He]]]]].
    apply (Permutation_in _ (Permutation_sym (merge_perm _))).
    apply streams_in. exists i, D. split; [assumption|].
    apply iterator_in. exists iv. auto.
Qed.

Lemma scan_of_sorted (Ds : list (RealSet X)) :
  Forall (fun D => normalized D = true) Ds -> sorted (scan_of Ds).
Proof.
  intros HN. unfold scan_of. apply merge_sorted.
  exact (streams_sorted 0 HN).
Qed.

End ScanList.
Section PointLocation.
Context {X : Type} `{Ord X} {F : Type} `{FunctionService X F}
        `{!FunctionLaws X F}.

Lemma end_points_list_scan (A : PiecewiseFunction X F) :
  fst (_init_end_points A) = scan_of (domain_list A).
Proof. reflexivity. Qed.

Lemma germ_after_point (x0 : X) : cmp (x0, 0) (x0, 1) = Lt.
Proof. apply cmp_pair_lt. right. split; reflexivity. Qed.

Lemma eps_ok_lower (iv : InternalRealInterval X) : eps_ok (lower_pos iv).
Proof. unfold eps_ok, lower_pos. cbn [snd]. destruct (_lower_closed iv); simpl; auto. Qed.

Lemma eps_ok_upper (iv : InternalRealInterval X) : eps_ok (upper_pos iv).
Proof. unfold eps_ok, upper_pos. cbn [snd]. destruct (_upper_closed iv); simpl; auto. Qed.

Lemma wf_component_ok (A : PiecewiseFunction X F) (j : nat) (D : RealSet X)
  (iv : InternalRealInterval X) :
  wf A -> nth_error (domain_list A) j = Some D -> In iv D ->
  normalized D = true /\ interval_ok iv = true.
Proof.
  intros W E Hiv. pose proof (wf_norm W) as HN. rewrite Forall_forall in HN.
  assert (HD : normalized D = true) by (apply HN; eapply nth_error_In; eauto).
  split; [assumption|].
  pose proof (normalized_ok _ HD) as Hok. rewrite Forall_forall in Hok. auto.
Qed.

(** Two components of a well formed object that share a position are
    the same component of the same domain. *)
Lemma component_unique (A : PiecewiseFunction X F) (j j' : nat)
  (D D' : RealSet X) (iv iv' : InternalRealInterval X) (g : position X) :
  wf A ->
  nth_error (domain_list A) j = Some D ->
  nth_error (domain_list A) j' = Some D' ->
  In iv D -> In iv' D' ->
  pcontains iv g = true -> pcontains iv' g = true ->
  j = j' /\ iv = iv'.
Proof.
  intros W E E' I I' P P'.
  assert (G : gcontains (nth j (domain_list A) []) g = true)
    by (rewrite (nth_error_nth _ _ _ E); eapply gcontains_in; eauto).
  assert (G' : gcontains (nth j' (domain_list A) []) g = true)
    by (rewrite (nth_error_nth _ _ _ E'); eapply gcontains_in; eauto).
  assert (Hj : (j < length (domain_list A))%nat)
    by (apply nth_error_Some; congruence).
  assert (Hj' : (j' < length (domain_list A))%nat)
    by (apply nth_error_Some; congruence).
  destruct (lt_eq_lt_dec j j') as [[L|Eq]|L].
  - exfalso. apply (@wf_disj _ _ _ _ _ W j j' g); auto.
  - subst j'. split; [reflexivity|]. rewrite E in E'. injection E' as <-.
    destruct (wf_component_ok _ _ W E I) as [HD _].
    eapply normalized_unique; eauto.
  - exfalso. apply (@wf_disj _ _ _ _ _ W j' j g); auto.
Qed.

(** [which_pair] at a point of a component. *)
Lemma which_pair_in (A : PiecewiseFunction X F) (x0 : X) (j : nat)
  (D : RealSet X) (f : F) (iv : InternalRealInterval X) :
  wf A ->
  nth_error (domain_list A) j = Some D -> nth_error (func_list A) j = Some f ->
  In iv D -> pcontains iv (x0, 0) = true ->
  which_pair A x0 = ([], Ok (Some (D, f))).
Proof.
  intros W ED Ef Hiv Hp.
  set (L := scan_of (domain_list A)).
  set (key := (((x0, 1), -1), 0%nat) : event X).
  assert (HsL : sorted L) by (apply scan_of_sorted, (wf_norm W)).
  destruct (bisect_left_spec key HsL) as [Hr [Hbelow Habove]].
  set (r := bisect_left L key) in *.
  destruct (wf_component_ok _ _ W ED Hiv) as [HD Hok].
  pose proof Hp as Hp'. apply pcontains_iff in Hp' as [Hlo Hup].
  pose proof (germ_after_point x0) as H01.
  assert (HeL : In ((lower_pos iv, 1), j) L)
    by (apply scan_of_in; exists j, D, iv; auto).
  assert (HeU : In ((upper_pos iv, -1), j) L)
    by (apply scan_of_in; exists j, D, iv; auto).
  assert (Hu1 : cmp (upper_pos iv) (x0, 1) <> Lt).
  { intros C. apply (pos_before_germ x0 (eps_ok_upper iv)) in C. contradiction. }
  assert (Hl1 : cmp (lower_pos iv) (x0, 1) = Lt)
    by (apply (pos_before_germ x0 (eps_ok_lower iv)); assumption).
  destruct (In_nth _ _ key HeL) as [iL [HiL EiL]].
  destruct (In_nth _ _ key HeU) as [iU [HiU EiU]].
  assert (HrL : (iL < r)%nat).
  { destruct (Nat.lt_ge_cases iL r) as [|Hge]; [assumption|]. exfalso.
    apply (Habove iL); [lia|]. rewrite EiL. apply ev_lt. now left. }
  assert (HrU : (r <= iU)%nat).
  { destruct (Nat.le_gt_cases r iU) as [|Hgt]; [assumption|]. exfalso.
    pose proof (Hbelow iU Hgt) as C. rewrite EiU in C. apply ev_lt in C.
    destruct C as [C|[C [C'|[_ C']]]]; [contradiction|lia|lia]. }
  assert (He : nth r L key = ((upper_pos iv, -1), j)).
  { assert (Hin : In (nth r L key) L) by (apply nth_In; lia).
    assert (Hge : cmp (nth r L key) key <> Lt) by (apply Habove; lia).
    assert (Hle : le (nth r L key) ((upper_pos iv, -1), j)).
    { rewrite <- EiU. apply sorted_nth; [assumption|lia]. }
    apply scan_of_in in Hin as [j' [D' [iv' [ED' [Hiv' He]]]]].
    destruct (wf_component_ok _ _ W ED' Hiv') as [HD' Hok'].
    unfold interval_ok in Hok, Hok'. unfold le in Hle.
    destruct He as [He|He]; rewrite He in *.
    - exfalso.
      assert (Q1 : cmp (lower_pos iv') (x0, 1) <> Lt).
      { intros C. apply Hge. apply ev_lt. now left. }
      assert (Q2 : cmp (lower_pos iv') (upper_pos iv) = Lt).
      { destruct (lt_total (lower_pos iv') (upper_pos iv)) as [C|[C|C]];
          [assumption| |]; exfalso; apply Hle; apply ev_lt.
        - right. split; [now symmetry|]. left. lia.
        - now left. }
      assert (P1 : pcontains iv (lower_pos iv') = true).
      { apply pcontains_iff. split; [|assumption]. ord. }
      destruct (component_unique _ _ _ _ _ W ED ED' Hiv Hiv' P1
                  (pcontains_lower iv' Hok')) as [_ <-].
      ord.
    - assert (Q1 : cmp (upper_pos iv') (x0, 1) <> Lt).
      { intros C. apply Hge. apply ev_lt. now left. }
      assert (Q2 : cmp (upper_pos iv) (upper_pos iv') <> Lt).
      { intros C. apply Hle. apply ev_lt. now left. }
      assert (Hsame : j = j' /\ iv = iv').
      { destruct (cmp (x0, 0) (lower_pos iv')) eqn:C.
        - apply cmp_eq in C.
          apply (component_unique _ _ _ _ (x0, 0) W ED ED' Hiv Hiv' Hp).
          apply pcontains_iff. rewrite <- C. split; [apply lt_irrefl|]. ord.
        - assert (P1 : pcontains iv (lower_pos iv') = true).
          { apply pcontains_iff. split; ord. }
          exact (component_unique _ _ _ _ _ W ED ED' Hiv Hiv' P1
                   (pcontains_lower iv' Hok')).
        - apply cmp_gt_lt in C.
          apply (component_unique _ _ _ _ (x0, 0) W ED ED' Hiv Hiv' Hp).
          apply pcontains_iff. split; ord. }
      destruct Hsame as [<- <-]. reflexivity. }
  unfold which_pair. cbv zeta. rewrite end_points_list_scan.
  fold L. fold key. fold r.
  assert (E1 : (r <=? 0)%nat = false) by (apply Nat.leb_gt; lia).
  assert (E2 : (length L <=? r)%nat = false) by (apply Nat.leb_gt; lia).
  rewrite E1, E2. cbn [orb].
  rewrite (nth_error_nth' L key) by lia. rewrite He.
  unfold upper_pos. cbn. now rewrite ED, Ef.
Qed.

(** [which_pair] at a point outside the support. *)
Lemma which_pair_out (A : PiecewiseFunction X F) (x0 : X) :
  wf A -> gcontains (support A) (x0, 0) = false ->
  which_pair A x0 = ([X0NotInDomain], Ok None).
Proof.
  intros W Hs.
  set (L := scan_of (domain_list A)).
  set (key := (((x0, 1), -1), 0%nat) : event X).
  assert (HsL : sorted L) by (apply scan_of_sorted, (wf_norm W)).
  destruct (bisect_left_spec key HsL) as [Hr [Hbelow Habove]].
  set (r := bisect_left L key) in *.
  pose proof (germ_after_point x0) as H01.
  unfold which_pair. cbv zeta. rewrite end_points_list_scan.
  fold L. fold key. fold r.
  destruct ((r <=? 0)%nat || (length L <=? r)%nat) eqn:Ec; [reflexivity|].
  apply orb_false_elim in Ec as [E1 E2].
  apply Nat.leb_gt in E1, E2.
  rewrite (nth_error_nth' L key) by lia.
  assert (Hin : In (nth r L key) L) by (apply nth_In; lia).
  assert (Hge : cmp (nth r L key) key <> Lt) by (apply Habove; lia).
  apply scan_of_in in Hin as [j' [D' [iv' [ED' [Hiv' He]]]]].
  destruct He as [He|He]; rewrite He in *.
  { unfold lower_pos. cbn. reflexivity. }
  exfalso.
  destruct (wf_component_ok _ _ W ED' Hiv') as [HD' Hok'].
  unfold interval_ok in Hok'.
  assert (Q1 : cmp (upper_pos iv') (x0, 1) <> Lt).
  { intros C. apply Hge. apply ev_lt. now left. }
  assert (HeL : In ((lower_pos iv', 1), j') L)
    by (apply scan_of_in; exists j', D', iv'; auto).
  destruct (In_nth _ _ key HeL) as [iL [HiL EiL]].
  assert (HrL : (iL < r)%nat).
  { destruct (Nat.lt_ge_cases iL r) as [|Hge']; [assumption|]. exfalso.
    assert (Hle : le (nth r L key) (nth iL L key))
      by (apply sorted_nth; [assumption|lia]).
    rewrite He, EiL in Hle. apply Hle. apply ev_lt. left. ord. }
  pose proof (Hbelow iL HrL) as C. rewrite EiL in C. apply ev_lt in C.
  assert (Q2 : cmp (lower_pos iv') (x0, 1) = Lt)
    by (destruct C as [C|[_ [C|[C _]]]]; [assumption|lia|lia]).
  apply (pos_before_germ x0 (eps_ok_lower iv')) in Q2.
  assert (P : pcontains iv' (x0, 0) = true)
    by (apply pcontains_iff; split; [assumption|ord]).
  rewrite (support_contains _ W) in Hs.
  assert (Hc : existsb (fun D => gcontains D (x0, 0)) (domain_list A) = true).
  { apply existsb_exists. exists D'. split; [eapply nth_error_In; eauto|].
    eapply gcontains_in; eauto. }
  congruence.
Qed.

(** X12: [which_pair] locates the piece of a point: at a point of a domain
    it returns that domain with its function; outside the support it
    prints and returns [None]. *)
Theorem which_pair_correct (pieces : list (RealSet X * pyval F)) (v : string)
  (p : PiecewiseFunction X F) (x0 : X) :
  pieces_ok v pieces -> __init__ pieces = Ok p ->
  (forall D f, In (D, f) (__iter__ p) -> contains D x0 = true ->
     which_pair p x0 = ([], Ok (Some (D, f)))) /\
  (contains (support p) x0 = false ->
     which_pair p x0 = ([X0NotInDomain], Ok None)).
Proof.
  intros Hok E. pose proof (init_wf Hok E) as W. split.
  - intros D f Hin Hc. destruct (iter_in _ _ _ Hin) as [j [ED Ef]].
    rewrite contains_point in Hc.
    apply gcontains_exists in Hc as [iv [Hiv Hp]].
    exact (@which_pair_in p x0 j D f iv W ED Ef Hiv Hp).
  - intros Hs. rewrite contains_point in Hs. now apply which_pair_out.
Qed.

End PointLocation.
(** ** The keys of the endpoint table, and limits away from them *)

Section TableKeys.
Context {X : Type} `{Ord X} {F : Type} `{FunctionService X F}.

Lemma record_all_none (L : list (F * (position X * Z))) :
  forall T y,
    table_get T y = None ->
    (forall fe, In fe L -> ev_x (snd fe) <> y) ->
    table_get (record_all L T) y = None.
Proof.
  induction L as [|[func ev] L IH]; intros T y HT Hno; [exact HT|].
  unfold record_all in *. cbn [fold_left fst snd]. apply IH.
  - rewrite record_event_get. rewrite eqb_neq; [exact HT|].
    apply (Hno (func, ev)). now left.
  - intros fe Hin. apply Hno. now right.
Qed.

Lemma record_all_key_inv (L : list (F * (position X * Z))) :
  forall T y,
    table_get (record_all L T) y <> None ->
    table_get T y <> None \/ exists fe, In fe L /\ ev_x (snd fe) = y.
Proof.
  induction L as [|[func ev] L IH]; intros T y Hk; [now left|].
  unfold record_all in *. cbn [fold_left fst snd] in Hk.
  destruct (IH _ _ Hk) as [Hk'|[fe [Hin Hx]]].
  - rewrite record_event_get in Hk'. destruct (eqb (ev_x ev) y) eqn:E.
    + right. exists (func, ev). split; [now left|]. now apply eqb_eq in E.
    + now left.
  - right. exists fe. split; [now right|assumption].
Qed.

Lemma scan_points (D : RealSet X) (ev : position X * Z) :
  In ev (_scan D) ->
  exists iv, In iv D /\ (ev_x ev = _lower iv \/ ev_x ev = _upper iv).
Proof.
  unfold _scan. rewrite in_flat_map. intros [iv [Hiv [<-|[<-|[]]]]];
    exists iv; auto.
Qed.

Lemma scan_has_points (D : RealSet X) (iv : InternalRealInterval X) :
  In iv D ->
  (exists ev, In ev (_scan D) /\ ev_x ev = _lower iv) /\
  (exists ev, In ev (_scan D) /\ ev_x ev = _upper iv).
Proof.
  intros Hiv. unfold _scan. split; eexists; (split;
    [apply in_flat_map; exists iv; split; [exact Hiv|]|]).
  - left. reflexivity.
  - reflexivity.
  - right. left. reflexivity.
  - reflexivity.
Qed.

Lemma all_events_in (p : PiecewiseFunction X F) (fe : F * (position X * Z)) :
  In fe (all_events p) <->
  exists D, In (D, fst fe) (__iter__ p) /\ In (snd fe) (_scan D).
Proof.
  unfold all_events. rewrite in_flat_map. split.
  - intros [[D f] [Hin Hfe]]. apply in_map_iff in Hfe as [ev [<- Hev]].
    exists D. auto.
  - intros [D [Hin Hev]]. exists (D, fst fe). split; [assumption|].
    apply in_map_iff. exists (snd fe). split; [now destruct fe|assumption].
Qed.

(** X13: The endpoint table has an entry exactly at the end points of the
    components of the pieces. *)
Theorem end_points_keys (p : PiecewiseFunction X F) (x : X) :
  table_get (snd (_init_end_points p)) x <> None <->
  exists D f iv, In (D, f) (__iter__ p) /\ In iv D /\
                 (_lower iv = x \/ _upper iv = x).
Proof.
  rewrite init_end_points_flat. split.
  - intros Hk. apply record_all_key_inv in Hk as [Hk|[fe [Hin Hx]]];
      [now elim Hk|].
    apply all_events_in in Hin as [D [Hin Hev]].
    apply scan_points in Hev as [iv [Hiv Hp]].
    exists D, (fst fe), iv. split; [assumption|]. split; [assumption|].
    destruct Hp as [Hp|Hp]; [left|right]; congruence.
  - intros [D [f [iv [Hin [Hiv Hp]]]]]. apply record_all_key. right.
    destruct (scan_has_points D iv Hiv) as [[e1 [I1 E1]] [e2 [I2 E2]]].
    destruct Hp as [<-|<-].
    + exists (f, e1). split; [|exact E1]. apply all_events_in. exists D. auto.
    + exists (f, e2). split; [|exact E2]. apply all_events_in. exists D. auto.
Qed.

End TableKeys.

Section LimitsAway.
Context {X : Type} `{Ord X} {F : Type} `{FunctionService X F}
        `{!FunctionLaws X F}.

Lemma no_key_away (p : PiecewiseFunction X F) (x0 : X) :
  (forall D f iv, In (D, f) (__iter__ p) -> In iv D ->
                  _lower iv <> x0 /\ _upper iv <> x0) ->
  table_get (snd (_init_end_points p)) x0 = None.
Proof.
  intros Hno. rewrite init_end_points_flat. apply record_all_none; [reflexivity|].
  intros fe Hin Hx. apply all_events_in in Hin as [D [Hin Hev]].
  apply scan_points in Hev as [iv [Hiv Hp]].
  destruct (Hno _ _ _ Hin Hiv) as [N1 N2].
  destruct Hp as [Hp|Hp]; congruence.
Qed.

(** X14: [limits] at a point that is no end point of a component: three
    times the value of the function where the point lies in the support,
    and three times [None], with the message, where it does not. *)
Theorem limits_away (pieces : list (RealSet X * pyval F)) (v : string)
  (p : PiecewiseFunction X F) (x0 : X) :
  pieces_ok v pieces -> __init__ pieces = Ok p ->
  (forall D f iv, In (D, f) (__iter__ p) -> In iv D ->
                  _lower iv <> x0 /\ _upper iv <> x0) ->
  (forall y, __call__ p [x0] [] = ([], Ok (Some y)) ->
     limits p x0 = ([], Ok (Some y, Some y, Some y))) /\
  (contains (support p) x0 = false ->
     limits p x0 = ([X0NotInDomain], Ok (None, None, None))).
Proof.
  intros Hok E Hno. pose proof (init_wf Hok E) as W.
  pose proof (no_key_away _ Hno) as HT. unfold limits. cbv zeta. rewrite HT.
  split.
  - intros y Ey. destruct (call_value _ W Ey) as [f [Ef <-]].
    destruct (piece_at_some _ _ Ef) as [j [D [ED [Efj Hg]]]].
    apply gcontains_exists in Hg as [iv [Hiv Hp]].
    now rewrite (@which_pair_in _ _ _ _ p x0 j D f iv W ED Efj Hiv Hp).
  - intros Hs. rewrite contains_point in Hs.
    now rewrite (which_pair_out _ W Hs).
Qed.

End LimitsAway.
(** ** The sum of a collection: [piecewise_sum_general] *)

Section BisectRight.
Context {E : Type} `{Ord E}.

Lemma bisect_right_loop_spec (a : list E) (key : E) :
  sorted a ->
  forall fuel lo hi,
    (lo <= hi <= length a)%nat -> (hi - lo < fuel)%nat ->
    (forall i, (i < lo)%nat -> cmp key (nth i a key) <> Lt) ->
    (forall i, (hi <= i < length a)%nat -> cmp key (nth i a key) = Lt) ->
    (bisect_right_loop fuel a key lo hi <= length a)%nat /\
    (forall i, (i < bisect_right_loop fuel a key lo hi)%nat ->
               cmp key (nth i a key) <> Lt) /\
    (forall i, (bisect_right_loop fuel a key lo hi <= i < length a)%nat ->
               cmp key (nth i a key) = Lt).
Proof.
  intros Hs. induction fuel as [|fuel IH]; intros lo hi Hb Hf Hlo Hhi; [lia|].
  cbn [bisect_right_loop]. destruct (lo <? hi)%nat eqn:Elt.
  - apply Nat.ltb_lt in Elt. pose proof (mid_bounds Elt) as Hm.
    set (mid := ((lo + hi) / 2)%nat) in *.
    destruct (ltb key (nth mid a key)) eqn:Ec.
    + apply IH; [lia|lia|assumption|].
      intros i Hi. apply ltb_lt in Ec.
      assert (Hle : le (nth mid a key) (nth i a key))
        by (apply sorted_nth; [assumption|lia]).
      exact (lt_le_trans _ _ _ Ec Hle).
    + apply IH; [lia|lia| |assumption].
      intros i Hi. apply ltb_nlt in Ec.
      assert (Hle : le (nth i a key) (nth mid a key))
        by (apply sorted_nth; [assumption|lia]).
      exact (le_trans _ _ _ Hle Ec).
  - apply Nat.ltb_ge in Elt. assert (lo = hi) by lia. subst hi.
    split; [lia|]. split; assumption.
Qed.

(** [bisect_right] on a sorted list: the elements before the index are
    not above the key, the others are. *)
Lemma bisect_right_spec (a : list E) (key : E) :
  sorted a ->
  (bisect_right a key <= length a)%nat /\
  (forall i, (i < bisect_right a key)%nat -> cmp key (nth i a key) <> Lt) /\
  (forall i, (bisect_right a key <= i < length a)%nat ->
             cmp key (nth i a key) = Lt).
Proof.
  intros Hs. unfold bisect_right.
  apply bisect_right_loop_spec; try assumption; lia.
Qed.

End BisectRight.

Section Cuts.
Context {T : Type}.
Local Open Scope nat_scope.

Lemma fold_left_pointwise {S U} (f g : S -> U -> S) (l : list U) :
  (forall a b, f a b = g a b) -> forall a, fold_left f l a = fold_left g l a.
Proof.
  intros E. induction l as [|b l IH]; intros a; simpl; [reflexivity|].
  now rewrite E, IH.
Qed.

Lemma prefix_sums_length (lens : list nat) :
  forall base, length (prefix_sums base lens) = length lens.
Proof. induction lens as [|n lens IH]; intros base; simpl; auto. Qed.

Lemma nth_S_cons {U} (k : nat) (a d : U) (l : list U) :
  nth (S k) (a :: l) d = nth k l d.
Proof. reflexivity. Qed.

Lemma prefix_sums_above (lens : list nat) :
  forall base k, (k <= length lens)%nat ->
    (base <= nth k (base :: prefix_sums base lens) 0)%nat.
Proof.
  induction lens as [|n lens IH]; intros base k Hk.
  - simpl in Hk. assert (k = 0%nat) by lia. subst k. simpl. lia.
  - destruct k as [|k]; [simpl; lia|].
    cbn [prefix_sums]. rewrite nth_S_cons. specialize (IH (n + base)%nat k).
    simpl in Hk. lia.
Qed.

Lemma prefix_sums_sorted (lens : list nat) :
  forall base, sorted (base :: prefix_sums base lens).
Proof.
  induction lens as [|n lens IH]; intros base.
  - constructor; constructor.
  - cbn [prefix_sums]. constructor; [|apply IH].
    apply Forall_forall. intros c Hc.
    destruct (In_nth _ _ 0%nat Hc) as [k [Hk <-]].
    pose proof (@prefix_sums_above lens (n + base)%nat k) as Ha.
    cbn [length] in Hk. rewrite prefix_sums_length in Hk.
    unfold le. rewrite cmp_nat. apply Nat.compare_ge_iff. lia.
Qed.

Lemma concat_lookup (ls : list (list T)) :
  forall base k i,
    (k < length ls)%nat ->
    (nth k (base :: prefix_sums base (map (@length T) ls)) 0 <= i <
     nth (S k) (base :: prefix_sums base (map (@length T) ls)) 0)%nat ->
    nth_error (concat ls) (i - base) =
    nth_error (nth k ls [])
              (i - nth k (base :: prefix_sums base (map (@length T) ls)) 0).
Proof.
  induction ls as [|l ls IH]; intros base k i Hk Hi; [simpl in Hk; lia|].
  cbn [map prefix_sums concat] in *. destruct k as [|k].
  - cbn [nth] in *. apply nth_error_app1. lia.
  - rewrite !nth_S_cons in Hi. rewrite !nth_S_cons. simpl in Hk.
    pose proof (@prefix_sums_above (map (@length T) ls) (length l + base)%nat k) as Ha.
    rewrite length_map in Ha.
    rewrite nth_error_app2 by lia.
    rewrite <- (IH (length l + base)%nat k i); [|lia|exact Hi].
    f_equal. lia.
Qed.

Lemma concat_total (ls : list (list T)) :
  forall base,
    nth (length ls) (base :: prefix_sums base (map (@length T) ls)) 0 =
    (base + length (concat ls))%nat.
Proof.
  induction ls as [|l ls IH]; intros base; [simpl; lia|].
  cbn [length map prefix_sums concat]. rewrite nth_S_cons, IH, length_app. lia.
Qed.

End Cuts.

Section SumLookup.
Context {X : Type} `{Ord X} {F : Type} `{FunctionService X F}.

Lemma py_index_nat {T} (l : list T) (k : nat) :
  py_index l (Z.of_nat k) = nth_error l k.
Proof.
  unfold py_index. rewrite (proj2 (Z.leb_le _ _)) by lia. now rewrite Nat2Z.id.
Qed.

Lemma realset_cut_from (coll : list (PiecewiseFunction X F)) :
  forall cut0,
    fold_left (fun cut piecewise => cut ++ [(__len__ piecewise + last cut 0)%nat])
              coll cut0 =
    cut0 ++ prefix_sums (last cut0 0%nat) (map (@__len__ X F) coll).
Proof.
  induction coll as [|A coll IH]; intros cut0; cbn [fold_left map prefix_sums].
  - now rewrite app_nil_r.
  - rewrite IH, last_last, <- app_assoc. reflexivity.
Qed.

Lemma realset_cut_prefix (coll : list (PiecewiseFunction X F)) :
  realset_cut coll =
  0%nat :: prefix_sums 0 (map (@length F) (map (@func_list X F) coll)).
Proof.
  unfold realset_cut. rewrite realset_cut_from. rewrite map_map. reflexivity.
Qed.

(** The function the sum looks up for the [i]-th domain is the [i]-th
    function of the collection, the lists of functions laid end to end. *)
Lemma sum_func_at_spec (coll : list (PiecewiseFunction X F)) (i : nat) :
  sum_func_at coll (realset_cut coll) i =
  match nth_error (concat (map (@func_list X F) coll)) i with
  | Some f => Ok f
  | None => Raise IndexError
  end.
Proof.
  rewrite realset_cut_prefix.
  set (ls := map (@func_list X F) coll).
  set (cut := 0%nat :: prefix_sums 0 (map (@length F) ls)).
  assert (Hlen : length cut = S (length coll)).
  { unfold cut, ls. cbn [length]. now rewrite prefix_sums_length, !length_map. }
  assert (Hls : length ls = length coll) by (unfold ls; apply length_map).
  destruct (bisect_right_spec i (prefix_sums_sorted (map (@length F) ls) 0%nat))
    as [Hr [Hbelow Habove]].
  fold cut in Hr, Hbelow, Habove.
  unfold sum_func_at, get_realset_func_id.
  set (r := bisect_right cut i) in *.
  assert (Hr1 : (1 <= r)%nat).
  { destruct r as [|r']; [|lia]. exfalso.
    assert (C : cmp i (nth 0 cut i) = Lt) by (apply Habove; lia).
    unfold cut in C. cbn [nth] in C. rewrite cmp_nat in C.
    apply Nat.compare_lt_iff in C. lia. }
  replace (Z.of_nat r - 1) with (Z.of_nat (r - 1)) by lia.
  rewrite py_index_nat, (nth_error_nth' cut 0%nat) by lia.
  assert (Hc : (nth (r - 1) cut 0 <= i)%nat).
  { assert (C : cmp i (nth (r - 1) cut i) <> Lt) by (apply Hbelow; lia).
    rewrite (nth_indep cut i 0%nat) in C by lia.
    rewrite cmp_nat in C. now apply Nat.compare_ge_iff in C. }
  replace (Z.of_nat i - Z.of_nat (nth (r - 1) cut 0%nat))
    with (Z.of_nat (i - nth (r - 1) cut 0%nat)) by lia.
  rewrite !py_index_nat.
  destruct (Nat.lt_ge_cases (r - 1) (length coll)) as [Hk|Hk].
  - assert (Hi : (i < nth (S (r - 1)) cut 0%nat)%nat).
    { assert (C : cmp i (nth r cut i) = Lt) by (apply Habove; lia).
      rewrite (nth_indep cut i 0%nat) in C by lia.
      rewrite cmp_nat in C. apply Nat.compare_lt_iff in C.
      now replace (S (r - 1)) with r by lia. }
    pose proof (@concat_lookup F ls 0%nat (r - 1)%nat i) as Hlook.
    fold cut in Hlook. rewrite Nat.sub_0_r in Hlook.
    rewrite Hlook by lia.
    destruct (nth_error coll (r - 1)) as [A|] eqn:EA;
      [|apply nth_error_None in EA; lia].
    unfold ls. rewrite (nth_error_nth _ _ _ (map_nth_error (@func_list X F) _ _ EA)).
    now rewrite py_index_nat.
  - assert (r - 1 = length coll)%nat by lia.
    rewrite (proj2 (nth_error_None coll (r - 1))) by lia.
    rewrite (proj2 (nth_error_None (concat ls) i)); [reflexivity|].
    pose proof (@concat_total F ls 0%nat) as Ht. fold cut in Ht.
    rewrite Hls in Ht. rewrite <- H1 in Ht. lia.
Qed.

End SumLookup.
Section SumPair.
Context {X : Type} `{Ord X} {F : Type} `{FunctionService X F}.

Lemma sum_func_at_pair (p q : PiecewiseFunction X F) (i : nat) :
  length (domain_list p) = length (func_list p) ->
  sum_func_at [p; q] (realset_cut [p; q]) i = func_at p q i.
Proof.
  intros L. rewrite sum_func_at_spec. cbn [map concat]. rewrite app_nil_r.
  unfold func_at. cbv zeta. rewrite L.
  destruct (i <? length (func_list p))%nat eqn:E.
  - apply Nat.ltb_lt in E. now rewrite nth_error_app1.
  - apply Nat.ltb_ge in E. now rewrite nth_error_app2.
Qed.

(** X15: On a collection of two functions the general sum is
    [piecewise_add_general]: the same result, or the same error. *)
Theorem sum_general_pair (p q : PiecewiseFunction X F) (union : bool) :
  length (domain_list p) = length (func_list p) ->
  length (domain_list q) = length (func_list q) ->
  piecewise_sum_general [p; q] union = piecewise_add_general p q union.
Proof.
  intros Lp Lq. unfold piecewise_sum_general, piecewise_add_general. cbv zeta.
  cbn [flat_map]. unfold __iter__ at 1 2.
  rewrite !map_fst_combine, app_nil_r by assumption.
  assert (Hfuncs : forall inds,
            sum_funcs [p; q] (realset_cut [p; q]) inds =
            combine_funcs py_add (PyInt 0) p q inds).
  { intros inds. unfold sum_funcs, combine_funcs.
    apply fold_left_pointwise. intros [a|e] [i ind]; [|reflexivity].
    now rewrite (@sum_func_at_pair p q i Lp). }
  assert (Hpairs : forall out,
            sum_pairs union [p; q] (realset_cut [p; q]) out =
            combine_pairs py_add (PyInt 0) union p q out).
  { induction out as [|[E inds] out IH]; [reflexivity|].
    cbn [sum_pairs combine_pairs]. rewrite IH, Hfuncs. reflexivity. }
  now rewrite Hpairs.
Qed.

End SumPair.
Section Collections.
Context {X : Type} `{Ord X} {F : Type} `{FunctionService X F}
        `{!FunctionLaws X F}.

Lemma somes_length {T} (l : list (option T)) :
  (length (somes l) <= length l)%nat.
Proof.
  unfold somes. induction l as [|[a|] l IH]; simpl; lia.
Qed.

Lemma somes_map {S T} (ev : S -> T) (l : list (option S)) :
  somes (map (option_map ev) l) = map ev (somes l).
Proof.
  unfold somes. induction l as [|[a|] l IH]; simpl; [reflexivity| |];
    now rewrite IH.
Qed.

Lemma all_pieces_fst (coll : list (PiecewiseFunction X F)) :
  map fst (all_pieces coll) =
  flat_map (fun piecewise => map fst (__iter__ piecewise)) coll.
Proof.
  unfold all_pieces. induction coll as [|A coll IH]; simpl; [reflexivity|].
  now rewrite map_app, IH.
Qed.

Lemma all_pieces_snd (coll : list (PiecewiseFunction X F)) :
  Forall (@wf X _ F _) coll ->
  map snd (all_pieces coll) = concat (map (@func_list X F) coll).
Proof.
  unfold all_pieces. induction 1 as [|A coll W _ IH]; simpl; [reflexivity|].
  rewrite map_app, IH. f_equal. unfold __iter__.
  apply map_snd_combine. apply (wf_len W).
Qed.

Lemma all_pieces_in (coll : list (PiecewiseFunction X F)) (D : RealSet X) (f : F) :
  In (D, f) (all_pieces coll) <->
  exists A, In A coll /\ In (D, f) (__iter__ A).
Proof. unfold all_pieces. apply in_flat_map. Qed.

Lemma all_pieces_normalized (coll : list (PiecewiseFunction X F)) :
  Forall (@wf X _ F _) coll ->
  Forall (fun D => normalized D = true) (map fst (all_pieces coll)).
Proof.
  intros HW. rewrite Forall_forall in *. intros D HD.
  apply in_map_iff in HD as [[D' f] [<- Hin]].
  apply all_pieces_in in Hin as [A [HA Hin]].
  pose proof (wf_norm (HW A HA)) as HN. rewrite Forall_forall in HN.
  apply HN. apply in_combine_l in Hin. exact Hin.
Qed.

Lemma sel_piece_at (A : PiecewiseFunction X F) (g : position X) :
  wf A ->
  sel A g = match piece_at A g with Some f => [f] | None => [] end.
Proof.
  intros W. destruct (piece_at A g) as [f|] eqn:E.
  - now apply sel_single.
  - now apply sel_none.
Qed.

(** The functions of the pieces of the collection that contain [g]. *)
Lemma all_pieces_sel (coll : list (PiecewiseFunction X F)) (g : position X) :
  Forall (@wf X _ F _) coll ->
  map snd (filter (fun '(D, f) => gcontains D g) (all_pieces coll)) =
  somes (pieces_at coll g).
Proof.
  unfold all_pieces, pieces_at, somes.
  induction 1 as [|A coll W _ IH]; simpl; [reflexivity|].
  rewrite filter_app, map_app, IH. f_equal.
  exact (sel_piece_at g W).
Qed.

Lemma zsum_filter (L : list (RealSet X * F)) (g : position X) :
  Forall (fun D => normalized D = true) (map fst L) ->
  zsum (map (fun D => gcoverage D g) (map fst L)) =
  Z.of_nat (length (filter (fun '(D, f) => gcontains D g) L)).
Proof.
  induction L as [|[D f] L IH]; intros HN; [reflexivity|].
  cbn [map fst zsum filter] in *. inversion HN as [|? ? HD HN']; subst.
  rewrite (IH HN'), (gcoverage_normalized _ g HD).
  destruct (gcontains D g); cbn [length]; lia.
Qed.

Lemma find_pointwise_in {T} (P Q : T -> bool) (l : list T) :
  (forall a, In a l -> P a = Q a) -> find P l = find Q l.
Proof.
  induction l as [|a l IH]; intros E; simpl; [reflexivity|].
  rewrite (E a (or_introl eq_refl)). destruct (Q a); [reflexivity|].
  apply IH. intros b Hb. apply E. now right.
Qed.

(** The inner loop of an n-ary combinator that looks the [i]-th function
    up with [look]. *)
Lemma fold_lookup (op : pyval F -> pyval F -> pyval F) (look : nat -> result F)
  (g : position X) (L : list (RealSet X * F)) :
  forall inds k acc,
    length inds = length L ->
    (forall i D f, nth_error L i = Some (D, f) ->
       (0 <? nth i inds 0) = gcontains D g /\ look (k + i)%nat = Ok f) ->
    fold_left (fun acc '(i, ind) =>
                 match acc with
                 | Raise e => Raise e
                 | Ok a =>
                     if 0 <? ind then
                       match look i with
                       | Ok f => Ok (op a (PyPoly f))
                       | Raise e => Raise e
                       end
                     else Ok a
                 end)
              (enumerate_from k inds) (Ok acc) =
    Ok (fold_left op
          (map (@PyPoly F) (map snd (filter (fun '(D, f) => gcontains D g) L)))
          acc).
Proof.
  induction L as [|[D f] L IH]; intros inds k acc Hlen Hall.
  - destruct inds; [reflexivity|discriminate].
  - destruct inds as [|ind inds]; [discriminate|].
    cbn [enumerate_from fold_left].
    destruct (Hall 0%nat D f eq_refl) as [Hind Hf]. simpl in Hind.
    rewrite Nat.add_0_r in Hf. rewrite Hind, Hf. cbn [filter].
    assert (Hall' : forall i D' f', nth_error L i = Some (D', f') ->
              (0 <? nth i inds 0) = gcontains D' g /\
              look (S k + i)%nat = Ok f').
    { intros i D' f' E. destruct (Hall (S i) D' f' E) as [H1 H2].
      split; [exact H1|]. now replace (S k + i)%nat with (k + S i)%nat by lia. }
    destruct (gcontains D g).
    + cbn [map fold_left]. apply IH; [simpl in Hlen; lia|exact Hall'].
    + apply IH; [simpl in Hlen; lia|exact Hall'].
Qed.

(** What holds where the partition of the domains of a collection of
    well formed objects yields: the vector marks the pieces that contain
    the positions of the interval, its sum counts the members that have
    a piece there, at least one has, and all positions of the interval
    see the same pieces. *)
Lemma yields_facts (coll : list (PiecewiseFunction X F))
  (E : RealSet X) (inds : list Z) (g : position X) :
  Forall (@wf X _ F _) coll ->
  In (E, inds)
     (finest_partitions
        (flat_map (fun piecewise => map fst (__iter__ piecewise)) coll)) ->
  gcontains E g = true ->
  length inds = length (all_pieces coll) /\
  (forall i D f, nth_error (all_pieces coll) i = Some (D, f) ->
     (0 <? nth i inds 0) = gcontains D g) /\
  zsum inds = Z.of_nat (length (somes (pieces_at coll g))) /\
  somes (pieces_at coll g) <> [] /\
  (forall g', gcontains E g' = true -> pieces_at coll g' = pieces_at coll g).
Proof.
  intros HW Hin G.
  set (DF := all_pieces coll).
  set (Ds := flat_map (fun piecewise => map fst (__iter__ piecewise)) coll) in *.
  assert (EDs : Ds = map fst DF) by (symmetry; apply all_pieces_fst).
  assert (HN : Forall (fun D => normalized D = true) Ds)
    by (rewrite EDs; now apply all_pieces_normalized).
  destruct (finest_partitions_positions HN) as [P1 [_ P3]].
  destruct (P3 E inds g Hin G) as [Hlen Hnth].
  assert (Hmark : forall i D f, nth_error DF i = Some (D, f) ->
            (0 <? nth i inds 0) = gcontains D g).
  { intros i D f E'.
    assert (ED : nth_error Ds i = Some D)
      by (rewrite EDs; exact (map_nth_error fst _ _ E')).
    assert (Hi : (i < length Ds)%nat) by (apply nth_error_Some; congruence).
    apply bool_eq_iff. rewrite Z.ltb_lt, (Hnth i Hi), gcoverage_pos.
    now rewrite (nth_error_nth _ _ _ ED). }
  split; [rewrite Hlen, EDs; apply length_map|]. split; [exact Hmark|].
  split; [|split].
  - rewrite <- (all_pieces_sel g HW). fold DF.
    rewrite length_map, <- zsum_filter by (rewrite <- EDs; assumption).
    rewrite <- EDs. apply zsum_nth; [now rewrite length_map|].
    intros i Hi. rewrite Hlen in Hi. rewrite (Hnth i Hi). symmetry.
    exact (map_nth (fun D : RealSet X => gcoverage D g) Ds [] i).
  - intros Es.
    assert (HD : exists y, In y (finest_partitions Ds) /\ gcontains (fst y) g = true)
      by (exists (E, inds); auto).
    apply P1 in HD as [D [HD Hg]].
    rewrite <- (all_pieces_sel _ HW) in Es. fold DF in Es.
    rewrite EDs in HD. apply in_map_iff in HD as [[D' f] [<- HDf]].
    assert (Hin' : In (D', f) (filter (fun '(D, f) => gcontains D g) DF))
      by (apply filter_In; auto).
    apply (in_map snd) in Hin'. rewrite Es in Hin'. destruct Hin'.
  - intros g' G'. unfold pieces_at. apply map_ext_in. intros A HA.
    unfold piece_at.
    rewrite (find_pointwise_in (fun '(D, f) => gcontains D g')
                               (fun '(D, f) => gcontains D g)); [reflexivity|].
    intros [D f] HDf.
    assert (HD : In D Ds).
    { unfold Ds. apply in_flat_map. exists A. split; [assumption|].
      apply in_map_iff. exists (D, f). auto. }
    destruct (In_nth _ _ [] HD) as [i [Hi <-]].
    destruct (P3 E inds g' Hin G') as [_ N2].
    apply bool_eq_iff. rewrite <- !gcoverage_pos, <- Hnth, <- N2 by assumption.
    reflexivity.
Qed.

Lemma calls_pieces (coll : list (PiecewiseFunction X F)) (x : X)
  (vals : list (option X)) :
  Forall2 (fun A a => snd (__call__ A [x] []) = Ok a) coll vals ->
  vals = map (option_map (fun f => feval f x)) (pieces_at coll (x, 0)).
Proof.
  induction 1 as [|A a coll vals Ea _ IH]; [reflexivity|].
  cbn [pieces_at map]. rewrite call_piece_at in Ea. injection Ea as <-.
  f_equal. exact IH.
Qed.

Section Operation.
Variables (op : pyval F -> pyval F -> pyval F) (start : pyval F)
          (op2 : F -> F -> F).
Hypothesis Hstart : forall fa, op start (PyPoly fa) = PyPoly fa.
Hypothesis Hop : forall fa fb, op (PyPoly fa) (PyPoly fb) = PyPoly (op2 fa fb).
Hypothesis Hopv : forall fa fb, fvar (op2 fa fb) = fvar fa.

Lemma fold_op (l : list F) (a : F) :
  fold_left op (map (@PyPoly F) l) (PyPoly a) = PyPoly (fold_left op2 l a).
Proof.
  revert a. induction l as [|b l IH]; intros a; simpl; [reflexivity|].
  now rewrite Hop, IH.
Qed.

Lemma fvar_fold (l : list F) (a : F) : fvar (fold_left op2 l a) = fvar a.
Proof.
  revert a. induction l as [|b l IH]; intros a; simpl; [reflexivity|].
  now rewrite IH, Hopv.
Qed.

Lemma yield_value_some (coll : list (PiecewiseFunction X F)) (g : position X)
  (a : F) (rest : list F) :
  somes (pieces_at coll g) = a :: rest ->
  yield_value op start coll g = PyPoly (fold_left op2 rest a).
Proof.
  intros Es. unfold yield_value. rewrite Es. cbn [map fold_left].
  now rewrite Hstart, fold_op.
Qed.

(** From the pairs of the kept yields to the object: the constructor
    builds the object that files, at every position, the combination of
    the functions the members file there. *)
Lemma nary_object (coll : list (PiecewiseFunction X F)) (v : string)
  (union : bool) (rp : list (RealSet X * pyval F)) :
  Forall (@wf X _ F _) coll ->
  Forall (fun A => Forall (fun f => fvar f = v) (func_list A)) coll ->
  Forall2 (fun y r => fst r = fst y /\
             forall g, gcontains (fst y) g = true ->
                       snd r = yield_value op start coll g)
          (filter (kept union (Z.of_nat (length coll)))
             (finest_partitions
                (flat_map (fun piecewise => map fst (__iter__ piecewise)) coll)))
          rp ->
  exists s, __init__ rp = Ok s /\ wf s /\
    forall g, match merged_all union op2 (pieces_at coll g) with
              | Some k => exists iv, pcontains iv g = true /\
                                     piece_at s g = Some (key_of k iv)
              | None => piece_at s g = None
              end.
Proof.
  intros HW Hv HF.
  set (Ds := flat_map (fun piecewise => map fst (__iter__ piecewise)) coll) in *.
  set (out := finest_partitions Ds) in *.
  set (n := Z.of_nat (length coll)) in *.
  set (M := fun g => merged_all union op2 (pieces_at coll g)).
  assert (HN : Forall (fun D => normalized D = true) Ds).
  { unfold Ds. rewrite <- all_pieces_fst. now apply all_pieces_normalized. }
  pose proof (finest_partitions_shape Ds) as Hshape. fold out in Hshape.
  rewrite Forall_forall in Hshape.
  assert (Hlenp : forall g, length (pieces_at coll g) = length coll)
    by (intros g; apply length_map).
  assert (HM : forall y g g', In y out ->
            gcontains (fst y) g = true -> gcontains (fst y) g' = true ->
            M g' = M g).
  { intros [E inds] g g' Hin G G'. simpl in G, G'. unfold M.
    destruct (@yields_facts coll E inds g HW Hin G) as [_ [_ [_ [_ Hsame]]]].
    now rewrite (Hsame g' G'). }
  assert (Hkept : forall y g k, In y out -> gcontains (fst y) g = true ->
            M g = Some k -> kept union n y = true).
  { intros [E inds] g k Hin G EM. simpl in G. unfold kept. cbn [snd].
    destruct union; [reflexivity|]. cbn [negb andb].
    destruct (@yields_facts coll E inds g HW Hin G) as [_ [_ [-> _]]].
    unfold M, merged_all in EM. cbn [orb] in EM.
    destruct (somes (pieces_at coll g)) as [|a rest] eqn:Es; [discriminate|].
    destruct (_ =? _)%nat eqn:El; [|discriminate].
    apply Nat.eqb_eq in El. rewrite El, Hlenp.
    apply negb_true_iff, Z.ltb_ge. unfold n. lia. }
  assert (HMv : forall g k, M g = Some k ->
            fvar k = v /\ exists D, In D Ds /\ gcontains D g = true).
  { intros g k EM. unfold M, merged_all in EM.
    destruct (somes (pieces_at coll g)) as [|a rest] eqn:Es; [discriminate|].
    assert (Ha : In a (somes (pieces_at coll g))) by (rewrite Es; now left).
    rewrite <- (all_pieces_sel g HW) in Ha.
    apply in_map_iff in Ha as [[D f] [Ea Hin]]. simpl in Ea. subst f.
    apply filter_In in Hin as [Hin Hg]. split.
    - destruct (union || _); [|discriminate]. injection EM as <-.
      rewrite fvar_fold.
      apply all_pieces_in in Hin as [A [HA Hin]].
      apply in_combine_r in Hin. rewrite Forall_forall in Hv.
      specialize (Hv A HA). rewrite Forall_forall in Hv. now apply Hv.
    - exists D. split; [|exact Hg]. unfold Ds. rewrite <- all_pieces_fst.
      apply in_map_iff. exists (D, a). auto. }
  apply (@partition_object _ _ _ _ _ Ds M (kept union n) v rp HN HM Hkept HMv).
  fold out.
  assert (Hfil : forall y, In y (filter (kept union n) out) ->
            In y out /\ kept union n y = true) by (intros y; apply filter_In).
  revert HF Hfil. generalize (filter (kept union n) out). intros fo HF Hfil.
  induction HF as [|[E inds] [D func] fo rp [E1 Hval] _ IH]; [constructor|].
  constructor; [|apply IH; intros y Hy; apply Hfil; now right].
  destruct (Hfil (E, inds) (or_introl eq_refl)) as [Hin Hk].
  cbn [fst snd] in *. subst D. split; [reflexivity|].
  destruct (Hshape _ Hin) as [iv [EE Hiv]]. simpl in EE. subst E.
  assert (G0 : gcontains [iv] (lower_pos iv) = true)
    by (simpl; now rewrite pcontains_lower).
  destruct (@yields_facts coll [iv] inds (lower_pos iv) HW Hin G0) as [_ [_ [Hz [Hne Hsame]]]].
  destruct (somes (pieces_at coll (lower_pos iv))) as [|a rest] eqn:Es;
    [now elim Hne|].
  exists (fold_left op2 rest a). split.
  - rewrite (Hval _ G0). now apply yield_value_some.
  - intros g G. unfold M, merged_all. rewrite (Hsame g G), Es.
    replace (union || (length (a :: rest) =? length (pieces_at coll (lower_pos iv)))%nat)
      with true; [reflexivity|]. symmetry.
    unfold kept in Hk. cbn [snd] in Hk. rewrite Hz in Hk.
    destruct union; [reflexivity|]. cbn [negb andb orb] in *.
    apply negb_true_iff, Z.ltb_ge in Hk. apply Nat.eqb_eq.
    pose proof (somes_length (pieces_at coll (lower_pos iv))) as Hle.
    rewrite Es, Hlenp in *. unfold n in Hk. lia.
Qed.

Section Values.
Variable xop : X -> X -> X.
Hypothesis Hev : forall fa fb x,
    feval (op2 fa fb) x = xop (feval fa x) (feval fb x).

Lemma feval_fold (l : list F) (a : F) (x : X) :
  feval (fold_left op2 l a) x =
  fold_left xop (map (fun f => feval f x) l) (feval a x).
Proof.
  revert a. induction l as [|b l IH]; intros a; simpl; [reflexivity|].
  now rewrite IH, Hev.
Qed.

Lemma merged_all_map (union : bool) (x : X) (l : list (option F)) :
  merged_all union xop (map (option_map (fun f => feval f x)) l) =
  option_map (fun f => feval f x) (merged_all union op2 l).
Proof.
  unfold merged_all. rewrite somes_map, !length_map.
  destruct (somes l) as [|a rest]; [reflexivity|]. cbn [map].
  destruct (union || _); [|reflexivity]. cbn [option_map].
  now rewrite feval_fold.
Qed.

(** The values of the object [nary_object] gives. *)
Lemma nary_values (coll : list (PiecewiseFunction X F)) (union : bool)
  (s : PiecewiseFunction X F) :
  (forall g, match merged_all union op2 (pieces_at coll g) with
             | Some k => exists iv, pcontains iv g = true /\
                                    piece_at s g = Some (key_of k iv)
             | None => piece_at s g = None
             end) ->
  forall x vals,
    Forall2 (fun A a => snd (__call__ A [x] []) = Ok a) coll vals ->
    snd (__call__ s [x] []) = Ok (merged_all union xop vals).
Proof.
  intros Hs x vals Hvals.
  rewrite (@calls_pieces coll x vals Hvals), merged_all_map, call_piece_at.
  f_equal.
  specialize (Hs (x, 0)).
  destruct (merged_all union op2 (pieces_at coll (x, 0))) as [k|].
  - destruct Hs as [iv [Hp ->]]. cbn [option_map].
    now rewrite (key_point _ _ _ Hp).
  - now rewrite Hs.
Qed.

End Values.
End Operation.

Lemma constructed_wf (coll : list (PiecewiseFunction X F)) (v : string) :
  Forall (fun A => exists pieces, pieces_ok v pieces /\ __init__ pieces = Ok A)
         coll ->
  Forall (@wf X _ F _) coll /\
  Forall (fun A => Forall (fun f => fvar f = v) (func_list A)) coll.
Proof.
  intros Hc. split; (eapply Forall_impl; [|exact Hc]); intros A [pieces [Hok E]].
  - exact (init_wf Hok E).
  - exact (init_fvar Hok E).
Qed.

Lemma add_start (fa : F) : py_add (PyInt 0) (PyPoly fa) = PyPoly fa.
Proof. cbn [py_add]. now rewrite fadd_0_l. Qed.

Lemma mul_start (fa : F) : py_mul (PyInt 1) (PyPoly fa) = PyPoly fa.
Proof. cbn [py_mul]. now rewrite fmul_1_l. Qed.

End Collections.
Section SumValues.
Context {X : Type} `{Ord X} {F : Type} `{FunctionService X F}
        `{!FunctionLaws X F}.

Lemma sum_pairs_kept (union : bool) (coll : list (PiecewiseFunction X F))
  (cut : list nat)
  (Q : RealSet X * list Z -> pyval F -> Prop) (out : list (RealSet X * list Z)) :
  (forall y, In y out -> kept union (Z.of_nat (length cut) - 1) y = true ->
     exists func, sum_funcs coll cut (snd y) = Ok func /\ Q y func) ->
  exists rp, sum_pairs union coll cut out = Ok rp /\
    Forall2 (fun y r => fst r = fst y /\ Q y (snd r))
            (filter (kept union (Z.of_nat (length cut) - 1)) out) rp.
Proof.
  induction out as [|[E inds] out IH]; intros Hy.
  - exists []. split; [reflexivity|constructor].
  - destruct IH as [rp [Erp HF]]; [intros y Hin; apply Hy; now right|].
    cbn [sum_pairs filter]. unfold kept at 1. cbn [snd].
    destruct (negb union && (zsum inds <? Z.of_nat (length cut) - 1)) eqn:Ek;
      cbn [negb].
    + exists rp. split; assumption.
    + destruct (Hy (E, inds) (or_introl eq_refl)) as [func [Ef HQ]].
      { unfold kept. cbn [snd]. now rewrite Ek. }
      cbn [snd] in Ef. rewrite Ef, Erp. exists ((E, func) :: rp).
      split; [reflexivity|]. constructor; [|assumption].
      split; [reflexivity|assumption].
Qed.

Lemma realset_cut_length (coll : list (PiecewiseFunction X F)) :
  length (realset_cut coll) = S (length coll).
Proof.
  rewrite realset_cut_prefix. cbn [length].
  now rewrite prefix_sums_length, !length_map.
Qed.

(** The value of a yield at every position of its interval is its value
    at the lower end. *)
Lemma yield_value_same (op : pyval F -> pyval F -> pyval F) (start : pyval F)
  (coll : list (PiecewiseFunction X F)) (E : RealSet X) (inds : list Z)
  (g g' : position X) :
  Forall (@wf X _ F _) coll ->
  In (E, inds)
     (finest_partitions
        (flat_map (fun piecewise => map fst (__iter__ piecewise)) coll)) ->
  gcontains E g = true -> gcontains E g' = true ->
  yield_value op start coll g' = yield_value op start coll g.
Proof.
  intros HW Hin G G'.
  destruct (yields_facts E inds g HW Hin G) as [_ [_ [_ [_ Hsame]]]].
  unfold yield_value. now rewrite (Hsame g' G').
Qed.

(** The pairs [piecewise_sum_general] hands to the constructor. *)
Lemma sum_pairs_object (coll : list (PiecewiseFunction X F)) (union : bool) :
  Forall (@wf X _ F _) coll ->
  exists rp,
    sum_pairs union coll (realset_cut coll)
      (finest_partitions
         (flat_map (fun piecewise => map fst (__iter__ piecewise)) coll)) = Ok rp /\
    Forall2 (fun y r => fst r = fst y /\
               forall g, gcontains (fst y) g = true ->
                         snd r = yield_value py_add (PyInt 0) coll g)
            (filter (kept union (Z.of_nat (length coll)))
               (finest_partitions
                  (flat_map (fun piecewise => map fst (__iter__ piecewise)) coll)))
            rp.
Proof.
  intros HW.
  set (out := finest_partitions
                (flat_map (fun piecewise => map fst (__iter__ piecewise)) coll)).
  assert (En : Z.of_nat (length (realset_cut coll)) - 1 = Z.of_nat (length coll))
    by (rewrite realset_cut_length; lia).
  rewrite <- En.
  apply (sum_pairs_kept union coll (realset_cut coll)
           (fun y func => forall g, gcontains (fst y) g = true ->
                                    func = yield_value py_add (PyInt 0) coll g)).
  intros [E inds] Hin _.
  pose proof (finest_partitions_shape
                (flat_map (fun piecewise => map fst (__iter__ piecewise)) coll))
    as Hshape.
  rewrite Forall_forall in Hshape.
  destruct (Hshape _ Hin) as [iv [EE Hiv]]. simpl in EE. subst E.
  assert (G0 : gcontains [iv] (lower_pos iv) = true)
    by (simpl; now rewrite pcontains_lower).
  destruct (yields_facts [iv] inds (lower_pos iv) HW Hin G0)
    as [Hlen [Hmark _]].
  exists (yield_value py_add (PyInt 0) coll (lower_pos iv)). cbn [fst snd]. split.
  - unfold sum_funcs, enumerate, yield_value.
    rewrite <- (all_pieces_sel (lower_pos iv) HW).
    apply (fold_lookup py_add (sum_func_at coll (realset_cut coll))
             (lower_pos iv) (all_pieces coll)); [exact Hlen|].
    intros i D f E'. split; [exact (Hmark i D f E')|].
    rewrite sum_func_at_spec. cbn [Nat.add].
    rewrite <- (all_pieces_snd HW).
    now rewrite (map_nth_error snd _ _ E').
  - intros g G. symmetry.
    exact (@yield_value_same py_add (PyInt 0) coll [iv] inds (lower_pos iv) g
             HW Hin G0 G).
Qed.

(** X16: [piecewise_sum_general] on a collection of constructed functions in
    one variable: at every point the result has the sum of the values of
    the members defined there, provided [union] is set or all of them
    are defined; elsewhere it has no value. *)
Theorem sum_general_values (coll : list (PiecewiseFunction X F)) (v : string)
  (union : bool) :
  Forall (fun A => exists pieces, pieces_ok v pieces /\ __init__ pieces = Ok A)
         coll ->
  exists s, piecewise_sum_general coll union = Ok s /\
    forall x vals,
      Forall2 (fun A a => snd (__call__ A [x] []) = Ok a) coll vals ->
      snd (__call__ s [x] []) = Ok (merged_all union xadd vals).
Proof.
  intros Hc. destruct (constructed_wf Hc) as [HW Hv].
  destruct (sum_pairs_object union HW) as [rp [Erp HF]].
  destruct (nary_object py_add (PyInt 0) fadd add_start
              (fun _ _ => eq_refl) fvar_add union HW Hv HF)
    as [s [Es [_ Hs]]].
  exists s. split.
  - unfold piecewise_sum_general. cbv zeta. now rewrite Erp.
  - exact (nary_values fadd xadd feval_add union s Hs).
Qed.

End SumValues.
(** ** The value [limits] reports *)

Section LimitsValue.
Context {X : Type} `{Ord X} {F : Type} `{FunctionService X F}
        `{!FunctionLaws X F}.

Lemma closed_boundary_inside (iv : InternalRealInterval X) (x0 : X) :
  interval_ok iv = true -> closed_boundary iv x0 ->
  pcontains iv (x0, 0) = true.
Proof.
  unfold interval_ok. intros Hok Hc. apply pcontains_iff.
  pose proof (germ_after_point x0) as H01.
  destruct Hc as [[El Ec]|[Eu Ec]].
  - assert (E : lower_pos iv = (x0, 0))
      by (unfold lower_pos; now rewrite El, Ec).
    rewrite E in *. split; [apply lt_irrefl|ord].
  - assert (E : upper_pos iv = (x0, 1))
      by (unfold upper_pos; now rewrite Eu, Ec).
    rewrite E in *. split; [|assumption].
    apply (pos_before_germ x0 (eps_ok_lower iv)). ord.
Qed.

Lemma scan_value_event (D : RealSet X) (ev : position X * Z) (x0 : X) :
  In ev (_scan D) -> ev_x ev = x0 -> writes_value ev = true ->
  exists iv, In iv D /\ closed_boundary iv x0.
Proof.
  unfold _scan. rewrite in_flat_map. intros [iv [Hiv Hev]] Ex Hw.
  exists iv. split; [assumption|].
  destruct Hev as [<-|[<-|[]]]; unfold ev_x, writes_value in *; cbn in Ex, Hw.
  - left. split; [assumption|]. now destruct (_lower_closed iv).
  - right. split; [assumption|]. now destruct (_upper_closed iv).
Qed.

Lemma closed_boundary_event (D : RealSet X) (iv : InternalRealInterval X)
  (x0 : X) :
  In iv D -> closed_boundary iv x0 ->
  exists ev, In ev (_scan D) /\ ev_x ev = x0 /\ writes_value ev = true.
Proof.
  intros Hiv [[El Ec]|[Eu Ec]].
  - exists ((_lower iv, if _lower_closed iv then 0 else 1), -1).
    split; [now apply scan_lower|]. split; [exact El|].
    unfold writes_value. cbn. now rewrite Ec.
  - exists ((_upper iv, if _upper_closed iv then 1 else 0), 1).
    split; [now apply scan_upper|]. split; [exact Eu|].
    unfold writes_value. cbn. now rewrite Ec.
Qed.

(** In a well formed object, a point of a component that is an end
    point of a component is a closed end of the one it lies in. *)
Lemma endpoint_inside (A : PiecewiseFunction X F) (j j' : nat)
  (D D' : RealSet X) (iv iv' : InternalRealInterval X) (x0 : X) :
  wf A ->
  nth_error (domain_list A) j = Some D ->
  nth_error (domain_list A) j' = Some D' ->
  In iv D -> In iv' D' ->
  pcontains iv (x0, 0) = true ->
  _lower iv' = x0 \/ _upper iv' = x0 ->
  closed_boundary iv x0.
Proof.
  intros W ED ED' Hiv Hiv' Hp He.
  destruct (wf_component_ok _ _ W ED Hiv) as [_ Hok].
  destruct (wf_component_ok _ _ W ED' Hiv') as [_ Hok'].
  pose proof Hp as Hpp. apply pcontains_pair in Hpp as [Hl Hu].
  destruct Hl as [Hl|[El Hl]].
  2:{ left. split; [assumption|]. destruct (_lower_closed iv); [reflexivity|].
      simpl in Hl. lia. }
  destruct Hu as [Hu|[Eu Hu]].
  2:{ right. split; [now symmetry|]. destruct (_upper_closed iv); [reflexivity|].
      simpl in Hu. lia. }
  exfalso.
  assert (Hin : forall e, pcontains iv (x0, e) = true).
  { intros e. apply pcontains_pair. split; now left. }
  destruct He as [El'|Eu'].
  - assert (E : lower_pos iv' = (x0, snd (lower_pos iv')))
      by (unfold lower_pos; cbn [snd]; now rewrite El').
    pose proof (pcontains_lower iv' Hok') as P'. rewrite E in P'.
    destruct (component_unique _ _ _ _ _ W ED ED' Hiv Hiv' (Hin _) P') as [_ <-].
    rewrite El' in Hl. exact (lt_irrefl _ Hl).
  - assert (Eup : upper_pos iv' = (x0, snd (upper_pos iv')))
      by (unfold upper_pos; cbn [snd]; now rewrite Eu').
    unfold interval_ok in Hok, Hok'.
    assert (Hxu : cmp (upper_pos iv') (upper_pos iv) = Lt).
    { rewrite Eup. unfold upper_pos at 2. apply cmp_pair_lt. now left. }
    assert (Hlx : cmp (lower_pos iv) (upper_pos iv') = Lt).
    { rewrite Eup. unfold lower_pos. apply cmp_pair_lt. now left. }
    assert (Hsame : j = j' /\ iv = iv').
    { destruct (cmp (lower_pos iv') (lower_pos iv)) eqn:C.
      - apply cmp_eq in C.
        apply (component_unique _ _ _ _ (lower_pos iv') W ED ED' Hiv Hiv');
          [|now apply pcontains_lower].
        apply pcontains_iff. rewrite C. split; [apply lt_irrefl|ord].
      - apply (component_unique _ _ _ _ (lower_pos iv) W ED ED' Hiv Hiv');
          [now apply pcontains_lower|].
        apply pcontains_iff. split; ord.
      - apply cmp_gt_lt in C.
        apply (component_unique _ _ _ _ (lower_pos iv') W ED ED' Hiv Hiv');
          [|now apply pcontains_lower].
        apply pcontains_iff. split; ord. }
    destruct Hsame as [_ <-]. rewrite Eu' in Hu. exact (lt_irrefl _ Hu).
Qed.

(** The value slot of the table of a well formed object: at a key of
    the table it holds what a call returns there. *)
Lemma table_value (A : PiecewiseFunction X F) (x0 : X) (e : entry X) :
  wf A -> table_get (snd (_init_end_points A)) x0 = Some e ->
  value_of e = option_map (fun f => feval f x0) (piece_at A (x0, 0)).
Proof.
  intros W ET.
  assert (Hkey : table_get (snd (_init_end_points A)) x0 <> None) by congruence.
  rewrite init_end_points_flat in ET, Hkey.
  assert (Ee : e = entry_at (record_all (all_events A) []) x0)
    by (unfold entry_at; now rewrite ET).
  rewrite Ee, (last_writer value_of writes_value value_step).
  destruct (find _ (rev (all_events A))) as [[f ev]|] eqn:Efind.
  - apply find_some in Efind as [Hin Hw]. apply in_rev in Hin.
    cbn [fst snd] in *. apply andb_prop in Hw as [Hx Hw]. apply eqb_eq in Hx.
    apply all_events_in in Hin as [D [Hin Hev]]. cbn [fst snd] in Hin, Hev.
    destruct (scan_value_event _ _ Hev Hx Hw) as [iv [Hiv Hc]].
    destruct (iter_in _ _ _ Hin) as [j [ED Ef]].
    destruct (wf_component_ok _ _ W ED Hiv) as [_ Hok].
    pose proof (closed_boundary_inside Hok Hc) as Hp.
    rewrite (piece_at_unique j (x0, 0) W ED Ef (gcontains_in _ _ _ Hiv Hp)).
    reflexivity.
  - cbn. destruct (piece_at A (x0, 0)) as [f|] eqn:Ef; [|reflexivity]. exfalso.
    destruct (piece_at_some _ _ Ef) as [j [D [ED [Efj Hg]]]].
    apply gcontains_exists in Hg as [iv [Hiv Hp]].
    apply record_all_key_inv in Hkey as [Hk|[fe [Hin Hx]]]; [now elim Hk|].
    apply all_events_in in Hin as [D' [Hin' Hev]].
    apply scan_points in Hev as [iv' [Hiv' He]].
    destruct (iter_in _ _ _ Hin') as [j' [ED' _]].
    assert (Hc : closed_boundary iv x0).
    { apply (endpoint_inside j j' iv iv' W ED ED' Hiv Hiv' Hp).
      destruct He as [He|He]; [left|right]; congruence. }
    destruct (@closed_boundary_event D iv x0 Hiv Hc) as [ev [Hev' [Ex Hw]]].
    assert (Hfe : In (f, ev) (rev (all_events A))).
    { apply -> in_rev. apply all_events_in. exists D. split; [|exact Hev'].
      cbn [fst]. eapply nth_combine_in; eauto. }
    pose proof (find_none _ _ Efind _ Hfe) as Hn. cbn [snd] in Hn.
    rewrite Hw, (proj2 (eqb_eq _ _) Ex) in Hn. discriminate.
Qed.

(** X17: The first component of [limits] is the value of the function: at
    every point, a boundary or not, [limits] returns in the first place
    what a call returns there. *)
Theorem limits_value (pieces : list (RealSet X * pyval F)) (v : string)
  (p : PiecewiseFunction X F) (x0 : X) (a : option X) :
  pieces_ok v pieces -> __init__ pieces = Ok p ->
  snd (__call__ p [x0] []) = Ok a ->
  exists out l r, limits p x0 = (out, Ok (a, l, r)).
Proof.
  intros Hok E Ea. pose proof (init_wf Hok E) as W.
  rewrite call_piece_at in Ea. injection Ea as <-.
  unfold limits. cbv zeta.
  destruct (table_get (snd (_init_end_points p)) x0) as [[val [l r]]|] eqn:ET.
  - exists [], l, r. now rewrite <- (table_value x0 W ET).
  - destruct (piece_at p (x0, 0)) as [f|] eqn:Ef.
    + destruct (piece_at_some _ _ Ef) as [j [D [ED [Efj Hg]]]].
      apply gcontains_exists in Hg as [iv [Hiv Hp]].
      rewrite (@which_pair_in _ _ _ _ p x0 j D f iv W ED Efj Hiv Hp).
      eexists _, _, _. reflexivity.
    + assert (Hs : gcontains (support p) (x0, 0) = false).
      { destruct (gcontains (support p) (x0, 0)) eqn:Hs; [|reflexivity].
        apply (support_piece (x0, 0) W) in Hs as [f Ef']. congruence. }
      rewrite (which_pair_out _ W Hs). eexists _, _, _. reflexivity.
Qed.

End LimitsValue.
(** ** When the constructor accepts its pieces *)

Section ConstructorAccepts.
Context {X : Type} `{Ord X} {F : Type} `{FunctionService X F}
        `{!FunctionLaws X F}.



End ConstructorAccepts.

(** ** The yields of the partition *)

Section Yields.
Context {X : Type} `{Ord X}.

Lemma zsum_member (l : list Z) (c : Z) :
  Forall (fun a => 0 <= a) l -> In c l -> c <= zsum l.
Proof.
  induction 1 as [|a l Ha Hl IH]; intros Hin; [destruct Hin|].
  assert (Hs : 0 <= zsum l).
  { clear IH Hin. induction Hl as [|b l Hb _ IH]; simpl; lia. }
  cbn [zsum]. destruct Hin as [<-|Hin]; [lia|]. specialize (IH Hin). lia.
Qed.

(** X19: Every yield of [finest_partitions] is one non-empty interval, with a
    vector of one entry per input set, every entry [0] or [1] and not
    all of them [0]. *)
Theorem finest_partitions_yields (Ds : list (RealSet X)) :
  Forall (fun D => normalized D = true) Ds ->
  Forall (fun y => exists iv, fst y = [iv] /\ interval_ok iv = true /\
                   length (snd y) = length Ds /\
                   Forall (fun c => c = 0 \/ c = 1) (snd y) /\
                   0 < zsum (snd y))
         (finest_partitions Ds).
Proof.
  intros HN. destruct (finest_partitions_positions HN) as [P1 [_ P3]].
  pose proof (finest_partitions_shape Ds) as Hshape.
  rewrite Forall_forall in *. intros [E inds] Hin.
  destruct (Hshape _ Hin) as [iv [Ey Hok]]. simpl in Ey. subst E.
  exists iv. split; [reflexivity|]. split; [assumption|]. cbn [snd].
  assert (G : gcontains [iv] (lower_pos iv) = true)
    by (simpl; now rewrite pcontains_lower).
  destruct (P3 _ _ _ Hin G) as [Hlen Hnth].
  assert (H01 : forall c, In c inds -> c = 0 \/ c = 1).
  { intros c Hc. destruct (In_nth _ _ 0 Hc) as [i [Hi <-]].
    rewrite Hlen in Hi. rewrite (Hnth i Hi).
    rewrite gcoverage_normalized by (apply HN, nth_In; assumption).
    destruct (gcontains (nth i Ds []) (lower_pos iv)); auto. }
  split; [assumption|]. split; [apply Forall_forall; exact H01|].
  assert (HD : exists D, In D Ds /\ gcontains D (lower_pos iv) = true).
  { apply P1. exists ([iv], inds). auto. }
  destruct HD as [D [HD Hg]]. destruct (In_nth _ _ [] HD) as [i [Hi <-]].
  assert (H1 : nth i inds 0 = 1).
  { rewrite (Hnth i Hi), gcoverage_normalized by (apply HN, nth_In; assumption).
    destruct (gcontains (nth i Ds []) (lower_pos iv)) eqn:Eg; [reflexivity|].
    pose proof (eq_trans (eq_sym Hg) Eg). discriminate. }
  assert (Hle : nth i inds 0 <= zsum inds).
  { apply zsum_member.
    - apply Forall_forall. intros c Hc. destruct (H01 c Hc); lia.
    - apply nth_In. unfold RealSet in *. lia. }
  lia.
Qed.

End Yields.
(** ** The collections of [piecewise_polynomial.py] *)

Section CollectionLoop.
Context {X : Type} `{Ord X} {F : Type} `{FunctionService X F}.

Variables (op : pyval F -> pyval F -> pyval F) (start : pyval F)
          (union : option bool) (coll : list (PiecewiseFunction X F))
          (info : list (nat * nat)).

Lemma collection_yields_app (l1 l2 : list (RealSet X * list Z)) :
  forall rp0,
    collection_yields op start union coll info rp0 (l1 ++ l2) =
    match collection_yields op start union coll info rp0 l1 with
    | Raise e => Raise e
    | Ok rp1 => collection_yields op start union coll info rp1 l2
    end.
Proof.
  induction l1 as [|[E inds] l1 IH]; intros rp0; [reflexivity|].
  cbn [app collection_yields].
  destruct (collection_yield op start union coll info rp0 E inds); [apply IH|reflexivity].
Qed.

Lemma collection_step_yields (st : sweep_state X)
  (rp0 : list (RealSet X * pyval F)) (ev : event X) :
  collection_step op start union coll info (Ok (st, rp0)) ev =
  match collection_yields op start union coll info rp0 (fst (sweep_step st ev)) with
  | Raise e => Raise e
  | Ok rp => Ok (snd (sweep_step st ev), rp)
  end.
Proof.
  destruct ev as [[[x eps] d] sid]. unfold collection_step, sweep_step.
  destruct (prev_event st) as [[[x_ eps_] d_]|]; [|reflexivity].
  destruct (gtb (x, eps, d) (x_, eps_, d_)); [|reflexivity].
  cbn [fst snd collection_yields].
  destruct (collection_yield op start union coll info rp0 _ (indicator st));
    reflexivity.
Qed.

Lemma collection_fold_raise (scan : list (event X)) (e : error) :
  fold_left (collection_step op start union coll info) scan (Raise e) = Raise e.
Proof. induction scan as [|ev scan IH]; [reflexivity|exact IH]. Qed.

(** The loop of the two methods is the loop of [finest_partitions] with
    the yields processed as they come. *)
Lemma collection_loop (scan : list (event X)) :
  forall st rp0,
    fold_left (collection_step op start union coll info) scan (Ok (st, rp0)) =
    match collection_yields op start union coll info rp0 (sweep st scan) with
    | Raise e => Raise e
    | Ok rp => Ok (run st scan, rp)
    end.
Proof.
  induction scan as [|ev scan IH]; intros st rp0; [reflexivity|].
  cbn [fold_left]. rewrite collection_step_yields, sweep_cons,
    collection_yields_app, run_cons.
  destruct (collection_yields op start union coll info rp0 (fst (sweep_step st ev)))
    as [rp1|e].
  - apply IH.
  - apply collection_fold_raise.
Qed.

End CollectionLoop.

Section CollectionInfo.
Context {X : Type} `{Ord X} {F : Type} `{FunctionService X F}.

Lemma enumerate_from_nth {T} (l : list T) (i : nat) :
  forall k, nth_error (enumerate_from k l) i =
            option_map (fun a => ((k + i)%nat, a)) (nth_error l i).
Proof.
  revert i. induction l as [|a l IH]; intros i k.
  - now destruct i.
  - destruct i as [|i]; cbn [enumerate_from nth_error option_map].
    + now rewrite Nat.add_0_r.
    + rewrite IH. now rewrite Nat.add_succ_r.
Qed.

Lemma info_nth (coll : list (PiecewiseFunction X F)) :
  Forall (fun A => length (domain_list A) = length (func_list A)) coll ->
  forall k i,
    match nth_error
            (flat_map (fun '(i, piecewise) =>
                         map (fun '(j, _) => (i, j))
                             (enumerate (__iter__ piecewise)))
                      (enumerate_from k coll)) i with
    | None => nth_error (concat (map (@func_list X F) coll)) i = None
    | Some (ri, fi) =>
        (k <= ri)%nat /\
        exists A, nth_error coll (ri - k) = Some A /\
                  nth_error (func_list A) fi =
                  nth_error (concat (map (@func_list X F) coll)) i /\
                  nth_error (func_list A) fi <> None
    end.
Proof.
  induction 1 as [|A coll HA _ IH]; intros k i.
  - cbn. now destruct i.
  - cbn [enumerate_from flat_map map concat].
    assert (Hl : length (map (fun '(j, _) => (k, j))
                           (enumerate (__iter__ A))) = length (func_list A)).
    { rewrite length_map. unfold enumerate. rewrite enumerate_from_length.
      unfold __iter__. rewrite length_combine, HA. apply Nat.min_id. }
    destruct (Nat.lt_ge_cases i (length (func_list A))) as [Hi|Hi].
    + rewrite nth_error_app1 by (rewrite Hl; exact Hi).
      rewrite nth_error_map. unfold enumerate. rewrite enumerate_from_nth.
      destruct (nth_error (__iter__ A) i) as [[D f]|] eqn:Ei.
      * cbn. split; [lia|]. exists A. rewrite Nat.sub_diag. split; [reflexivity|].
        rewrite nth_error_app1 by exact Hi. split; [reflexivity|].
        apply nth_error_Some. exact Hi.
      * exfalso. apply nth_error_None in Ei. unfold __iter__ in Ei.
        rewrite length_combine, HA, Nat.min_id in Ei. lia.
    + rewrite nth_error_app2 by (rewrite Hl; exact Hi). rewrite Hl.
      rewrite (nth_error_app2 (func_list A)) by exact Hi.
      specialize (IH (S k) (i - length (func_list A))%nat).
      destruct (nth_error _ (i - length (func_list A))) as [[ri fi]|];
        [|exact IH].
      destruct IH as [Hk [B [EB HB]]]. split; [lia|]. exists B.
      split; [|exact HB].
      replace (ri - k)%nat with (S (ri - S k)) by lia. exact EB.
Qed.

(** The table [realset_info] leads to the [i]-th function of the
    collection, the lists of functions laid end to end. *)
Lemma info_func_at_spec (coll : list (PiecewiseFunction X F)) (i : nat) :
  Forall (fun A => length (domain_list A) = length (func_list A)) coll ->
  info_func_at coll (realset_info coll) i =
  match nth_error (concat (map (@func_list X F) coll)) i with
  | Some f => Ok f
  | None => Raise IndexError
  end.
Proof.
  intros HL. pose proof (info_nth HL 0 i) as Hn.
  unfold info_func_at, realset_info, enumerate.
  destruct (nth_error _ i) as [[ri fi]|].
  - destruct Hn as [_ [A [EA [Ef Hne]]]]. rewrite Nat.sub_0_r in EA.
    rewrite EA, <- Ef. destruct (nth_error (func_list A) fi); [reflexivity|].
    now elim Hne.
  - now rewrite Hn.
Qed.

End CollectionInfo.
Section CollectionYields.
Context {X : Type} `{Ord X} {F : Type} `{FunctionService X F}.

Variables (op : pyval F -> pyval F -> pyval F) (start : pyval F)
          (coll : list (PiecewiseFunction X F)) (info : list (nat * nat)).

(** The two methods, by the yields of the partition of the domains. *)
Lemma collection_combine_yields (union : option bool) :
  collection_combine op start coll union =
  match collection_yields op start union coll (realset_info coll) []
          (finest_partitions
             (flat_map (fun piecewise => map fst (__iter__ piecewise)) coll)) with
  | Raise e => Raise e
  | Ok rp => __init__ rp
  end.
Proof.
  unfold collection_combine. cbv zeta. rewrite collection_loop.
  unfold finest_partitions. cbv zeta.
  destruct (collection_yields op start union coll (realset_info coll) [] _);
    reflexivity.
Qed.

(** With [union] set to [True] or [False] the loop keeps the yields
    [kept] keeps. *)
Lemma collection_yields_kept (b : bool)
  (Q : RealSet X * list Z -> pyval F -> Prop) (out : list (RealSet X * list Z)) :
  (forall y, In y out -> kept b (Z.of_nat (length coll)) y = true ->
     exists func, info_funcs op start coll info (snd y) = Ok func /\ Q y func) ->
  forall rp0, exists rp,
    collection_yields op start (Some b) coll info rp0 out = Ok (rp0 ++ rp) /\
    Forall2 (fun y r => fst r = fst y /\ Q y (snd r))
            (filter (kept b (Z.of_nat (length coll))) out) rp.
Proof.
  induction out as [|[E inds] out IH]; intros Hy rp0.
  - exists []. rewrite app_nil_r. split; [reflexivity|constructor].
  - assert (Hy' : forall y, In y out ->
              kept b (Z.of_nat (length coll)) y = true ->
              exists func, info_funcs op start coll info (snd y) = Ok func /\
                           Q y func)
      by (intros y Hin; apply Hy; now right).
    cbn [collection_yields filter]. unfold collection_yield. cbv zeta.
    destruct (kept b (Z.of_nat (length coll)) (E, inds)) eqn:Ek.
    + destruct (Hy (E, inds) (or_introl eq_refl) Ek) as [func [Ef HQ]].
      cbn [snd] in Ef. rewrite Ef.
      destruct (IH Hy' (rp0 ++ [(E, func)])) as [rp [Erp HF]].
      exists ((E, func) :: rp). split.
      * unfold kept in Ek. cbn [snd] in Ek.
        destruct b, (zsum inds <? Z.of_nat (length coll)); try discriminate;
          rewrite Erp, <- app_assoc; reflexivity.
      * constructor; [split; [reflexivity|exact HQ]|exact HF].
    + destruct (IH Hy' rp0) as [rp [Erp HF]]. exists rp. split; [|exact HF].
      unfold kept in Ek. cbn [snd] in Ek.
      destruct b, (zsum inds <? Z.of_nat (length coll)); try discriminate.
      exact Erp.
Qed.

(** Without [union], while every yield is covered by all members, the
    loop is that of [union=True]. *)
Lemma collection_yields_strict (out : list (RealSet X * list Z)) :
  (forall y, In y out -> (zsum (snd y) <? Z.of_nat (length coll)) = false) ->
  forall rp0,
    collection_yields op start None coll info rp0 out =
    collection_yields op start (Some true) coll info rp0 out.
Proof.
  induction out as [|[E inds] out IH]; intros Hy rp0; [reflexivity|].
  cbn [collection_yields]. unfold collection_yield. cbv zeta.
  pose proof (Hy (E, inds) (or_introl eq_refl)) as Ez. cbn [snd] in Ez.
  rewrite Ez.
  destruct (info_funcs op start coll info inds) as [func|e]; [|reflexivity].
  apply IH. intros y Hin. apply Hy. now right.
Qed.

(** Without [union], a yield some member does not cover stops the loop. *)
Lemma collection_yields_mismatch (out : list (RealSet X * list Z)) :
  (forall y, In y out ->
     exists func, info_funcs op start coll info (snd y) = Ok func) ->
  (exists y, In y out /\ (zsum (snd y) <? Z.of_nat (length coll)) = true) ->
  forall rp0,
    collection_yields op start None coll info rp0 out = Raise DomainMismatch.
Proof.
  induction out as [|[E inds] out IH]; intros Hf [y [Hin Hy]] rp0;
    [destruct Hin|].
  cbn [collection_yields]. unfold collection_yield. cbv zeta.
  destruct (zsum inds <? Z.of_nat (length coll)) eqn:Ez; [reflexivity|].
  destruct (Hf (E, inds) (or_introl eq_refl)) as [func Ef].
  cbn [snd] in Ef. rewrite Ef. apply IH.
  - intros y' Hin'. apply Hf. now right.
  - exists y. split; [|exact Hy]. destruct Hin as [<-|Hin]; [|exact Hin].
    cbn [snd] in Hy. congruence.
Qed.

End CollectionYields.

Section CollectionValues.
Context {X : Type} `{Ord X} {F : Type} `{FunctionService X F}
        `{!FunctionLaws X F}.

Lemma somes_full {T} (l : list (option T)) :
  length (somes l) = length l <-> Forall (fun o => o <> None) l.
Proof.
  unfold somes. induction l as [|[a|] l IH]; simpl.
  - split; constructor.
  - split.
    + intros E. constructor; [discriminate|]. apply IH. lia.
    + intros HF. inversion HF; subst. f_equal. now apply IH.
  - split.
    + intros E. pose proof (somes_length l) as L. unfold somes in L. lia.
    + intros HF. inversion HF; subst. congruence.
Qed.

Lemma somes_in {T} (l : list (option T)) (a : T) :
  In a (somes l) <-> In (Some a) l.
Proof.
  unfold somes. rewrite in_flat_map. split.
  - intros [[b|] [Hin Hb]]; [|destruct Hb].
    destruct Hb as [<-|[]]. exact Hin.
  - intros Hin. exists (Some a). split; [exact Hin|now left].
Qed.

(** The function the inner loop gives a yield. *)
Lemma info_funcs_value (op : pyval F -> pyval F -> pyval F) (start : pyval F)
  (coll : list (PiecewiseFunction X F)) (E : RealSet X) (inds : list Z) :
  Forall (@wf X _ F _) coll ->
  In (E, inds)
     (finest_partitions
        (flat_map (fun piecewise => map fst (__iter__ piecewise)) coll)) ->
  exists func,
    info_funcs op start coll (realset_info coll) inds = Ok func /\
    forall g, gcontains E g = true -> func = yield_value op start coll g.
Proof.
  intros HW Hin.
  pose proof (finest_partitions_shape
                (flat_map (fun piecewise => map fst (__iter__ piecewise)) coll))
    as Hshape.
  rewrite Forall_forall in Hshape.
  destruct (Hshape _ Hin) as [iv [EE Hiv]]. simpl in EE. subst E.
  assert (G0 : gcontains [iv] (lower_pos iv) = true)
    by (simpl; now rewrite pcontains_lower).
  destruct (yields_facts [iv] inds (lower_pos iv) HW Hin G0)
    as [Hlen [Hmark _]].
  exists (yield_value op start coll (lower_pos iv)). split.
  - unfold info_funcs, enumerate, yield_value.
    rewrite <- (all_pieces_sel (lower_pos iv) HW).
    apply (fold_lookup op (info_func_at coll (realset_info coll))
             (lower_pos iv) (all_pieces coll)); [exact Hlen|].
    intros i D f E'. split; [exact (Hmark i D f E')|].
    rewrite info_func_at_spec
      by (eapply Forall_impl; [|exact HW]; intros A W; exact (wf_len W)).
    cbn [Nat.add]. rewrite <- (all_pieces_snd HW).
    now rewrite (map_nth_error snd _ _ E').
  - intros g G. symmetry.
    eapply yield_value_same; [exact HW|exact Hin|exact G0|exact G].
Qed.

(** Where the members have the same support, every yield is covered by
    all of them. *)
Lemma same_support_full (coll : list (PiecewiseFunction X F))
  (y : RealSet X * list Z) :
  Forall (@wf X _ F _) coll ->
  (forall A B, In A coll -> In B coll -> support A = support B) ->
  In y (finest_partitions
          (flat_map (fun piecewise => map fst (__iter__ piecewise)) coll)) ->
  (zsum (snd y) <? Z.of_nat (length coll)) = false.
Proof.
  intros HW Hsame Hin. destruct y as [E inds]. cbn [snd].
  pose proof (finest_partitions_shape
                (flat_map (fun piecewise => map fst (__iter__ piecewise)) coll))
    as Hshape.
  rewrite Forall_forall in Hshape.
  destruct (Hshape _ Hin) as [iv [EE Hiv]]. simpl in EE. subst E.
  assert (G0 : gcontains [iv] (lower_pos iv) = true)
    by (simpl; now rewrite pcontains_lower).
  destruct (yields_facts [iv] inds (lower_pos iv) HW Hin G0)
    as [_ [_ [Hsum [Hne _]]]].
  set (g := lower_pos iv) in *.
  assert (Hfull : length (somes (pieces_at coll g)) = length (pieces_at coll g)).
  { apply somes_full. apply Forall_forall. intros o Ho.
    destruct (somes (pieces_at coll g)) as [|a rest] eqn:Es; [now elim Hne|].
    assert (Ha : In (Some a) (pieces_at coll g))
      by (apply somes_in; rewrite Es; now left).
    unfold pieces_at in Ha, Ho.
    apply in_map_iff in Ha as [A0 [EA0 HA0]].
    apply in_map_iff in Ho as [A [<- HA]].
    rewrite Forall_forall in HW.
    assert (G : gcontains (support A) g = true).
    { rewrite (Hsame A A0 HA HA0). apply (support_piece g (HW A0 HA0)). eauto. }
    apply (support_piece g (HW A HA)) in G as [f ->]. discriminate. }
  unfold pieces_at in Hfull at 2. rewrite length_map in Hfull.
  apply Z.ltb_ge. rewrite Hsum, Hfull. lia.
Qed.

(** Where every yield is covered by all members, they have the same
    support. *)
Lemma full_same_support (coll : list (PiecewiseFunction X F)) :
  Forall (@wf X _ F _) coll ->
  (forall y,
     In y (finest_partitions
             (flat_map (fun piecewise => map fst (__iter__ piecewise)) coll)) ->
     (zsum (snd y) <? Z.of_nat (length coll)) = false) ->
  forall A B, In A coll -> In B coll -> support A = support B.
Proof.
  intros HW Hfull.
  assert (Hdir : forall A B g, In A coll -> In B coll ->
            gcontains (support A) g = true -> gcontains (support B) g = true).
  { intros A B g HA HB G.
    pose proof HW as HW'. rewrite Forall_forall in HW'.
    apply (support_piece g (HW' A HA)) in G as [f Ef].
    destruct (piece_at_some _ _ Ef) as [j [D [ED [_ Hg]]]].
    assert (HD : In D (flat_map (fun piecewise => map fst (__iter__ piecewise))
                         coll)).
    { apply in_flat_map. exists A. split; [exact HA|].
      unfold __iter__. rewrite map_fst_combine by exact (wf_len (HW' A HA)).
      eapply nth_error_In; exact ED. }
    assert (HN : Forall (fun D => normalized D = true)
                   (flat_map (fun piecewise => map fst (__iter__ piecewise))
                      coll))
      by (rewrite <- all_pieces_fst; now apply all_pieces_normalized).
    destruct (finest_partitions_positions HN) as [P1 _].
    destruct (proj2 (P1 g)) as [[E inds] [Hin G]]; [exists D; auto|].
    cbn [fst] in G.
    destruct (yields_facts E inds g HW Hin G) as [_ [_ [Hsum _]]].
    pose proof (Hfull _ Hin) as Hz. cbn [snd] in Hz. apply Z.ltb_ge in Hz.
    pose proof (somes_length (pieces_at coll g)) as Hle.
    assert (Hlen : length (pieces_at coll g) = length coll)
      by (unfold pieces_at; apply length_map).
    assert (Hall : Forall (fun o => o <> None) (pieces_at coll g))
      by (apply somes_full; lia).
    rewrite Forall_forall in Hall.
    apply (support_piece g (HW' B HB)).
    destruct (piece_at B g) as [fb|] eqn:Eb; [eauto|].
    exfalso. apply (Hall None); [|reflexivity].
    unfold pieces_at. apply in_map_iff. exists B. auto. }
  intros A B HA HB. rewrite Forall_forall in HW.
  apply normalized_canonical;
    [exact (support_normalized (HW A HA))|exact (support_normalized (HW B HB))|].
  intros g. apply bool_eq_iff. split; apply Hdir; assumption.
Qed.

Section Operation.
Variables (op : pyval F -> pyval F -> pyval F) (start : pyval F)
          (op2 : F -> F -> F) (xop : X -> X -> X).
Hypothesis Hstart : forall fa, op start (PyPoly fa) = PyPoly fa.
Hypothesis Hop : forall fa fb, op (PyPoly fa) (PyPoly fb) = PyPoly (op2 fa fb).
Hypothesis Hopv : forall fa fb, fvar (op2 fa fb) = fvar fa.
Hypothesis Hev : forall fa fb x,
  feval (op2 fa fb) x = xop (feval fa x) (feval fb x).

(** The result of either method with [union] set to [True] or [False]. *)
Lemma collection_values (coll : list (PiecewiseFunction X F)) (v : string)
  (union : bool) :
  Forall (fun A => exists pieces, pieces_ok v pieces /\ __init__ pieces = Ok A)
         coll ->
  exists s, collection_combine op start coll (Some union) = Ok s /\
    forall x vals,
      Forall2 (fun A a => snd (__call__ A [x] []) = Ok a) coll vals ->
      snd (__call__ s [x] []) = Ok (merged_all union xop vals).
Proof.
  intros Hc. destruct (constructed_wf Hc) as [HW Hv].
  destruct (collection_yields_kept op start coll (realset_info coll) union
              (fun y func => forall g, gcontains (fst y) g = true ->
                                       func = yield_value op start coll g)
              (finest_partitions
                 (flat_map (fun piecewise => map fst (__iter__ piecewise)) coll)))
    with (rp0 := @nil (RealSet X * pyval F)) as [rp [Erp HF]].
  { intros [E inds] Hin _. exact (@info_funcs_value op start coll E inds HW Hin). }
  cbn [app] in Erp.
  destruct (nary_object op start op2 Hstart Hop Hopv union HW Hv HF)
    as [s [Es [_ Hs]]].
  exists s. split.
  - rewrite collection_combine_yields, Erp. exact Es.
  - exact (nary_values op2 xop Hev union s Hs).
Qed.

(** Without [union]: the result of [union=True] where the members have
    the same support, the error otherwise. *)
Lemma collection_strict (coll : list (PiecewiseFunction X F)) :
  Forall (@wf X _ F _) coll ->
  ((forall A B, In A coll -> In B coll -> support A = support B) ->
   collection_combine op start coll None =
   collection_combine op start coll (Some true)) /\
  (~ (forall A B, In A coll -> In B coll -> support A = support B) ->
   collection_combine op start coll None = Raise DomainMismatch).
Proof.
  intros HW. split.
  - intros Hsame. rewrite !collection_combine_yields.
    rewrite collection_yields_strict; [reflexivity|].
    intros y Hin. exact (same_support_full y HW Hsame Hin).
  - intros Hdiff. rewrite collection_combine_yields.
    set (out := finest_partitions
                  (flat_map (fun piecewise => map fst (__iter__ piecewise)) coll)).
    destruct (existsb (fun y => zsum (snd y) <? Z.of_nat (length coll)) out)
      eqn:Ex.
    + apply existsb_exists in Ex.
      rewrite collection_yields_mismatch; [reflexivity| |exact Ex].
      intros [E inds] Hin.
      destruct (@info_funcs_value op start coll E inds HW Hin) as [func [Ef _]].
      exists func. exact Ef.
    + exfalso. apply Hdiff. apply (full_same_support HW).
      intros y Hin. fold out in Hin.
      destruct (zsum (snd y) <? Z.of_nat (length coll)) eqn:Ey; [|reflexivity].
      assert (Ex' : existsb (fun y => zsum (snd y) <? Z.of_nat (length coll))
                      out = true)
        by (apply existsb_exists; exists y; auto).
      congruence.
Qed.

End Operation.

(** X20: [PiecewisePolynomial_add] with [union] set to [True] or [False], on
    a collection of constructed functions in one variable: at every
    point the result has the sum of the values of the members defined
    there, provided [union] is [True] or all of them are defined;
    elsewhere it has no value. *)
Theorem polynomial_add_values (coll : list (PiecewiseFunction X F)) (v : string)
  (union : bool) :
  Forall (fun A => exists pieces, pieces_ok v pieces /\ __init__ pieces = Ok A)
         coll ->
  exists s, PiecewisePolynomial_add coll (Some union) = Ok s /\
    forall x vals,
      Forall2 (fun A a => snd (__call__ A [x] []) = Ok a) coll vals ->
      snd (__call__ s [x] []) = Ok (merged_all union xadd vals).
Proof.
  intros Hc.
  exact (collection_values py_add (PyInt 0) fadd xadd add_start
           (fun _ _ => eq_refl) fvar_add feval_add union Hc).
Qed.

(** X21: [PiecewisePolynomial_mul] with [union] set to [True] or [False], on
    a collection of constructed functions in one variable: at every
    point the result has the product of the values of the members
    defined there, provided [union] is [True] or all of them are
    defined; elsewhere it has no value. *)
Theorem polynomial_mul_values (coll : list (PiecewiseFunction X F)) (v : string)
  (union : bool) :
  Forall (fun A => exists pieces, pieces_ok v pieces /\ __init__ pieces = Ok A)
         coll ->
  exists s, PiecewisePolynomial_mul coll (Some union) = Ok s /\
    forall x vals,
      Forall2 (fun A a => snd (__call__ A [x] []) = Ok a) coll vals ->
      snd (__call__ s [x] []) = Ok (merged_all union xmul vals).
Proof.
  intros Hc.
  exact (collection_values py_mul (PyInt 1) fmul xmul mul_start
           (fun _ _ => eq_refl) fvar_mul feval_mul union Hc).
Qed.

(** X22: [PiecewisePolynomial_add] and [PiecewisePolynomial_mul] without
    [union], on constructed functions: where all members have the same
    support they return what they return with [union=True]; where two
    members differ in support they raise the error of inconsistent
    domains. *)
Theorem polynomial_strict (coll : list (PiecewiseFunction X F)) (v : string) :
  Forall (fun A => exists pieces, pieces_ok v pieces /\ __init__ pieces = Ok A)
         coll ->
  ((forall A B, In A coll -> In B coll -> support A = support B) ->
   PiecewisePolynomial_add coll None = PiecewisePolynomial_add coll (Some true) /\
   PiecewisePolynomial_mul coll None = PiecewisePolynomial_mul coll (Some true)) /\
  (~ (forall A B, In A coll -> In B coll -> support A = support B) ->
   PiecewisePolynomial_add coll None = Raise DomainMismatch /\
   PiecewisePolynomial_mul coll None = Raise DomainMismatch).
Proof.
  intros Hc. destruct (constructed_wf Hc) as [HW _].
  destruct (collection_strict py_add (PyInt 0) HW) as [A1 A2].
  destruct (collection_strict py_mul (PyInt 1) HW) as [M1 M2].
  split; intros Hs; split; auto.
Qed.

End CollectionValues.

Section CollectionRefines.
Context {X : Type} `{Ord X} {F : Type} `{FunctionService X F}.

(** X23: [PiecewisePolynomial_add] with [union] set to [True] or [False] is
    [piecewise_sum_general] of [piecewise.py]: the same result, or the
    same error. *)
Theorem polynomial_add_refines (coll : list (PiecewiseFunction X F))
  (union : bool) :
  Forall (fun A => length (domain_list A) = length (func_list A)) coll ->
  PiecewisePolynomial_add coll (Some union) = piecewise_sum_general coll union.
Proof.
  intros HL. unfold PiecewisePolynomial_add, piecewise_sum_general. cbv zeta.
  rewrite collection_combine_yields.
  assert (Hfuncs : forall inds,
            info_funcs py_add (PyInt 0) coll (realset_info coll) inds =
            sum_funcs coll (realset_cut coll) inds).
  { intros inds. unfold info_funcs, sum_funcs.
    apply fold_left_pointwise. intros [a|e] [i ind]; [|reflexivity].
    now rewrite (info_func_at_spec i HL), sum_func_at_spec. }
  assert (En : Z.of_nat (length (realset_cut coll)) - 1 =
               Z.of_nat (length coll)).
  { rewrite realset_cut_prefix. cbn [length].
    rewrite prefix_sums_length, !length_map. lia. }
  assert (Hpairs : forall out rp0,
            collection_yields py_add (PyInt 0) (Some union) coll
              (realset_info coll) rp0 out =
            match sum_pairs union coll (realset_cut coll) out with
            | Raise e => Raise e
            | Ok rp => Ok (rp0 ++ rp)
            end).
  { induction out as [|[E inds] out IH]; intros rp0.
    - cbn. now rewrite app_nil_r.
    - cbn [collection_yields sum_pairs]. unfold collection_yield. cbv zeta.
      rewrite En, Hfuncs.
      destruct union, (zsum inds <? Z.of_nat (length coll)); cbn [negb andb];
        try (destruct (sum_funcs coll (realset_cut coll) inds) as [func|e];
             [|reflexivity]);
        rewrite IH;
        destruct (sum_pairs _ coll (realset_cut coll) out) as [rp|e];
        try reflexivity; now rewrite <- app_assoc. }
  rewrite Hpairs.
  destruct (sum_pairs union coll (realset_cut coll) _); reflexivity.
Qed.

End CollectionRefines.
(** ** The properties at concrete functions *)

Lemma example_pieces_ok : pieces_ok t example_pieces.
Proof.
  intros D func [E|[E|[]]]; injection E as <- <-;
    (split; [reflexivity | eexists; split; reflexivity]).
Qed.

Lemma example_q_pieces_ok : pieces_ok t example_q_pieces.
Proof.
  intros D func [E|[E|[]]]; injection E as <- <-;
    (split; [reflexivity | eexists; split; reflexivity]).
Qed.

Lemma jump_pieces_ok : pieces_ok t jump_pieces.
Proof.
  intros D func [E|[E|[]]]; injection E as <- <-;
    (split; [reflexivity | eexists; split; reflexivity]).
Qed.

Lemma wide_pieces_ok : pieces_ok t wide_pieces.
Proof.
  intros D func [E|[]]; injection E as <- <-;
    (split; [reflexivity | eexists; split; reflexivity]).
Qed.

Lemma constructor_round_trip_witness :
  pieces_ok t example_pieces /\
  Forall (fun piece => normalized (fst piece) = true) example_pieces /\
  are_pairwise_disjoint (map fst example_pieces) = true /\
  exists p, __init__ example_pieces = Ok p /\
            __call__ p [4] [] = ([], Ok (Some (feval (poly t [1; -1]) 4))).
Proof.
  assert (H1 : pieces_ok t example_pieces) by exact example_pieces_ok.
  assert (H2 : Forall (fun piece => normalized (fst piece) = true) example_pieces)
    by (repeat constructor).
  assert (H3 : are_pairwise_disjoint (map fst example_pieces) = true)
    by reflexivity.
  repeat (split; [assumption|]).
  destruct (constructor_round_trip H1 H2 H3) as [p [E [Hv _]]].
  exists p. split; [exact E|].
  apply (Hv [closed 0 1; closed 4 5]); [left; reflexivity | reflexivity].
Defined.

Lemma constructor_invariants_witness :
  pieces_ok t example_pieces /\ __init__ example_pieces = Ok example_p /\
  length (domain_list example_p) = __len__ example_p /\
  NoDup (func_list example_p).
Proof.
  assert (H1 : pieces_ok t example_pieces) by exact example_pieces_ok.
  assert (H2 : __init__ example_pieces = Ok example_p) by reflexivity.
  repeat (split; [assumption|]).
  pose proof (constructor_invariants H1 H2) as [I1 [I2 _]].
  split; assumption.
Defined.

Lemma call_defined_on_support_witness :
  pieces_ok t example_pieces /\ __init__ example_pieces = Ok example_p /\
  contains (support example_p) 4 = true /\
  exists y, __call__ example_p [4] [] = ([], Ok (Some y)).
Proof.
  assert (H1 : pieces_ok t example_pieces) by exact example_pieces_ok.
  assert (H2 : __init__ example_pieces = Ok example_p) by reflexivity.
  assert (H3 : contains (support example_p) 4 = true) by reflexivity.
  repeat (split; [assumption|]).
  exact (proj1 (call_defined_on_support 4 H1 H2) H3).
Defined.

Lemma neg_values_witness :
  pieces_ok t example_pieces /\ __init__ example_pieces = Ok example_p /\
  exists n, __neg__ example_p = Ok n /\ support n = support example_p /\
            __call__ n [4] [] = ([], Ok (Some (xneg (-3)))).
Proof.
  assert (H1 : pieces_ok t example_pieces) by exact example_pieces_ok.
  assert (H2 : __init__ example_pieces = Ok example_p) by reflexivity.
  repeat (split; [assumption|]).
  destruct (neg_values H1 H2) as [n [En [Es [_ Hv]]]].
  exists n. repeat (split; [assumption|]).
  apply Hv. reflexivity.
Defined.

Lemma pow_values_witness :
  pieces_ok t example_pieces /\ __init__ example_pieces = Ok example_p /\
  exists r, __pow__ example_p 3 = Ok r /\ support r = support example_p /\
            __call__ r [4] [] = ([], Ok (Some (xpow (-3) 3))).
Proof.
  assert (H1 : pieces_ok t example_pieces) by exact example_pieces_ok.
  assert (H2 : __init__ example_pieces = Ok example_p) by reflexivity.
  repeat (split; [assumption|]).
  destruct (pow_values 3 H1 H2) as [r [Er [Es [_ Hv]]]].
  exists r. repeat (split; [assumption|]).
  apply Hv. reflexivity.
Defined.

Lemma sub_values_witness :
  pieces_ok t example_pieces /\ pieces_ok t example_q_pieces /\
  __init__ example_pieces = Ok example_p /\
  __init__ example_q_pieces = Ok example_q /\
  var example_p = var example_q /\ support example_p = support example_q /\
  exists d, __sub__ example_p (OPiecewise example_q) = ([], Ok (Some d)) /\
            __call__ d [4] [] = ([], Ok (Some (xadd (-3) (xneg 16)))).
Proof.
  assert (H1 : pieces_ok t example_pieces) by exact example_pieces_ok.
  assert (H2 : pieces_ok t example_q_pieces) by exact example_q_pieces_ok.
  assert (H3 : __init__ example_pieces = Ok example_p) by reflexivity.
  assert (H4 : __init__ example_q_pieces = Ok example_q) by reflexivity.
  assert (H5 : var example_p = var example_q) by reflexivity.
  assert (H6 : support example_p = support example_q) by reflexivity.
  repeat (split; [assumption|]).
  destruct (proj2 (proj2 (sub_values H1 H2 H3 H4)) H5 H6)
    as [d [Ed [_ [_ Hv]]]].
  exists d. split; [exact Ed|]. apply Hv; reflexivity.
Defined.

Lemma eq_decides_witness :
  pieces_ok t example_pieces /\ pieces_ok t example_q_pieces /\
  __init__ example_pieces = Ok example_p /\
  __init__ example_q_pieces = Ok example_q /\
  exists b, __eq__ example_p example_q = Ok b.
Proof.
  assert (H1 : pieces_ok t example_pieces) by exact example_pieces_ok.
  assert (H2 : pieces_ok t example_q_pieces) by exact example_q_pieces_ok.
  assert (H3 : __init__ example_pieces = Ok example_p) by reflexivity.
  assert (H4 : __init__ example_q_pieces = Ok example_q) by reflexivity.
  repeat (split; [assumption|]).
  destruct (eq_decides H1 H2 H3 H4) as [b [Eb _]]. now exists b.
Defined.

Lemma eq_equivalence_witness :
  pieces_ok t example_pieces /\ pieces_ok t example_q_pieces /\
  pieces_ok t jump_pieces /\
  __init__ example_pieces = Ok example_p /\
  __init__ example_q_pieces = Ok example_q /\
  __init__ jump_pieces = Ok jump_p /\
  __eq__ example_p example_p = Ok true.
Proof.
  assert (H1 : pieces_ok t example_pieces) by exact example_pieces_ok.
  assert (H2 : pieces_ok t example_q_pieces) by exact example_q_pieces_ok.
  assert (H3 : pieces_ok t jump_pieces) by exact jump_pieces_ok.
  assert (H4 : __init__ example_pieces = Ok example_p) by reflexivity.
  assert (H5 : __init__ example_q_pieces = Ok example_q) by reflexivity.
  assert (H6 : __init__ jump_pieces = Ok jump_p) by reflexivity.
  repeat (split; [assumption|]).
  exact (proj1 (eq_equivalence H1 H2 H3 H4 H5 H6)).
Defined.

Lemma add_general_values_witness :
  pieces_ok t example_pieces /\ pieces_ok t jump_pieces /\
  __init__ example_pieces = Ok example_p /\ __init__ jump_pieces = Ok jump_p /\
  exists s, piecewise_add_general example_p jump_p true = Ok s /\
            snd (__call__ s [2] []) = Ok (merged true xadd (Some 12) (Some 2)) /\
            snd (__call__ s [4] []) = Ok (merged true xadd (Some (-3)) None).
Proof.
  assert (H1 : pieces_ok t example_pieces) by exact example_pieces_ok.
  assert (H2 : pieces_ok t jump_pieces) by exact jump_pieces_ok.
  assert (H3 : __init__ example_pieces = Ok example_p) by reflexivity.
  assert (H4 : __init__ jump_pieces = Ok jump_p) by reflexivity.
  repeat (split; [assumption|]).
  destruct (add_general_values true H1 H2 H3 H4) as [s [Es [_ Hv]]].
  exists s. split; [exact Es|]. split; apply Hv; reflexivity.
Defined.

Lemma mul_general_values_witness :
  pieces_ok t example_pieces /\ pieces_ok t jump_pieces /\
  __init__ example_pieces = Ok example_p /\ __init__ jump_pieces = Ok jump_p /\
  exists m, piecewise_mul_general example_p jump_p false = Ok m /\
            snd (__call__ m [2] []) = Ok (merged false xmul (Some 12) (Some 2)) /\
            snd (__call__ m [4] []) = Ok (merged false xmul (Some (-3)) None).
Proof.
  assert (H1 : pieces_ok t example_pieces) by exact example_pieces_ok.
  assert (H2 : pieces_ok t jump_pieces) by exact jump_pieces_ok.
  assert (H3 : __init__ example_pieces = Ok example_p) by reflexivity.
  assert (H4 : __init__ jump_pieces = Ok jump_p) by reflexivity.
  repeat (split; [assumption|]).
  destruct (mul_general_values false H1 H2 H3 H4) as [m [Em [_ Hv]]].
  exists m. split; [exact Em|]. split; apply Hv; reflexivity.
Defined.

Lemma which_pair_correct_witness :
  pieces_ok t example_pieces /\ __init__ example_pieces = Ok example_p /\
  which_pair example_p 4 =
    ([], Ok (Some ([closed 0 1; closed 4 5], poly t [1; -1]))) /\
  which_pair example_p 10 = ([X0NotInDomain], Ok None).
Proof.
  assert (H1 : pieces_ok t example_pieces) by exact example_pieces_ok.
  assert (H2 : __init__ example_pieces = Ok example_p) by reflexivity.
  repeat (split; [assumption|]). split.
  - apply (proj1 (which_pair_correct 4 H1 H2)); [left; reflexivity|reflexivity].
  - apply (proj2 (which_pair_correct 10 H1 H2)). reflexivity.
Defined.

Lemma limits_away_witness :
  pieces_ok t wide_pieces /\ __init__ wide_pieces = Ok wide_p /\
  (forall D f iv, In (D, f) (__iter__ wide_p) -> In iv D ->
                  _lower iv <> 5 /\ _upper iv <> 5) /\
  limits wide_p 5 = ([], Ok (Some 5, Some 5, Some 5)).
Proof.
  assert (H1 : pieces_ok t wide_pieces) by exact wide_pieces_ok.
  assert (H2 : __init__ wide_pieces = Ok wide_p) by reflexivity.
  assert (H3 : forall D f iv, In (D, f) (__iter__ wide_p) -> In iv D ->
                 _lower iv <> 5 /\ _upper iv <> 5).
  { intros D f iv [E|[]] Hiv. injection E as <- <-.
    destruct Hiv as [<-|[]]. split; discriminate. }
  repeat (split; [assumption|]).
  apply (proj1 (limits_away H1 H2 H3)). reflexivity.
Defined.

Lemma limits_value_witness :
  pieces_ok t example_pieces /\ __init__ example_pieces = Ok example_p /\
  snd (__call__ example_p [1] []) = Ok (Some 0) /\
  exists out l r, limits example_p 1 = (out, Ok (Some 0, l, r)).
Proof.
  assert (H1 : pieces_ok t example_pieces) by exact example_pieces_ok.
  assert (H2 : __init__ example_pieces = Ok example_p) by reflexivity.
  assert (H3 : snd (__call__ example_p [1] []) = Ok (Some 0)) by reflexivity.
  repeat (split; [assumption|]).
  exact (limits_value 1 H1 H2 H3).
Defined.

Lemma sum_general_pair_witness :
  length (domain_list example_p) = length (func_list example_p) /\
  length (domain_list example_q) = length (func_list example_q) /\
  piecewise_sum_general [example_p; example_q] false =
  piecewise_add_general example_p example_q false.
Proof.
  assert (H1 : length (domain_list example_p) = length (func_list example_p))
    by reflexivity.
  assert (H2 : length (domain_list example_q) = length (func_list example_q))
    by reflexivity.
  repeat (split; [assumption|]).
  exact (sum_general_pair example_p example_q false H1 H2).
Defined.

Lemma sum_general_values_witness :
  Forall (fun A => exists pieces, pieces_ok t pieces /\ __init__ pieces = Ok A)
         [example_p; jump_p; example_q] /\
  exists s, piecewise_sum_general [example_p; jump_p; example_q] true = Ok s /\
            snd (__call__ s [2] []) =
              Ok (merged_all true xadd [Some 12; Some 2; Some (-127)]).
Proof.
  assert (H1 : Forall (fun A => exists pieces,
                         pieces_ok t pieces /\ __init__ pieces = Ok A)
                      [example_p; jump_p; example_q]).
  { repeat constructor.
    - exists example_pieces. split; [exact example_pieces_ok|reflexivity].
    - exists jump_pieces. split; [exact jump_pieces_ok|reflexivity].
    - exists example_q_pieces. split; [exact example_q_pieces_ok|reflexivity]. }
  split; [exact H1|].
  destruct (sum_general_values true H1) as [s [Es Hv]].
  exists s. split; [exact Es|]. apply Hv. repeat constructor.
Defined.


Lemma finest_partitions_yields_witness :
  Forall (fun D => normalized D = true)
         [[closed 0 1; closed 4 5]; [closed_open 1 2]] /\
  Forall (fun y => exists iv, fst y = [iv] /\ interval_ok iv = true /\
                   length (snd y) = 2%nat /\
                   Forall (fun c => c = 0 \/ c = 1) (snd y) /\
                   0 < zsum (snd y))
         (finest_partitions [[closed 0 1; closed 4 5]; [closed_open 1 2]]).
Proof.
  assert (H1 : Forall (fun D => normalized D = true)
                      [[closed 0 1; closed 4 5]; [closed_open 1 2]])
    by (repeat constructor).
  split; [exact H1|]. exact (finest_partitions_yields H1).
Defined.

Lemma polynomial_add_values_witness :
  Forall (fun A => exists pieces, pieces_ok t pieces /\ __init__ pieces = Ok A)
         [example_p; jump_p; example_q] /\
  exists s, PiecewisePolynomial_add [example_p; jump_p; example_q] (Some false)
              = Ok s /\
            snd (__call__ s [1] []) =
              Ok (merged_all false xadd [Some 0; Some 0; Some 1]) /\
            snd (__call__ s [2] []) =
              Ok (merged_all false xadd [Some 12; Some 2; Some (-127)]) /\
            snd (__call__ s [3] []) =
              Ok (merged_all false xadd [Some 72; None; Some (-2186)]).
Proof.
  assert (H1 : Forall (fun A => exists pieces,
                         pieces_ok t pieces /\ __init__ pieces = Ok A)
                      [example_p; jump_p; example_q]).
  { repeat constructor.
    - exists example_pieces. split; [exact example_pieces_ok|reflexivity].
    - exists jump_pieces. split; [exact jump_pieces_ok|reflexivity].
    - exists example_q_pieces. split; [exact example_q_pieces_ok|reflexivity]. }
  split; [exact H1|].
  destruct (polynomial_add_values false H1) as [s [Es Hv]].
  exists s. split; [exact Es|].
  repeat split; apply Hv; repeat constructor.
Defined.

Lemma polynomial_mul_values_witness :
  Forall (fun A => exists pieces, pieces_ok t pieces /\ __init__ pieces = Ok A)
         [example_p; jump_p; example_q] /\
  exists s, PiecewisePolynomial_mul [example_p; jump_p; example_q] (Some true)
              = Ok s /\
            snd (__call__ s [2] []) =
              Ok (merged_all true xmul [Some 12; Some 2; Some (-127)]) /\
            snd (__call__ s [3] []) =
              Ok (merged_all true xmul [Some 72; None; Some (-2186)]).
Proof.
  assert (H1 : Forall (fun A => exists pieces,
                         pieces_ok t pieces /\ __init__ pieces = Ok A)
                      [example_p; jump_p; example_q]).
  { repeat constructor.
    - exists example_pieces. split; [exact example_pieces_ok|reflexivity].
    - exists jump_pieces. split; [exact jump_pieces_ok|reflexivity].
    - exists example_q_pieces. split; [exact example_q_pieces_ok|reflexivity]. }
  split; [exact H1|].
  destruct (polynomial_mul_values true H1) as [s [Es Hv]].
  exists s. split; [exact Es|].
  repeat split; apply Hv; repeat constructor.
Defined.

Lemma polynomial_strict_witness :
  Forall (fun A => exists pieces, pieces_ok t pieces /\ __init__ pieces = Ok A)
         [example_p; example_q] /\
  (forall A B, In A [example_p; example_q] -> In B [example_p; example_q] ->
               support A = support B) /\
  PiecewisePolynomial_add [example_p; example_q] None =
    PiecewisePolynomial_add [example_p; example_q] (Some true) /\
  Forall (fun A => exists pieces, pieces_ok t pieces /\ __init__ pieces = Ok A)
         [example_p; jump_p] /\
  ~ (forall A B, In A [example_p; jump_p] -> In B [example_p; jump_p] ->
                 support A = support B) /\
  PiecewisePolynomial_mul [example_p; jump_p] None = Raise DomainMismatch.
Proof.
  assert (H1 : Forall (fun A => exists pieces,
                         pieces_ok t pieces /\ __init__ pieces = Ok A)
                      [example_p; example_q]).
  { repeat constructor.
    - exists example_pieces. split; [exact example_pieces_ok|reflexivity].
    - exists example_q_pieces. split; [exact example_q_pieces_ok|reflexivity]. }
  assert (H2 : forall A B, In A [example_p; example_q] ->
                           In B [example_p; example_q] ->
                           support A = support B).
  { intros A B [<-|[<-|[]]] [<-|[<-|[]]]; reflexivity. }
  assert (H3 : Forall (fun A => exists pieces,
                         pieces_ok t pieces /\ __init__ pieces = Ok A)
                      [example_p; jump_p]).
  { repeat constructor.
    - exists example_pieces. split; [exact example_pieces_ok|reflexivity].
    - exists jump_pieces. split; [exact jump_pieces_ok|reflexivity]. }
  assert (H4 : ~ (forall A B, In A [example_p; jump_p] ->
                              In B [example_p; jump_p] ->
                              support A = support B)).
  { intros Hs.
    specialize (Hs example_p jump_p (or_introl eq_refl)
                  (or_intror (or_introl eq_refl))).
    vm_compute in Hs. discriminate Hs. }
  repeat (split; [assumption|]).
  split.
  - exact (proj1 (proj1 (polynomial_strict H1) H2)).
  - split; [exact H3|]. split; [exact H4|].
    exact (proj2 (proj2 (polynomial_strict H3) H4)).
Defined.

Lemma polynomial_add_refines_witness :
  Forall (fun A => length (domain_list A) = length (func_list A))
         [example_p; jump_p; example_q] /\
  PiecewisePolynomial_add [example_p; jump_p; example_q] (Some false) =
  piecewise_sum_general [example_p; jump_p; example_q] false.
Proof.
  assert (H1 : Forall (fun A => length (domain_list A) = length (func_list A))
                      [example_p; jump_p; example_q])
    by (repeat constructor).
  split; [exact H1|]. exact (polynomial_add_refines false H1).
Defined.
